(** * emojiCrush: the board, the match detector and the game controller

    A shallow embedding of the simulation core of the game
    (js/board.js [GameBoard], Match.js [MatchDetector], Game.js
    [EmojiCrushGame]) and the properties its specification states.

    Conventions of the embedding:
    - JavaScript numbers that hold rows, columns, lengths, scores and
      move counts are integers here ([Z]); a position may be negative or
      too large, which is what [isValidPosition] tests.
    - A cell holds an emoji (a [string]) or [null] ([None]).
    - Arrays are lists, read with [!!] and written with [<[ _ := _ ]>];
      the writes of the operations modelled here are guarded by
      [isValidPosition], so on a well-formed board none is out of range.
      A read of a missing entry ([undefined]) is [None]; there is none on
      a well-formed board.
    - A [Set] of position keys [`${row}-${col}`] is a list of positions
      in insertion order; the key of a position determines it. *)

From Stdlib Require Import ZArith QArith Qround String List Bool Lia.
From stdpp Require Import base strings numbers sorting list.

Local Open Scope Z_scope.

(** ** Tiles and positions *)

Abbreviation Emoji := string.

(** A grid cell: [None] is JavaScript's [null]. *)
Abbreviation Cell := (option Emoji).

Inductive SpecialType := striped | bomb | rainbow.

#[global] Instance SpecialType_eq_dec : EqDecision SpecialType.
Proof. solve_decision. Defined.

Record Position := mkPos { row : Z; col : Z }.

#[global] Instance Pos_eq_dec : EqDecision Position.
Proof. solve_decision. Defined.

(** ** GameBoard (js/board.js) *)

Record GameBoard := mkBoard { size : Z; grid : list (list Cell) }.

Definition emojis : list Emoji :=
  ["🍎"; "🍌"; "🍇"; "🍓"; "🥑"; "🍕"; "🍩"; "⭐"; "🔥"; "💎"]%string.

(** The object [this.specialEmojis], as its entries in key order. *)
Definition specialEmojis : list (SpecialType * Emoji) :=
  [(striped, "⚡"%string); (bomb, "💥"%string); (rainbow, "🌈"%string)].

(** [this.specialEmojis[type]] *)
Definition specialEmoji (type : SpecialType) : Emoji :=
  match type with
  | striped => "⚡"
  | bomb => "💥"
  | rainbow => "🌈"
  end%string.

(** [this.grid[r][c]]; a missing entry reads as [None]. *)
Definition gridGet (g : list (list Cell)) (r c : Z) : Cell :=
  match g !! Z.to_nat r with
  | Some rw => default None (rw !! Z.to_nat c)
  | None => None
  end.

(** [this.grid[r][c] = v] *)
Definition gridSet (g : list (list Cell)) (r c : Z) (v : Cell) : list (list Cell) :=
  alter (fun rw => <[Z.to_nat c := v]> rw) (Z.to_nat r) g.

Definition isValidPosition (b : GameBoard) (r c : Z) : bool :=
  (r >=? 0) && (r <? size b) && (c >=? 0) && (c <? size b).

Definition getEmoji (b : GameBoard) (r c : Z) : Cell :=
  if (r <? 0) || (r >=? size b) || (c <? 0) || (c >=? size b)
  then None
  else gridGet (grid b) r c.

Definition setEmoji (b : GameBoard) (r c : Z) (emoji : Cell) : GameBoard :=
  if isValidPosition b r c
  then mkBoard (size b) (gridSet (grid b) r c emoji)
  else b.

(** [swapEmojis] returns its boolean together with the board it leaves. *)
Definition swapEmojis (b : GameBoard) (pos1 pos2 : Position) : bool * GameBoard :=
  if negb (isValidPosition b (row pos1) (col pos1))
     || negb (isValidPosition b (row pos2) (col pos2))
  then (false, b)
  else
    let temp := gridGet (grid b) (row pos1) (col pos1) in
    let g1 := gridSet (grid b) (row pos1) (col pos1)
                (gridGet (grid b) (row pos2) (col pos2)) in
    let g2 := gridSet g1 (row pos2) (col pos2) temp in
    (true, mkBoard (size b) g2).

Definition areAdjacent (pos1 pos2 : Position) : bool :=
  let rowDiff := Z.abs (row pos1 - row pos2) in
  let colDiff := Z.abs (col pos1 - col pos2) in
  ((rowDiff =? 1) && (colDiff =? 0)) || ((rowDiff =? 0) && (colDiff =? 1)).

(** [Object.values(this.specialEmojis).includes(emoji)] *)
Definition isSpecialEmoji (emoji : Cell) : bool :=
  existsb (fun e => bool_decide (emoji = Some e)) (map snd specialEmojis).

Definition getSpecialType (emoji : Cell) : option SpecialType :=
  fst <$> find (fun te => bool_decide (Some (snd te) = emoji)) specialEmojis.

Definition createSpecialEmoji (b : GameBoard) (r c : Z) (type : SpecialType) : GameBoard :=
  if isValidPosition b r c
  then mkBoard (size b) (gridSet (grid b) r c (Some (specialEmoji type)))
  else b.

(** A board as the constructor, [init] and [setState] leave it: [size]
    rows of [size] cells. *)
Definition validBoard (b : GameBoard) : bool :=
  (0 <=? size b)
  && bool_decide (length (grid b) = Z.to_nat (size b))
  && forallb (fun rw : list Cell => bool_decide (length rw = Z.to_nat (size b))) (grid b).

(** ** MatchDetector (Match.js) *)

(** The [type] of a linear match: ['horizontal'] or ['vertical']. *)
Inductive Orientation := horizontal | vertical.

#[global] Instance Orientation_eq_dec : EqDecision Orientation.
Proof. solve_decision. Defined.

(** A match object pushed by [findMatches].  The two scans of the source
    are the same code with rows and columns exchanged, so one record
    serves both: [m_line] is the field [row] of a horizontal match and
    [col] of a vertical one, [m_start] is [startCol] / [startRow] and
    [m_end] is [endCol] / [endRow]. *)
Record LinearMatch := mkLinear {
  m_type : Orientation;
  m_emoji : Emoji;
  m_positions : list Position;
  m_length : Z;
  m_line : Z;
  m_start : Z;
  m_end : Z
}.

#[global] Instance LinearMatch_eq_dec : EqDecision LinearMatch.
Proof. solve_decision. Defined.

(** The cell a scan of orientation [o] reads at index [i] of line [line]:
    in the horizontal scan the line is the row and the index the column,
    in the vertical scan the line is the column and the index the row. *)
Definition cellAt (b : GameBoard) (o : Orientation) (line i : Z) : Cell :=
  match o with
  | horizontal => getEmoji b line i
  | vertical => getEmoji b i line
  end.

Definition posAt (o : Orientation) (line i : Z) : Position :=
  match o with
  | horizontal => mkPos line i
  | vertical => mkPos i line
  end.

(** [!emoji]: [null] and the empty string are falsy. *)
Definition falsy (emoji : Cell) : bool :=
  match emoji with
  | None => true
  | Some e => bool_decide (e = EmptyString)
  end.

(** The [while] loop that counts consecutive matching emojis; it returns
    [(matchLength, currentCol)]. *)
Fixpoint countRun (fuel : nat) (b : GameBoard) (o : Orientation) (line : Z)
    (emoji : Emoji) (matchLength current : Z) : Z * Z :=
  match fuel with
  | O => (matchLength, current)
  | S fuel' =>
      if (current <? size b) && bool_decide (cellAt b o line current = Some emoji)
      then countRun fuel' b o line emoji (matchLength + 1) (current + 1)
      else (matchLength, current)
  end.

(** The [for] loop that pushes the positions of a run that are not yet
    in [visited]; it returns [(match.positions, visited)]. *)
Fixpoint collectPositions (n : nat) (o : Orientation) (line c : Z)
    (positions visited : list Position) : list Position * list Position :=
  match n with
  | O => (positions, visited)
  | S n' =>
      let p := posAt o line c in
      if bool_decide (p ∈ visited)
      then collectPositions n' o line (c + 1) positions visited
      else collectPositions n' o line (c + 1) (positions ++ [p]) (visited ++ [p])
  end.

(** The state the two scans thread: [(visited, matches)]. *)
Abbreviation ScanState := (list Position * list LinearMatch)%type.

(** The inner [for] loop of a scan, from index [i] of line [line]. *)
Fixpoint scanLine (fuel : nat) (b : GameBoard) (o : Orientation) (line i : Z)
    (st : ScanState) : ScanState :=
  match fuel with
  | O => st
  | S fuel' =>
      if i <? size b - 2 then
        let emoji := cellAt b o line i in
        match emoji with
        | Some e =>
            if falsy emoji || isSpecialEmoji emoji
            then scanLine fuel' b o line (i + 1) st
            else
              let '(matchLength, current) :=
                countRun (Z.to_nat (size b)) b o line e 1 (i + 1) in
              if matchLength >=? 3 then
                let '(positions, visited) :=
                  collectPositions (Z.to_nat matchLength) o line i [] (fst st) in
                let m := mkLinear o e positions matchLength line i (i + matchLength - 1) in
                let matches :=
                  if (0 <? Z.of_nat (length positions)) then snd st ++ [m] else snd st in
                scanLine fuel' b o line (current - 1 + 1) (visited, matches)
              else scanLine fuel' b o line (i + 1) st
        | None => scanLine fuel' b o line (i + 1) st
        end
      else st
  end.

(** The outer [for] loop of a scan: every line from [0] to [size - 1]. *)
Definition scanLines (b : GameBoard) (o : Orientation) (st : ScanState) : ScanState :=
  fold_left (fun st line => scanLine (Z.to_nat (size b)) b o line 0 st)
            (seqZ 0 (size b)) st.

(** [findMatches]: the horizontal scan, then the vertical scan, sharing
    [visited] and [matches].  The result is also stored in
    [this.lastMatches]. *)
Definition findMatches (b : GameBoard) : list LinearMatch :=
  snd (scanLines b vertical (scanLines b horizontal ([], []))).

Inductive ShapeType := L | T.

#[global] Instance ShapeType_eq_dec : EqDecision ShapeType.
Proof. solve_decision. Defined.

Record ShapedMatch := mkShaped {
  subType : ShapeType;
  s_emoji : Emoji;
  s_positions : list Position;
  intersection : Position;
  horizontalMatch : LinearMatch;
  verticalMatch : LinearMatch
}.

#[global] Instance ShapedMatch_eq_dec : EqDecision ShapedMatch.
Proof. solve_decision. Defined.

Definition getShapeType (hMatch vMatch : LinearMatch) : ShapeType :=
  let totalLength := m_length hMatch + m_length vMatch - 1 in
  if totalLength >=? 5 then T else L.

(** The "remove duplicates" loop: [(uniquePositions, posSet)] after the
    positions of [ps] have been processed. *)
Definition dedupStep (acc : list Position * list Position) (pos : Position) : list Position * list Position :=
  if bool_decide (pos ∈ snd acc)
  then acc
  else (fst acc ++ [pos], snd acc ++ [pos]).

Definition uniquePositions (ps : list Position) : list Position :=
  fst (fold_left dedupStep ps ([], [])).

(** The test of the [if] in [findShapedMatches]. *)
Definition intersects (hMatch vMatch : LinearMatch) : bool :=
  (m_line hMatch >=? m_start vMatch) && (m_line hMatch <=? m_end vMatch)
  && (m_line vMatch >=? m_start hMatch) && (m_line vMatch <=? m_end hMatch)
  && bool_decide (m_emoji hMatch = m_emoji vMatch).

Definition shapedOf (hMatch vMatch : LinearMatch) : ShapedMatch :=
  mkShaped (getShapeType hMatch vMatch) (m_emoji hMatch)
           (uniquePositions (m_positions hMatch ++ m_positions vMatch))
           (mkPos (m_line hMatch) (m_line vMatch))
           hMatch vMatch.

Definition findShapedMatches (lastMatches : list LinearMatch) : list ShapedMatch :=
  let horizontalMatches := filter (fun m => m_type m = horizontal) lastMatches in
  let verticalMatches := filter (fun m => m_type m = vertical) lastMatches in
  flat_map (fun hMatch =>
    flat_map (fun vMatch =>
      if intersects hMatch vMatch then [shapedOf hMatch vMatch] else [])
      verticalMatches)
    horizontalMatches.

(** An element of the array [[...matches, ...shapedMatches]]. *)
Inductive Match :=
  | Linear (m : LinearMatch)
  | Shaped (s : ShapedMatch).

Definition positionsOf (m : Match) : list Position :=
  match m with
  | Linear m => m_positions m
  | Shaped s => s_positions s
  end.

Definition allMatchesOf (b : GameBoard) : list Match :=
  let matches := findMatches b in
  let shapedMatches := findShapedMatches matches in
  map Linear matches ++ map Shaped shapedMatches.

Record SpecialEmoji := mkSpecial {
  sp_type : SpecialType;
  sp_position : Position;
  originalMatch : Match
}.

Definition getMiddlePosition (m : Match) : option Position :=
  if (length (positionsOf m) =? 0)%nat then None
  else positionsOf m !! (length (positionsOf m) / 2)%nat.

(** The body of the loop of [createSpecialEmojis]: the pair
    [(specialType, position)] chosen for one match. *)
Definition specialChoice (m : Match) : option SpecialType * option Position :=
  match m with
  | Shaped s => (Some bomb, Some (intersection s))
  | Linear l =>
      if m_length l =? 4 then (Some striped, getMiddlePosition m)
      else if m_length l >=? 5 then (Some rainbow, getMiddlePosition m)
      else (None, None)
  end.

Definition createSpecialEmojis (matches : list Match) : list SpecialEmoji :=
  flat_map (fun m =>
    match specialChoice m with
    | (Some specialType, Some position) => [mkSpecial specialType position m]
    | _ => []
    end) matches.

Record MatchDetector := mkDetector {
  lastMatches : list LinearMatch;
  comboMultiplier : Z;
  maxComboMultiplier : Z
}.

Record ScoreData := mkScore {
  baseScore : Z;
  specialBonus : Z;
  multiplier : Z;
  totalScore : Z
}.

Definition Math_floor (x : Q) : Z := Qfloor x.

(** [matchScore] after the [if] chain of [calculateScore]. *)
Definition matchScore (m : Match) : Z :=
  match m with
  | Shaped s => Z.of_nat (length (s_positions s)) * 25
  | Linear l =>
      if m_length l =? 3 then Z.of_nat (length (m_positions l)) * 10
      else if m_length l =? 4 then Z.of_nat (length (m_positions l)) * 20
      else if m_length l >=? 5 then Z.of_nat (length (m_positions l)) * 50
      else 0
  end.

Definition calculateScore (d : MatchDetector) (matches : list Match)
    (specials : list SpecialEmoji) : ScoreData :=
  let baseScore := fold_left (fun baseScore m => baseScore + matchScore m) matches 0 in
  let specialBonus := Z.of_nat (length specials) * 100 in
  let totalScore := (baseScore + specialBonus) * comboMultiplier d in
  mkScore baseScore specialBonus (comboMultiplier d) (Math_floor (inject_Z totalScore)).

Definition updateComboMultiplier (d : MatchDetector) (hasMatches : bool) : MatchDetector :=
  if hasMatches
  then mkDetector (lastMatches d)
                  (Z.min (comboMultiplier d + 1) (maxComboMultiplier d))
                  (maxComboMultiplier d)
  else mkDetector (lastMatches d) 1 (maxComboMultiplier d).

Definition resetComboMultiplier (d : MatchDetector) : MatchDetector :=
  mkDetector (lastMatches d) 1 (maxComboMultiplier d).

(** *** Special-tile activation

    [Math.random()] is read from a stream [rnd] of rationals in [[0, 1)];
    the counter [k] is the number of values drawn so far. *)

(** [arr[i]] for a number [i]: [undefined] ([None]) outside the array. *)
Definition arrayGet {X} (arr : list X) (i : Z) : option X :=
  if i <? 0 then None else arr !! Z.to_nat i.

(** Every position of the board whose cell is [emoji], rows first. *)
Definition positionsHolding (b : GameBoard) (emoji : Cell) : list Position :=
  flat_map (fun r =>
    flat_map (fun c =>
      if bool_decide (gridGet (grid b) r c = emoji) then [mkPos r c] else [])
      (seqZ 0 (size b)))
    (seqZ 0 (size b)).

Definition getSpecialEmojiEffect (b : GameBoard) (rnd : nat -> Q) (k : nat)
    (r c : Z) (type : SpecialType) : list Position * nat :=
  match type with
  | striped =>
      if Qlt_le_dec (rnd k) (1 # 2)
      then (map (fun c' => mkPos r c') (seqZ 0 (size b)), S k)
      else (map (fun r' => mkPos r' c) (seqZ 0 (size b)), S k)
  | bomb =>
      (flat_map (fun r' =>
         flat_map (fun c' =>
           if isValidPosition b r' c' then [mkPos r' c'] else [])
           (seqZ (c - 1) 3))
         (seqZ (r - 1) 3), k)
  | rainbow =>
      let availableEmojis :=
        filter (fun emoji : Emoji => positionsHolding b (Some emoji) <> []) emojis in
      if (0 <? Z.of_nat (length availableEmojis)) then
        let targetEmoji :=
          arrayGet availableEmojis
            (Math_floor (rnd k * inject_Z (Z.of_nat (length availableEmojis)))) in
        match targetEmoji with
        | Some t => (positionsHolding b (Some t), S k)
        | None => ([], S k)
        end
      else ([], k)
  end.

(** The loop of [processSpecialEmoji] over [affectedPositions], with the
    recursive call as [self]; it returns [chainReactions] and the random
    counter, or [None] when a recursive call does not return. *)
Fixpoint chainLoop (self : nat -> Z -> Z -> option (list Position * nat))
    (b : GameBoard) (r c : Z) (affected : list Position)
    (chainReactions : list Position) (k : nat) : option (list Position * nat) :=
  match affected with
  | [] => Some (chainReactions, k)
  | pos :: rest =>
      let targetEmoji := getEmoji b (row pos) (col pos) in
      if isSpecialEmoji targetEmoji
         && (negb (row pos =? r) || negb (col pos =? c))
      then
        match self k (row pos) (col pos) with
        | Some (chainPositions, k') =>
            chainLoop self b r c rest (chainReactions ++ chainPositions) k'
        | None => None
        end
      else chainLoop self b r c rest chainReactions k
  end.

(** [processSpecialEmoji(row, col)] with at most [fuel] nested calls:
    [None] when that depth is not enough for the call to return. *)
Fixpoint processSpecialEmoji (fuel : nat) (b : GameBoard) (rnd : nat -> Q)
    (k : nat) (r c : Z) : option (list Position * nat) :=
  match fuel with
  | O => None
  | S fuel' =>
      let emoji := getEmoji b r c in
      match getSpecialType emoji with
      | None => Some ([], k)
      | Some specialType =>
          let '(affectedPositions, k1) := getSpecialEmojiEffect b rnd k r c specialType in
          match chainLoop (fun k => processSpecialEmoji fuel' b rnd k) b r c
                  affectedPositions [] k1 with
          | Some (chainReactions, k2) => Some (affectedPositions ++ chainReactions, k2)
          | None => None
          end
      end
  end.

(** ** Possible moves (js/board.js) *)

(** [this.grid[row][c]] of the horizontal count, [this.grid[r][col]] of
    the vertical one. *)
Definition rawAt (b : GameBoard) (o : Orientation) (line i : Z) : Cell :=
  match o with
  | horizontal => gridGet (grid b) line i
  | vertical => gridGet (grid b) i line
  end.

(** The loops "check left" and "check up" of [wouldCreateMatch]. *)
Fixpoint countBack (fuel : nat) (b : GameBoard) (o : Orientation) (line : Z)
    (emoji : Cell) (i count : Z) : Z :=
  match fuel with
  | O => count
  | S fuel' =>
      if i >=? 0 then
        if bool_decide (rawAt b o line i = emoji)
        then countBack fuel' b o line emoji (i - 1) (count + 1)
        else count
      else count
  end.

(** The loops "check right" and "check down" of [wouldCreateMatch]. *)
Fixpoint countForth (fuel : nat) (b : GameBoard) (o : Orientation) (line : Z)
    (emoji : Cell) (i count : Z) : Z :=
  match fuel with
  | O => count
  | S fuel' =>
      if i <? size b then
        if bool_decide (rawAt b o line i = emoji)
        then countForth fuel' b o line emoji (i + 1) (count + 1)
        else count
      else count
  end.

Definition wouldCreateMatch (b : GameBoard) (r c : Z) (emoji : Cell) : bool :=
  let fuel := Z.to_nat (size b) in
  let horizontalCount :=
    countForth fuel b horizontal r emoji (c + 1)
      (countBack fuel b horizontal r emoji (c - 1) 1) in
  if horizontalCount >=? 3 then true
  else
    let verticalCount :=
      countForth fuel b vertical c emoji (r + 1)
        (countBack fuel b vertical c emoji (r - 1) 1) in
    verticalCount >=? 3.

Definition hasMatches (b : GameBoard) : bool :=
  existsb (fun r =>
    existsb (fun c => wouldCreateMatch b r c (gridGet (grid b) r c))
      (seqZ 0 (size b)))
    (seqZ 0 (size b)).

Abbreviation Move := (Position * Position)%type.

(** Swap, test, record, swap back: one of the two blocks of the loop body
    of [getPossibleMoves], on the pair [(moves, board)]. *)
Definition tryMove (acc : list Move * GameBoard) (pos1 pos2 : Position)
    : list Move * GameBoard :=
  let b1 := snd (swapEmojis (snd acc) pos1 pos2) in
  let moves := if hasMatches b1 then fst acc ++ [(pos1, pos2)] else fst acc in
  (moves, snd (swapEmojis b1 pos1 pos2)).

Definition movesAt (sz : Z) (r c : Z) (acc : list Move * GameBoard)
    : list Move * GameBoard :=
  let acc1 :=
    if c <? sz - 1 then tryMove acc (mkPos r c) (mkPos r (c + 1)) else acc in
  if r <? sz - 1 then tryMove acc1 (mkPos r c) (mkPos (r + 1) c) else acc1.

(** [getPossibleMoves] returns [moves]; the board it leaves comes with it. *)
Definition getPossibleMoves (b : GameBoard) : list Move * GameBoard :=
  fold_left (fun acc r =>
    fold_left (fun acc c => movesAt (size b) r c acc) (seqZ 0 (size b)) acc)
    (seqZ 0 (size b)) ([], b).

(** [MatchDetector.wouldCreateMatches]: the swap is accepted by the
    detector; the board is swapped back. *)
Definition wouldCreateMatches (b : GameBoard) (pos1 pos2 : Position) : bool * GameBoard :=
  let b1 := snd (swapEmojis b pos1 pos2) in
  let matches := findMatches b1 in
  let hasMatches := (0 <? Z.of_nat (length matches)) in
  (hasMatches, snd (swapEmojis b1 pos1 pos2)).

(** ** EmojiCrushGame (Game.js) *)

(** An entry of [this.moveHistory]. *)
Record MoveRecord := mkMove {
  boardState : list (list Cell);
  mv_pos1 : Position;
  mv_pos2 : Position;
  mv_score : Z;
  mv_moves : Z;
  mv_comboMultiplier : Z
}.

(** The fields of the game object that a swap and an undo read or write.
    [board] is the one board object that the game and its match detector
    share. *)
Record EmojiCrushGame := mkGame {
  score : Z;
  moves : Z;
  selectedTile : option Position;
  isProcessing : bool;
  moveHistory : list MoveRecord;
  board : GameBoard;
  matchDetector : MatchDetector
}.

(** [getState] and [setState] copy every row; a copy is the same value. *)
Definition getState (b : GameBoard) : list (list Cell) :=
  map (fun rw => rw) (grid b).

Definition setState (b : GameBoard) (state : list (list Cell)) : GameBoard :=
  mkBoard (size b) (map (fun rw => rw) state).

(** [Array.prototype.shift] and [pop], as the array they leave. *)
Definition shift {X} (arr : list X) : list X := tail arr.
Definition pop {X} (arr : list X) : list X := removelast arr.

Definition saveMove (g : EmojiCrushGame) (pos1 pos2 : Position) : EmojiCrushGame :=
  let boardState := getState (board g) in
  let pushed :=
    moveHistory g ++
      [mkMove boardState pos1 pos2 (score g) (moves g + 1)
              (comboMultiplier (matchDetector g))] in
  let kept := if (5 <? Z.of_nat (length pushed)) then shift pushed else pushed in
  mkGame (score g) (moves g) (selectedTile g) (isProcessing g) kept
         (board g) (matchDetector g).

Definition undoLastMove (g : EmojiCrushGame) : bool * EmojiCrushGame :=
  match last (moveHistory g) with
  | None => (false, g)
  | Some lastMove =>
      (true,
       mkGame (mv_score lastMove) (mv_moves lastMove) (selectedTile g)
              (isProcessing g) (pop (moveHistory g))
              (setState (board g) (boardState lastMove))
              (mkDetector (lastMatches (matchDetector g))
                          (mv_comboMultiplier lastMove)
                          (maxComboMultiplier (matchDetector g))))
  end.

Section AttemptSwap.

(** What follows an accepted swap is not part of this development: the
    cascade loop and the end-of-game check are taken as given. *)
Variable processCascadingMatches : EmojiCrushGame -> EmojiCrushGame.
Variable checkGameEnd : EmojiCrushGame -> EmojiCrushGame.

Definition attemptSwap (g : EmojiCrushGame) (pos1 pos2 : Position)
    : bool * EmojiCrushGame :=
  if moves g <=? 0 then (false, g)
  else
    let b1 := snd (swapEmojis (board g) pos1 pos2) in
    let matches := findMatches b1 in
    let d1 := mkDetector matches (comboMultiplier (matchDetector g))
                         (maxComboMultiplier (matchDetector g)) in
    let shapedMatches := findShapedMatches (lastMatches d1) in
    let allMatches := map Linear matches ++ map Shaped shapedMatches in
    if (length allMatches =? 0)%nat then
      (false,
       mkGame (score g) (moves g) (selectedTile g) (isProcessing g)
              (moveHistory g) (snd (swapEmojis b1 pos1 pos2)) d1)
    else
      let g1 := mkGame (score g) (moves g) (selectedTile g) (isProcessing g)
                       (moveHistory g) b1 d1 in
      let g2 := saveMove g1 pos1 pos2 in
      let g3 := mkGame (score g2) (moves g2 - 1) None true
                       (moveHistory g2) (board g2) (matchDetector g2) in
      let g4 := processCascadingMatches g3 in
      let g5 := mkGame (score g4) (moves g4) (selectedTile g4) false
                       (moveHistory g4) (board g4) (matchDetector g4) in
      (true, checkGameEnd g5).

End AttemptSwap.

(** ** Removal, gravity and refill (js/board.js) *)

Definition removeEmojis (b : GameBoard) (positions : list Position) : GameBoard :=
  fold_left (fun b pos =>
    if isValidPosition b (row pos) (col pos)
    then mkBoard (size b) (gridSet (grid b) (row pos) (col pos) None)
    else b) positions b.

(** An entry of the array [movements] that [applyGravity] returns. *)
Record Movement := mkMovement {
  mvt_from : Position;
  mvt_to : Position;
  mvt_emoji : Cell
}.

(** The body of the inner loop of [applyGravity] at row [r] of column
    [c], on the triple [(grid, movements, writePos)]. *)
Definition gravityCell (c : Z) (acc : list (list Cell) * list Movement * Z) (r : Z)
    : list (list Cell) * list Movement * Z :=
  let '(g, movements, writePos) := acc in
  match gridGet g r c with
  | None => acc
  | Some e =>
      if negb (r =? writePos)
      then (gridSet (gridSet g writePos c (Some e)) r c None,
            movements ++ [mkMovement (mkPos r c) (mkPos writePos c) (Some e)],
            writePos - 1)
      else (g, movements, writePos - 1)
  end.

(** One column: [writePos] starts at the bottom and the rows are visited
    from the bottom up. *)
Definition gravityColumn (sz : Z) (acc : list (list Cell) * list Movement) (c : Z)
    : list (list Cell) * list Movement :=
  fst (fold_left (gravityCell c) (reverse (seqZ 0 sz)) (fst acc, snd acc, sz - 1)).

(** [applyGravity] returns [movements]; the board it leaves comes with it. *)
Definition applyGravity (b : GameBoard) : list Movement * GameBoard :=
  let res := fold_left (gravityColumn (size b)) (seqZ 0 (size b)) (grid b, []) in
  (snd res, mkBoard (size b) (fst res)).

(** [this.emojis[Math.floor(Math.random() * this.emojis.length)]], with the
    random number at index [k] of the stream. *)
Definition randomEmoji (rnd : nat -> Q) (k : nat) : Cell :=
  arrayGet emojis (Math_floor (rnd k * inject_Z (Z.of_nat (length emojis)))).

(** An entry of the array [newEmojis] that [fillEmpty] returns. *)
Record NewEmoji := mkNew {
  ne_row : Z;
  ne_col : Z;
  ne_emoji : Cell
}.

(** The body of the inner loop of [fillEmpty] at row [r] of column [c], on
    the triple [(grid, newEmojis, k)]. *)
Definition fillCell (rnd : nat -> Q) (c : Z) (acc : list (list Cell) * list NewEmoji * nat)
    (r : Z) : list (list Cell) * list NewEmoji * nat :=
  let '(g, newEmojis, k) := acc in
  if bool_decide (gridGet g r c = None) then
    let newEmoji := randomEmoji rnd k in
    (gridSet g r c newEmoji, newEmojis ++ [mkNew r c newEmoji], S k)
  else acc.

(** [fillEmpty] returns [newEmojis]; the board it leaves and the random
    counter come with it.  The columns are the outer loop. *)
Definition fillEmpty (b : GameBoard) (rnd : nat -> Q) (k : nat)
    : list NewEmoji * GameBoard * nat :=
  let res :=
    fold_left (fun acc c => fold_left (fillCell rnd c) (seqZ 0 (size b)) acc)
              (seqZ 0 (size b)) (grid b, [], k) in
  (snd (fst res), mkBoard (size b) (fst (fst res)), snd res).

(** ** Setting up a board (js/board.js) *)

(** The [do ... while] loop of [getRandomEmoji] with [n] further rounds
    allowed: [attempts < 50] holds as long as [n] is not [0].  It returns
    the emoji and the random counter. *)
Fixpoint getRandomEmojiLoop (n : nat) (b : GameBoard) (rnd : nat -> Q) (k : nat)
    (r c : Z) : Cell * nat :=
  let emoji := randomEmoji rnd k in
  if (r <? 2) && (c <? 2) then (emoji, S k)
  else
    match n with
    | O => (emoji, S k)
    | S n' =>
        if wouldCreateMatch b r c emoji
        then getRandomEmojiLoop n' b rnd (S k) r c
        else (emoji, S k)
    end.

Definition getRandomEmoji (b : GameBoard) (rnd : nat -> Q) (k : nat) (r c : Z)
    : Cell * nat :=
  getRandomEmojiLoop 49 b rnd k r c.

(** The body of the loops of [removeInitialMatches] at one cell, on the
    triple [(board, k, hasMatches)]. *)
Definition repairCell (rnd : nat -> Q) (r : Z) (acc : GameBoard * nat * bool) (c : Z)
    : GameBoard * nat * bool :=
  let '(b, k, hasMatches) := acc in
  if wouldCreateMatch b r c (gridGet (grid b) r c) then
    let res := getRandomEmoji b rnd k r c in
    (mkBoard (size b) (gridSet (grid b) r c (fst res)), snd res, true)
  else acc.

(** One round of the [while] loop: [hasMatches = false], then every cell,
    rows first. *)
Definition repairPass (b : GameBoard) (rnd : nat -> Q) (k : nat) : GameBoard * nat * bool :=
  fold_left (fun acc r => fold_left (repairCell rnd r) (seqZ 0 (size b)) acc)
            (seqZ 0 (size b)) (b, k, false).

(** The [while (hasMatches && attempts < 100)] loop with [n] rounds left;
    it returns the board, the random counter and the last value of the
    local variable [hasMatches]. *)
Fixpoint removeInitialMatchesLoop (n : nat) (rnd : nat -> Q)
    (st : GameBoard * nat * bool) : GameBoard * nat * bool :=
  match n with
  | O => st
  | S n' =>
      let '(b, k, hasMatches) := st in
      if hasMatches
      then removeInitialMatchesLoop n' rnd (repairPass b rnd k)
      else st
  end.

Definition removeInitialMatches (b : GameBoard) (rnd : nat -> Q) (k : nat)
    : GameBoard * nat * bool :=
  removeInitialMatchesLoop 100 rnd (b, k, true).

(** [arr[i] = v] for [i] up to the length of the array: a write at the
    length appends. *)
Definition arraySet {X} (arr : list X) (i : nat) (v : X) : list X :=
  if (i <? length arr)%nat then <[i := v]> arr
  else if (i =? length arr)%nat then arr ++ [v]
  else arr.

(** The body of the inner loop of [init]: [this.grid[row][col] =
    this.getRandomEmoji(row, col)], on the pair [(board, k)]. *)
Definition initCell (rnd : nat -> Q) (r : Z) (acc : GameBoard * nat) (c : Z)
    : GameBoard * nat :=
  let res := getRandomEmoji (fst acc) rnd (snd acc) r c in
  (mkBoard (size (fst acc))
     (alter (fun rw => arraySet rw (Z.to_nat c) (fst res)) (Z.to_nat r) (grid (fst acc))),
   snd res).

(** The body of the outer loop of [init]: [this.grid[row] = []], then the
    cells of the row. *)
Definition initRow (rnd : nat -> Q) (acc : GameBoard * nat) (r : Z) : GameBoard * nat :=
  fold_left (initCell rnd r) (seqZ 0 (size (fst acc)))
    (mkBoard (size (fst acc)) (arraySet (grid (fst acc)) (Z.to_nat r) []), snd acc).

(** [new GameBoard(size)]: the constructor calls [init], which fills the
    grid and then calls [removeInitialMatches]. *)
Definition init (sz : Z) (rnd : nat -> Q) (k : nat) : GameBoard * nat * bool :=
  let res := fold_left (initRow rnd) (seqZ 0 sz) (mkBoard sz [], k) in
  removeInitialMatches (fst res) rnd (snd res).

(** *** Shuffling

    [Math.random()] is in [[0, 1)], so the index [j] that the shuffling
    loop draws is an index of the array; the model leaves the array alone
    for any other [j]. *)

(** [allEmojis] after the loops that collect the cells, rows first. *)
Definition collectEmojis (b : GameBoard) : list Cell :=
  flat_map (fun r => map (fun c => gridGet (grid b) r c) (seqZ 0 (size b)))
           (seqZ 0 (size b)).

(** [[arr[i], arr[j]] = [arr[j], arr[i]]].  The shuffling loop calls it
    with [j <= i < arr.length] when the random numbers lie in [[0, 1)];
    with an index outside the array the array is left as it is here. *)
Definition swapEntries {X} (arr : list X) (i j : nat) : list X :=
  match arr !! i, arr !! j with
  | Some x, Some y => <[j := x]> (<[i := y]> arr)
  | _, _ => arr
  end.

(** The body of the shuffling loop at index [i], on the pair
    [(allEmojis, k)]. *)
Definition shuffleStep (rnd : nat -> Q) (acc : list Cell * nat) (i : Z)
    : list Cell * nat :=
  let j := Math_floor (rnd (snd acc) * inject_Z (i + 1)) in
  (swapEntries (fst acc) (Z.to_nat i) (Z.to_nat j), S (snd acc)).

(** [this.grid[row][col] = allEmojis[index++]], on the pair
    [(grid, index)]. *)
Definition redistributeCell (allEmojis : list Cell) (r : Z)
    (acc : list (list Cell) * Z) (c : Z) : list (list Cell) * Z :=
  (gridSet (fst acc) r c (default None (arrayGet allEmojis (snd acc))), snd acc + 1).

(** [shuffle] up to the call of [removeInitialMatches]: the board with the
    shuffled cells written back, and the random counter. *)
Definition shuffleCells (b : GameBoard) (rnd : nat -> Q) (k : nat) : GameBoard * nat :=
  let allEmojis := collectEmojis b in
  let shuffled :=
    fold_left (shuffleStep rnd)
              (reverse (seqZ 1 (Z.of_nat (length allEmojis) - 1))) (allEmojis, k) in
  let redistributed :=
    fold_left (fun acc r => fold_left (redistributeCell (fst shuffled) r)
                                      (seqZ 0 (size b)) acc)
              (seqZ 0 (size b)) (grid b, 0) in
  (mkBoard (size b) (fst redistributed), snd shuffled).

Definition shuffle (b : GameBoard) (rnd : nat -> Q) (k : nat) : GameBoard * nat * bool :=
  removeInitialMatches (fst (shuffleCells b rnd k)) rnd (snd (shuffleCells b rnd k)).

(** ** More of the match detector (Match.js) *)

(** The two nested loops of [getAllMatchPositions] share one
    [positionSet]; the pair is [(allPositions, positionSet)]. *)
Definition getAllMatchPositions (matches : list Match) : list Position :=
  fst (fold_left (fun acc m => fold_left dedupStep (positionsOf m) acc)
                 matches ([], [])).

(** [match.emoji] *)
Definition emojiOf (m : Match) : Emoji :=
  match m with
  | Linear l => m_emoji l
  | Shaped s => s_emoji s
  end.

(** The inner loop of [validateMatches] leaves [isValid] true when every
    position of the match still holds its emoji. *)
Definition stillHolds (b : GameBoard) (m : Match) : bool :=
  forallb (fun pos => bool_decide (getEmoji b (row pos) (col pos) = Some (emojiOf m)))
          (positionsOf m).

Definition validateMatches (b : GameBoard) (matches : list Match) : list Match :=
  flat_map (fun m =>
    if stillHolds b m && (3 <=? Z.of_nat (length (positionsOf m)))
    then [m] else []) matches.

(** What [getMatchHint] returns: [{move, priority, reason}]. *)
Inductive Priority := high | normalPriority.

#[global] Instance Priority_eq_dec : EqDecision Priority.
Proof. solve_decision. Defined.

Record MatchHint := mkHint {
  h_move : Move;
  priority : Priority;
  h_reason : string
}.

(** The loop of [getMatchHint] over the possible moves that are left, on
    the board and [this.lastMatches]. *)
Fixpoint hintLoop (b : GameBoard) (last : list LinearMatch) (possibleMoves : list Move)
    : option Move * GameBoard * list LinearMatch :=
  match possibleMoves with
  | [] => (None, b, last)
  | move :: rest =>
      let b1 := snd (swapEmojis b (fst move) (snd move)) in
      let matches := findMatches b1 in
      let specialEmojis := createSpecialEmojis (map Linear matches) in
      let b2 := snd (swapEmojis b1 (fst move) (snd move)) in
      if 0 <? Z.of_nat (length specialEmojis) then (Some move, b2, matches)
      else hintLoop b2 matches rest
  end.

(** [getMatchHint] returns the hint or [null]; the board and the detector
    it leaves come with it. *)
Definition getMatchHint (b : GameBoard) (d : MatchDetector)
    : option MatchHint * GameBoard * MatchDetector :=
  let res := getPossibleMoves b in
  let possibleMoves := fst res in
  match possibleMoves with
  | [] => (None, snd res, d)
  | first :: _ =>
      let found := hintLoop (snd res) (lastMatches d) possibleMoves in
      let d' := mkDetector (snd found) (comboMultiplier d) (maxComboMultiplier d) in
      match fst (fst found) with
      | Some move =>
          (Some (mkHint move high "Creates special emoji"), snd (fst found), d')
      | None =>
          (Some (mkHint first normalPriority "Creates match"), snd (fst found), d')
      end
  end.

(** ** The cascade (Game.js) *)

(** The loop [for (const special of specialEmojis)] that writes the special
    tiles. *)
Definition placeSpecials (b : GameBoard) (specialEmojis : list SpecialEmoji) : GameBoard :=
  fold_left (fun b special =>
    createSpecialEmoji b (row (sp_position special)) (col (sp_position special))
                       (sp_type special)) specialEmojis b.

(** What the cascade loop threads: the board, the detector, the random
    counter and the two local counters. *)
Record Cascade := mkCascade {
  c_board : GameBoard;
  c_detector : MatchDetector;
  c_random : nat;
  cascadeCount : Z;
  c_totalScore : Z
}.

(** One round of the loop after the test [allMatches.length === 0] has
    failed; [d1] is the detector after [findMatches] has stored its
    result. *)
Definition cascadeRound (rnd : nat -> Q) (st : Cascade) (d1 : MatchDetector)
    (allMatches : list Match) : Cascade :=
  let d2 := updateComboMultiplier d1 true in
  let specialEmojis := createSpecialEmojis allMatches in
  let scoreData := calculateScore d2 allMatches specialEmojis in
  let allPositions := getAllMatchPositions allMatches in
  let b1 := removeEmojis (c_board st) allPositions in
  let b2 := placeSpecials b1 specialEmojis in
  let b3 := snd (applyGravity b2) in
  let filled := fillEmpty b3 rnd (c_random st) in
  mkCascade (snd (fst filled)) d2 (snd filled)
            (cascadeCount st + 1) (c_totalScore st + totalScore scoreData).

(** The [while (true)] loop with at most [fuel] rounds: [None] when that
    many rounds do not reach a board without matches. *)
Fixpoint cascadeLoop (fuel : nat) (rnd : nat -> Q) (st : Cascade) : option Cascade :=
  match fuel with
  | O => None
  | S fuel' =>
      let matches := findMatches (c_board st) in
      let d1 := mkDetector matches (comboMultiplier (c_detector st))
                           (maxComboMultiplier (c_detector st)) in
      let shapedMatches := findShapedMatches (lastMatches d1) in
      let allMatches := map Linear matches ++ map Shaped shapedMatches in
      if (length allMatches =? 0)%nat
      then Some (mkCascade (c_board st) d1 (c_random st)
                           (cascadeCount st) (c_totalScore st))
      else cascadeLoop fuel' rnd (cascadeRound rnd st d1 allMatches)
  end.

(** [processCascadingMatches] returns [{cascadeCount, totalScore}]; the
    game it leaves and the random counter come with it.  The statistics
    and the calls of the user interface are left out. *)
Definition processCascadingMatches (fuel : nat) (rnd : nat -> Q) (k : nat)
    (g : EmojiCrushGame) : option (EmojiCrushGame * nat * (Z * Z)) :=
  match cascadeLoop fuel rnd (mkCascade (board g) (matchDetector g) k 0 0) with
  | None => None
  | Some st =>
      Some (mkGame (score g + c_totalScore st) (moves g) (selectedTile g)
                   (isProcessing g) (moveHistory g) (c_board st)
                   (updateComboMultiplier (c_detector st) false),
            c_random st, (cascadeCount st, c_totalScore st))
  end.

(** ** Power-ups and the end of a level (Game.js) *)

Inductive GameState := menu | playing | paused | gameOver | levelComplete.

#[global] Instance GameState_eq_dec : EqDecision GameState.
Proof. solve_decision. Defined.

Inductive GameMode := normal | timed | endless.

#[global] Instance GameMode_eq_dec : EqDecision GameMode.
Proof. solve_decision. Defined.

(** The keys of [this.powerUps]. *)
Inductive PowerUp := hammer | shufflePowerUp | undoPowerUp.

#[global] Instance PowerUp_eq_dec : EqDecision PowerUp.
Proof. solve_decision. Defined.

Record PowerUps := mkPowerUps {
  pu_hammer : Z;
  pu_shuffle : Z;
  pu_undo : Z
}.

(** [this.powerUps[type]] *)
Definition powerUpCount (p : PowerUps) (type : PowerUp) : Z :=
  match type with
  | hammer => pu_hammer p
  | shufflePowerUp => pu_shuffle p
  | undoPowerUp => pu_undo p
  end.

(** [this.powerUps[type]--] *)
Definition powerUpSpend (p : PowerUps) (type : PowerUp) : PowerUps :=
  match type with
  | hammer => mkPowerUps (pu_hammer p - 1) (pu_shuffle p) (pu_undo p)
  | shufflePowerUp => mkPowerUps (pu_hammer p) (pu_shuffle p - 1) (pu_undo p)
  | undoPowerUp => mkPowerUps (pu_hammer p) (pu_shuffle p) (pu_undo p - 1)
  end.

(** The game object with the fields that the power-ups and the end of a
    level use besides those of [EmojiCrushGame]; [random] is the
    number of random numbers drawn so far.  The statistics, the timer
    handle and the storage of the high score are left out. *)
Record Session := mkSession {
  core : EmojiCrushGame;
  gameState : GameState;
  gameMode : GameMode;
  level : Z;
  goal : Z;
  timeLeft : Z;
  highScore : Z;
  powerUps : PowerUps;
  activePowerUp : option PowerUp;
  random : nat
}.

Definition withCore (s : Session) (g : EmojiCrushGame) : Session :=
  mkSession g (gameState s) (gameMode s) (level s) (goal s) (timeLeft s)
            (highScore s) (powerUps s) (activePowerUp s) (random s).

Definition withBoard (g : EmojiCrushGame) (b : GameBoard) : EmojiCrushGame :=
  mkGame (score g) (moves g) (selectedTile g) (isProcessing g) (moveHistory g)
         b (matchDetector g).

Definition usePowerUp (rnd : nat -> Q) (s : Session) (r c : Z) : bool * Session :=
  match activePowerUp s with
  | None => (false, s)
  | Some type =>
      if powerUpCount (powerUps s) type <=? 0 then (false, s)
      else
        let spent b k :=
          mkSession (withBoard (core s) b) (gameState s) (gameMode s) (level s)
                    (goal s) (timeLeft s) (highScore s)
                    (powerUpSpend (powerUps s) type) None k in
        match type with
        | hammer =>
            let b1 := setEmoji (board (core s)) r c None in
            let b2 := snd (applyGravity b1) in
            let filled := fillEmpty b2 rnd (random s) in
            (true, spent (snd (fst filled)) (snd filled))
        | shufflePowerUp =>
            let shuffled := shuffle (board (core s)) rnd (random s) in
            (true, spent (fst (fst shuffled)) (snd (fst shuffled)))
        | undoPowerUp =>
            let undone := undoLastMove (core s) in
            (fst undone, withCore s (snd undone))
        end
  end.

Definition hasValidMoves (s : Session) : bool * Session :=
  let res := getPossibleMoves (board (core s)) in
  (0 <? Z.of_nat (length (fst res)), withCore s (withBoard (core s) (snd res))).

(** [config.starThresholds] *)
Record StarThresholds := mkStars { one : Z; two : Z; three : Z }.

Definition calculateStars (score : Z) (thresholds : StarThresholds) : Z :=
  if score >=? three thresholds then 3
  else if score >=? two thresholds then 2
  else if score >=? one thresholds then 1
  else 0.

(** What [completeLevel] returns. *)
Record LevelResult := mkLevelResult {
  lr_level : Z;
  lr_score : Z;
  lr_bonus : Z;
  stars : Z;
  isHighScore : bool
}.

Definition withScore (s : Session) (state : GameState) (newScore newHigh : Z) : Session :=
  mkSession (mkGame newScore (moves (core s)) (selectedTile (core s))
                    (isProcessing (core s)) (moveHistory (core s))
                    (board (core s)) (matchDetector (core s)))
            state (gameMode s) (level s) (goal s) (timeLeft s) newHigh
            (powerUps s) (activePowerUp s) (random s).

(** What [endGame] returns: [{reason, finalScore, level, isHighScore}]. *)
Inductive EndReason := noMoves | timeUp.

Record GameResult := mkGameResult {
  reason : EndReason;
  finalScore : Z;
  gr_level : Z;
  gr_isHighScore : bool
}.

Definition endGame (s : Session) (why : EndReason) : GameResult * Session :=
  let newHigh := if highScore s <? score (core s) then score (core s) else highScore s in
  (mkGameResult why (score (core s)) (level s) (newHigh <? score (core s)),
   withScore s gameOver (score (core s)) newHigh).

(** The test [this.timeLeft <= 0 && this.gameMode === 'timed'] and what
    follows it. *)
Definition checkTimeUp (s : Session) : Session :=
  if (timeLeft s <=? 0) && bool_decide (gameMode s = timed)
  then snd (endGame s timeUp)
  else s.

Section LevelEnd.

(** The star thresholds of a level, [this.levelConfig[level - 1]
    .starThresholds]: the constructor computes them in floating point, so
    they are taken as given. *)
Variable starThresholds : Z -> StarThresholds.

Definition completeLevel (s : Session) : LevelResult * Session :=
  let moveBonus := moves (core s) * 50 in
  let timeBonus := timeLeft s * 10 in
  let totalBonus := moveBonus + timeBonus in
  let newScore := score (core s) + totalBonus in
  let stars := calculateStars newScore (starThresholds (level s)) in
  let newHigh := if highScore s <? newScore then newScore else highScore s in
  (mkLevelResult (level s) newScore totalBonus stars (newHigh <? newScore),
   withScore s levelComplete newScore newHigh).

(** [hasValidMoves] is only called when no move is left; the board it
    leaves is the board that the rest of the function sees. *)
Definition checkGameEnd (s : Session) : Session :=
  if goal s <=? score (core s) then snd (completeLevel s)
  else if moves (core s) <=? 0 then
    let valid := hasValidMoves s in
    if negb (fst valid) then snd (endGame (snd valid) noMoves)
    else checkTimeUp (snd valid)
  else checkTimeUp s.

End LevelEnd.

(** * Specification vocabulary and example inputs

    The predicates in which the properties are stated, the invariant of
    the scans, and the concrete boards and games used as examples. *)

(** ** Well-formed grids *)

(** [n] rows of [n] cells. *)
Definition wfGrid (n : nat) (g : list (list Cell)) : Prop :=
  length g = n /\ Forall (fun rw : list Cell => length rw = n) g.

(** ** Example boards *)

Definition apple : Cell := Some "🍎"%string.

Definition banana : Cell := Some "🍌"%string.

Definition grape : Cell := Some "🍇"%string.

Definition berry : Cell := Some "🍓"%string.

Definition pizza : Cell := Some "🍕"%string.

Definition bombTile : Cell := Some (specialEmoji bomb).

(** The boards of the game are 8x8.  The examples are variations of one
    pattern without any run of three. *)

(** A vertical run of four pizzas in column 1 crossed by a horizontal run
    of three pizzas in row 2. *)
Definition crossBoard : GameBoard :=
  mkBoard 8
    [[apple; pizza;  grape; berry;  apple; banana; grape; berry];
     [grape; pizza;  apple; banana; grape; berry;  apple; banana];
     [pizza; pizza;  pizza; berry;  apple; banana; grape; berry];
     [grape; pizza;  apple; banana; grape; berry;  apple; banana];
     [apple; banana; grape; berry;  apple; banana; grape; berry];
     [grape; berry;  apple; banana; grape; berry;  apple; banana];
     [apple; banana; grape; berry;  apple; banana; grape; berry];
     [grape; berry;  apple; banana; grape; berry;  apple; banana]].

(** Swapping (0,2) and (1,2) lines up three bombs in row 0 and nothing
    else. *)
Definition threeBombsBoard : GameBoard :=
  mkBoard 8
    [[bombTile; bombTile; grape;    berry;  apple; banana; grape; berry];
     [grape;    berry;    bombTile; banana; grape; berry;  apple; banana];
     [apple;    banana;   grape;    berry;  apple; banana; grape; berry];
     [grape;    berry;    apple;    banana; grape; berry;  apple; banana];
     [apple;    banana;   grape;    berry;  apple; banana; grape; berry];
     [grape;    berry;    apple;    banana; grape; berry;  apple; banana];
     [apple;    banana;   grape;    berry;  apple; banana; grape; berry];
     [grape;    berry;    apple;    banana; grape; berry;  apple; banana]].

(** Two bombs side by side, at (3,3) and (3,4). *)
Definition twoBombsBoard : GameBoard :=
  mkBoard 8
    [[apple; banana; grape; berry;    apple;    banana; grape; berry];
     [grape; berry;  apple; banana;   grape;    berry;  apple; banana];
     [apple; banana; grape; berry;    apple;    banana; grape; berry];
     [grape; berry;  apple; bombTile; bombTile; berry;  apple; banana];
     [apple; banana; grape; berry;    apple;    banana; grape; berry];
     [grape; berry;  apple; banana;   grape;    berry;  apple; banana];
     [apple; banana; grape; berry;    apple;    banana; grape; berry];
     [grape; berry;  apple; banana;   grape;    berry;  apple; banana]].

(** A single bomb, at (3,3). *)
Definition oneBombBoard : GameBoard :=
  mkBoard 8
    [[apple; banana; grape; berry;    apple; banana; grape; berry];
     [grape; berry;  apple; banana;   grape; berry;  apple; banana];
     [apple; banana; grape; berry;    apple; banana; grape; berry];
     [grape; berry;  apple; bombTile; grape; berry;  apple; banana];
     [apple; banana; grape; berry;    apple; banana; grape; berry];
     [grape; berry;  apple; banana;   grape; berry;  apple; banana];
     [apple; banana; grape; berry;    apple; banana; grape; berry];
     [grape; berry;  apple; banana;   grape; berry;  apple; banana]].

(** The 3x3 areas of the bombs at (3,3) and at (3,4). *)
Definition bombArea33 : list Position :=
  [mkPos 2 2; mkPos 2 3; mkPos 2 4;
   mkPos 3 2; mkPos 3 3; mkPos 3 4;
   mkPos 4 2; mkPos 4 3; mkPos 4 4].

Definition bombArea34 : list Position :=
  [mkPos 2 3; mkPos 2 4; mkPos 2 5;
   mkPos 3 3; mkPos 3 4; mkPos 3 5;
   mkPos 4 3; mkPos 4 4; mkPos 4 5].

(** ** Scoring *)

(** The specification's table of points per tile, for the matches the
    finder reports (a linear match has length at least 3). *)
Definition pointsPerTile (m : Match) : Z :=
  match m with
  | Shaped _ => 25
  | Linear l =>
      if m_length l =? 3 then 10
      else if m_length l =? 4 then 20
      else 50
  end.

(** The specification's base score: the sum over the matches of
    [positions.length * pointsPerTile]. *)
Definition specBaseScore (matches : list Match) : Z :=
  foldr (fun m acc => Z.of_nat (length (positionsOf m)) * pointsPerTile m + acc)
        0 matches.

Definition linearAtLeast3 (m : Match) : Prop :=
  match m with
  | Linear l => 3 <= m_length l
  | Shaped _ => True
  end.

(** The specification's example: a vertical match of length 4 that
    creates one striped tile, at multiplier 2, scores
    [(4 * 20 + 100) * 2 = 360]. *)
Definition vertical4 : LinearMatch :=
  mkLinear vertical "🍎" [mkPos 0 1; mkPos 1 1; mkPos 2 1; mkPos 3 1] 4 1 0 3.

(** ** Matches of the example boards *)

(** The two linear matches of [crossBoard]: the vertical one has lost the
    cell it shares with the horizontal one. *)
Definition crossH : LinearMatch :=
  mkLinear horizontal "🍕" [mkPos 2 0; mkPos 2 1; mkPos 2 2] 3 2 0 2.

Definition crossV : LinearMatch :=
  mkLinear vertical "🍕" [mkPos 0 1; mkPos 1 1; mkPos 3 1] 4 1 0 3.

(** ** The move history *)

(** The entry that [saveMove] pushes when it is called on [g]: the grid,
    the score and the combo multiplier as [g] has them at that moment, and
    [moves g + 1].  [attemptSwap] calls [saveMove] after the swap, so the
    grid of the entry it saves is the swapped one. *)
Definition savedEntry (g : EmojiCrushGame) (pos1 pos2 : Position) : MoveRecord :=
  mkMove (grid (board g)) pos1 pos2 (score g) (moves g + 1)
         (comboMultiplier (matchDetector g)).

(** The game states that the code can reach, as far as the move history
    goes: the constructor, [startNewGame] and [restartLevel] empty the
    history; [saveMove] and [undoLastMove] are the only other writers of
    it; everything else leaves it alone. *)
Inductive HistoryReachable : EmojiCrushGame -> Prop :=
  | reach_reset g :
      moveHistory g = [] -> HistoryReachable g
  | reach_save g pos1 pos2 :
      HistoryReachable g -> HistoryReachable (saveMove g pos1 pos2)
  | reach_undo g :
      HistoryReachable g -> HistoryReachable (snd (undoLastMove g))
  | reach_other g g' :
      HistoryReachable g -> moveHistory g' = moveHistory g -> HistoryReachable g'.

(** A game at the start of a level, and the same game after five saves. *)
Definition freshGame : EmojiCrushGame :=
  mkGame 0 30 None false [] crossBoard (mkDetector [] 1 8).

Definition fullHistoryGame : EmojiCrushGame :=
  saveMove (saveMove (saveMove (saveMove (saveMove freshGame
    (mkPos 0 0) (mkPos 0 1)) (mkPos 1 0) (mkPos 1 1))
    (mkPos 2 0) (mkPos 2 1)) (mkPos 3 0) (mkPos 3 1))
    (mkPos 0 2) (mkPos 0 3).

Definition threeBombsGame : EmojiCrushGame :=
  mkGame 0 30 None false [] threeBombsBoard (mkDetector [] 1 8).

(** ** Runs and the invariant of the scans *)

(** The cells of a run: [len] cells of line [line] from index [start]. *)
Definition runPositions (o : Orientation) (line start len : Z) : list Position :=
  posAt o line <$> seqZ start len.

(** An emoji the scan may start a run with. *)
Definition matchable (e : Emoji) : Prop :=
  falsy (Some e) = false /\ isSpecialEmoji (Some e) = false.

(** The cells of the run a match describes. *)
Definition spanCells (m : LinearMatch) : list Position :=
  runPositions (m_type m) (m_line m) (m_start m) (m_length m).

(** A match that describes a maximal run of the board: at least three
    cells of one line, from [m_start] to [m_end], all holding the same
    matchable emoji, with a different cell (or the edge) on either side;
    its positions are cells of the run, in order, and there is at least
    one. *)
Record goodMatch (b : GameBoard) (m : LinearMatch) : Prop := mkGood {
  gm_length : 3 <= m_length m;
  gm_end : m_end m = m_start m + m_length m - 1;
  gm_matchable : matchable (m_emoji m);
  gm_cells : forall j, m_start m <= j <= m_end m ->
             cellAt b (m_type m) (m_line m) j = Some (m_emoji m);
  gm_left : cellAt b (m_type m) (m_line m) (m_start m - 1) <> Some (m_emoji m);
  gm_right : cellAt b (m_type m) (m_line m) (m_end m + 1) <> Some (m_emoji m);
  gm_positions : m_positions m `sublist_of` spanCells m;
  gm_nonempty : m_positions m <> []
}.

(** The order in which a scan reports two matches of one orientation. *)
Definition reportedBefore (m1 m2 : LinearMatch) : Prop :=
  m_type m1 = m_type m2 ->
  m_line m1 < m_line m2 \/ (m_line m1 = m_line m2 /\ m_end m1 < m_start m2).

(** The positions of the horizontal matches of a list. *)
Definition hPositions (matches : list LinearMatch) : list Position :=
  mjoin (m_positions <$> filter (fun m => m_type m = horizontal) matches).

(** The invariant of the scan of orientation [o], at index [i] of line
    [line]. *)
Record ScanInv (b : GameBoard) (o : Orientation) (line i : Z) (st : ScanState)
    : Prop := mkInv {
  inv_good : forall m, m ∈ snd st -> goodMatch b m;
  inv_visited : fst st = mjoin (m_positions <$> snd st);
  inv_nodup : NoDup (fst st);
  inv_frontier : forall m, m ∈ snd st -> m_type m = o ->
                 m_line m < line \/ (m_line m = line /\ m_end m < i);
  inv_sorted : StronglySorted reportedBefore (snd st);
  inv_pass : o = horizontal -> forall m, m ∈ snd st -> m_type m = horizontal;
  inv_full : forall m, m ∈ snd st -> m_type m = horizontal ->
             m_positions m = spanCells m;
  inv_vert : forall m, m ∈ snd st -> m_type m = vertical ->
             m_positions m
             = filter (fun p => p ∉ hPositions (snd st)) (spanCells m)
}.

(** At index [i] no run of three or more begins in the middle of a run. *)
Definition leftOK (b : GameBoard) (o : Orientation) (line i : Z) : Prop :=
  forall e, cellAt b o line (i - 1) = Some e -> cellAt b o line i = Some e ->
            ~ matchable e \/ cellAt b o line (i + 1) <> Some e.

(** What holds of the list [findMatches] returns. *)
Record MatchesOK (b : GameBoard) (matches : list LinearMatch) : Prop := mkOK {
  ok_good : forall m, m ∈ matches -> goodMatch b m;
  ok_nodup : NoDup (mjoin (m_positions <$> matches));
  ok_sorted : StronglySorted reportedBefore matches;
  ok_full : forall m, m ∈ matches -> m_type m = horizontal ->
            m_positions m = spanCells m;
  ok_vert : forall m, m ∈ matches -> m_type m = vertical ->
            m_positions m = filter (fun p => p ∉ hPositions matches) (spanCells m)
}.

(** The cell of index [floor(length / 2)] of the run of a match. *)
Definition runMiddle (m : LinearMatch) : Position :=
  posAt (m_type m) (m_line m) (m_start m + m_length m / 2).

(** ** Possible moves *)

(** The swaps [getPossibleMoves] tries, in the order it tries them: for
    every cell, rows first, the swap with the right neighbour and then the
    swap with the neighbour below. *)
Definition candidatesAt (sz r c : Z) : list Move :=
  (if c <? sz - 1 then [(mkPos r c, mkPos r (c + 1))] else [])
  ++ (if r <? sz - 1 then [(mkPos r c, mkPos (r + 1) c)] else []).

Definition candidateMoves (sz : Z) : list Move :=
  flat_map (fun r => flat_map (fun c => candidatesAt sz r c) (seqZ 0 sz)) (seqZ 0 sz).

(** The test [getPossibleMoves] applies to a swap. *)
Definition boardMatchAfter (b : GameBoard) (mv : Move) : Prop :=
  hasMatches (snd (swapEmojis b (fst mv) (snd mv))) = true.

#[global] Instance boardMatchAfter_dec (b : GameBoard) (mv : Move) :
  Decision (boardMatchAfter b mv).
Proof. unfold boardMatchAfter. apply _. Defined.

(** Every cell of the board holds an emoji that is neither empty nor
    special. *)
Definition plainBoard (b : GameBoard) : bool :=
  forallb (fun r =>
    forallb (fun c =>
      negb (falsy (gridGet (grid b) r c))
      && negb (isSpecialEmoji (gridGet (grid b) r c)))
      (seqZ 0 (size b)))
    (seqZ 0 (size b)).

(** Three equal cells in a row: indices [i], [i + 1], [i + 2] of a line. *)
Definition window (b : GameBoard) (o : Orientation) (line i : Z) (emoji : Cell) : Prop :=
  0 <= line < size b /\ 0 <= i /\ i + 2 < size b
  /\ rawAt b o line i = emoji
  /\ rawAt b o line (i + 1) = emoji
  /\ rawAt b o line (i + 2) = emoji.

(** The test the match detector applies to a swap. *)
Definition detectorMatchAfter (b : GameBoard) (mv : Move) : Prop :=
  findMatches (snd (swapEmojis b (fst mv) (snd mv))) <> [].

#[global] Instance detectorMatchAfter_dec (b : GameBoard) (mv : Move) :
  Decision (detectorMatchAfter b mv).
Proof. unfold detectorMatchAfter. apply _. Defined.

(** ** Lines of three *)

(** The position lies in three cells in a row, of a row or of a column,
    that hold the same emoji, neither empty nor special. *)
Definition inLineOfThree (b : GameBoard) (p : Position) : Prop :=
  exists o line w e,
    matchable e
    /\ cellAt b o line w = Some e
    /\ cellAt b o line (w + 1) = Some e
    /\ cellAt b o line (w + 2) = Some e
    /\ exists j, w <= j <= w + 2 /\ p = posAt o line j.

(** ** Columns and settled columns *)

(** Column [c] of a grid of [n] rows, from the top. *)
Definition column (n : nat) (g : list (list Cell)) (c : Z) : list Cell :=
  (fun r => gridGet g r c) <$> seqZ 0 (Z.of_nat n).

(** The cells of a column that hold something, from the top. *)
Definition tiles (cells : list Cell) : list Cell :=
  filter (fun x : Cell => x <> None) cells.

(** A column after its tiles have fallen: the empty cells on top, the
    tiles below them in their order. *)
Definition settled (cells : list Cell) : list Cell :=
  replicate (length cells - length (tiles cells)) None ++ tiles cells.

(** The column while gravity is at work on it: the rows above [i] are as
    they were, the tiles of the rows from [i] down have fallen. *)
Definition fallenFrom (i : nat) (cells : list Cell) : list Cell :=
  take i cells
  ++ replicate (length cells - i - length (tiles (drop i cells))) None
  ++ tiles (drop i cells).

(** A movement of a tile of board [b] down its column. *)
Definition fallOf (b : GameBoard) (m : Movement) : Prop :=
  col (mvt_to m) = col (mvt_from m)
  /\ 0 <= col (mvt_from m) < size b
  /\ 0 <= row (mvt_from m) /\ row (mvt_from m) < row (mvt_to m) < size b
  /\ mvt_emoji m <> None
  /\ mvt_emoji m = getEmoji b (row (mvt_from m)) (col (mvt_from m)).

(** A stream of random numbers as [Math.random] gives them: in [[0, 1)]. *)
Definition unitStream (rnd : nat -> Q) : Prop :=
  forall k, (0 <= rnd k)%Q /\ (rnd k < 1)%Q.

(** ** Example inputs for the refill and the cascade *)

(** A stream of random numbers that walks through the ten emojis. *)
Definition cycleStream (k : nat) : Q := ((Z.of_nat k * 3 + 1) mod 10) # 10.

(** [crossBoard] after the cells of its two runs have been removed. *)
Definition holedBoard : GameBoard :=
  removeEmojis crossBoard
    [mkPos 2 0; mkPos 2 1; mkPos 2 2; mkPos 0 1; mkPos 1 1; mkPos 3 1].
(** ** The cascade as a step of [attemptSwap] *)

(** The game that [processCascadingMatches] leaves when it is run with the
    random stream [rnd] from counter [k] and returns within [fuel] rounds
    (the game is left alone when it does not). *)
Definition cascadeWith (fuel : nat) (rnd : nat -> Q) (k : nat)
    (g : EmojiCrushGame) : EmojiCrushGame :=
  match processCascadingMatches fuel rnd k g with
  | Some (g', _, _) => g'
  | None => g
  end.

(** ** Hints *)

(** The swap lines up a run of four or more tiles. *)
Definition makesRunOfFour (b : GameBoard) (mv : Move) : Prop :=
  exists l, l ∈ findMatches (snd (swapEmojis b (fst mv) (snd mv))) /\ 4 <= m_length l.

(** ** The end of a level *)

(** The clock of a timed game has run out. *)
Definition timedOut (s : Session) : Prop :=
  timeLeft s <= 0 /\ gameMode s = timed.

(** ** Example sessions *)

(** A session of level 1 on game [g], with charges of every power-up. *)
Definition sessionOf (g : EmojiCrushGame) (active : option PowerUp) : Session :=
  mkSession g playing normal 1 1000 0 0 (mkPowerUps 3 2 1) active 0.

(** [freshGame] with no move left. *)
Definition outOfMovesGame : EmojiCrushGame :=
  mkGame 0 0 None false [] crossBoard (mkDetector [] 1 8).
(** ** Example inputs for the undo of a move and for the chain reaction *)

(** A board without a match on which the swap of (0,2) and (1,2) lines up
    three apples in row 0, and a game at the start of a level on it. *)
Definition readyBoard : GameBoard :=
  mkBoard 8
    [[apple; apple;  grape; berry;  apple; banana; grape; berry];
     [grape; berry;  apple; banana; grape; berry;  apple; banana];
     [apple; banana; grape; berry;  apple; banana; grape; berry];
     [grape; berry;  apple; banana; grape; berry;  apple; banana];
     [apple; banana; grape; berry;  apple; banana; grape; berry];
     [grape; berry;  apple; banana; grape; berry;  apple; banana];
     [apple; banana; grape; berry;  apple; banana; grape; berry];
     [grape; berry;  apple; banana; grape; berry;  apple; banana]].

Definition readyGame : EmojiCrushGame :=
  mkGame 0 30 None false [] readyBoard (mkDetector [] 1 8).

Definition rainbowTile : Cell := Some (specialEmoji rainbow).

(** A bomb at (3,3) with a rainbow tile beside it, at (3,4). *)
Definition bombRainbowBoard : GameBoard :=
  mkBoard 8
    [[apple; banana; grape; berry;    apple;       banana; grape; berry];
     [grape; berry;  apple; banana;   grape;       berry;  apple; banana];
     [apple; banana; grape; berry;    apple;       banana; grape; berry];
     [grape; berry;  apple; bombTile; rainbowTile; berry;  apple; banana];
     [apple; banana; grape; berry;    apple;       banana; grape; berry];
     [grape; berry;  apple; banana;   grape;       berry;  apple; banana];
     [apple; banana; grape; berry;    apple;       banana; grape; berry];
     [grape; berry;  apple; banana;   grape;       berry;  apple; banana]].

(** Bombs above every other tile: a rank that decreases along the chain
    reactions of a board whose bombs reach no other bomb. *)
Definition bombsFirst (b : GameBoard) (p : Position) : nat :=
  if bool_decide (getEmoji b (row p) (col p) = bombTile) then 1%nat else 0%nat.

(** * Properties *)

(** ** Grids: reading and writing *)

Lemma validBoard_spec (b : GameBoard) :
  validBoard b = true <->
  0 <= size b /\ wfGrid (Z.to_nat (size b)) (grid b).
Proof.
  unfold validBoard, wfGrid.
  rewrite !andb_true_iff, Z.leb_le, bool_decide_eq_true, forallb_forall.
  rewrite Forall_forall.
  split.
  - intros [[H0 Hl] Hr]. repeat split; try assumption.
    intros rw Hin. apply list_elem_of_In, Hr in Hin.
    now apply bool_decide_eq_true in Hin.
  - intros [H0 [Hl Hr]]. repeat split; try assumption.
    intros rw Hin. apply bool_decide_eq_true, Hr. now apply list_elem_of_In.
Qed.

Lemma gridSet_wf (n : nat) (g : list (list Cell)) (r c : Z) (v : Cell) :
  wfGrid n g -> wfGrid n (gridSet g r c v).
Proof.
  intros [Hl Hr]. unfold gridSet. split.
  - now rewrite length_alter.
  - apply Forall_lookup. intros i rw Hi.
    rewrite list_lookup_alter in Hi.
    rewrite Forall_lookup in Hr.
    destruct (decide (Z.to_nat r = i)) as [->|Hne].
    + destruct (g !! i) as [rw0|] eqn:E; simpl in Hi; [|discriminate].
      injection Hi as <-. rewrite length_insert. eauto.
    + eauto.
Qed.

Lemma gridGet_gridSet (n : nat) (g : list (list Cell)) (r c r' c' : Z) (v : Cell) :
  wfGrid n g ->
  0 <= r < Z.of_nat n -> 0 <= c < Z.of_nat n -> 0 <= r' -> 0 <= c' ->
  gridGet (gridSet g r c v) r' c' =
  if decide (r' = r /\ c' = c) then v else gridGet g r' c'.
Proof.
  intros [Hl Hr] Hrn Hcn Hr' Hc'. unfold gridGet, gridSet.
  rewrite list_lookup_alter.
  destruct (decide (Z.to_nat r = Z.to_nat r')) as [E|E].
  - assert (r' = r) as -> by lia.
    destruct (lookup_lt_is_Some_2 g (Z.to_nat r)) as [rw Hrw]; [lia|].
    rewrite Hrw. simpl.
    assert (length rw = n) as Hlen
      by (rewrite Forall_lookup in Hr; eauto).
    rewrite list_lookup_insert.
    repeat case_decide; try reflexivity; exfalso.
    + apply H0. split; lia.
    + destruct H0 as [_ ->]. apply H. split; lia.
  - rewrite decide_False; [reflexivity|].
    intros [-> _]. now apply E.
Qed.

Lemma grid_ext (n : nat) (g1 g2 : list (list Cell)) :
  wfGrid n g1 -> wfGrid n g2 ->
  (forall r c, 0 <= r < Z.of_nat n -> 0 <= c < Z.of_nat n ->
               gridGet g1 r c = gridGet g2 r c) ->
  g1 = g2.
Proof.
  intros [Hl1 Hr1] [Hl2 Hr2] Hget.
  rewrite Forall_lookup in Hr1. rewrite Forall_lookup in Hr2.
  apply list_eq. intros i.
  destruct (decide (i < n)%nat) as [Hi|Hi].
  - destruct (lookup_lt_is_Some_2 g1 i) as [rw1 E1]; [lia|].
    destruct (lookup_lt_is_Some_2 g2 i) as [rw2 E2]; [lia|].
    rewrite E1, E2. f_equal.
    apply list_eq. intros j.
    destruct (decide (j < n)%nat) as [Hj|Hj].
    + specialize (Hget (Z.of_nat i) (Z.of_nat j)).
      unfold gridGet in Hget. rewrite !Nat2Z.id, E1, E2 in Hget.
      destruct (lookup_lt_is_Some_2 rw1 j) as [x1 F1];
        [rewrite (Hr1 _ _ E1); lia|].
      destruct (lookup_lt_is_Some_2 rw2 j) as [x2 F2];
        [rewrite (Hr2 _ _ E2); lia|].
      rewrite F1, F2 in *. simpl in Hget. f_equal. apply Hget; lia.
    + rewrite (proj2 (lookup_ge_None rw1 j)) by (rewrite (Hr1 _ _ E1); lia).
      now rewrite (proj2 (lookup_ge_None rw2 j)) by (rewrite (Hr2 _ _ E2); lia).
  - rewrite (proj2 (lookup_ge_None g1 i)) by lia.
    now rewrite (proj2 (lookup_ge_None g2 i)) by lia.
Qed.

Lemma isValidPosition_spec (b : GameBoard) (r c : Z) :
  isValidPosition b r c = true <-> 0 <= r < size b /\ 0 <= c < size b.
Proof. unfold isValidPosition. lia. Qed.

Lemma getEmoji_valid (b : GameBoard) (r c : Z) :
  isValidPosition b r c = true -> getEmoji b r c = gridGet (grid b) r c.
Proof.
  intros H. apply isValidPosition_spec in H. unfold getEmoji.
  destruct (_ || _) eqn:E; [lia|reflexivity].
Qed.

Lemma getEmoji_invalid (b : GameBoard) (r c : Z) :
  isValidPosition b r c = false -> getEmoji b r c = None.
Proof.
  intros H. unfold getEmoji, isValidPosition in *.
  destruct (_ || _) eqn:E; [reflexivity|lia].
Qed.

(** ** Swapping two cells *)

Lemma swapEmojis_invalid (b : GameBoard) (pos1 pos2 : Position) :
  isValidPosition b (row pos1) (col pos1) = false \/
  isValidPosition b (row pos2) (col pos2) = false ->
  swapEmojis b pos1 pos2 = (false, b).
Proof.
  intros H. unfold swapEmojis.
  destruct H as [-> | ->]; simpl; [reflexivity|].
  now rewrite orb_true_r.
Qed.

Lemma swapEmojis_valid (b : GameBoard) (pos1 pos2 : Position) :
  isValidPosition b (row pos1) (col pos1) = true ->
  isValidPosition b (row pos2) (col pos2) = true ->
  swapEmojis b pos1 pos2 =
  (true,
   mkBoard (size b)
     (gridSet
        (gridSet (grid b) (row pos1) (col pos1)
           (gridGet (grid b) (row pos2) (col pos2)))
        (row pos2) (col pos2) (gridGet (grid b) (row pos1) (col pos1)))).
Proof. intros H1 H2. unfold swapEmojis. now rewrite H1, H2. Qed.

Lemma swapEmojis_size (b : GameBoard) (pos1 pos2 : Position) :
  size (snd (swapEmojis b pos1 pos2)) = size b.
Proof.
  unfold swapEmojis. now destruct (_ || _).
Qed.

Lemma swapEmojis_validBoard (b : GameBoard) (pos1 pos2 : Position) :
  validBoard b = true -> validBoard (snd (swapEmojis b pos1 pos2)) = true.
Proof.
  intros Hb. unfold swapEmojis. destruct (_ || _); [exact Hb|].
  apply validBoard_spec in Hb as [H0 Hwf].
  apply validBoard_spec. simpl. split; [assumption|].
  now do 2 apply gridSet_wf.
Qed.

(** The cells of the board after a swap of two valid positions. *)
Lemma swapEmojis_gridGet (b : GameBoard) (pos1 pos2 : Position) (r c : Z) :
  validBoard b = true ->
  isValidPosition b (row pos1) (col pos1) = true ->
  isValidPosition b (row pos2) (col pos2) = true ->
  0 <= r -> 0 <= c ->
  gridGet (grid (snd (swapEmojis b pos1 pos2))) r c =
  if decide (r = row pos2 /\ c = col pos2)
  then gridGet (grid b) (row pos1) (col pos1)
  else if decide (r = row pos1 /\ c = col pos1)
       then gridGet (grid b) (row pos2) (col pos2)
       else gridGet (grid b) r c.
Proof.
  intros Hb H1 H2 Hr Hc. rewrite swapEmojis_valid by assumption. simpl.
  apply validBoard_spec in Hb as [H0 Hwf].
  apply isValidPosition_spec in H1, H2.
  rewrite (gridGet_gridSet (Z.to_nat (size b)))
    by (lia || now apply gridSet_wf).
  destruct (decide (r = row pos2 /\ c = col pos2)); [reflexivity|].
  now rewrite (gridGet_gridSet (Z.to_nat (size b))) by (lia || assumption).
Qed.

Lemma swapEmojis_involutive (b : GameBoard) (pos1 pos2 : Position) :
  validBoard b = true ->
  snd (swapEmojis (snd (swapEmojis b pos1 pos2)) pos1 pos2) = b.
Proof.
  intros Hb.
  destruct (isValidPosition b (row pos1) (col pos1)) eqn:V1; cycle 1.
  { rewrite (swapEmojis_invalid b) by auto. simpl.
    now rewrite swapEmojis_invalid by auto. }
  destruct (isValidPosition b (row pos2) (col pos2)) eqn:V2; cycle 1.
  { rewrite (swapEmojis_invalid b) by auto. simpl.
    now rewrite swapEmojis_invalid by auto. }
  pose proof (swapEmojis_validBoard b pos1 pos2 Hb) as Hb'.
  pose proof (swapEmojis_size b pos1 pos2) as Hs.
  set (b' := snd (swapEmojis b pos1 pos2)) in *.
  assert (V1' : isValidPosition b' (row pos1) (col pos1) = true)
    by (unfold isValidPosition in *; now rewrite Hs).
  assert (V2' : isValidPosition b' (row pos2) (col pos2) = true)
    by (unfold isValidPosition in *; now rewrite Hs).
  pose proof (swapEmojis_validBoard b' pos1 pos2 Hb') as Hb''.
  pose proof (swapEmojis_size b' pos1 pos2) as Hs'.
  destruct (snd (swapEmojis b' pos1 pos2)) as [sz'' g''] eqn:E.
  destruct b as [sz g]. simpl in Hs'. rewrite Hs in Hs'. simpl in Hs'. subst sz''.
  f_equal.
  apply validBoard_spec in Hb'' as [_ Hwf'']. apply validBoard_spec in Hb as Hb0.
  destruct Hb0 as [H0 Hwf]. simpl in *.
  apply (grid_ext (Z.to_nat sz)); try assumption.
  intros r c Hr Hc.
  change g'' with (grid (mkBoard sz g'')). rewrite <- E.
  rewrite swapEmojis_gridGet by (assumption || lia).
  apply isValidPosition_spec in V1, V2. simpl in V1, V2.
  subst b'.
  rewrite !swapEmojis_gridGet by (assumption || (apply isValidPosition_spec; simpl; lia) || lia).
  simpl.
  repeat case_decide; try reflexivity;
    repeat match goal with H : _ /\ _ |- _ => destruct H end; subst;
    first [reflexivity | congruence | exfalso; intuition congruence].
Qed.

(** C6.  On a well-formed board: a swap with a position out of bounds
    returns [false] and leaves the board as it is; a swap of two positions
    in bounds returns [true], and afterwards each of the two cells holds the
    value the other held while every other cell is unchanged; and swapping
    the same pair twice gives back the original board. *)
Theorem swapEmojis_exchanges_and_is_involutive
    (b : GameBoard) (pos1 pos2 : Position) :
  validBoard b = true ->
  (isValidPosition b (row pos1) (col pos1) = false \/
   isValidPosition b (row pos2) (col pos2) = false ->
   swapEmojis b pos1 pos2 = (false, b))
  /\ (isValidPosition b (row pos1) (col pos1) = true ->
      isValidPosition b (row pos2) (col pos2) = true ->
      let b' := snd (swapEmojis b pos1 pos2) in
      fst (swapEmojis b pos1 pos2) = true
      /\ size b' = size b
      /\ getEmoji b' (row pos1) (col pos1) = getEmoji b (row pos2) (col pos2)
      /\ getEmoji b' (row pos2) (col pos2) = getEmoji b (row pos1) (col pos1)
      /\ forall r c, mkPos r c <> pos1 -> mkPos r c <> pos2 ->
                     getEmoji b' r c = getEmoji b r c)
  /\ snd (swapEmojis (snd (swapEmojis b pos1 pos2)) pos1 pos2) = b.
Proof.
  intros Hb. split; [apply swapEmojis_invalid|]. split; [|now apply swapEmojis_involutive].
  intros V1 V2 b'.
  assert (Hs : size b' = size b) by apply swapEmojis_size.
  assert (Hget : forall r c, getEmoji b' r c =
            if isValidPosition b r c
            then gridGet (grid b') r c else None).
  { intros r c. destruct (isValidPosition b r c) eqn:V.
    - apply getEmoji_valid. unfold isValidPosition in *. now rewrite Hs.
    - apply getEmoji_invalid. unfold isValidPosition in *. now rewrite Hs. }
  split; [now rewrite swapEmojis_valid|]. split; [exact Hs|].
  pose proof V1 as V1'. pose proof V2 as V2'.
  apply isValidPosition_spec in V1', V2'.
  repeat split.
  - rewrite Hget, V1. subst b'. rewrite swapEmojis_gridGet by (assumption || lia).
    rewrite (getEmoji_valid b _ _ V2).
    repeat case_decide; try reflexivity.
    + destruct H as [-> ->]. reflexivity.
    + exfalso. apply H0. now split.
  - rewrite Hget, V2. subst b'. rewrite swapEmojis_gridGet by (assumption || lia).
    rewrite (getEmoji_valid b _ _ V1).
    rewrite decide_True by now split. reflexivity.
  - intros r c N1 N2. rewrite Hget.
    destruct (isValidPosition b r c) eqn:V.
    + rewrite (getEmoji_valid b _ _ V). apply isValidPosition_spec in V.
      subst b'. rewrite swapEmojis_gridGet by (assumption || lia).
      destruct pos1 as [r1 c1], pos2 as [r2 c2]. simpl in *.
      repeat case_decide; try reflexivity; exfalso.
      * destruct H as [-> ->]. now apply N2.
      * destruct H0 as [-> ->]. now apply N1.
    + symmetry. now apply getEmoji_invalid.
Qed.

Lemma swapEmojis_exchanges_and_is_involutive_witness :
  validBoard crossBoard = true /\
  snd (swapEmojis (snd (swapEmojis crossBoard (mkPos 0 0) (mkPos 0 1)))
         (mkPos 0 0) (mkPos 0 1)) = crossBoard.
Proof.
  split; [reflexivity|].
  apply (swapEmojis_exchanges_and_is_involutive crossBoard (mkPos 0 0) (mkPos 0 1)).
  reflexivity.
Defined.

(** ** Scoring *)

Lemma matchScore_pointsPerTile (m : Match) :
  linearAtLeast3 m ->
  matchScore m = Z.of_nat (length (positionsOf m)) * pointsPerTile m.
Proof.
  destruct m as [l|s]; simpl; [|reflexivity].
  intros H.
  destruct (m_length l =? 3) eqn:E3; [reflexivity|].
  destruct (m_length l =? 4) eqn:E4; [reflexivity|].
  destruct (m_length l >=? 5) eqn:E5; [reflexivity|lia].
Qed.

Lemma fold_left_matchScore (matches : list Match) (acc : Z) :
  Forall linearAtLeast3 matches ->
  fold_left (fun baseScore m => baseScore + matchScore m) matches acc =
  acc + specBaseScore matches.
Proof.
  intros H. revert acc.
  induction H as [|m ms Hm _ IH]; intros acc; simpl.
  - lia.
  - rewrite IH, matchScore_pointsPerTile by assumption. lia.
Qed.

(** C1.  For every list of matches (linear ones of length at least 3, as
    the finder reports them) and every list of specials created in the
    step, the score of the step is [(base + specialBonus) *
    comboMultiplier], floored, where [base] is the sum over the matches of
    [positions.length] times 25 (shaped), 10 (length 3), 20 (length 4) or
    50 (length 5 or more), and [specialBonus] is 100 per special. *)
Theorem calculateScore_formula
    (d : MatchDetector) (matches : list Match) (specials : list SpecialEmoji) :
  Forall linearAtLeast3 matches ->
  baseScore (calculateScore d matches specials) = specBaseScore matches
  /\ specialBonus (calculateScore d matches specials)
     = 100 * Z.of_nat (length specials)
  /\ multiplier (calculateScore d matches specials) = comboMultiplier d
  /\ totalScore (calculateScore d matches specials)
     = Qfloor (inject_Z ((specBaseScore matches
                          + 100 * Z.of_nat (length specials))
                         * comboMultiplier d))
  /\ totalScore (calculateScore d matches specials)
     = (specBaseScore matches + 100 * Z.of_nat (length specials))
       * comboMultiplier d.
Proof.
  intros H. unfold calculateScore, Math_floor.
  cbn [baseScore specialBonus multiplier totalScore].
  rewrite fold_left_matchScore by assumption.
  rewrite !Qfloor_Z.
  repeat split; lia.
Qed.

Lemma calculateScore_formula_witness :
  Forall linearAtLeast3 [Linear vertical4]
  /\ createSpecialEmojis [Linear vertical4]
     = [mkSpecial striped (mkPos 2 1) (Linear vertical4)]
  /\ totalScore (calculateScore (mkDetector [] 2 8) [Linear vertical4]
                   (createSpecialEmojis [Linear vertical4])) = 360.
Proof.
  assert (H : Forall linearAtLeast3 [Linear vertical4])
    by (repeat constructor; simpl; lia).
  split; [exact H|]. split; [reflexivity|].
  destruct (calculateScore_formula (mkDetector [] 2 8) [Linear vertical4]
              (createSpecialEmojis [Linear vertical4]) H)
    as (_ & _ & _ & _ & ->).
  reflexivity.
Defined.

(** ** Shaped matches *)

Lemma dedupStep_fold (ps : list Position) (acc : list Position * list Position) :
  fst acc = snd acc -> NoDup (fst acc) ->
  fst (fold_left dedupStep ps acc) = snd (fold_left dedupStep ps acc)
  /\ NoDup (fst (fold_left dedupStep ps acc))
  /\ forall p, p ∈ fst (fold_left dedupStep ps acc) <-> p ∈ fst acc \/ p ∈ ps.
Proof.
  revert acc. induction ps as [|q ps IH]; intros [u v] Heq Hnd; simpl in *.
  - repeat split; try assumption.
    + now left.
    + intros [H|H]; [assumption|]. now apply elem_of_nil in H.
  - subst v.
    change (dedupStep (u, u) q)
      with (if bool_decide (q ∈ u) then (u, u) else (u ++ [q], u ++ [q])).
    destruct (bool_decide (q ∈ u)) eqn:E.
    + apply bool_decide_eq_true in E.
      destruct (IH (u, u) eq_refl Hnd) as (H1 & H2 & H3).
      repeat split; try assumption.
      * intros Hp. apply H3 in Hp as [Hp|Hp]; [now left|]. right. now right.
      * intros [Hp|Hp]; apply H3; [now left|].
        apply elem_of_cons in Hp as [->|Hp]; [now left|now right].
    + apply bool_decide_eq_false in E.
      assert (Hnd' : NoDup (u ++ [q])).
      { apply NoDup_app. repeat split; try assumption.
        - intros x Hx Hq. apply list_elem_of_singleton in Hq as ->. now apply E.
        - apply NoDup_singleton. }
      destruct (IH (u ++ [q], u ++ [q]) eq_refl Hnd') as (H1 & H2 & H3).
      repeat split; try assumption.
      * intros Hp. apply H3 in Hp as [Hp|Hp]; simpl in Hp.
        -- apply elem_of_app in Hp as [Hp|Hp]; [now left|].
           apply list_elem_of_singleton in Hp as ->. right. now left.
        -- right. now right.
      * intros [Hp|Hp]; apply H3; simpl.
        -- left. apply elem_of_app. now left.
        -- apply elem_of_cons in Hp as [->|Hp]; [|now right].
           left. apply elem_of_app. right. now apply list_elem_of_singleton.
Qed.

Lemma uniquePositions_NoDup (ps : list Position) : NoDup (uniquePositions ps).
Proof.
  unfold uniquePositions.
  apply (dedupStep_fold ps ([], [])); [reflexivity|apply NoDup_nil_2].
Qed.

Lemma elem_of_uniquePositions (ps : list Position) (p : Position) :
  p ∈ uniquePositions ps <-> p ∈ ps.
Proof.
  unfold uniquePositions.
  destruct (dedupStep_fold ps ([], []) eq_refl (NoDup_nil_2 (A:=Position)))
    as (_ & _ & H).
  rewrite H. simpl. split; [|now right].
  intros [Hp|Hp]; [|assumption]. now apply elem_of_nil in Hp.
Qed.

Lemma intersects_spec (hMatch vMatch : LinearMatch) :
  intersects hMatch vMatch = true <->
  m_start vMatch <= m_line hMatch <= m_end vMatch
  /\ m_start hMatch <= m_line vMatch <= m_end hMatch
  /\ m_emoji hMatch = m_emoji vMatch.
Proof.
  unfold intersects.
  rewrite !andb_true_iff, bool_decide_eq_true, !Z.geb_le, !Z.leb_le. tauto.
Qed.

(** The shaped matches are exactly the [shapedOf] of the intersecting
    pairs of a horizontal and a vertical match of [lastMatches]. *)
Lemma elem_of_findShapedMatches (lastMatches : list LinearMatch) (s : ShapedMatch) :
  s ∈ findShapedMatches lastMatches <->
  exists hMatch vMatch,
    hMatch ∈ lastMatches /\ vMatch ∈ lastMatches
    /\ m_type hMatch = horizontal /\ m_type vMatch = vertical
    /\ intersects hMatch vMatch = true
    /\ s = shapedOf hMatch vMatch.
Proof.
  unfold findShapedMatches. rewrite list_elem_of_In, in_flat_map. split.
  - intros (h & Hh & Hs). apply in_flat_map in Hs as (v & Hv & Hs).
    apply list_elem_of_In, list_elem_of_filter in Hh as [Hth Hh].
    apply list_elem_of_In, list_elem_of_filter in Hv as [Htv Hv].
    destruct (intersects h v) eqn:E; [|destruct Hs].
    destruct Hs as [<-|[]]. exists h, v. auto 10.
  - intros (h & v & Hh & Hv & Hth & Htv & E & ->).
    exists h. split.
    + apply list_elem_of_In, list_elem_of_filter. auto.
    + apply in_flat_map. exists v. split.
      * apply list_elem_of_In, list_elem_of_filter. auto.
      * rewrite E. now left.
Qed.

(** C4.  For every horizontal match [hMatch] and vertical match [vMatch]
    among the linear matches, with the same emoji, such that the row of
    [hMatch] lies within the rows of [vMatch] and the column of [vMatch]
    within the columns of [hMatch], [findShapedMatches] emits a shaped
    match made of the two, whose positions are the union without
    duplicates of the positions of both, whose intersection is (row of
    [hMatch], column of [vMatch]), and whose subtype is T when
    [length hMatch + length vMatch - 1 >= 5] and L otherwise. *)
Theorem findShapedMatches_emits_intersections
    (lastMatches : list LinearMatch) (hMatch vMatch : LinearMatch) :
  hMatch ∈ lastMatches -> vMatch ∈ lastMatches ->
  m_type hMatch = horizontal -> m_type vMatch = vertical ->
  m_emoji hMatch = m_emoji vMatch ->
  m_start vMatch <= m_line hMatch <= m_end vMatch ->
  m_start hMatch <= m_line vMatch <= m_end hMatch ->
  exists s,
    s ∈ findShapedMatches lastMatches
    /\ horizontalMatch s = hMatch /\ verticalMatch s = vMatch
    /\ s_emoji s = m_emoji hMatch
    /\ intersection s = mkPos (m_line hMatch) (m_line vMatch)
    /\ NoDup (s_positions s)
    /\ (forall p, p ∈ s_positions s <->
                  p ∈ m_positions hMatch \/ p ∈ m_positions vMatch)
    /\ (m_length hMatch + m_length vMatch - 1 >= 5 -> subType s = T)
    /\ (m_length hMatch + m_length vMatch - 1 < 5 -> subType s = L).
Proof.
  intros Hh Hv Hth Htv He Hrow Hcol.
  exists (shapedOf hMatch vMatch). split.
  - apply elem_of_findShapedMatches. exists hMatch, vMatch.
    repeat split; try assumption. now apply intersects_spec.
  - simpl. repeat split; try reflexivity.
    + apply uniquePositions_NoDup.
    + intros Hp. now apply elem_of_uniquePositions, elem_of_app in Hp.
    + intros Hp. now apply elem_of_uniquePositions, elem_of_app.
    + intros Hlen. unfold getShapeType.
      destruct (_ >=? 5) eqn:E; [reflexivity|lia].
    + intros Hlen. unfold getShapeType.
      destruct (_ >=? 5) eqn:E; [lia|reflexivity].
Qed.

Lemma findMatches_crossBoard : findMatches crossBoard = [crossH; crossV].
Proof. vm_compute. reflexivity. Qed.

Lemma findShapedMatches_emits_intersections_witness :
  exists s,
    s ∈ findShapedMatches (findMatches crossBoard)
    /\ horizontalMatch s = crossH /\ verticalMatch s = crossV
    /\ intersection s = mkPos 2 1
    /\ subType s = T.
Proof.
  destruct (findShapedMatches_emits_intersections
              (findMatches crossBoard) crossH crossV)
    as (s & Hs & Hh & Hv & _ & Hi & _ & _ & HT & _).
  - rewrite findMatches_crossBoard. apply elem_of_cons. now left.
  - rewrite findMatches_crossBoard. apply elem_of_cons. right.
    apply elem_of_cons. now left.
  - reflexivity.
  - reflexivity.
  - reflexivity.
  - simpl. lia.
  - simpl. lia.
  - exists s. repeat split; try assumption. apply HT. simpl. lia.
Defined.

(** ** Undo and the move history *)

Lemma getState_grid (b : GameBoard) : getState b = grid b.
Proof. unfold getState. apply map_id. Qed.

Lemma saveMove_history (g : EmojiCrushGame) (pos1 pos2 : Position) :
  moveHistory (saveMove g pos1 pos2) =
  if (5 <? Z.of_nat (length (moveHistory g ++ [savedEntry g pos1 pos2])))
  then tail (moveHistory g ++ [savedEntry g pos1 pos2])
  else moveHistory g ++ [savedEntry g pos1 pos2].
Proof.
  unfold saveMove, savedEntry, shift. simpl. now rewrite getState_grid.
Qed.

Lemma saveMove_history_short (g : EmojiCrushGame) (pos1 pos2 : Position) :
  (length (moveHistory g) < 5)%nat ->
  moveHistory (saveMove g pos1 pos2) = moveHistory g ++ [savedEntry g pos1 pos2].
Proof.
  intros H. rewrite saveMove_history.
  destruct (5 <? _) eqn:E; [|reflexivity].
  rewrite length_app in E. simpl in E. apply Z.ltb_lt in E. exfalso. lia.
Qed.

Lemma saveMove_history_full (g : EmojiCrushGame) (pos1 pos2 : Position) :
  (length (moveHistory g) = 5)%nat ->
  moveHistory (saveMove g pos1 pos2) =
  tail (moveHistory g) ++ [savedEntry g pos1 pos2].
Proof.
  intros H. rewrite saveMove_history.
  destruct (5 <? _) eqn:E.
  - destruct (moveHistory g); [discriminate|reflexivity].
  - rewrite length_app in E. simpl in E. apply Z.ltb_ge in E. exfalso. lia.
Qed.

Lemma undoLastMove_snoc (g : EmojiCrushGame) (h : list MoveRecord) (e : MoveRecord) :
  moveHistory g = h ++ [e] ->
  undoLastMove g =
  (true,
   mkGame (mv_score e) (mv_moves e) (selectedTile g) (isProcessing g) h
          (mkBoard (size (board g)) (boardState e))
          (mkDetector (lastMatches (matchDetector g)) (mv_comboMultiplier e)
                      (maxComboMultiplier (matchDetector g)))).
Proof.
  intros H. unfold undoLastMove, pop, setState.
  rewrite H, last_snoc, removelast_last, map_id. reflexivity.
Qed.

Lemma undoLastMove_history_length (g : EmojiCrushGame) :
  (length (moveHistory (snd (undoLastMove g))) <= length (moveHistory g))%nat.
Proof.
  destruct (moveHistory g) as [|e0 h0] eqn:E using rev_ind.
  - unfold undoLastMove. rewrite E. simpl. rewrite E. simpl. lia.
  - rewrite (undoLastMove_snoc g _ _ E). simpl. rewrite length_app. simpl. lia.
Qed.

Lemma saveMove_history_length (g : EmojiCrushGame) (pos1 pos2 : Position) :
  (length (moveHistory g) <= 5)%nat ->
  (length (moveHistory (saveMove g pos1 pos2)) <= 5)%nat.
Proof.
  intros Hcap.
  destruct (decide (length (moveHistory g) = 5)%nat) as [E|E].
  - rewrite saveMove_history_full by assumption.
    rewrite length_app. destruct (moveHistory g); simpl in *; lia.
  - rewrite saveMove_history_short by lia.
    rewrite length_app. simpl. lia.
Qed.

Lemma history_capped (g : EmojiCrushGame) :
  HistoryReachable g -> (length (moveHistory g) <= 5)%nat.
Proof.
  induction 1 as [g H|g pos1 pos2 _ IH|g _ IH|g g' _ IH H].
  - rewrite H. simpl. lia.
  - now apply saveMove_history_length.
  - pose proof (undoLastMove_history_length g). lia.
  - now rewrite H.
Qed.

Lemma saveMove_then_undo (g : EmojiCrushGame) (pos1 pos2 : Position) :
  exists h,
    moveHistory (saveMove g pos1 pos2) = h ++ [savedEntry g pos1 pos2].
Proof.
  rewrite saveMove_history. destruct (5 <? _) eqn:E.
  - destruct (moveHistory g) as [|e0 h0]; simpl; [discriminate|].
    now exists h0.
  - eexists. reflexivity.
Qed.

(** ** Rejected swaps *)

Lemma allMatches_nil (matches : list LinearMatch) :
  map Linear matches ++ map Shaped (findShapedMatches matches) = [] <->
  matches = [].
Proof.
  split.
  - intros H. apply app_eq_nil in H as [H _]. now destruct matches.
  - intros ->. reflexivity.
Qed.

(** C5.  On a well-formed board, for every pair of positions: when the
    move budget is zero (or less), or when the board after the tentative
    swap has no match at all, linear or shaped, [attemptSwap] returns
    [false] and the grid, the move budget, the score and the move history
    are what they were before the call. *)
Theorem attemptSwap_rejected_state_unchanged
    (processCascadingMatches checkGameEnd : EmojiCrushGame -> EmojiCrushGame)
    (g : EmojiCrushGame) (pos1 pos2 : Position) :
  validBoard (board g) = true ->
  moves g <= 0 \/ allMatchesOf (snd (swapEmojis (board g) pos1 pos2)) = [] ->
  let r := attemptSwap processCascadingMatches checkGameEnd g pos1 pos2 in
  fst r = false
  /\ board (snd r) = board g
  /\ moves (snd r) = moves g
  /\ score (snd r) = score g
  /\ moveHistory (snd r) = moveHistory g.
Proof.
  intros Hb H. unfold attemptSwap.
  destruct (moves g <=? 0) eqn:Em; [simpl; auto|].
  destruct H as [H|H]; [lia|].
  unfold allMatchesOf in H. simpl in H.
  cbn [lastMatches]. rewrite H. simpl.
  rewrite swapEmojis_involutive by assumption. auto.
Qed.

Lemma attemptSwap_rejected_state_unchanged_witness :
  validBoard (board threeBombsGame) = true
  /\ allMatchesOf (snd (swapEmojis (board threeBombsGame) (mkPos 0 2) (mkPos 1 2))) = []
  /\ fst (attemptSwap (fun g => g) (fun g => g) threeBombsGame (mkPos 0 2) (mkPos 1 2))
     = false
  /\ board (snd (attemptSwap (fun g => g) (fun g => g) threeBombsGame
                   (mkPos 0 2) (mkPos 1 2)))
     = threeBombsBoard.
Proof.
  assert (Hb : validBoard (board threeBombsGame) = true) by reflexivity.
  assert (Hm : allMatchesOf (snd (swapEmojis (board threeBombsGame)
                                     (mkPos 0 2) (mkPos 1 2))) = [])
    by (vm_compute; reflexivity).
  split; [exact Hb|]. split; [exact Hm|].
  destruct (attemptSwap_rejected_state_unchanged (fun g => g) (fun g => g)
              threeBombsGame (mkPos 0 2) (mkPos 1 2) Hb (or_intror Hm))
    as (H1 & H2 & _).
  split; [exact H1|exact H2].
Defined.

(** ** Chain reactions *)

Lemma processSpecialEmoji_S (fuel : nat) (b : GameBoard) (rnd : nat -> Q)
    (k : nat) (r c : Z) :
  processSpecialEmoji (S fuel) b rnd k r c =
  match getSpecialType (getEmoji b r c) with
  | None => Some ([], k)
  | Some specialType =>
      let '(affectedPositions, k1) := getSpecialEmojiEffect b rnd k r c specialType in
      match chainLoop (fun k => processSpecialEmoji fuel b rnd k) b r c
              affectedPositions [] k1 with
      | Some (chainReactions, k2) => Some (affectedPositions ++ chainReactions, k2)
      | None => None
      end
  end.
Proof. reflexivity. Qed.

(** What a returning loop has done: it kept what it had, and for every
    special tile of [affected] other than the origin a recursive call
    returned and its positions were added. *)
Lemma chainLoop_Some (self : nat -> Z -> Z -> option (list Position * nat))
    (b : GameBoard) (r c : Z) (affected : list Position) :
  forall (acc : list Position) (k : nat) (res : list Position) (k' : nat),
  chainLoop self b r c affected acc k = Some (res, k') ->
  (forall p, p ∈ acc -> p ∈ res)
  /\ forall pos, pos ∈ affected ->
       isSpecialEmoji (getEmoji b (row pos) (col pos)) = true ->
       pos <> mkPos r c ->
       exists kk chain kk',
         self kk (row pos) (col pos) = Some (chain, kk')
         /\ forall p, p ∈ chain -> p ∈ res.
Proof.
  induction affected as [|pos rest IH]; intros acc k res k' H; simpl in H.
  - injection H as <- <-. split; [auto|].
    intros pos Hpos. now apply elem_of_nil in Hpos.
  - destruct (isSpecialEmoji (getEmoji b (row pos) (col pos))
              && (negb (row pos =? r) || negb (col pos =? c))) eqn:Hc.
    + destruct (self k (row pos) (col pos)) as [[chain k1]|] eqn:Hs;
        [|discriminate].
      apply IH in H as [Hacc Hrest]. split.
      * intros p Hp. apply Hacc, elem_of_app. now left.
      * intros pos' Hin Hsp Hne.
        apply elem_of_cons in Hin as [->|Hin]; [|now apply Hrest].
        exists k, chain, k1. split; [assumption|].
        intros p Hp. apply Hacc, elem_of_app. now right.
    + apply IH in H as [Hacc Hrest]. split; [assumption|].
      intros pos' Hin Hsp Hne.
      apply elem_of_cons in Hin as [->|Hin]; [|now apply Hrest].
      exfalso. rewrite Hsp in Hc. simpl in Hc.
      apply orb_false_iff in Hc as [H1 H2].
      apply negb_false_iff, Z.eqb_eq in H1, H2.
      apply Hne. destruct pos. simpl in *. now subst.
Qed.

(** More depth never changes the result of a call that returned. *)
Lemma chainLoop_mono (self self' : nat -> Z -> Z -> option (list Position * nat))
    (b : GameBoard) (r c : Z) (affected : list Position) :
  (forall k r c x, self k r c = Some x -> self' k r c = Some x) ->
  forall acc k x,
  chainLoop self b r c affected acc k = Some x ->
  chainLoop self' b r c affected acc k = Some x.
Proof.
  intros Hself. induction affected as [|pos rest IH]; intros acc k x H;
    simpl in *; [assumption|].
  destruct (_ && _); [|now apply IH].
  destruct (self k (row pos) (col pos)) as [[chain k1]|] eqn:Hs; [|discriminate].
  rewrite (Hself _ _ _ _ Hs). now apply IH.
Qed.

Lemma processSpecialEmoji_fuel_mono (b : GameBoard) (rnd : nat -> Q) (fuel : nat) :
  forall k r c x,
  processSpecialEmoji fuel b rnd k r c = Some x ->
  processSpecialEmoji (S fuel) b rnd k r c = Some x.
Proof.
  induction fuel as [|fuel IH]; intros k r c x H; [discriminate|].
  rewrite processSpecialEmoji_S in H. rewrite processSpecialEmoji_S.
  destruct (getSpecialType (getEmoji b r c)) as [t|]; [|assumption].
  destruct (getSpecialEmojiEffect b rnd k r c t) as [aff k1].
  destruct (chainLoop (fun k0 => processSpecialEmoji fuel b rnd k0) b r c aff [] k1)
    as [[chain k2]|] eqn:Hl; [|discriminate].
  now rewrite (chainLoop_mono _ (fun k0 => processSpecialEmoji (S fuel) b rnd k0)
                 b r c aff IH _ _ _ Hl).
Qed.

Lemma twoBombs_effect_left (rnd : nat -> Q) (k : nat) :
  getSpecialEmojiEffect twoBombsBoard rnd k 3 3 bomb = (bombArea33, k).
Proof. reflexivity. Qed.

Lemma twoBombs_effect_right (rnd : nat -> Q) (k : nat) :
  getSpecialEmojiEffect twoBombsBoard rnd k 3 4 bomb = (bombArea34, k).
Proof. reflexivity. Qed.

(** From the bomb at (3,3) the loop reaches the bomb at (3,4). *)
Lemma twoBombs_loop_left (self : nat -> Z -> Z -> option (list Position * nat)) (k : nat) :
  self k 3 4 = None ->
  chainLoop self twoBombsBoard 3 3 bombArea33 [] k = None.
Proof.
  intros H. unfold bombArea33.
  change (chainLoop self twoBombsBoard 3 3
            [mkPos 2 2; mkPos 2 3; mkPos 2 4;
             mkPos 3 2; mkPos 3 3; mkPos 3 4;
             mkPos 4 2; mkPos 4 3; mkPos 4 4] [] k)
    with (match self k 3 4 with
          | Some (chainPositions, k') =>
              chainLoop self twoBombsBoard 3 3 [mkPos 4 2; mkPos 4 3; mkPos 4 4]
                ([] ++ chainPositions) k'
          | None => None
          end).
  now rewrite H.
Qed.

(** From the bomb at (3,4) the loop reaches the bomb at (3,3). *)
Lemma twoBombs_loop_right (self : nat -> Z -> Z -> option (list Position * nat)) (k : nat) :
  self k 3 3 = None ->
  chainLoop self twoBombsBoard 3 4 bombArea34 [] k = None.
Proof.
  intros H. unfold bombArea34.
  change (chainLoop self twoBombsBoard 3 4
            [mkPos 2 3; mkPos 2 4; mkPos 2 5;
             mkPos 3 3; mkPos 3 4; mkPos 3 5;
             mkPos 4 3; mkPos 4 4; mkPos 4 5] [] k)
    with (match self k 3 3 with
          | Some (chainPositions, k') =>
              chainLoop self twoBombsBoard 3 4
                [mkPos 3 4; mkPos 3 5; mkPos 4 3; mkPos 4 4; mkPos 4 5]
                ([] ++ chainPositions) k'
          | None => None
          end).
  now rewrite H.
Qed.

Lemma twoBombs_never_returns (rnd : nat -> Q) (fuel : nat) :
  forall k,
  processSpecialEmoji fuel twoBombsBoard rnd k 3 3 = None
  /\ processSpecialEmoji fuel twoBombsBoard rnd k 3 4 = None.
Proof.
  induction fuel as [|fuel IH]; intros k; [split; reflexivity|].
  rewrite !processSpecialEmoji_S.
  change (getSpecialType (getEmoji twoBombsBoard 3 3)) with (Some bomb).
  change (getSpecialType (getEmoji twoBombsBoard 3 4)) with (Some bomb).
  cbv beta iota.
  rewrite twoBombs_effect_left, twoBombs_effect_right.
  rewrite twoBombs_loop_left by apply IH.
  rewrite twoBombs_loop_right by apply IH.
  split; reflexivity.
Qed.

(** ** The linear scan *)

Lemma cellAt_Some_bounds (b : GameBoard) (o : Orientation) (line i : Z) (e : Emoji) :
  cellAt b o line i = Some e -> 0 <= line < size b /\ 0 <= i < size b.
Proof.
  destruct o; unfold cellAt, getEmoji; destruct (_ || _) eqn:E;
    try discriminate; intros _; lia.
Qed.

Lemma posAt_eq (o : Orientation) (l1 i1 l2 i2 : Z) :
  posAt o l1 i1 = posAt o l2 i2 -> l1 = l2 /\ i1 = i2.
Proof. destruct o; simpl; intros H; injection H; auto. Qed.

#[global] Instance posAt_inj (o : Orientation) (line : Z) : Inj (=) (=) (posAt o line).
Proof. intros x y H. now apply posAt_eq in H. Qed.

Lemma elem_of_runPositions (o : Orientation) (line start len : Z) (p : Position) :
  p ∈ runPositions o line start len <->
  exists j, start <= j < start + len /\ p = posAt o line j.
Proof.
  unfold runPositions. rewrite list_elem_of_fmap. split.
  - intros (j & -> & Hj). apply elem_of_seqZ in Hj. eauto.
  - intros (j & Hj & ->). exists j. split; [reflexivity|]. now apply elem_of_seqZ.
Qed.

Lemma runPositions_NoDup (o : Orientation) (line start len : Z) :
  NoDup (runPositions o line start len).
Proof. apply NoDup_fmap_2; [apply _|apply NoDup_seqZ]. Qed.

Lemma runPositions_cons (o : Orientation) (line start : Z) (n : nat) :
  runPositions o line start (Z.of_nat (S n)) =
  posAt o line start :: runPositions o line (start + 1) (Z.of_nat n).
Proof.
  unfold runPositions. rewrite seqZ_cons by lia. simpl.
  do 3 f_equal; lia.
Qed.

Lemma runPositions_cons' (o : Orientation) (line start len : Z) :
  0 < len ->
  runPositions o line start len =
  posAt o line start :: runPositions o line (start + 1) (len - 1).
Proof.
  intros H. unfold runPositions. rewrite seqZ_cons by lia. simpl.
  do 3 f_equal; lia.
Qed.

Lemma filter_ext_elem {X} (P1 P2 : X -> Prop)
    `{!forall x, Decision (P1 x)} `{!forall x, Decision (P2 x)} (l : list X) :
  (forall x, x ∈ l -> P1 x <-> P2 x) -> filter P1 l = filter P2 l.
Proof.
  induction l as [|x l IH]; intros Hl; [reflexivity|].
  rewrite !filter_cons.
  assert (Hx : P1 x <-> P2 x) by (apply Hl; now left).
  rewrite IH by (intros y Hy; apply Hl; now right).
  destruct (decide (P1 x)), (decide (P2 x)); tauto.
Qed.

Lemma filter_all {X} (P : X -> Prop) `{!forall x, Decision (P x)} (l : list X) :
  (forall x, x ∈ l -> P x) -> filter P l = l.
Proof.
  induction l as [|x l IH]; intros Hl; [reflexivity|].
  rewrite filter_cons_True by (apply Hl; now left).
  now rewrite IH by (intros y Hy; apply Hl; now right).
Qed.

(** The counting loop stops at the first cell that differs, and with
    [size] units of fuel it is never cut short. *)
Lemma countRun_spec (b : GameBoard) (o : Orientation) (line : Z) (e : Emoji)
    (fuel : nat) :
  forall matchLength current,
  (Z.to_nat (size b - current) <= fuel)%nat ->
  exists current',
    countRun fuel b o line e matchLength current
      = (matchLength + (current' - current), current')
    /\ current <= current'
    /\ (forall j, current <= j < current' -> cellAt b o line j = Some e)
    /\ cellAt b o line current' <> Some e.
Proof.
  induction fuel as [|fuel IH]; intros n cur Hfuel; simpl.
  - exists cur. repeat split; try lia.
    + f_equal. lia.
    + intros H. apply cellAt_Some_bounds in H. lia.
  - destruct (cur <? size b) eqn:Hlt; simpl.
    + destruct (bool_decide (cellAt b o line cur = Some e)) eqn:Hc.
      * apply bool_decide_eq_true in Hc.
        destruct (IH (n + 1) (cur + 1)) as (cur' & Heq & Hle & Hcells & Hstop);
          [lia|].
        exists cur'. rewrite Heq. repeat split; try lia; try assumption.
        -- f_equal. lia.
        -- intros j Hj. destruct (decide (j = cur)) as [->|]; [assumption|].
           apply Hcells. lia.
      * apply bool_decide_eq_false in Hc.
        exists cur. repeat split; try lia; try assumption. f_equal. lia.
    + exists cur. repeat split; try lia.
      * f_equal. lia.
      * intros H. apply cellAt_Some_bounds in H. lia.
Qed.

(** The positions a run contributes are its cells not yet visited, in
    order; they are added to [visited]. *)
Lemma collectPositions_spec (o : Orientation) (line : Z) (n : nat) :
  forall c positions visited,
  collectPositions n o line c positions visited =
  (positions ++ filter (fun p => p ∉ visited) (runPositions o line c (Z.of_nat n)),
   visited ++ filter (fun p => p ∉ visited) (runPositions o line c (Z.of_nat n))).
Proof.
  induction n as [|n IH]; intros c positions visited.
  - simpl. unfold runPositions. simpl. now rewrite !app_nil_r.
  - rewrite runPositions_cons. simpl.
    destruct (bool_decide (posAt o line c ∈ visited)) eqn:E.
    + apply bool_decide_eq_true in E.
      rewrite filter_cons_False by (intros H; now apply H).
      apply IH.
    + apply bool_decide_eq_false in E.
      rewrite filter_cons_True by assumption.
      rewrite IH.
      assert (Hf : filter (fun p => p ∉ visited ++ [posAt o line c])
                     (runPositions o line (c + 1) (Z.of_nat n))
                   = filter (fun p => p ∉ visited)
                       (runPositions o line (c + 1) (Z.of_nat n))).
      { apply filter_ext_elem. intros p Hp.
        apply elem_of_runPositions in Hp as (j & Hj & ->).
        rewrite elem_of_app, list_elem_of_singleton. split.
        - intros H Hin. apply H. now left.
        - intros H [Hin|Heq]; [now apply H|].
          apply posAt_eq in Heq. lia. }
      rewrite Hf, <- !app_assoc. reflexivity.
Qed.

Lemma scanLine_S (fuel : nat) (b : GameBoard) (o : Orientation) (line i : Z)
    (st : ScanState) :
  scanLine (S fuel) b o line i st =
  if i <? size b - 2 then
    match cellAt b o line i with
    | Some e =>
        if falsy (Some e) || isSpecialEmoji (Some e)
        then scanLine fuel b o line (i + 1) st
        else
          let '(matchLength, current) :=
            countRun (Z.to_nat (size b)) b o line e 1 (i + 1) in
          if matchLength >=? 3 then
            let '(positions, visited) :=
              collectPositions (Z.to_nat matchLength) o line i [] (fst st) in
            let m := mkLinear o e positions matchLength line i (i + matchLength - 1) in
            let matches :=
              if (0 <? Z.of_nat (length positions)) then snd st ++ [m] else snd st in
            scanLine fuel b o line (current - 1 + 1) (visited, matches)
          else scanLine fuel b o line (i + 1) st
    | None => scanLine fuel b o line (i + 1) st
    end
  else st.
Proof. simpl. destruct (cellAt b o line i); reflexivity. Qed.

Lemma ScanInv_advance (b : GameBoard) (o : Orientation) (line i line' i' : Z)
    (st : ScanState) :
  ScanInv b o line i st ->
  line < line' \/ (line = line' /\ i <= i') ->
  ScanInv b o line' i' st.
Proof.
  intros [H1 H2 H3 H4 H5 H6 H7 H8] Hadv. split; try assumption.
  intros m Hm Ht. specialize (H4 m Hm Ht). lia.
Qed.

Lemma elem_of_spanCells (m : LinearMatch) (p : Position) :
  p ∈ spanCells m <->
  exists j, m_start m <= j < m_start m + m_length m
            /\ p = posAt (m_type m) (m_line m) j.
Proof. apply elem_of_runPositions. Qed.

(** The state after a run from [i] to [current - 1] has been reported. *)
Lemma scan_push (b : GameBoard) (o : Orientation) (line i : Z) (st : ScanState)
    (e : Emoji) (current : Z) :
  ScanInv b o line i st -> leftOK b o line i ->
  cellAt b o line i = Some e -> matchable e ->
  (forall j, i + 1 <= j < current -> cellAt b o line j = Some e) ->
  cellAt b o line current <> Some e ->
  3 <= current - i ->
  let matchLength := 1 + (current - (i + 1)) in
  let positions := filter (fun p => p ∉ fst st) (runPositions o line i matchLength) in
  let m := mkLinear o e positions matchLength line i (i + matchLength - 1) in
  ScanInv b o line current
    (fst st ++ positions,
     if (0 <? Z.of_nat (length positions)) then snd st ++ [m] else snd st).
Proof.
  intros [H1 H2 H3 H4 H5 H6 H7 H8] Hleft Hi He Hcells Hstop Hlen len positions m.
  assert (Hnd : NoDup (fst st ++ positions)).
  { apply NoDup_app. split; [assumption|]. split.
    - intros p Hp Hq. subst positions.
      apply list_elem_of_filter in Hq as [Hq _]. now apply Hq.
    - apply NoDup_filter, runPositions_NoDup. }
  assert (Hfresh : forall m', m' ∈ snd st -> m_type m' = o ->
                   forall p, p ∈ runPositions o line i len -> p ∉ m_positions m').
  { intros m' Hm' Ht p Hp Hin.
    apply elem_of_runPositions in Hp as (j & Hj & ->).
    assert (Hin' : posAt o line j ∈ spanCells m')
      by (eapply elem_of_sublist; [exact Hin|apply (gm_positions b), H1, Hm']).
    apply elem_of_spanCells in Hin' as (j' & Hj' & Heq).
    rewrite Ht in Heq. apply posAt_eq in Heq as [Hl Hjj].
    pose proof (gm_end b m' (H1 m' Hm')) as Hend.
    specialize (H4 m' Hm' Ht). lia. }
  assert (Hfull : o = horizontal -> positions = spanCells m).
  { intros Ho. subst positions. unfold spanCells. simpl.
    apply filter_all. intros p Hp Hin.
    rewrite H2 in Hin. apply list_elem_of_join in Hin as (ps & Hin & Hps).
    apply list_elem_of_fmap in Hps as (m' & -> & Hm').
    apply (Hfresh m' Hm') in Hin; try assumption.
    rewrite Ho. now apply H6. }
  assert (Hvert : o = vertical ->
                  positions = filter (fun p => p ∉ hPositions (snd st)) (spanCells m)).
  { intros Ho. subst positions. unfold spanCells. simpl.
    apply filter_ext_elem. intros p Hp. rewrite H2. unfold hPositions.
    rewrite !list_elem_of_join. split.
    - intros Hn (ps & Hin & Hps). apply Hn. exists ps. split; [assumption|].
      apply list_elem_of_fmap in Hps as (m' & -> & Hm').
      apply list_elem_of_filter in Hm' as [_ Hm'].
      apply list_elem_of_fmap. eauto.
    - intros Hn (ps & Hin & Hps).
      apply list_elem_of_fmap in Hps as (m' & -> & Hm').
      destruct (decide (m_type m' = horizontal)) as [Hh|Hv].
      + apply Hn. exists (m_positions m'). split; [assumption|].
        apply list_elem_of_fmap. exists m'. split; [reflexivity|].
        now apply list_elem_of_filter.
      + apply (Hfresh m' Hm') in Hin; try assumption.
        rewrite Ho. now destruct (m_type m'). }
  assert (HhPos : o = vertical -> hPositions (snd st ++ [m]) = hPositions (snd st)).
  { intros Ho. unfold hPositions. rewrite filter_app.
    rewrite (filter_cons_False _ m []) by (simpl; rewrite Ho; discriminate).
    rewrite filter_nil. now rewrite app_nil_r. }
  destruct (0 <? Z.of_nat (length positions)) eqn:Hne.
  - assert (Hgood : goodMatch b m).
    { split; simpl.
      - lia.
      - reflexivity.
      - assumption.
      - intros j Hj. destruct (decide (j = i)) as [->|]; [assumption|].
        apply Hcells. lia.
      - intros Hc. destruct (Hleft e Hc Hi) as [Hm|Hn]; [now apply Hm|].
        apply Hn, Hcells. lia.
      - replace (i + len - 1 + 1) with current by lia. assumption.
      - apply sublist_filter.
      - intros Hnil. rewrite Hnil in Hne. discriminate. }
    split; simpl.
    + intros m' Hm'. apply elem_of_app in Hm' as [Hm'|Hm']; [now apply H1|].
      apply list_elem_of_singleton in Hm' as ->. assumption.
    + rewrite fmap_app, join_app, <- H2. simpl. now rewrite app_nil_r.
    + assumption.
    + intros m' Hm' Ht. apply elem_of_app in Hm' as [Hm'|Hm'].
      * specialize (H4 m' Hm' Ht). lia.
      * apply list_elem_of_singleton in Hm' as ->. simpl. lia.
    + apply StronglySorted_app_2; [|assumption|repeat constructor].
      intros m1 m2 Hm1 Hm2. apply list_elem_of_singleton in Hm2 as ->.
      intros Ht. simpl in *. specialize (H4 m1 Hm1 Ht). lia.
    + intros Ho m' Hm'. apply elem_of_app in Hm' as [Hm'|Hm']; [now apply H6|].
      apply list_elem_of_singleton in Hm' as ->. assumption.
    + intros m' Hm' Ht. apply elem_of_app in Hm' as [Hm'|Hm']; [now apply H7|].
      apply list_elem_of_singleton in Hm' as ->. now apply Hfull.
    + intros m' Hm' Ht. destruct o.
      * exfalso. apply elem_of_app in Hm' as [Hm'|Hm'].
        -- rewrite (H6 eq_refl m' Hm') in Ht. discriminate.
        -- apply list_elem_of_singleton in Hm' as ->. discriminate.
      * rewrite HhPos by reflexivity.
        apply elem_of_app in Hm' as [Hm'|Hm']; [now apply H8|].
        apply list_elem_of_singleton in Hm' as ->. now apply Hvert.
  - assert (Hnil : positions = []).
    { destruct positions; [reflexivity|].
      apply Z.ltb_ge in Hne. simpl in Hne. exfalso. lia. }
    split; simpl; try assumption.
    + now rewrite Hnil, app_nil_r.
    + intros m' Hm' Ht. specialize (H4 m' Hm' Ht). lia.
Qed.

Lemma scanLine_inv (b : GameBoard) (o : Orientation) (line : Z) (fuel : nat) :
  forall i st,
  ScanInv b o line i st -> leftOK b o line i ->
  exists i', ScanInv b o line i' (scanLine fuel b o line i st).
Proof.
  induction fuel as [|fuel IH]; intros i st Hinv Hleft; [now exists i|].
  rewrite scanLine_S.
  destruct (i <? size b - 2) eqn:Hi; [|now exists i].
  assert (Hnext : ScanInv b o line (i + 1) st)
    by (apply (ScanInv_advance b o line i); [assumption|lia]).
  destruct (cellAt b o line i) as [e|] eqn:Hc.
  - destruct (falsy (Some e) || isSpecialEmoji (Some e)) eqn:Hm.
    + apply IH; [assumption|].
      intros e' H1 H2. replace (i + 1 - 1) with i in H1 by lia.
      rewrite Hc in H1. injection H1 as <-.
      left. intros [Hf Hs]. rewrite Hf, Hs in Hm. discriminate.
    + apply orb_false_iff in Hm.
      pose proof (cellAt_Some_bounds b o line i e Hc) as [_ Hib].
      destruct (countRun_spec b o line e (Z.to_nat (size b)) 1 (i + 1))
        as (current & Heq & Hle & Hcells & Hstop); [lia|].
      rewrite Heq.
      destruct (1 + (current - (i + 1)) >=? 3) eqn:Hlen.
      * rewrite collectPositions_spec. simpl app.
        rewrite Z2Nat.id by lia.
        replace (current - 1 + 1) with current by lia.
        apply IH.
        -- apply scan_push; try assumption. lia.
        -- intros e' H1 H2. exfalso.
           rewrite Hcells in H1 by lia. injection H1 as <-. now apply Hstop.
      * apply IH; [assumption|].
        intros e' H1 H2. replace (i + 1 - 1) with i in H1 by lia.
        rewrite Hc in H1. injection H1 as <-. right.
        destruct (decide (current = i + 1)) as [->|Hne]; [now elim Hstop|].
        replace (i + 1 + 1) with current by lia. assumption.
  - apply IH; [assumption|].
    intros e' H1 H2. replace (i + 1 - 1) with i in H1 by lia. congruence.
Qed.

Lemma leftOK_0 (b : GameBoard) (o : Orientation) (line : Z) : leftOK b o line 0.
Proof. intros e H. apply cellAt_Some_bounds in H. lia. Qed.

Lemma scanLines_from_inv (b : GameBoard) (o : Orientation) (n : nat) :
  forall line st,
  ScanInv b o line 0 st ->
  exists line' i',
    ScanInv b o line' i'
      (fold_left (fun st line => scanLine (Z.to_nat (size b)) b o line 0 st)
                 (seqZ line (Z.of_nat n)) st).
Proof.
  induction n as [|n IH]; intros line st Hinv.
  - simpl. now exists line, 0.
  - rewrite seqZ_cons by lia. simpl.
    destruct (scanLine_inv b o line (Z.to_nat (size b)) 0 st Hinv (leftOK_0 b o line))
      as (i' & Hinv').
    replace (Z.pred (Z.of_nat (S n))) with (Z.of_nat n) by lia.
    apply IH. apply (ScanInv_advance b o line i'); [assumption|lia].
Qed.

Lemma scanLines_inv (b : GameBoard) (o : Orientation) (st : ScanState) :
  ScanInv b o 0 0 st -> exists line i, ScanInv b o line i (scanLines b o st).
Proof.
  intros Hinv. unfold scanLines.
  destruct (decide (0 <= size b)) as [Hs|Hs].
  - replace (seqZ 0 (size b)) with (seqZ 0 (Z.of_nat (Z.to_nat (size b))))
      by (now rewrite Z2Nat.id).
    now apply scanLines_from_inv.
  - rewrite seqZ_nil by lia. simpl. now exists 0, 0.
Qed.

(** The fuel of [scanLine] is enough: the loop has reached its exit
    test, and more fuel changes nothing. *)
Lemma scanLine_fuel_enough (b : GameBoard) (o : Orientation) (line : Z) (fuel : nat) :
  forall i st,
  (Z.to_nat (size b - 2 - i) <= fuel)%nat ->
  scanLine (S fuel) b o line i st = scanLine fuel b o line i st.
Proof.
  induction fuel as [|fuel IH]; intros i st Hfuel.
  - rewrite scanLine_S. destruct (i <? size b - 2) eqn:Hi; [lia|reflexivity].
  - rewrite (scanLine_S (S fuel) b o line i st), (scanLine_S fuel b o line i st).
    destruct (i <? size b - 2) eqn:Hi; [|reflexivity].
    destruct (cellAt b o line i) as [e|] eqn:Hc; [|apply IH; lia].
    destruct (falsy (Some e) || isSpecialEmoji (Some e)); [apply IH; lia|].
    pose proof (cellAt_Some_bounds b o line i e Hc) as [_ Hib].
    destruct (countRun_spec b o line e (Z.to_nat (size b)) 1 (i + 1))
      as (current & Heq & Hle & _ & _); [lia|].
    rewrite Heq.
    destruct (1 + (current - (i + 1)) >=? 3); [|apply IH; lia].
    rewrite collectPositions_spec. apply IH. lia.
Qed.

Lemma scanLine_fuel_size (b : GameBoard) (o : Orientation) (line : Z)
    (st : ScanState) (extra : nat) :
  scanLine (Z.to_nat (size b) + extra) b o line 0 st
  = scanLine (Z.to_nat (size b)) b o line 0 st.
Proof.
  induction extra as [|extra IH].
  - now rewrite Nat.add_0_r.
  - rewrite Nat.add_succ_r, scanLine_fuel_enough by lia. exact IH.
Qed.

Lemma scan_start_inv (b : GameBoard) : ScanInv b horizontal 0 0 ([], []).
Proof.
  split; simpl; try (intros m Hm; now apply elem_of_nil in Hm).
  - reflexivity.
  - apply NoDup_nil_2.
  - constructor.
  - intros _ m Hm. now apply elem_of_nil in Hm.
Qed.

(** The state between the two scans. *)
Lemma scan_between_inv (b : GameBoard) :
  ScanInv b vertical 0 0 (scanLines b horizontal ([], [])).
Proof.
  destruct (scanLines_inv b horizontal _ (scan_start_inv b))
    as (l1 & i1 & [A1 A2 A3 A4 A5 A6 A7 A8]).
  split; try assumption.
  - intros m Hm Ht. rewrite (A6 eq_refl m Hm) in Ht. discriminate.
  - discriminate.
Qed.

Lemma findMatches_ok (b : GameBoard) : MatchesOK b (findMatches b).
Proof.
  unfold findMatches.
  destruct (scanLines_inv b vertical _ (scan_between_inv b))
    as (l2 & i2 & [B1 B2 B3 B4 B5 B6 B7 B8]).
  split; try assumption. now rewrite <- B2.
Qed.

Lemma StronglySorted_lookup {X} (R : X -> X -> Prop) (l : list X) :
  StronglySorted R l ->
  forall i j x y, (i < j)%nat -> l !! i = Some x -> l !! j = Some y -> R x y.
Proof.
  induction 1 as [|a l Hl IH Ha]; intros i j x y Hij Hi Hj.
  - discriminate.
  - destruct j as [|j]; [lia|]. simpl in Hj.
    destruct i as [|i]; simpl in Hi.
    + injection Hi as <-. rewrite Forall_forall in Ha.
      apply Ha, list_elem_of_lookup. eauto.
    + apply (IH i j); [lia|assumption..].
Qed.

Lemma goodMatch_bounds (b : GameBoard) (m : LinearMatch) :
  goodMatch b m ->
  0 <= m_line m < size b /\ 0 <= m_start m /\ m_end m < size b.
Proof.
  intros [H1 H2 H3 H4 H5 H6 H7 H8].
  pose proof (H4 (m_start m) ltac:(lia)) as Hs.
  pose proof (H4 (m_end m) ltac:(lia)) as He.
  apply cellAt_Some_bounds in Hs, He. lia.
Qed.

Lemma reportedBefore_disjoint (b : GameBoard) (m1 m2 : LinearMatch) (p : Position) :
  goodMatch b m1 -> goodMatch b m2 ->
  m_type m1 = m_type m2 ->
  reportedBefore m1 m2 \/ reportedBefore m2 m1 ->
  p ∈ spanCells m1 -> p ∉ spanCells m2.
Proof.
  intros G1 G2 Ht Hord H1 H2.
  apply elem_of_spanCells in H1 as (j1 & Hj1 & ->).
  apply elem_of_spanCells in H2 as (j2 & Hj2 & Heq).
  rewrite Ht in Heq. apply posAt_eq in Heq as [Hl Hj].
  pose proof (gm_end b m1 G1). pose proof (gm_end b m2 G2).
  destruct Hord as [Hord|Hord]; [specialize (Hord Ht)|specialize (Hord (eq_sym Ht))];
    lia.
Qed.

(** C2.  For every board, every match that the linear scan returns
    describes a maximal run: at least three consecutive cells of one line
    that all hold the same emoji, which is not a special one, with a
    different cell or the edge of the board just before and just after;
    the positions of the match are cells of that run; and two matches of
    the same orientation reported at different places of the result share
    no cell. *)
Theorem findMatches_maximal_disjoint_runs (b : GameBoard) :
  (forall m, m ∈ findMatches b ->
     3 <= m_length m
     /\ m_end m = m_start m + m_length m - 1
     /\ 0 <= m_line m < size b /\ 0 <= m_start m /\ m_end m < size b
     /\ isSpecialEmoji (Some (m_emoji m)) = false
     /\ (forall j, m_start m <= j <= m_end m ->
                   cellAt b (m_type m) (m_line m) j = Some (m_emoji m))
     /\ cellAt b (m_type m) (m_line m) (m_start m - 1) <> Some (m_emoji m)
     /\ cellAt b (m_type m) (m_line m) (m_end m + 1) <> Some (m_emoji m)
     /\ m_positions m `sublist_of` spanCells m)
  /\ (forall i j m1 m2,
        i <> j ->
        findMatches b !! i = Some m1 -> findMatches b !! j = Some m2 ->
        m_type m1 = m_type m2 ->
        forall p,
          (p ∈ spanCells m1 -> p ∉ spanCells m2)
          /\ (p ∈ m_positions m1 -> p ∉ m_positions m2)).
Proof.
  destruct (findMatches_ok b) as [Hgood Hnd Hsorted Hfull Hvert]. split.
  - intros m Hm. specialize (Hgood m Hm).
    pose proof (goodMatch_bounds b m Hgood) as (Hl & Hs & He).
    destruct Hgood as [H1 H2 [H3 H3'] H4 H5 H6 H7 H8].
    repeat split; try assumption; lia.
  - intros i j m1 m2 Hij H1 H2 Ht p.
    assert (G1 : goodMatch b m1)
      by (apply Hgood, list_elem_of_lookup; eauto).
    assert (G2 : goodMatch b m2)
      by (apply Hgood, list_elem_of_lookup; eauto).
    assert (Hord : reportedBefore m1 m2 \/ reportedBefore m2 m1).
    { destruct (decide (i < j)%nat) as [Hlt|Hge].
      - left. apply (StronglySorted_lookup _ _ Hsorted i j); assumption.
      - right. apply (StronglySorted_lookup _ _ Hsorted j i); [lia|assumption..]. }
    split.
    + now apply (reportedBefore_disjoint b).
    + intros Hp1 Hp2.
      apply (reportedBefore_disjoint b m1 m2 p G1 G2 Ht Hord).
      * eapply elem_of_sublist; [exact Hp1|apply (gm_positions b), G1].
      * eapply elem_of_sublist; [exact Hp2|apply (gm_positions b), G2].
Qed.

Lemma findMatches_maximal_disjoint_runs_witness :
  crossH ∈ findMatches crossBoard
  /\ 3 <= m_length crossH
  /\ cellAt crossBoard horizontal 2 3 <> Some (m_emoji crossH).
Proof.
  assert (H : crossH ∈ findMatches crossBoard)
    by (rewrite findMatches_crossBoard; apply elem_of_cons; now left).
  split; [exact H|].
  destruct (findMatches_maximal_disjoint_runs crossBoard) as [Hruns _].
  destruct (Hruns crossH H) as (H1 & _ & _ & _ & _ & _ & _ & _ & H2 & _).
  split; [exact H1|exact H2].
Defined.

(** ** Special tiles created by a step *)

Lemma createSpecialEmojis_cons (m : Match) (ms : list Match) :
  createSpecialEmojis (m :: ms) = createSpecialEmojis [m] ++ createSpecialEmojis ms.
Proof. unfold createSpecialEmojis. simpl. now rewrite app_nil_r. Qed.

Lemma elem_of_createSpecialEmojis (ms : list Match) (s : SpecialEmoji) :
  s ∈ createSpecialEmojis ms <->
  originalMatch s ∈ ms
  /\ specialChoice (originalMatch s) = (Some (sp_type s), Some (sp_position s)).
Proof.
  unfold createSpecialEmojis. rewrite list_elem_of_In, in_flat_map. split.
  - intros (m & Hm & Hs). apply list_elem_of_In in Hm.
    destruct (specialChoice m) as [[t|] [p|]] eqn:E; try destruct Hs.
    + subst s. simpl. auto.
    + destruct H.
  - intros [Hm Hs]. exists (originalMatch s). split; [now apply list_elem_of_In|].
    rewrite Hs. left. now destruct s.
Qed.

Lemma getMiddlePosition_Some (m : Match) (p : Position) :
  getMiddlePosition m = Some p <->
  positionsOf m !! (length (positionsOf m) / 2)%nat = Some p.
Proof.
  unfold getMiddlePosition.
  destruct (positionsOf m) as [|q ps]; simpl; [split; discriminate|reflexivity].
Qed.

Lemma getMiddlePosition_nonempty (m : Match) :
  positionsOf m <> [] -> exists p, getMiddlePosition m = Some p /\ p ∈ positionsOf m.
Proof.
  intros Hne.
  destruct (lookup_lt_is_Some_2 (positionsOf m) (length (positionsOf m) / 2)%nat)
    as [p Hp].
  { destruct (positionsOf m) as [|q ps]; [congruence|].
    apply Nat.div_lt; simpl; lia. }
  exists p. split; [now apply getMiddlePosition_Some|].
  apply list_elem_of_lookup. eauto.
Qed.

Lemma spanCells_middle (m : LinearMatch) :
  0 < m_length m ->
  spanCells m !! (length (spanCells m) / 2)%nat = Some (runMiddle m).
Proof.
  intros Hlen. unfold spanCells, runPositions, runMiddle.
  rewrite length_fmap, length_seqZ, list_lookup_fmap.
  assert (Hdiv : Z.of_nat (Z.to_nat (m_length m) / 2) = m_length m / 2).
  { rewrite Nat2Z.inj_div, Z2Nat.id by lia. reflexivity. }
  rewrite (proj2 (lookup_seqZ (m_start m) (m_length m) _
                    (m_start m + m_length m / 2))).
  - reflexivity.
  - rewrite Hdiv. split; [reflexivity|].
    apply Z.div_lt; lia.
Qed.

Lemma spanCells_valid (b : GameBoard) (m : LinearMatch) (p : Position) :
  goodMatch b m -> p ∈ spanCells m ->
  isValidPosition b (row p) (col p) = true.
Proof.
  intros G Hp. apply elem_of_spanCells in Hp as (j & Hj & ->).
  pose proof (gm_end b m G) as Hend.
  pose proof (gm_cells b m G j ltac:(lia)) as Hc.
  apply cellAt_Some_bounds in Hc.
  apply isValidPosition_spec. destruct (m_type m); simpl; lia.
Qed.

(** The intersection of a shaped match is a cell of its horizontal
    match. *)
Lemma intersection_in_horizontal (b : GameBoard) (h v : LinearMatch) :
  MatchesOK b (findMatches b) ->
  h ∈ findMatches b -> m_type h = horizontal -> intersects h v = true ->
  mkPos (m_line h) (m_line v) ∈ m_positions h.
Proof.
  intros [Hgood _ _ Hfull _] Hh Ht Hi.
  apply intersects_spec in Hi as (_ & Hcol & _).
  rewrite (Hfull h Hh Ht). apply elem_of_spanCells.
  pose proof (gm_end b h (Hgood h Hh)).
  exists (m_line v). rewrite Ht. split; [lia|reflexivity].
Qed.

(** C10.  For every special tile that [createSpecialEmojis] makes from
    the matches of a board (linear and shaped), the position chosen is
    one of the positions of the match it comes from -- the element of
    index [floor(positions.length / 2)] for a linear match, the recorded
    intersection for a shaped one -- and it is within the board, so
    [createSpecialEmoji] writes the tile on any board of that size. *)
Theorem created_special_position_in_match (b : GameBoard) (s : SpecialEmoji) :
  s ∈ createSpecialEmojis (allMatchesOf b) ->
  originalMatch s ∈ allMatchesOf b
  /\ positionsOf (originalMatch s) <> []
  /\ sp_position s ∈ positionsOf (originalMatch s)
  /\ match originalMatch s with
     | Linear l =>
         m_positions l !! (length (m_positions l) / 2)%nat = Some (sp_position s)
     | Shaped sh => sp_position s = intersection sh
     end
  /\ isValidPosition b (row (sp_position s)) (col (sp_position s)) = true
  /\ forall b', size b' = size b ->
       createSpecialEmoji b' (row (sp_position s)) (col (sp_position s)) (sp_type s)
       = mkBoard (size b')
           (gridSet (grid b') (row (sp_position s)) (col (sp_position s))
              (Some (specialEmoji (sp_type s)))).
Proof.
  intros Hs. apply elem_of_createSpecialEmojis in Hs as [Hm Hc].
  pose proof (findMatches_ok b) as Hok.
  destruct Hok as [Hgood Hnd Hsorted Hfull Hvert].
  assert (H : positionsOf (originalMatch s) <> []
              /\ sp_position s ∈ positionsOf (originalMatch s)
              /\ match originalMatch s with
                 | Linear l =>
                     m_positions l !! (length (m_positions l) / 2)%nat
                     = Some (sp_position s)
                 | Shaped sh => sp_position s = intersection sh
                 end
              /\ isValidPosition b (row (sp_position s)) (col (sp_position s)) = true).
  { unfold allMatchesOf in Hm. apply elem_of_app in Hm as [Hm|Hm].
    - apply list_elem_of_fmap in Hm as (l & Hl & Hin). rewrite Hl in *. simpl in *.
      pose proof (Hgood l Hin) as G.
      assert (Hmid : getMiddlePosition (Linear l) = Some (sp_position s)).
      { destruct (m_length l =? 4); [congruence|].
        destruct (m_length l >=? 5); congruence. }
      apply getMiddlePosition_Some in Hmid. simpl in Hmid.
      assert (Hin' : sp_position s ∈ m_positions l)
        by (apply list_elem_of_lookup; eauto).
      repeat split; try assumption.
      + apply (gm_nonempty b l G).
      + apply (spanCells_valid b l); [assumption|].
        eapply elem_of_sublist; [exact Hin'|apply (gm_positions b), G].
    - apply list_elem_of_fmap in Hm as (sh & Hsh & Hin). rewrite Hsh in *. simpl in *.
      injection Hc as _ Hp.
      apply elem_of_findShapedMatches in Hin
        as (h & v & Hh & Hv & Hth & Htv & Hi & ->). simpl in *.
      assert (Hint : sp_position s ∈ m_positions h).
      { rewrite <- Hp. apply (intersection_in_horizontal b); try assumption.
        apply findMatches_ok. }
      assert (Hun : sp_position s ∈ uniquePositions (m_positions h ++ m_positions v)).
      { apply elem_of_uniquePositions, elem_of_app. now left. }
      repeat split; try (now symmetry); try assumption.
      + intros Hnil. rewrite Hnil in Hun. now apply elem_of_nil in Hun.
      + apply (spanCells_valid b h); [now apply Hgood|].
        eapply elem_of_sublist; [exact Hint|apply (gm_positions b), Hgood, Hh]. }
  destruct H as (H1 & H2 & H3 & H4).
  repeat split; try assumption.
  intros b' Hsize. unfold createSpecialEmoji.
  unfold isValidPosition in *. rewrite Hsize, H4. reflexivity.
Qed.

Lemma created_special_position_in_match_witness :
  mkSpecial striped (mkPos 1 1) (Linear crossV)
    ∈ createSpecialEmojis (allMatchesOf crossBoard)
  /\ mkPos 1 1 ∈ m_positions crossV
  /\ isValidPosition crossBoard 1 1 = true.
Proof.
  assert (H : mkSpecial striped (mkPos 1 1) (Linear crossV)
                ∈ createSpecialEmojis (allMatchesOf crossBoard)).
  { apply elem_of_createSpecialEmojis. simpl. split; [|reflexivity].
    unfold allMatchesOf. rewrite findMatches_crossBoard.
    apply elem_of_app. left. simpl. apply elem_of_cons. right.
    apply elem_of_cons. now left. }
  split; [exact H|].
  destruct (created_special_position_in_match crossBoard _ H)
    as (_ & _ & H1 & _ & H2 & _).
  split; [exact H1|exact H2].
Defined.

Lemma createSpecialEmojis_linear (l : LinearMatch) (type : SpecialType) :
  (m_length l = 4 /\ type = striped) \/ (5 <= m_length l /\ type = rainbow) ->
  m_positions l <> [] ->
  exists p,
    m_positions l !! (length (m_positions l) / 2)%nat = Some p
    /\ createSpecialEmojis [Linear l] = [mkSpecial type p (Linear l)].
Proof.
  intros Hlen Hne.
  destruct (getMiddlePosition_nonempty (Linear l) Hne) as (p & Hp & _).
  exists p. split; [now apply getMiddlePosition_Some in Hp|].
  unfold createSpecialEmojis. simpl. rewrite Hp.
  destruct Hlen as [[-> ->]|[H5 ->]]; [reflexivity|].
  destruct (m_length l =? 4) eqn:E4; [lia|].
  destruct (m_length l >=? 5) eqn:E5; [reflexivity|lia].
Qed.

(** C3, as the code has it.  Special tiles are created match by match:
    a shaped match gives a bomb at its intersection; a linear match of
    length 3 gives nothing; a linear match of length 4 gives a striped
    tile and one of length 5 or more a rainbow tile, placed at the element
    of index [floor(positions.length / 2)] of the positions of the match.
    That element is the cell of index [floor(length / 2)] of the run
    whenever the positions are the whole run, which holds for every
    horizontal match that the scan reports and for every vertical one
    whose run has no cell in a reported horizontal match. *)
Theorem createSpecialEmojis_tier_rule :
  (forall m ms,
     createSpecialEmojis (m :: ms) = createSpecialEmojis [m] ++ createSpecialEmojis ms)
  /\ (forall sh,
        createSpecialEmojis [Shaped sh] = [mkSpecial bomb (intersection sh) (Shaped sh)])
  /\ (forall l, m_length l = 3 -> createSpecialEmojis [Linear l] = [])
  /\ (forall l, m_length l = 4 -> m_positions l <> [] ->
        exists p,
          m_positions l !! (length (m_positions l) / 2)%nat = Some p
          /\ createSpecialEmojis [Linear l] = [mkSpecial striped p (Linear l)])
  /\ (forall l, 5 <= m_length l -> m_positions l <> [] ->
        exists p,
          m_positions l !! (length (m_positions l) / 2)%nat = Some p
          /\ createSpecialEmojis [Linear l] = [mkSpecial rainbow p (Linear l)])
  /\ (forall l, 0 < m_length l -> m_positions l = spanCells l ->
        m_positions l !! (length (m_positions l) / 2)%nat = Some (runMiddle l))
  /\ (forall b l, l ∈ findMatches b ->
        m_positions l <> []
        /\ (m_type l = horizontal -> m_positions l = spanCells l)
        /\ (m_type l = vertical ->
            (forall p, p ∈ spanCells l -> p ∉ hPositions (findMatches b)) ->
            m_positions l = spanCells l)).
Proof.
  split; [apply createSpecialEmojis_cons|].
  split; [reflexivity|].
  split; [intros l H; unfold createSpecialEmojis; simpl; now rewrite H|].
  split; [intros l H; apply createSpecialEmojis_linear; auto|].
  split; [intros l H; apply createSpecialEmojis_linear; auto|].
  split.
  - intros l Hlen Hfull. rewrite Hfull. now apply spanCells_middle.
  - intros b l Hl. destruct (findMatches_ok b) as [Hgood _ _ Hfull Hvert].
    split; [apply (gm_nonempty b), Hgood, Hl|].
    split; [now apply Hfull|].
    intros Ht Hfree. rewrite (Hvert l Hl Ht) at 1. now apply filter_all.
Qed.

Lemma createSpecialEmojis_tier_rule_witness :
  m_length crossH = 3 /\ createSpecialEmojis [Linear crossH] = []
  /\ m_length crossV = 4 /\ m_positions crossV <> []
  /\ exists p, createSpecialEmojis [Linear crossV] = [mkSpecial striped p (Linear crossV)].
Proof.
  destruct createSpecialEmojis_tier_rule as (_ & _ & H3 & H4 & _).
  split; [reflexivity|]. split; [now apply H3|].
  split; [reflexivity|].
  assert (Hne : m_positions crossV <> []) by discriminate.
  split; [exact Hne|].
  destruct (H4 crossV eq_refl Hne) as (p & _ & Hp). now exists p.
Defined.

(** C3 as stated fails: on [crossBoard] the vertical match of length 4
    has lost the cell it shares with the horizontal match, and the striped
    tile goes to (1,1), not to the cell of index 2 of the run, (2,1). *)
Lemma striped_not_at_run_middle :
  ~ (forall b l s,
       l ∈ findMatches b -> m_length l = 4 ->
       s ∈ createSpecialEmojis (allMatchesOf b) ->
       originalMatch s = Linear l ->
       sp_type s = striped /\ sp_position s = runMiddle l).
Proof.
  intros H.
  destruct (H crossBoard crossV (mkSpecial striped (mkPos 1 1) (Linear crossV)))
    as [_ Hpos].
  - rewrite findMatches_crossBoard. apply elem_of_cons. right.
    apply elem_of_cons. now left.
  - reflexivity.
  - apply elem_of_createSpecialEmojis. simpl. split; [|reflexivity].
    unfold allMatchesOf. rewrite findMatches_crossBoard.
    apply elem_of_app. left. simpl. apply elem_of_cons. right.
    apply elem_of_cons. now left.
  - reflexivity.
  - discriminate Hpos.
Qed.

(** The matches of a board are the arguments [calculateScore] gets in a
    cascade step: its linear matches have length at least 3, so the score
    of the step follows the specification's formula. *)
Lemma allMatchesOf_linearAtLeast3 (b : GameBoard) :
  Forall linearAtLeast3 (allMatchesOf b).
Proof.
  unfold allMatchesOf. apply Forall_app. split; apply Forall_fmap, Forall_forall.
  - intros l Hl. simpl. apply (gm_length b), (ok_good _ _ (findMatches_ok b)), Hl.
  - intros sh _. exact I.
Qed.

Lemma stepScore_formula (d : MatchDetector) (b : GameBoard) :
  let matches := allMatchesOf b in
  let specials := createSpecialEmojis matches in
  totalScore (calculateScore d matches specials)
  = (specBaseScore matches + 100 * Z.of_nat (length specials)) * comboMultiplier d.
Proof.
  intros matches specials. unfold calculateScore, Math_floor. cbn [totalScore].
  rewrite fold_left_matchScore by apply allMatchesOf_linearAtLeast3.
  rewrite Qfloor_Z. lia.
Qed.

(** ** Possible moves and special tiles *)

Lemma countForth_ge (b : GameBoard) (o : Orientation) (line : Z) (emoji : Cell)
    (fuel : nat) :
  forall i count, count <= countForth fuel b o line emoji i count.
Proof.
  induction fuel as [|fuel IH]; intros i count; simpl; [lia|].
  destruct (i <? size b); [|lia].
  destruct (bool_decide _); [|lia].
  specialize (IH (i + 1) (count + 1)). lia.
Qed.

Lemma countForth_two (b : GameBoard) (o : Orientation) (line : Z) (emoji : Cell)
    (fuel : nat) (i count : Z) :
  rawAt b o line i = emoji -> rawAt b o line (i + 1) = emoji ->
  i + 1 < size b ->
  count + 2 <= countForth (S (S fuel)) b o line emoji i count.
Proof.
  intros H1 H2 Hi. simpl.
  destruct (i <? size b) eqn:E1; [|lia].
  rewrite bool_decide_eq_true_2 by assumption.
  destruct (i + 1 <? size b) eqn:E2; [|lia].
  rewrite bool_decide_eq_true_2 by assumption.
  pose proof (countForth_ge b o line emoji fuel (i + 1 + 1) (count + 1 + 1)). lia.
Qed.

Lemma countBack_ge (b : GameBoard) (o : Orientation) (line : Z) (emoji : Cell)
    (fuel : nat) :
  forall i count, count <= countBack fuel b o line emoji i count.
Proof.
  induction fuel as [|fuel IH]; intros i count; simpl; [lia|].
  destruct (i >=? 0); [|lia].
  destruct (bool_decide _); [|lia].
  specialize (IH (i - 1) (count + 1)). lia.
Qed.

(** The fuel of the counting loops of [wouldCreateMatch] is enough at
    every position of the board: more fuel changes nothing. *)
Lemma countForth_fuel_enough (b : GameBoard) (o : Orientation) (line : Z)
    (emoji : Cell) (fuel : nat) :
  forall i count,
  (Z.to_nat (size b - i) <= fuel)%nat ->
  countForth (S fuel) b o line emoji i count = countForth fuel b o line emoji i count.
Proof.
  induction fuel as [|fuel IH]; intros i count Hfuel.
  - simpl. destruct (i <? size b) eqn:E; [lia|reflexivity].
  - change (countForth (S (S fuel)) b o line emoji i count)
      with (if i <? size b then
              if bool_decide (rawAt b o line i = emoji)
              then countForth (S fuel) b o line emoji (i + 1) (count + 1)
              else count
            else count).
    change (countForth (S fuel) b o line emoji i count)
      with (if i <? size b then
              if bool_decide (rawAt b o line i = emoji)
              then countForth fuel b o line emoji (i + 1) (count + 1)
              else count
            else count).
    destruct (i <? size b) eqn:E; [|reflexivity].
    destruct (bool_decide _); [|reflexivity].
    apply IH. lia.
Qed.

Lemma countBack_fuel_enough (b : GameBoard) (o : Orientation) (line : Z)
    (emoji : Cell) (fuel : nat) :
  forall i count,
  (Z.to_nat (i + 1) <= fuel)%nat ->
  countBack (S fuel) b o line emoji i count = countBack fuel b o line emoji i count.
Proof.
  induction fuel as [|fuel IH]; intros i count Hfuel.
  - simpl. destruct (i >=? 0) eqn:E; [lia|reflexivity].
  - change (countBack (S (S fuel)) b o line emoji i count)
      with (if i >=? 0 then
              if bool_decide (rawAt b o line i = emoji)
              then countBack (S fuel) b o line emoji (i - 1) (count + 1)
              else count
            else count).
    change (countBack (S fuel) b o line emoji i count)
      with (if i >=? 0 then
              if bool_decide (rawAt b o line i = emoji)
              then countBack fuel b o line emoji (i - 1) (count + 1)
              else count
            else count).
    destruct (i >=? 0) eqn:E; [|reflexivity].
    destruct (bool_decide _); [|reflexivity].
    apply IH. lia.
Qed.

Lemma cellAt_rawAt (b : GameBoard) (o : Orientation) (line i : Z) (e : Emoji) :
  cellAt b o line i = Some e -> rawAt b o line i = Some e.
Proof.
  destruct o; unfold cellAt, rawAt, getEmoji; destruct (_ || _); congruence.
Qed.

(** Three equal cells in a row, from index [i] of line [line], make
    [wouldCreateMatch] answer [true] at the first of them. *)
Lemma wouldCreateMatch_window (b : GameBoard) (o : Orientation) (line i : Z)
    (emoji : Cell) :
  0 <= i -> i + 2 < size b ->
  rawAt b o line (i + 1) = emoji -> rawAt b o line (i + 2) = emoji ->
  wouldCreateMatch b (row (posAt o line i)) (col (posAt o line i)) emoji = true.
Proof.
  intros H0 Hi H1 H2. unfold wouldCreateMatch.
  destruct (Z.to_nat (size b)) as [|[|fuel]] eqn:Hf; try lia.
  replace (i + 2) with (i + 1 + 1) in H2 by lia.
  destruct o; cbn [posAt row col].
  - pose proof (countForth_two b horizontal line emoji fuel (i + 1)
                  (countBack (S (S fuel)) b horizontal line emoji (i - 1) 1)
                  H1 H2 ltac:(lia)) as Hc.
    pose proof (countBack_ge b horizontal line emoji (S (S fuel)) (i - 1) 1).
    destruct (_ >=? 3) eqn:E; [reflexivity|lia].
  - destruct (_ >=? 3) eqn:E; [reflexivity|].
    pose proof (countForth_two b vertical line emoji fuel (i + 1)
                  (countBack (S (S fuel)) b vertical line emoji (i - 1) 1)
                  H1 H2 ltac:(lia)) as Hc.
    pose proof (countBack_ge b vertical line emoji (S (S fuel)) (i - 1) 1).
    lia.
Qed.

(** A match of the detector is also a match for [hasMatches]. *)
Lemma hasMatches_of_run (b : GameBoard) (m : LinearMatch) :
  goodMatch b m -> hasMatches b = true.
Proof.
  intros G.
  pose proof (goodMatch_bounds b m G) as (Hl & Hs & He).
  pose proof (gm_end b m G) as Hend. pose proof (gm_length b m G) as Hlen.
  pose proof (gm_cells b m G (m_start m) ltac:(lia)) as C0.
  pose proof (gm_cells b m G (m_start m + 1) ltac:(lia)) as C1.
  pose proof (gm_cells b m G (m_start m + 2) ltac:(lia)) as C2.
  apply cellAt_rawAt in C0, C1, C2.
  pose proof (wouldCreateMatch_window b (m_type m) (m_line m) (m_start m)
                (Some (m_emoji m)) Hs ltac:(lia) C1 C2) as Hw.
  unfold hasMatches. apply existsb_exists.
  exists (row (posAt (m_type m) (m_line m) (m_start m))). split.
  - apply list_elem_of_In, elem_of_seqZ. destruct (m_type m); simpl; lia.
  - apply existsb_exists.
    exists (col (posAt (m_type m) (m_line m) (m_start m))). split.
    + apply list_elem_of_In, elem_of_seqZ. destruct (m_type m); simpl; lia.
    + replace (gridGet (grid b) _ _) with (Some (m_emoji m)); [exact Hw|].
      symmetry. unfold rawAt in C0. destruct (m_type m); exact C0.
Qed.

Lemma tryMove_spec (b : GameBoard) (ms : list Move) (pos1 pos2 : Position) :
  validBoard b = true ->
  tryMove (ms, b) pos1 pos2 = (ms ++ filter (boardMatchAfter b) [(pos1, pos2)], b).
Proof.
  intros Hb. unfold tryMove. simpl fst. simpl snd.
  rewrite swapEmojis_involutive by assumption. f_equal.
  rewrite filter_cons, filter_nil.
  destruct (decide (boardMatchAfter b (pos1, pos2))) as [H|H];
    unfold boardMatchAfter in H; simpl in H.
  - now rewrite H.
  - apply not_true_is_false in H. rewrite H. now rewrite app_nil_r.
Qed.

Lemma movesAt_spec (b : GameBoard) (ms : list Move) (r c : Z) :
  validBoard b = true ->
  movesAt (size b) r c (ms, b)
  = (ms ++ filter (boardMatchAfter b) (candidatesAt (size b) r c), b).
Proof.
  intros Hb. unfold movesAt, candidatesAt.
  destruct (c <? size b - 1), (r <? size b - 1); simpl app;
    rewrite ?tryMove_spec by assumption.
  - rewrite <- app_assoc. f_equal. f_equal.
    rewrite !filter_cons, !filter_nil.
    destruct (decide (boardMatchAfter b (mkPos r c, mkPos r (c + 1))));
      reflexivity.
  - reflexivity.
  - reflexivity.
  - now rewrite filter_nil, app_nil_r.
Qed.

Lemma movesRow_spec (b : GameBoard) (r : Z) (cols : list Z) :
  validBoard b = true ->
  forall ms,
  fold_left (fun acc c => movesAt (size b) r c acc) cols (ms, b)
  = (ms ++ filter (boardMatchAfter b)
             (flat_map (fun c => candidatesAt (size b) r c) cols), b).
Proof.
  intros Hb. induction cols as [|c cols IH]; intros ms; simpl.
  - now rewrite filter_nil, app_nil_r.
  - rewrite movesAt_spec by assumption. rewrite IH.
    now rewrite filter_app, app_assoc.
Qed.

Lemma movesRows_spec (b : GameBoard) (rows : list Z) :
  validBoard b = true ->
  forall ms,
  fold_left (fun acc r =>
      fold_left (fun acc c => movesAt (size b) r c acc) (seqZ 0 (size b)) acc)
    rows (ms, b)
  = (ms ++ filter (boardMatchAfter b)
             (flat_map (fun r => flat_map (fun c => candidatesAt (size b) r c)
                                   (seqZ 0 (size b))) rows), b).
Proof.
  intros Hb. induction rows as [|r rows IH]; intros ms; simpl.
  - now rewrite app_nil_r.
  - rewrite movesRow_spec by assumption. rewrite IH.
    now rewrite filter_app, app_assoc.
Qed.

(** On a well-formed board [getPossibleMoves] returns, in order, the
    swaps with the right and the lower neighbour after which [hasMatches]
    holds, and it leaves the board as it was. *)
Lemma getPossibleMoves_spec (b : GameBoard) :
  validBoard b = true ->
  getPossibleMoves b
  = (filter (boardMatchAfter b) (candidateMoves (size b)), b).
Proof.
  intros Hb. unfold getPossibleMoves, candidateMoves.
  now rewrite movesRows_spec by assumption.
Qed.

(** Every swap with a right or lower neighbour that the match detector
    accepts is among the possible moves. *)
Lemma getPossibleMoves_includes_accepted (b : GameBoard) (mv : Move) :
  validBoard b = true ->
  mv ∈ candidateMoves (size b) ->
  findMatches (snd (swapEmojis b (fst mv) (snd mv))) <> [] ->
  mv ∈ fst (getPossibleMoves b).
Proof.
  intros Hb Hc Hm. rewrite getPossibleMoves_spec by assumption. simpl.
  apply list_elem_of_filter. split; [|assumption].
  unfold boardMatchAfter.
  destruct (findMatches _) as [|m ms] eqn:E; [congruence|].
  apply (hasMatches_of_run _ m).
  apply (ok_good _ _ (findMatches_ok _)). rewrite E. now left.
Qed.

(** *** Boards without special or empty cells

    On such boards the test of [getPossibleMoves] and the match detector
    agree. *)

Lemma plainBoard_spec (b : GameBoard) (r c : Z) :
  plainBoard b = true -> 0 <= r < size b -> 0 <= c < size b ->
  exists e, gridGet (grid b) r c = Some e /\ matchable e.
Proof.
  unfold plainBoard. rewrite forallb_forall. intros H Hr Hc.
  specialize (H r). rewrite forallb_forall in H.
  specialize (H ltac:(apply list_elem_of_In, elem_of_seqZ; lia) c
                ltac:(apply list_elem_of_In, elem_of_seqZ; lia)).
  apply andb_true_iff in H as [H1 H2].
  apply negb_true_iff in H1, H2.
  destruct (gridGet (grid b) r c) as [e|]; [|discriminate].
  exists e. split; [reflexivity|]. now split.
Qed.

Lemma countForth_spec (b : GameBoard) (o : Orientation) (line : Z) (emoji : Cell)
    (fuel : nat) :
  forall i count,
  exists k, 0 <= k
    /\ countForth fuel b o line emoji i count = count + k
    /\ forall j, i <= j < i + k -> j < size b /\ rawAt b o line j = emoji.
Proof.
  induction fuel as [|fuel IH]; intros i count; simpl.
  - exists 0. repeat split; lia.
  - destruct (i <? size b) eqn:E; [|exists 0; repeat split; lia].
    destruct (bool_decide (rawAt b o line i = emoji)) eqn:Hc;
      [|exists 0; repeat split; lia].
    apply bool_decide_eq_true in Hc.
    destruct (IH (i + 1) (count + 1)) as (k & Hk & Heq & Hcells).
    exists (k + 1). split; [lia|]. split; [lia|].
    intros j Hj. destruct (decide (j = i)) as [->|]; [split; [lia|assumption]|].
    apply Hcells. lia.
Qed.

Lemma countBack_spec (b : GameBoard) (o : Orientation) (line : Z) (emoji : Cell)
    (fuel : nat) :
  forall i count,
  exists k, 0 <= k
    /\ countBack fuel b o line emoji i count = count + k
    /\ forall j, i - k < j <= i -> 0 <= j /\ rawAt b o line j = emoji.
Proof.
  induction fuel as [|fuel IH]; intros i count; simpl.
  - exists 0. repeat split; lia.
  - destruct (i >=? 0) eqn:E; [|exists 0; repeat split; lia].
    destruct (bool_decide (rawAt b o line i = emoji)) eqn:Hc;
      [|exists 0; repeat split; lia].
    apply bool_decide_eq_true in Hc.
    destruct (IH (i - 1) (count + 1)) as (k & Hk & Heq & Hcells).
    exists (k + 1). split; [lia|]. split; [lia|].
    intros j Hj. destruct (decide (j = i)) as [->|]; [split; [lia|assumption]|].
    apply Hcells. lia.
Qed.

Lemma count_window (b : GameBoard) (o : Orientation) (line i : Z) (emoji : Cell)
    (fuel : nat) :
  0 <= line < size b -> 0 <= i < size b ->
  rawAt b o line i = emoji ->
  countForth fuel b o line emoji (i + 1) (countBack fuel b o line emoji (i - 1) 1) >= 3 ->
  exists w, window b o line w emoji.
Proof.
  intros Hl Hi Hc Hcount.
  destruct (countBack_spec b o line emoji fuel (i - 1) 1) as (kl & Hkl & El & Hleft).
  destruct (countForth_spec b o line emoji fuel (i + 1) (1 + kl))
    as (kr & Hkr & Er & Hright).
  rewrite El, Er in Hcount.
  assert (Hall : forall j, i - kl <= j <= i + kr ->
                 0 <= j < size b /\ rawAt b o line j = emoji).
  { intros j Hj. destruct (decide (j = i)) as [->|]; [split; [lia|assumption]|].
    destruct (decide (j < i)).
    - destruct (Hleft j ltac:(lia)). split; [lia|assumption].
    - destruct (Hright j ltac:(lia)). split; [lia|assumption]. }
  exists (i - kl). unfold window.
  destruct (Hall (i - kl) ltac:(lia)) as [B0 C0].
  destruct (Hall (i - kl + 1) ltac:(lia)) as [B1 C1].
  destruct (Hall (i - kl + 2) ltac:(lia)) as [B2 C2].
  repeat split; try assumption; lia.
Qed.

Lemma hasMatches_window (b : GameBoard) :
  hasMatches b = true -> exists o line w emoji, window b o line w emoji.
Proof.
  unfold hasMatches. intros H.
  apply existsb_exists in H as (r & Hr & H).
  apply existsb_exists in H as (c & Hc & H).
  apply list_elem_of_In, elem_of_seqZ in Hr, Hc.
  unfold wouldCreateMatch in H.
  destruct (_ >=? 3) eqn:Eh.
  - destruct (count_window b horizontal r c (gridGet (grid b) r c)
                (Z.to_nat (size b))) as [w Hw]; try lia; [reflexivity|].
    now exists horizontal, r, w, (gridGet (grid b) r c).
  - destruct (count_window b vertical c r (gridGet (grid b) r c)
                (Z.to_nat (size b))) as [w Hw]; try lia; [reflexivity|].
    now exists vertical, c, w, (gridGet (grid b) r c).
Qed.

(** The scans only ever add matches. *)
Lemma scanLine_grows (b : GameBoard) (o : Orientation) (line : Z) (fuel : nat) :
  forall i st, exists extra, snd (scanLine fuel b o line i st) = snd st ++ extra.
Proof.
  induction fuel as [|fuel IH]; intros i st.
  - exists []. simpl. now rewrite app_nil_r.
  - rewrite scanLine_S.
    destruct (i <? size b - 2); [|exists []; now rewrite app_nil_r].
    destruct (cellAt b o line i) as [e|]; [|apply IH].
    destruct (falsy (Some e) || isSpecialEmoji (Some e)); [apply IH|].
    destruct (countRun _ b o line e 1 (i + 1)) as [len current].
    destruct (len >=? 3); [|apply IH].
    destruct (collectPositions _ o line i [] (fst st)) as [positions visited].
    cbv zeta.
    destruct (IH (current - 1 + 1)
                (visited,
                 if 0 <? Z.of_nat (length positions)
                 then snd st ++ [mkLinear o e positions len line i (i + len - 1)]
                 else snd st)) as [extra Hextra].
    rewrite Hextra. simpl.
    destruct (0 <? Z.of_nat (length positions)).
    + rewrite <- app_assoc. eauto.
    + eauto.
Qed.

Lemma scanRows_grow (b : GameBoard) (o : Orientation) (lines : list Z) :
  forall st, exists extra,
    snd (fold_left (fun st line => scanLine (Z.to_nat (size b)) b o line 0 st) lines st)
    = snd st ++ extra.
Proof.
  induction lines as [|line lines IH]; intros st; simpl.
  - exists []. now rewrite app_nil_r.
  - destruct (IH (scanLine (Z.to_nat (size b)) b o line 0 st)) as [extra Hextra].
    destruct (scanLine_grows b o line (Z.to_nat (size b)) 0 st) as [extra0 H0].
    rewrite Hextra, H0, <- app_assoc. eauto.
Qed.

Lemma app_not_nil {X} (l extra : list X) : l <> [] -> l ++ extra <> [].
Proof. destruct l; [congruence|discriminate]. Qed.

(** A line that holds three equal matchable cells in a row leaves the
    scan with at least one match. *)
Lemma scanLine_complete (b : GameBoard) (o : Orientation) (line w : Z) (e : Emoji)
    (fuel : nat) :
  matchable e ->
  cellAt b o line w = Some e ->
  cellAt b o line (w + 1) = Some e ->
  cellAt b o line (w + 2) = Some e ->
  forall i st,
  fst st = mjoin (m_positions <$> snd st) ->
  i <= w -> (Z.to_nat (size b - 2 - i) <= fuel)%nat ->
  snd (scanLine fuel b o line i st) <> [].
Proof.
  intros [Hf Hs] C0 C1 C2.
  pose proof (cellAt_Some_bounds b o line (w + 2) e C2) as [_ Hw2].
  induction fuel as [|fuel IH]; intros i st Hvis Hi Hfuel; [lia|].
  rewrite scanLine_S.
  destruct (i <? size b - 2) eqn:Hlt; [|lia].
  destruct (cellAt b o line i) as [e'|] eqn:Hc.
  - destruct (falsy (Some e') || isSpecialEmoji (Some e')) eqn:Hm.
    + apply IH; [assumption| |lia].
      destruct (decide (i = w)) as [->|]; [|lia].
      rewrite C0 in Hc. injection Hc as <-. rewrite Hf, Hs in Hm. discriminate.
    + pose proof (cellAt_Some_bounds b o line i e' Hc) as [_ Hib].
      destruct (countRun_spec b o line e' (Z.to_nat (size b)) 1 (i + 1))
        as (current & Heq & Hle & Hcells & Hstop); [lia|].
      rewrite Heq.
      destruct (1 + (current - (i + 1)) >=? 3) eqn:Hlen.
      * rewrite collectPositions_spec. simpl app.
        rewrite Z2Nat.id by lia. cbv zeta.
        match goal with
        | |- snd (scanLine _ _ _ _ _ ?st') <> [] =>
            destruct (scanLine_grows b o line fuel (current - 1 + 1) st')
              as [extra ->]
        end.
        apply app_not_nil. simpl.
        destruct (0 <? Z.of_nat (length _)) eqn:Hne;
          [intros H; now apply app_eq_nil in H as [_ H]|].
        assert (Hin : posAt o line i ∈ fst st).
        { destruct (decide (posAt o line i ∈ fst st)) as [|Hnot]; [assumption|].
          exfalso. rewrite runPositions_cons' in Hne by lia.
          rewrite filter_cons_True in Hne by assumption.
          apply Z.ltb_ge in Hne. simpl in Hne. lia. }
        rewrite Hvis in Hin. intros Hnil. rewrite Hnil in Hin.
        now apply elem_of_nil in Hin.
      * apply IH; [assumption| |lia].
        destruct (decide (i = w)) as [->|]; [|lia].
        exfalso. rewrite C0 in Hc. injection Hc as <-.
        destruct (decide (current = w + 1)) as [->|]; [now apply Hstop|].
        destruct (decide (current = w + 2)) as [->|]; [now apply Hstop|].
        lia.
  - apply IH; [assumption| |lia].
    destruct (decide (i = w)) as [->|]; [congruence|lia].
Qed.

Lemma scanLines_complete (b : GameBoard) (o : Orientation) (line w : Z) (e : Emoji)
    (st : ScanState) :
  matchable e ->
  cellAt b o line w = Some e ->
  cellAt b o line (w + 1) = Some e ->
  cellAt b o line (w + 2) = Some e ->
  ScanInv b o 0 0 st ->
  snd (scanLines b o st) <> [].
Proof.
  intros He C0 C1 C2 Hinv.
  pose proof (cellAt_Some_bounds b o line w e C0) as [Hl Hw].
  unfold scanLines.
  replace (seqZ 0 (size b)) with (seqZ 0 (line + (size b - line)))
    by (f_equal; lia).
  rewrite seqZ_app by lia.
  rewrite (seqZ_cons (0 + line)) by lia.
  rewrite fold_left_app. simpl fold_left.
  destruct (scanLines_from_inv b o (Z.to_nat line) 0 st Hinv)
    as (l1 & i1 & Hinv1).
  rewrite Z2Nat.id in Hinv1 by lia.
  match goal with
  | |- snd (fold_left ?f ?rest (scanLine ?fuel b o ?ln 0 ?st1)) <> [] =>
      destruct (scanRows_grow b o rest (scanLine fuel b o ln 0 st1)) as [extra ->];
      replace ln with line by lia
  end.
  apply app_not_nil.
  apply (scanLine_complete b o line w e); try assumption; try lia.
  apply (inv_visited _ _ _ _ _ Hinv1).
Qed.

(** Wherever three equal matchable cells lie in a row, [findMatches]
    reports at least one match. *)
Lemma findMatches_complete (b : GameBoard) (o : Orientation) (line w : Z) (e : Emoji) :
  matchable e ->
  cellAt b o line w = Some e ->
  cellAt b o line (w + 1) = Some e ->
  cellAt b o line (w + 2) = Some e ->
  findMatches b <> [].
Proof.
  intros He C0 C1 C2. unfold findMatches. destruct o.
  - unfold scanLines at 1.
    destruct (scanRows_grow b vertical (seqZ 0 (size b))
                (scanLines b horizontal ([], []))) as [extra ->].
    apply app_not_nil.
    apply (scanLines_complete b horizontal line w e); try assumption.
    apply scan_start_inv.
  - apply (scanLines_complete b vertical line w e); try assumption.
    apply scan_between_inv.
Qed.

Lemma rawAt_cellAt (b : GameBoard) (o : Orientation) (line i : Z) :
  0 <= line < size b -> 0 <= i < size b ->
  cellAt b o line i = rawAt b o line i.
Proof.
  intros Hl Hi. destruct o; unfold cellAt, rawAt; apply getEmoji_valid;
    apply isValidPosition_spec; lia.
Qed.

(** On a board without special or empty cells, [hasMatches] holds
    exactly when [findMatches] reports a match. *)
Lemma hasMatches_iff_findMatches (b : GameBoard) :
  plainBoard b = true ->
  hasMatches b = true <-> findMatches b <> [].
Proof.
  intros Hp. split.
  - intros H. apply hasMatches_window in H
      as (o & line & w & emoji & Hl & Hw0 & Hw2 & R0 & R1 & R2).
    assert (He : exists e, emoji = Some e /\ matchable e).
    { destruct o; simpl in R0.
      - destruct (plainBoard_spec b line w Hp) as (e & E & M); try lia.
        exists e. split; [congruence|assumption].
      - destruct (plainBoard_spec b w line Hp) as (e & E & M); try lia.
        exists e. split; [congruence|assumption]. }
    destruct He as (e & -> & He).
    apply (findMatches_complete b o line w e); try assumption;
      rewrite rawAt_cellAt by lia; assumption.
  - intros H. destruct (findMatches b) as [|m ms] eqn:E; [congruence|].
    apply (hasMatches_of_run b m), (ok_good _ _ (findMatches_ok b)).
    rewrite E. now left.
Qed.

Lemma plainBoard_iff (b : GameBoard) :
  plainBoard b = true <->
  forall r c, 0 <= r < size b -> 0 <= c < size b ->
    negb (falsy (gridGet (grid b) r c))
    && negb (isSpecialEmoji (gridGet (grid b) r c)) = true.
Proof.
  unfold plainBoard. rewrite forallb_forall. split.
  - intros H r c Hr Hc. specialize (H r). rewrite forallb_forall in H.
    apply H; apply list_elem_of_In, elem_of_seqZ; lia.
  - intros H r Hr. apply forallb_forall. intros c Hc.
    apply list_elem_of_In, elem_of_seqZ in Hr, Hc. apply H; lia.
Qed.

Lemma plainBoard_swap (b : GameBoard) (pos1 pos2 : Position) :
  validBoard b = true -> plainBoard b = true ->
  plainBoard (snd (swapEmojis b pos1 pos2)) = true.
Proof.
  intros Hb Hp.
  destruct (isValidPosition b (row pos1) (col pos1)) eqn:V1; cycle 1.
  { now rewrite swapEmojis_invalid by auto. }
  destruct (isValidPosition b (row pos2) (col pos2)) eqn:V2; cycle 1.
  { now rewrite swapEmojis_invalid by auto. }
  apply plainBoard_iff. rewrite swapEmojis_size. intros r c Hr Hc.
  rewrite swapEmojis_gridGet by (assumption || lia).
  apply isValidPosition_spec in V1, V2.
  pose proof (proj1 (plainBoard_iff b) Hp) as H.
  repeat case_decide; apply H; lia.
Qed.

(** On a well-formed board without special or empty cells,
    [getPossibleMoves] returns exactly the swaps with a right or lower
    neighbour after which the match detector finds a match. *)
Lemma getPossibleMoves_plain (b : GameBoard) :
  validBoard b = true -> plainBoard b = true ->
  fst (getPossibleMoves b)
  = filter (detectorMatchAfter b) (candidateMoves (size b)).
Proof.
  intros Hb Hp. rewrite getPossibleMoves_spec by assumption. simpl.
  apply list_filter_iff. intros mv.
  unfold boardMatchAfter, detectorMatchAfter.
  apply hasMatches_iff_findMatches. now apply plainBoard_swap.
Qed.

(** C7 fails on [threeBombsBoard]: [getPossibleMoves] returns the swap
    of (0,2) and (1,2), which lines up three bombs; the match detector
    finds no match on the board after that swap, linear or shaped, and
    [attemptSwap] rejects it. *)
Theorem getPossibleMoves_counts_special_runs :
  validBoard threeBombsBoard = true
  /\ fst (getPossibleMoves threeBombsBoard) = [(mkPos 0 2, mkPos 1 2)]
  /\ hasMatches (snd (swapEmojis threeBombsBoard (mkPos 0 2) (mkPos 1 2))) = true
  /\ allMatchesOf (snd (swapEmojis threeBombsBoard (mkPos 0 2) (mkPos 1 2))) = []
  /\ fst (wouldCreateMatches threeBombsBoard (mkPos 0 2) (mkPos 1 2)) = false
  /\ forall processCascadingMatches checkGameEnd,
       fst (attemptSwap processCascadingMatches checkGameEnd threeBombsGame
              (mkPos 0 2) (mkPos 1 2)) = false.
Proof.
  repeat split; try (vm_compute; reflexivity).
Qed.

(** * Further properties of the code *)

(** ** Writing one cell *)

Lemma fold_left_cons {A B} (f : A -> B -> A) (x : B) (l : list B) (a : A) :
  fold_left f (x :: l) a = fold_left f l (f a x).
Proof. reflexivity. Qed.

Lemma board_ext (b1 b2 : GameBoard) :
  validBoard b1 = true -> validBoard b2 = true -> size b1 = size b2 ->
  (forall r c, getEmoji b1 r c = getEmoji b2 r c) ->
  b1 = b2.
Proof.
  intros H1 H2 Hs Hget.
  apply validBoard_spec in H1 as [Hn1 Hw1].
  apply validBoard_spec in H2 as [Hn2 Hw2].
  destruct b1 as [s1 g1], b2 as [s2 g2]. simpl in *. subst s2.
  f_equal. apply (grid_ext (Z.to_nat s1)); auto.
  intros r c Hr Hc.
  specialize (Hget r c).
  rewrite !getEmoji_valid in Hget; auto;
    apply isValidPosition_spec; simpl; lia.
Qed.

Lemma setEmoji_size (b : GameBoard) (r c : Z) (v : Cell) :
  size (setEmoji b r c v) = size b.
Proof. unfold setEmoji. destruct (isValidPosition b r c); reflexivity. Qed.

Lemma setEmoji_validBoard (b : GameBoard) (r c : Z) (v : Cell) :
  validBoard b = true -> validBoard (setEmoji b r c v) = true.
Proof.
  intros H. unfold setEmoji. destruct (isValidPosition b r c); auto.
  apply validBoard_spec in H as [Hn Hw].
  apply validBoard_spec. simpl. split; auto using gridSet_wf.
Qed.

Lemma setEmoji_getEmoji (b : GameBoard) (r c : Z) (v : Cell) (r' c' : Z) :
  validBoard b = true ->
  getEmoji (setEmoji b r c v) r' c' =
  if decide (isValidPosition b r c = true /\ r' = r /\ c' = c)
  then v else getEmoji b r' c'.
Proof.
  intros H.
  destruct (isValidPosition b r' c') eqn:Hv'.
  - rewrite (getEmoji_valid b r' c') by auto.
    rewrite getEmoji_valid
      by (unfold isValidPosition in *; rewrite setEmoji_size; auto).
    unfold setEmoji.
    destruct (isValidPosition b r c) eqn:Hv.
    + apply validBoard_spec in H as [Hn Hw].
      apply isValidPosition_spec in Hv, Hv'. simpl.
      rewrite (gridGet_gridSet (Z.to_nat (size b))) by (auto; lia).
      repeat case_decide; auto; tauto.
    + case_decide as Hd; auto. destruct Hd; discriminate.
  - rewrite (getEmoji_invalid b r' c') by auto.
    rewrite getEmoji_invalid
      by (unfold isValidPosition in *; rewrite setEmoji_size; auto).
    case_decide as Hd; auto.
    destruct Hd as (Hv & -> & ->). congruence.
Qed.

(** ** Removing tiles *)

Lemma removeEmojis_cons (b : GameBoard) (p : Position) (ps : list Position) :
  removeEmojis b (p :: ps) = removeEmojis (setEmoji b (row p) (col p) None) ps.
Proof. reflexivity. Qed.

Lemma removeEmojis_size (ps : list Position) :
  forall b, size (removeEmojis b ps) = size b.
Proof.
  induction ps as [|p ps IH]; intros b; [reflexivity|].
  rewrite removeEmojis_cons, IH. apply setEmoji_size.
Qed.

Lemma removeEmojis_validBoard (ps : list Position) :
  forall b, validBoard b = true -> validBoard (removeEmojis b ps) = true.
Proof.
  induction ps as [|p ps IH]; intros b H; [exact H|].
  rewrite removeEmojis_cons. apply IH, setEmoji_validBoard, H.
Qed.

Lemma removeEmojis_getEmoji (ps : list Position) :
  forall b r c,
  validBoard b = true ->
  getEmoji (removeEmojis b ps) r c =
  if decide (mkPos r c ∈ ps) then None else getEmoji b r c.
Proof.
  induction ps as [|p ps IH]; intros b r c H.
  - reflexivity.
  - rewrite removeEmojis_cons, IH by (apply setEmoji_validBoard, H).
    rewrite setEmoji_getEmoji by auto.
    destruct (decide (mkPos r c ∈ ps)) as [Hin|Hin].
    + rewrite decide_True; auto. now right.
    + destruct (decide (mkPos r c = p)) as [<-|Hne].
      * rewrite (decide_True (P := mkPos r c ∈ mkPos r c :: ps)) by now left.
        simpl. case_decide as Hd; auto.
        destruct (isValidPosition b r c) eqn:Hv.
        -- exfalso. apply Hd. auto.
        -- now apply getEmoji_invalid.
      * rewrite (decide_False (P := mkPos r c ∈ p :: ps)).
        2:{ intros [?|?]%elem_of_cons; auto. }
        case_decide as Hd; auto.
        destruct Hd as (_ & -> & ->). destruct p; simpl in *. congruence.
Qed.

(** ** Gravity *)

Lemma column_length (n : nat) (g : list (list Cell)) (c : Z) :
  length (column n g c) = n.
Proof. unfold column. rewrite length_fmap, length_seqZ. lia. Qed.

Lemma column_lookup (n : nat) (g : list (list Cell)) (c : Z) (i : nat) :
  (i < n)%nat -> column n g c !! i = Some (gridGet g (Z.of_nat i) c).
Proof.
  intros Hi. unfold column.
  rewrite list_lookup_fmap, lookup_seqZ_lt by lia. reflexivity.
Qed.

Lemma column_ext (n : nat) (g1 g2 : list (list Cell)) (c : Z) :
  (forall r, 0 <= r < Z.of_nat n -> gridGet g1 r c = gridGet g2 r c) ->
  column n g1 c = column n g2 c.
Proof.
  intros H. apply list_eq. intros i.
  destruct (decide (i < n)%nat) as [Hi|Hi].
  - rewrite !column_lookup by auto. f_equal. apply H. lia.
  - rewrite !(proj2 (lookup_ge_None _ _)); auto; rewrite column_length; lia.
Qed.

Lemma column_gridSet_same (n : nat) (g : list (list Cell)) (r : nat) (c : Z) (v : Cell) :
  wfGrid n g -> (r < n)%nat -> 0 <= c < Z.of_nat n ->
  column n (gridSet g (Z.of_nat r) c v) c = <[r := v]> (column n g c).
Proof.
  intros Hw Hr Hc. apply list_eq. intros i.
  rewrite list_lookup_insert, column_length.
  destruct (decide (i < n)%nat) as [Hi|Hi].
  - rewrite !column_lookup by auto.
    rewrite (gridGet_gridSet n) by (auto; lia).
    repeat case_decide; auto; exfalso; lia.
  - rewrite !(proj2 (lookup_ge_None _ _)) by (rewrite column_length; lia).
    case_decide; auto. lia.
Qed.

Lemma column_gridSet_other (n : nat) (g : list (list Cell)) (r c c' : Z) (v : Cell) :
  wfGrid n g -> 0 <= r < Z.of_nat n -> 0 <= c < Z.of_nat n -> 0 <= c' -> c' <> c ->
  column n (gridSet g r c v) c' = column n g c'.
Proof.
  intros Hw Hr Hc Hc' Hne. apply column_ext. intros r' Hr'.
  rewrite (gridGet_gridSet n) by (auto; lia).
  case_decide; auto. lia.
Qed.

Lemma tiles_length (cells : list Cell) : (length (tiles cells) <= length cells)%nat.
Proof. apply length_filter. Qed.

Lemma tiles_cons_None (cells : list Cell) : tiles (None :: cells) = tiles cells.
Proof. unfold tiles. rewrite filter_cons. case_decide; congruence. Qed.

Lemma tiles_cons_Some (e : Emoji) (cells : list Cell) :
  tiles (Some e :: cells) = Some e :: tiles cells.
Proof. unfold tiles. rewrite filter_cons. case_decide; congruence. Qed.

Lemma fallenFrom_all (cells : list Cell) : fallenFrom (length cells) cells = cells.
Proof.
  unfold fallenFrom. rewrite take_ge, drop_ge by lia.
  replace (length cells - length cells - length (tiles []))%nat with 0%nat by lia.
  simpl. apply app_nil_r.
Qed.

Lemma fallenFrom_0 (cells : list Cell) : fallenFrom 0 cells = settled cells.
Proof.
  unfold fallenFrom, settled. rewrite take_0, drop_0. simpl.
  now rewrite Nat.sub_0_r.
Qed.

(** A tile falls over [S k] empty cells. *)
Lemma fall_step (above : list Cell) (e : Emoji) (k : nat) (below : list Cell) :
  <[length above := None]>
    (<[(length above + S k)%nat := Some e]>
       (above ++ Some e :: replicate (S k) None ++ below))
  = above ++ replicate (S k) None ++ Some e :: below.
Proof.
  rewrite insert_app_r_alt by lia.
  replace (length above + S k - length above)%nat with (S k) by lia.
  rewrite insert_app_r_alt by lia.
  rewrite Nat.sub_diag. f_equal.
  change (<[0%nat := None]> (<[S k := Some e]> (Some e :: replicate (S k) None ++ below)))
    with (None :: <[k := Some e]> (replicate (S k) None ++ below)).
  rewrite replicate_S. rewrite <- app_comm_cons. f_equal.
  clear above. induction k as [|k IH]; [reflexivity|].
  rewrite replicate_S. simpl. f_equal. exact IH.
Qed.

(** The inner loop of [applyGravity] at row [i]: the rows below [i] have
    been visited. *)
Lemma gravityCell_step (b : GameBoard) (n : nat) (c : Z) (i : nat)
    (g : list (list Cell)) (ms : list Movement) :
  let cells := column n (grid b) c in
  size b = Z.of_nat n ->
  wfGrid n g -> 0 <= c < Z.of_nat n -> (i < n)%nat ->
  column n g c = fallenFrom (S i) cells ->
  exists g' ms',
    gravityCell c
      (g, ms, Z.of_nat n - 1 - Z.of_nat (length (tiles (drop (S i) cells))))
      (Z.of_nat i)
    = (g', ms ++ ms', Z.of_nat n - 1 - Z.of_nat (length (tiles (drop i cells))))
    /\ wfGrid n g'
    /\ column n g' c = fallenFrom i cells
    /\ (forall c', 0 <= c' -> c' <> c -> column n g' c' = column n g c')
    /\ Forall (fallOf b) ms'.
Proof.
  intros cells Hsz Hw Hc Hi Hcol.
  assert (Hlen : length cells = n) by apply column_length.
  assert (Hx : cells !! i = Some (gridGet (grid b) (Z.of_nat i) c))
    by (apply column_lookup; auto).
  assert (Hgi : gridGet g (Z.of_nat i) c = gridGet (grid b) (Z.of_nat i) c).
  { assert (H1 := column_lookup n g c i Hi).
    rewrite Hcol in H1. unfold fallenFrom in H1.
    rewrite lookup_app_l in H1 by (rewrite length_take; lia).
    rewrite lookup_take_lt in H1 by lia. congruence. }
  assert (Htl := tiles_length (drop (S i) cells)).
  rewrite length_drop in Htl.
  unfold gravityCell. rewrite Hgi.
  rewrite (drop_S _ _ _ Hx).
  unfold fallenFrom in Hcol |- *.
  rewrite (take_S_r _ _ _ Hx) in Hcol.
  rewrite (drop_S _ _ _ Hx).
  set (below := tiles (drop (S i) cells)) in *.
  destruct (gridGet (grid b) (Z.of_nat i) c) as [e|] eqn:Hcell.
  - rewrite tiles_cons_Some. fold below. simpl length.
    destruct (Z.of_nat i =? Z.of_nat n - 1 - Z.of_nat (length below)) eqn:Heq; simpl negb; cbv iota.
    + apply Z.eqb_eq in Heq.
      exists g, []. rewrite app_nil_r.
      split; [f_equal; lia|]. split; [exact Hw|]. split; [|split; [auto|constructor]].
      rewrite Hcol.
      replace (length cells - S i - length below)%nat with 0%nat by lia.
      replace (length cells - i - S (length below))%nat with 0%nat by lia.
      simpl. now rewrite <- app_assoc.
    + apply Z.eqb_neq in Heq.
      set (k := (n - S i - length below - 1)%nat).
      assert (Hk : (length cells - S i - length below)%nat = S k) by (unfold k; lia).
      assert (Hwp : Z.of_nat n - 1 - Z.of_nat (length below) = Z.of_nat (i + S k))
        by (unfold k; lia).
      rewrite Hwp.
      eexists _, [_]. split; [f_equal; lia|].
      split; [auto using gridSet_wf|].
      split; [|split].
      * rewrite column_gridSet_same by (auto using gridSet_wf; lia).
        rewrite column_gridSet_same by (auto; lia).
        rewrite Hcol, Hk.
        replace (length cells - i - S (length below))%nat with (S k) by lia.
        rewrite <- app_assoc.
        assert (Hti : length (take i cells) = i) by (rewrite length_take; lia).
        rewrite <- Hti at 1 2.
        change ([Some e] ++ replicate (S k) None ++ below)
          with (Some e :: replicate (S k) None ++ below).
        apply fall_step.
      * intros c' Hc' Hne.
        rewrite column_gridSet_other by (auto using gridSet_wf; lia).
        rewrite column_gridSet_other by (auto; lia).
        reflexivity.
      * constructor; [|constructor].
        unfold fallOf. simpl.
        rewrite getEmoji_valid by (apply isValidPosition_spec; lia).
        rewrite Hcell. repeat split; try lia; congruence.
  - rewrite tiles_cons_None. fold below.
    exists g, []. rewrite app_nil_r.
    split; [reflexivity|]. split; [exact Hw|]. split; [|split; [auto|constructor]].
    rewrite Hcol.
    replace (length cells - i - length below)%nat
      with (S (length cells - S i - length below))%nat by lia.
    rewrite replicate_S. now rewrite <- app_assoc.
Qed.

Lemma gravityCell_fold (b : GameBoard) (n : nat) (c : Z) :
  let cells := column n (grid b) c in
  size b = Z.of_nat n -> 0 <= c < Z.of_nat n ->
  forall (i : nat) (g : list (list Cell)) (ms : list Movement),
  (i <= n)%nat -> wfGrid n g ->
  column n g c = fallenFrom i cells ->
  exists g' ms' w',
    fold_left (gravityCell c) (reverse (seqZ 0 (Z.of_nat i)))
      (g, ms, Z.of_nat n - 1 - Z.of_nat (length (tiles (drop i cells))))
    = (g', ms ++ ms', w')
    /\ wfGrid n g'
    /\ column n g' c = settled cells
    /\ (forall c', 0 <= c' -> c' <> c -> column n g' c' = column n g c')
    /\ Forall (fallOf b) ms'.
Proof.
  intros cells Hsz Hc. induction i as [|i IH]; intros g ms Hi Hw Hcol.
  - exists g, [], (Z.of_nat n - 1 - Z.of_nat (length (tiles (drop 0 cells)))).
    rewrite app_nil_r. simpl. rewrite fallenFrom_0 in Hcol. auto.
  - rewrite seqZ_S, reverse_snoc, fold_left_cons.
    destruct (gravityCell_step b n c i g ms Hsz Hw Hc ltac:(lia) Hcol)
      as (g1 & ms1 & Hstep & Hw1 & Hcol1 & Hoth1 & Hms1).
    replace (0 + Z.of_nat i) with (Z.of_nat i) by lia.
    fold cells in Hstep, Hcol1. rewrite Hstep.
    destruct (IH g1 (ms ++ ms1) ltac:(lia) Hw1 Hcol1)
      as (g2 & ms2 & w2 & Hfold & Hw2 & Hcol2 & Hoth2 & Hms2).
    exists g2, (ms1 ++ ms2), w2. rewrite Hfold, app_assoc.
    split; [reflexivity|]. split; [exact Hw2|]. split; [exact Hcol2|].
    split.
    + intros c' Hc' Hne. rewrite Hoth2, Hoth1; auto.
    + apply Forall_app; auto.
Qed.

Lemma gravityColumn_spec (b : GameBoard) (n : nat) (c : Z)
    (g : list (list Cell)) (ms : list Movement) :
  size b = Z.of_nat n -> 0 <= c < Z.of_nat n -> wfGrid n g ->
  column n g c = column n (grid b) c ->
  exists g' ms',
    gravityColumn (Z.of_nat n) (g, ms) c = (g', ms ++ ms')
    /\ wfGrid n g'
    /\ column n g' c = settled (column n (grid b) c)
    /\ (forall c', 0 <= c' -> c' <> c -> column n g' c' = column n g c')
    /\ Forall (fallOf b) ms'.
Proof.
  intros Hsz Hc Hw Hcol.
  destruct (gravityCell_fold b n c Hsz Hc n g ms ltac:(lia) Hw)
    as (g' & ms' & w' & Hfold & H).
  { rewrite Hcol. symmetry.
    rewrite <- (column_length n (grid b) c) at 1. apply fallenFrom_all. }
  exists g', ms'. split; [|exact H].
  unfold gravityColumn. simpl fst. simpl snd.
  rewrite drop_ge in Hfold by (rewrite column_length; lia).
  simpl in Hfold. rewrite Z.sub_0_r in Hfold. now rewrite Hfold.
Qed.

Lemma gravityColumns_spec (b : GameBoard) (n : nat) :
  size b = Z.of_nat n -> wfGrid n (grid b) ->
  forall j : nat, (j <= n)%nat ->
  exists g' ms',
    fold_left (gravityColumn (Z.of_nat n)) (seqZ 0 (Z.of_nat j)) (grid b, [])
    = (g', ms')
    /\ wfGrid n g'
    /\ (forall c, 0 <= c < Z.of_nat j ->
          column n g' c = settled (column n (grid b) c))
    /\ (forall c, Z.of_nat j <= c -> column n g' c = column n (grid b) c)
    /\ Forall (fallOf b) ms'.
Proof.
  intros Hsz Hw. induction j as [|j IH]; intros Hj.
  - exists (grid b), []. simpl.
    split; [reflexivity|]. split; [exact Hw|]. split; [intros; lia|].
    split; [reflexivity|constructor].
  - destruct (IH ltac:(lia)) as (g1 & ms1 & Hfold & Hw1 & Hdone & Hrest & Hms1).
    rewrite seqZ_S, fold_left_app, Hfold, fold_left_cons. cbn [fold_left].
    replace (0 + Z.of_nat j) with (Z.of_nat j) by lia.
    destruct (gravityColumn_spec b n (Z.of_nat j) g1 ms1 Hsz ltac:(lia) Hw1)
      as (g2 & ms2 & Hcol & Hw2 & Hset & Hoth & Hms2).
    { apply Hrest. lia. }
    exists g2, (ms1 ++ ms2). split; [exact Hcol|]. split; [exact Hw2|].
    split; [|split].
    + intros c Hc. destruct (decide (c = Z.of_nat j)) as [->|Hne]; [exact Hset|].
      rewrite Hoth by lia. apply Hdone. lia.
    + intros c Hc. rewrite Hoth by lia. apply Hrest. lia.
    + apply Forall_app; auto.
Qed.

Lemma applyGravity_spec (b : GameBoard) :
  validBoard b = true ->
  validBoard (snd (applyGravity b)) = true
  /\ size (snd (applyGravity b)) = size b
  /\ (forall c, 0 <= c < size b ->
        column (Z.to_nat (size b)) (grid (snd (applyGravity b))) c
        = settled (column (Z.to_nat (size b)) (grid b) c))
  /\ Forall (fallOf b) (fst (applyGravity b)).
Proof.
  intros H. apply validBoard_spec in H as [Hn Hw].
  set (n := Z.to_nat (size b)) in *.
  assert (Hsz : size b = Z.of_nat n) by (unfold n; lia).
  destruct (gravityColumns_spec b n Hsz Hw n ltac:(lia))
    as (g' & ms' & Hfold & Hw' & Hdone & _ & Hms).
  rewrite <- Hsz in Hfold.
  unfold applyGravity. rewrite Hfold. simpl.
  split; [apply validBoard_spec; simpl; fold n; auto|].
  split; [reflexivity|]. split; [|exact Hms].
  intros c Hc. apply Hdone. lia.
Qed.

Lemma tiles_app (l1 l2 : list Cell) : tiles (l1 ++ l2) = tiles l1 ++ tiles l2.
Proof. apply filter_app. Qed.

Lemma tiles_replicate_None (k : nat) : tiles (replicate k None) = [].
Proof.
  induction k as [|k IH]; [reflexivity|].
  rewrite replicate_S, tiles_cons_None. exact IH.
Qed.

Lemma tiles_not_None (l : list Cell) (x : Cell) : x ∈ tiles l -> x <> None.
Proof. unfold tiles. rewrite list_elem_of_filter. tauto. Qed.

Lemma tiles_tiles (l : list Cell) : tiles (tiles l) = tiles l.
Proof. apply filter_all. intros x. apply tiles_not_None. Qed.

Lemma tiles_full (l : list Cell) : None ∉ l -> tiles l = l.
Proof. intros H. apply filter_all. intros x Hx ->. auto. Qed.

Lemma settled_tiles (l : list Cell) : tiles (settled l) = tiles l.
Proof.
  unfold settled. now rewrite tiles_app, tiles_replicate_None, tiles_tiles.
Qed.

Lemma settled_length (l : list Cell) : length (settled l) = length l.
Proof.
  unfold settled. rewrite length_app, length_replicate.
  assert (H := tiles_length l). lia.
Qed.

Lemma settled_settled (l : list Cell) : settled (settled l) = settled l.
Proof.
  unfold settled at 1. rewrite settled_tiles, settled_length. reflexivity.
Qed.

Lemma settled_full (l : list Cell) : None ∉ l -> settled l = l.
Proof.
  intros H. unfold settled. rewrite tiles_full by auto.
  now rewrite Nat.sub_diag.
Qed.

(** In a settled column there is no empty cell below a tile. *)
Lemma settled_no_gap (l : list Cell) (i j : nat) (e : Emoji) :
  (i < j < length l)%nat -> settled l !! i = Some (Some e) ->
  exists e', settled l !! j = Some (Some e').
Proof.
  intros Hij Hi. unfold settled in *.
  set (k := (length l - length (tiles l))%nat) in *.
  assert (Hl := tiles_length l).
  destruct (decide (i < k)%nat) as [Hik|Hik].
  - rewrite lookup_app_l in Hi by (rewrite length_replicate; lia).
    apply lookup_replicate in Hi as [? _]. discriminate.
  - rewrite lookup_app_r by (rewrite length_replicate; lia).
    rewrite length_replicate.
    destruct (tiles l !! (j - k)%nat) as [x|] eqn:Hx.
    + destruct x as [e'|]; [eauto|].
      apply list_elem_of_lookup_2, tiles_not_None in Hx. congruence.
    + apply lookup_ge_None in Hx. unfold k in *. lia.
Qed.

Lemma columns_ext (n : nat) (g1 g2 : list (list Cell)) :
  wfGrid n g1 -> wfGrid n g2 ->
  (forall c, 0 <= c < Z.of_nat n -> column n g1 c = column n g2 c) ->
  g1 = g2.
Proof.
  intros H1 H2 H. apply (grid_ext n); auto.
  intros r c Hr Hc. specialize (H c Hc).
  assert (Hl := column_lookup n g1 c (Z.to_nat r) ltac:(lia)).
  rewrite H, column_lookup in Hl by lia.
  rewrite Z2Nat.id in Hl by lia. congruence.
Qed.

Lemma column_getEmoji (b : GameBoard) (r c : Z) :
  0 <= r < size b -> 0 <= c < size b ->
  column (Z.to_nat (size b)) (grid b) c !! Z.to_nat r = Some (getEmoji b r c).
Proof.
  intros Hr Hc. rewrite column_lookup by lia. rewrite Z2Nat.id by lia.
  rewrite getEmoji_valid; auto. apply isValidPosition_spec. lia.
Qed.

Lemma applyGravity_idem (b : GameBoard) :
  validBoard b = true ->
  snd (applyGravity (snd (applyGravity b))) = snd (applyGravity b).
Proof.
  intros H.
  destruct (applyGravity_spec b H) as (Hv1 & Hs1 & Hc1 & _).
  destruct (applyGravity_spec _ Hv1) as (Hv2 & Hs2 & Hc2 & _).
  set (b1 := snd (applyGravity b)) in *.
  set (b2 := snd (applyGravity b1)) in *.
  apply validBoard_spec in Hv1 as [Hn1 Hw1].
  apply validBoard_spec in Hv2 as [Hn2 Hw2].
  destruct b1 as [s1 g1], b2 as [s2 g2]. simpl in *. subst s2.
  f_equal. apply (columns_ext (Z.to_nat s1)); auto.
  intros c Hc. rewrite Hc2 by lia. subst s1. rewrite Hc1 by lia.
  apply settled_settled.
Qed.

Lemma applyGravity_full (b : GameBoard) :
  validBoard b = true ->
  (forall r c, 0 <= r < size b -> 0 <= c < size b -> getEmoji b r c <> None) ->
  snd (applyGravity b) = b.
Proof.
  intros H Hfull.
  destruct (applyGravity_spec b H) as (Hv1 & Hs1 & Hc1 & _).
  set (b1 := snd (applyGravity b)) in *.
  apply validBoard_spec in Hv1 as [Hn1 Hw1].
  apply validBoard_spec in H as [Hn Hw].
  destruct b1 as [s1 g1], b as [s g]. simpl in *. subst s1.
  f_equal. apply (columns_ext (Z.to_nat s)); auto.
  intros c Hc. rewrite Hc1 by lia.
  apply settled_full. intros Hin.
  apply list_elem_of_lookup in Hin as [i Hi].
  assert (Hlt : (i < Z.to_nat s)%nat).
  { apply lookup_lt_Some in Hi. now rewrite column_length in Hi. }
  assert (Hg := column_getEmoji (mkBoard s g) (Z.of_nat i) c).
  simpl in Hg. rewrite Nat2Z.id in Hg. rewrite Hg in Hi by lia.
  apply (Hfull (Z.of_nat i) c); try lia. congruence.
Qed.

(** ** Random picks and the refill *)

(** [Math.floor(Math.random() * n)] is an index of an array of [n]
    entries. *)
Lemma floor_index (x : Q) (n : nat) :
  (0 <= x)%Q -> (x < 1)%Q -> (0 < n)%nat ->
  0 <= Math_floor (x * inject_Z (Z.of_nat n)) < Z.of_nat n.
Proof.
  intros H0 H1 Hn. unfold Math_floor.
  assert (Hpos : (0 < inject_Z (Z.of_nat n))%Q).
  { change 0%Q with (inject_Z 0). rewrite <- Zlt_Qlt. lia. }
  split.
  - rewrite <- (Qfloor_Z 0). apply Qfloor_resp_le.
    apply Qmult_le_0_compat; auto. now apply Qlt_le_weak.
  - rewrite Zlt_Qlt.
    apply Qle_lt_trans with (x * inject_Z (Z.of_nat n))%Q; [apply Qfloor_le|].
    rewrite <- (Qmult_1_l (inject_Z (Z.of_nat n))) at 2.
    now apply Qmult_lt_compat_r.
Qed.

Lemma arrayGet_index {X} (arr : list X) (i : Z) :
  0 <= i < Z.of_nat (length arr) -> exists x, arrayGet arr i = Some x /\ x ∈ arr.
Proof.
  intros Hi. unfold arrayGet.
  destruct (i <? 0) eqn:E; [apply Z.ltb_lt in E; lia|].
  destruct (arr !! Z.to_nat i) as [x|] eqn:Hx.
  - exists x. split; auto. eapply list_elem_of_lookup_2; eauto.
  - apply lookup_ge_None in Hx. lia.
Qed.

Lemma randomEmoji_basic (rnd : nat -> Q) (k : nat) :
  unitStream rnd -> exists e, randomEmoji rnd k = Some e /\ e ∈ emojis.
Proof.
  intros Hr. destruct (Hr k) as [H0 H1].
  unfold randomEmoji. apply arrayGet_index.
  apply floor_index; auto. simpl. lia.
Qed.

Lemma fold_left_nested {A B S} (f : A -> S -> B -> S) (outer : list A)
    (inner : list B) :
  forall s,
  fold_left (fun acc a => fold_left (f a) inner acc) outer s
  = fold_left (fun acc ab => f (fst ab) acc (snd ab))
              (flat_map (fun a => map (pair a) inner) outer) s.
Proof.
  induction outer as [|a outer IH]; intros s; [reflexivity|].
  simpl. rewrite fold_left_app, <- IH. f_equal.
  clear. revert s. induction inner as [|x inner IH]; intros s; [reflexivity|].
  simpl. apply IH.
Qed.

Lemma elem_of_cells (outer inner : list Z) (a x : Z) :
  (a, x) ∈ flat_map (fun a => map (pair a) inner) outer <-> a ∈ outer /\ x ∈ inner.
Proof.
  rewrite list_elem_of_In, in_flat_map. split.
  - intros (a' & Ha & Hin). apply in_map_iff in Hin as (x' & Heq & Hx).
    inversion Heq; subst. split; now apply list_elem_of_In.
  - intros [Ha Hx]. exists a. split; [now apply list_elem_of_In|].
    apply in_map_iff. exists x. split; auto. now apply list_elem_of_In.
Qed.

Lemma elem_of_seqZ_0 (n x : Z) : x ∈ seqZ 0 n <-> 0 <= x < n.
Proof. rewrite elem_of_seqZ. lia. Qed.

(** The loops of [fillEmpty] over a list of cells [(c, r)]. *)
Lemma fillCells_spec (rnd : nat -> Q) (n : nat) (cells : list (Z * Z)) :
  unitStream rnd ->
  (forall c r, (c, r) ∈ cells -> 0 <= r < Z.of_nat n /\ 0 <= c < Z.of_nat n) ->
  forall g news k, wfGrid n g ->
  exists g' news',
    fold_left (fun acc cr => fillCell rnd (fst cr) acc (snd cr)) cells (g, news, k)
    = (g', news ++ news', (k + length news')%nat)
    /\ wfGrid n g'
    /\ (forall r c, 0 <= r < Z.of_nat n -> 0 <= c < Z.of_nat n ->
          gridGet g r c <> None -> gridGet g' r c = gridGet g r c)
    /\ (forall r c, 0 <= r < Z.of_nat n -> 0 <= c < Z.of_nat n ->
          gridGet g r c = None ->
          gridGet g' r c = None
          \/ exists e, e ∈ emojis /\ gridGet g' r c = Some e)
    /\ (forall c r, (c, r) ∈ cells -> gridGet g' r c <> None)
    /\ Forall (fun ne =>
         0 <= ne_row ne < Z.of_nat n /\ 0 <= ne_col ne < Z.of_nat n
         /\ gridGet g (ne_row ne) (ne_col ne) = None
         /\ (exists e, e ∈ emojis /\ ne_emoji ne = Some e)
         /\ gridGet g' (ne_row ne) (ne_col ne) = ne_emoji ne) news'.
Proof.
  intros Hrnd. induction cells as [|[c r] cells IH]; intros Hin g news k Hw.
  - exists g, []. simpl. rewrite app_nil_r, Nat.add_0_r.
    split; [reflexivity|]. split; [exact Hw|]. split; [auto|]. split; [auto|].
    split; [|constructor]. intros c r H. inversion H.
  - rewrite fold_left_cons. cbn [fst snd].
    destruct (Hin c r ltac:(left)) as [Hr Hc].
    assert (Hin' : forall c r, (c, r) ∈ cells ->
              0 <= r < Z.of_nat n /\ 0 <= c < Z.of_nat n)
      by (intros; apply Hin; now right).
    unfold fillCell at 2.
    destruct (bool_decide (gridGet g r c = None)) eqn:Hcell.
    + apply bool_decide_eq_true in Hcell.
      destruct (randomEmoji_basic rnd k Hrnd) as (e & He & Hbasic).
      rewrite He.
      assert (Hw1 : wfGrid n (gridSet g r c (Some e))) by auto using gridSet_wf.
      destruct (IH Hin' (gridSet g r c (Some e)) (news ++ [mkNew r c (Some e)]) (S k) Hw1)
        as (g' & news' & Hfold & Hw' & Hkeep & Hnew & Hdone & Hnews).
      assert (Hrc : gridGet g' r c = Some e).
      { rewrite Hkeep; auto; rewrite (gridGet_gridSet n) by (auto; lia);
          rewrite decide_True by auto; congruence. }
      exists g', (mkNew r c (Some e) :: news').
      rewrite Hfold. split.
      { f_equal; [f_equal; now rewrite <- app_assoc|simpl; lia]. }
      split; [exact Hw'|]. split; [|split; [|split]].
      * intros r' c' Hr' Hc' Hne.
        assert (Hd : ~ (r' = r /\ c' = c)) by (intros [-> ->]; auto).
        rewrite Hkeep; auto; rewrite (gridGet_gridSet n) by (auto; lia);
          rewrite decide_False by auto; auto.
      * intros r' c' Hr' Hc' Hnone.
        destruct (decide (r' = r /\ c' = c)) as [[-> ->]|Hd].
        -- right. eauto.
        -- apply Hnew; auto. rewrite (gridGet_gridSet n) by (auto; lia).
           now rewrite decide_False.
      * intros c' r' [Heq|Hin2]%elem_of_cons.
        -- inversion Heq; subst. congruence.
        -- now apply Hdone.
      * constructor.
        -- simpl. repeat split; try lia; eauto.
        -- eapply Forall_impl; [exact Hnews|].
           intros ne (Hr' & Hc' & Hnone & Hbas & Hval).
           rewrite (gridGet_gridSet n) in Hnone by (auto; lia).
           case_decide; [discriminate|].
           repeat split; auto; lia.
    + apply bool_decide_eq_false in Hcell.
      destruct (IH Hin' g news k Hw)
        as (g' & news' & Hfold & Hw' & Hkeep & Hnew & Hdone & Hnews).
      exists g', news'. rewrite Hfold.
      split; [reflexivity|]. split; [exact Hw'|].
      split; [exact Hkeep|]. split; [exact Hnew|]. split; [|exact Hnews].
      intros c' r' [Heq|Hin2]%elem_of_cons.
      * inversion Heq; subst. rewrite Hkeep; auto.
      * now apply Hdone.
Qed.

Lemma fillEmpty_spec (b : GameBoard) (rnd : nat -> Q) (k : nat) :
  validBoard b = true -> unitStream rnd ->
  exists b' news,
    fillEmpty b rnd k = (news, b', (k + length news)%nat)
    /\ validBoard b' = true /\ size b' = size b
    /\ (forall r c, getEmoji b r c <> None -> getEmoji b' r c = getEmoji b r c)
    /\ (forall r c, 0 <= r < size b -> 0 <= c < size b ->
          getEmoji b r c = None ->
          exists e, e ∈ emojis /\ getEmoji b' r c = Some e)
    /\ Forall (fun ne =>
         getEmoji b (ne_row ne) (ne_col ne) = None
         /\ (exists e, e ∈ emojis /\ ne_emoji ne = Some e)
         /\ getEmoji b' (ne_row ne) (ne_col ne) = ne_emoji ne) news.
Proof.
  intros H Hrnd. apply validBoard_spec in H as [Hn Hw].
  set (n := Z.to_nat (size b)) in *.
  assert (Hcells : forall c r,
            (c, r) ∈ flat_map (fun a => map (pair a) (seqZ 0 (size b))) (seqZ 0 (size b)) ->
            0 <= r < Z.of_nat n /\ 0 <= c < Z.of_nat n).
  { intros c r [Hc Hr]%elem_of_cells. apply elem_of_seqZ_0 in Hc, Hr. lia. }
  destruct (fillCells_spec rnd n _ Hrnd Hcells (grid b) [] k Hw)
    as (g' & news & Hfold & Hw' & Hkeep & Hnew & Hdone & Hnews).
  exists (mkBoard (size b) g'), news.
  assert (Hval : forall bb r c, size bb = size b -> 0 <= r < size b -> 0 <= c < size b ->
            getEmoji bb r c = gridGet (grid bb) r c).
  { intros bb r c Hs Hr Hc. apply getEmoji_valid, isValidPosition_spec. lia. }
  split; [|split; [|split; [|split; [|split]]]].
  - unfold fillEmpty. rewrite fold_left_nested, Hfold. reflexivity.
  - apply validBoard_spec. simpl. auto.
  - reflexivity.
  - intros r c Hne.
    destruct (isValidPosition b r c) eqn:Hv.
    + apply isValidPosition_spec in Hv as [Hr Hc].
      rewrite !Hval in * by auto. simpl. apply Hkeep; auto; lia.
    + rewrite getEmoji_invalid in Hne by auto. congruence.
  - intros r c Hr Hc Hnone.
    rewrite !Hval in * by auto. simpl.
    destruct (Hnew r c ltac:(lia) ltac:(lia) Hnone) as [Hbad|Hok]; [|exact Hok].
    exfalso. apply (Hdone c r); auto.
    apply elem_of_cells. split; apply elem_of_seqZ_0; lia.
  - eapply Forall_impl; [exact Hnews|].
    intros ne (Hr & Hc & Hnone & Hbas & Hv).
    rewrite !Hval by (auto; lia). simpl. auto.
Qed.

(** ** The cascade *)

Lemma createSpecialEmoji_setEmoji (b : GameBoard) (r c : Z) (type : SpecialType) :
  createSpecialEmoji b r c type = setEmoji b r c (Some (specialEmoji type)).
Proof. reflexivity. Qed.

Lemma placeSpecials_cons (b : GameBoard) (s : SpecialEmoji) (specials : list SpecialEmoji) :
  placeSpecials b (s :: specials)
  = placeSpecials (setEmoji b (row (sp_position s)) (col (sp_position s))
                     (Some (specialEmoji (sp_type s)))) specials.
Proof. reflexivity. Qed.

Lemma placeSpecials_validBoard (specials : list SpecialEmoji) :
  forall b, validBoard b = true ->
  validBoard (placeSpecials b specials) = true
  /\ size (placeSpecials b specials) = size b.
Proof.
  induction specials as [|s specials IH]; intros b H; [auto|].
  rewrite placeSpecials_cons.
  destruct (IH (setEmoji b (row (sp_position s)) (col (sp_position s))
                  (Some (specialEmoji (sp_type s)))))
    as [Hv Hs]; [now apply setEmoji_validBoard|].
  split; [exact Hv|]. rewrite Hs. apply setEmoji_size.
Qed.

Lemma pointsPerTile_ge (m : Match) : 10 <= pointsPerTile m.
Proof.
  destruct m as [l|s]; simpl; [|lia].
  destruct (m_length l =? 3); [lia|]. destruct (m_length l =? 4); lia.
Qed.

Lemma specBaseScore_nonneg (ms : list Match) : 0 <= specBaseScore ms.
Proof.
  induction ms as [|m ms IH]; simpl; [lia|].
  assert (H := pointsPerTile_ge m). nia.
Qed.

Lemma specBaseScore_elem (ms : list Match) (m : Match) :
  m ∈ ms -> Z.of_nat (length (positionsOf m)) * pointsPerTile m <= specBaseScore ms.
Proof.
  induction ms as [|m' ms IH]; intros Hin; [inversion Hin|].
  simpl. apply elem_of_cons in Hin as [->|Hin].
  - assert (H := specBaseScore_nonneg ms). lia.
  - specialize (IH Hin). assert (H := pointsPerTile_ge m'). nia.
Qed.

Lemma spanCells_length (m : LinearMatch) :
  length (spanCells m) = Z.to_nat (m_length m).
Proof. unfold spanCells, runPositions. now rewrite length_fmap, length_seqZ. Qed.

(** Whenever [findMatches] reports something, one of the matches has kept
    all the cells of its run. *)
Lemma findMatches_has_three (b : GameBoard) :
  findMatches b <> [] ->
  exists m, m ∈ findMatches b /\ (3 <= length (m_positions m))%nat.
Proof.
  intros Hne. destruct (findMatches_ok b) as [Hgood _ _ Hfull Hvert].
  destruct (filter (fun m => m_type m = horizontal) (findMatches b)) as [|h hs] eqn:Hh.
  - destruct (findMatches b) as [|m ms] eqn:Hm; [congruence|].
    exists m. split; [left|].
    assert (Hin : m ∈ m :: ms) by left.
    assert (Hty : m_type m = vertical).
    { destruct (m_type m) eqn:Hty; [|reflexivity].
      assert (Hf : m ∈ filter (fun m => m_type m = horizontal) (m :: ms))
        by (apply list_elem_of_filter; auto).
      rewrite Hh in Hf. inversion Hf. }
    rewrite (Hvert m Hin Hty). unfold hPositions. rewrite Hh. simpl.
    rewrite filter_all by (intros; apply not_elem_of_nil).
    rewrite spanCells_length. destruct (Hgood m Hin) as [Hlen _ _ _ _ _ _ _]. lia.
  - assert (Hin : h ∈ filter (fun m => m_type m = horizontal) (findMatches b))
      by (rewrite Hh; left).
    apply list_elem_of_filter in Hin as [Hty Hin].
    exists h. split; [exact Hin|].
    rewrite (Hfull h Hin Hty), spanCells_length.
    destruct (Hgood h Hin) as [Hlen _ _ _ _ _ _ _]. lia.
Qed.

Lemma allMatchesOf_base_ge (b : GameBoard) :
  findMatches b <> [] -> 30 <= specBaseScore (allMatchesOf b).
Proof.
  intros Hne. destruct (findMatches_has_three b Hne) as (m & Hin & Hlen).
  assert (Hall : Linear m ∈ allMatchesOf b).
  { unfold allMatchesOf. apply elem_of_app. left.
    apply list_elem_of_fmap. eauto. }
  assert (H := specBaseScore_elem _ _ Hall).
  assert (Hp := pointsPerTile_ge (Linear m)).
  simpl positionsOf in H. nia.
Qed.

(** One round of the cascade. *)
Lemma cascadeRound_spec (rnd : nat -> Q) (st : Cascade) :
  unitStream rnd ->
  validBoard (c_board st) = true ->
  findMatches (c_board st) <> [] ->
  0 <= comboMultiplier (c_detector st) -> 1 <= maxComboMultiplier (c_detector st) ->
  let d1 := mkDetector (findMatches (c_board st)) (comboMultiplier (c_detector st))
                       (maxComboMultiplier (c_detector st)) in
  let st' := cascadeRound rnd st d1 (allMatchesOf (c_board st)) in
  validBoard (c_board st') = true
  /\ size (c_board st') = size (c_board st)
  /\ (forall r c, 0 <= r < size (c_board st) -> 0 <= c < size (c_board st) ->
        getEmoji (c_board st') r c <> None)
  /\ comboMultiplier (c_detector st')
     = Z.min (comboMultiplier (c_detector st) + 1) (maxComboMultiplier (c_detector st))
  /\ maxComboMultiplier (c_detector st') = maxComboMultiplier (c_detector st)
  /\ cascadeCount st' = cascadeCount st + 1
  /\ c_totalScore st'
     = c_totalScore st
       + (specBaseScore (allMatchesOf (c_board st))
          + 100 * Z.of_nat (length (createSpecialEmojis (allMatchesOf (c_board st)))))
         * Z.min (comboMultiplier (c_detector st) + 1)
                 (maxComboMultiplier (c_detector st))
  /\ c_totalScore st + 30 <= c_totalScore st'.
Proof.
  intros Hrnd Hv Hne Hc Hmax d1 st'.
  set (all := allMatchesOf (c_board st)) in *.
  set (b1 := removeEmojis (c_board st) (getAllMatchPositions all)).
  set (b2 := placeSpecials b1 (createSpecialEmojis all)).
  set (b3 := snd (applyGravity b2)).
  assert (Hv1 : validBoard b1 = true) by now apply removeEmojis_validBoard.
  assert (Hs1 : size b1 = size (c_board st)) by apply removeEmojis_size.
  destruct (placeSpecials_validBoard (createSpecialEmojis all) b1 Hv1) as [Hv2 Hs2].
  fold b2 in Hv2, Hs2.
  destruct (applyGravity_spec b2 Hv2) as (Hv3 & Hs3 & _).
  fold b3 in Hv3, Hs3.
  destruct (fillEmpty_spec b3 rnd (c_random st) Hv3 Hrnd)
    as (b4 & news & Hfill & Hv4 & Hs4 & Hkeep & Hnew & _).
  assert (Hboard : c_board st' = b4).
  { unfold st', cascadeRound. cbn [c_board]. fold b1 b2 b3. now rewrite Hfill. }
  assert (Hscore : c_totalScore st'
            = c_totalScore st
              + (specBaseScore all + 100 * Z.of_nat (length (createSpecialEmojis all)))
                * Z.min (comboMultiplier (c_detector st) + 1)
                        (maxComboMultiplier (c_detector st))).
  { unfold st', cascadeRound. cbn [c_totalScore]. f_equal.
    unfold all. rewrite stepScore_formula. reflexivity. }
  rewrite Hboard.
  split; [exact Hv4|]. split; [congruence|].
  split.
  { intros r c Hr Hc'.
    destruct (getEmoji b3 r c) as [e|] eqn:He.
    - rewrite Hkeep; congruence.
    - destruct (Hnew r c) as (e & _ & ->); auto; try lia; congruence. }
  split; [reflexivity|]. split; [reflexivity|]. split; [reflexivity|].
  split; [exact Hscore|].
  rewrite Hscore.
  assert (H30 := allMatchesOf_base_ge (c_board st) Hne). fold all in H30.
  nia.
Qed.

Lemma cascadeLoop_S (fuel : nat) (rnd : nat -> Q) (st : Cascade) :
  cascadeLoop (S fuel) rnd st =
  let d1 := mkDetector (findMatches (c_board st)) (comboMultiplier (c_detector st))
                       (maxComboMultiplier (c_detector st)) in
  if (length (allMatchesOf (c_board st)) =? 0)%nat
  then Some (mkCascade (c_board st) d1 (c_random st)
                       (cascadeCount st) (c_totalScore st))
  else cascadeLoop fuel rnd (cascadeRound rnd st d1 (allMatchesOf (c_board st))).
Proof. reflexivity. Qed.

Lemma allMatchesOf_nil (b : GameBoard) :
  (length (allMatchesOf b) =? 0)%nat = true <-> findMatches b = [].
Proof.
  rewrite Nat.eqb_eq, length_zero_iff_nil. unfold allMatchesOf.
  apply allMatches_nil.
Qed.

Lemma cascadeLoop_spec (rnd : nat -> Q) :
  unitStream rnd ->
  forall fuel st st',
  validBoard (c_board st) = true ->
  0 <= comboMultiplier (c_detector st) <= maxComboMultiplier (c_detector st) ->
  1 <= maxComboMultiplier (c_detector st) ->
  cascadeLoop fuel rnd st = Some st' ->
  findMatches (c_board st') = []
  /\ lastMatches (c_detector st') = []
  /\ validBoard (c_board st') = true
  /\ size (c_board st') = size (c_board st)
  /\ maxComboMultiplier (c_detector st') = maxComboMultiplier (c_detector st)
  /\ cascadeCount st <= cascadeCount st'
  /\ comboMultiplier (c_detector st')
     = Z.min (comboMultiplier (c_detector st) + (cascadeCount st' - cascadeCount st))
             (maxComboMultiplier (c_detector st))
  /\ c_totalScore st + 30 * (cascadeCount st' - cascadeCount st) <= c_totalScore st'
  /\ (cascadeCount st' = cascadeCount st ->
        c_board st' = c_board st /\ c_random st' = c_random st
        /\ c_totalScore st' = c_totalScore st)
  /\ (cascadeCount st < cascadeCount st' ->
        forall r c, 0 <= r < size (c_board st) -> 0 <= c < size (c_board st) ->
          getEmoji (c_board st') r c <> None).
Proof.
  intros Hrnd. induction fuel as [|fuel IH]; intros st st' Hv Hc Hmax Hrun;
    [discriminate|].
  rewrite cascadeLoop_S in Hrun. cbv zeta in Hrun.
  destruct (length (allMatchesOf (c_board st)) =? 0)%nat eqn:Hnil.
  - apply allMatchesOf_nil in Hnil. injection Hrun as <-. simpl.
    rewrite Hnil. repeat split; auto; try lia.
  - assert (Hne : findMatches (c_board st) <> []).
    { intros H. apply allMatchesOf_nil in H. congruence. }
    destruct (cascadeRound_spec rnd st Hrnd Hv Hne ltac:(lia) Hmax)
      as (Hv1 & Hs1 & Hfull1 & Hc1 & Hm1 & Hn1 & _ & Hsc1).
    cbv zeta in Hv1, Hs1, Hfull1, Hc1, Hm1, Hn1, Hsc1.
    set (st1 := cascadeRound rnd st _ _) in *.
    destruct (IH st1 st' Hv1 ltac:(lia) ltac:(lia) Hrun)
      as (Hf & Hl & Hv' & Hs' & Hm' & Hn' & Hc' & Hsc' & Hsame & Hfull').
    split; [exact Hf|]. split; [exact Hl|]. split; [exact Hv'|].
    split; [congruence|]. split; [congruence|]. split; [lia|].
    split; [rewrite Hc', Hc1, Hm1, Hn1; lia|].
    split; [lia|]. split; [intros; lia|].
    intros _ r c Hr Hcc.
    destruct (decide (cascadeCount st' = cascadeCount st1)) as [Heq|Hneq].
    + destruct (Hsame Heq) as (-> & _). now apply Hfull1.
    + apply Hfull'; lia.
Qed.

(** ** What a scan visits *)

Lemma scanLine_visited_grows (b : GameBoard) (o : Orientation) (line : Z) (fuel : nat) :
  forall i st p, p ∈ fst st -> p ∈ fst (scanLine fuel b o line i st).
Proof.
  induction fuel as [|fuel IH]; intros i st p Hp; [exact Hp|].
  rewrite scanLine_S.
  destruct (i <? size b - 2); [|exact Hp].
  destruct (cellAt b o line i) as [e|]; [|now apply IH].
  destruct (falsy (Some e) || isSpecialEmoji (Some e)); [now apply IH|].
  destruct (countRun _ b o line e 1 (i + 1)) as [len current].
  destruct (len >=? 3); [|now apply IH].
  rewrite collectPositions_spec. cbv zeta.
  apply IH. simpl. apply elem_of_app. now left.
Qed.

Lemma scanRows_visited_grow (b : GameBoard) (o : Orientation) (lines : list Z) :
  forall st p, p ∈ fst st ->
  p ∈ fst (fold_left (fun st line => scanLine (Z.to_nat (size b)) b o line 0 st) lines st).
Proof.
  induction lines as [|line lines IH]; intros st p Hp; [exact Hp|].
  rewrite fold_left_cons. apply IH. now apply scanLine_visited_grows.
Qed.

(** The scan of a line visits every cell of three equal matchable cells
    in a row. *)
Lemma scanLine_covers (b : GameBoard) (o : Orientation) (line w : Z) (e : Emoji)
    (fuel : nat) :
  matchable e ->
  cellAt b o line w = Some e ->
  cellAt b o line (w + 1) = Some e ->
  cellAt b o line (w + 2) = Some e ->
  forall i st,
  i <= w -> (Z.to_nat (size b - 2 - i) <= fuel)%nat ->
  forall j, w <= j <= w + 2 ->
  posAt o line j ∈ fst (scanLine fuel b o line i st).
Proof.
  intros [Hf Hs] C0 C1 C2.
  pose proof (cellAt_Some_bounds b o line (w + 2) e C2) as [_ Hw2].
  induction fuel as [|fuel IH]; intros i st Hi Hfuel j Hj; [lia|].
  rewrite scanLine_S.
  destruct (i <? size b - 2) eqn:Hlt; [|lia].
  destruct (cellAt b o line i) as [e'|] eqn:Hc.
  - destruct (falsy (Some e') || isSpecialEmoji (Some e')) eqn:Hm.
    + apply IH; [|lia|exact Hj].
      destruct (decide (i = w)) as [->|]; [|lia].
      rewrite C0 in Hc. injection Hc as <-. rewrite Hf, Hs in Hm. discriminate.
    + pose proof (cellAt_Some_bounds b o line i e' Hc) as [_ Hib].
      destruct (countRun_spec b o line e' (Z.to_nat (size b)) 1 (i + 1))
        as (current & Heq & Hle & Hcells & Hstop); [lia|].
      rewrite Heq.
      destruct (1 + (current - (i + 1)) >=? 3) eqn:Hlen.
      * rewrite collectPositions_spec. simpl app.
        rewrite Z2Nat.id by lia. cbv zeta.
        destruct (decide (current <= w)) as [Hcw|Hcw].
        -- apply IH; [lia|lia|exact Hj].
        -- apply scanLine_visited_grows. cbn [fst].
           assert (Hcellw : cellAt b o line w = Some e').
           { destruct (decide (w = i)) as [->|]; [exact Hc|]. apply Hcells. lia. }
           assert (e' = e) by congruence. subst e'.
           assert (Hcur : w + 3 <= current).
           { destruct (decide (current = w + 1)) as [->|]; [now destruct Hstop|].
             destruct (decide (current = w + 2)) as [->|]; [now destruct Hstop|].
             lia. }
           assert (Hrun : posAt o line j ∈ runPositions o line i (1 + (current - (i + 1)))).
           { apply elem_of_runPositions. exists j. split; [lia|reflexivity]. }
           destruct (decide (posAt o line j ∈ fst st)) as [Hin|Hnot];
             apply elem_of_app; [now left|right].
           apply list_elem_of_filter. auto.
      * apply IH; [|lia|exact Hj].
        destruct (decide (i = w)) as [->|]; [|lia].
        exfalso. rewrite C0 in Hc. injection Hc as <-.
        destruct (decide (current = w + 1)) as [->|]; [now apply Hstop|].
        destruct (decide (current = w + 2)) as [->|]; [now apply Hstop|].
        lia.
  - apply IH; [|lia|exact Hj].
    destruct (decide (i = w)) as [->|]; [congruence|lia].
Qed.

Lemma scanLines_covers (b : GameBoard) (o : Orientation) (line w : Z) (e : Emoji)
    (st : ScanState) (j : Z) :
  matchable e ->
  cellAt b o line w = Some e ->
  cellAt b o line (w + 1) = Some e ->
  cellAt b o line (w + 2) = Some e ->
  w <= j <= w + 2 ->
  posAt o line j ∈ fst (scanLines b o st).
Proof.
  intros He C0 C1 C2 Hj.
  pose proof (cellAt_Some_bounds b o line w e C0) as [Hl Hw].
  unfold scanLines.
  replace (seqZ 0 (size b)) with (seqZ 0 (line + (size b - line)))
    by (f_equal; lia).
  rewrite seqZ_app by lia.
  rewrite (seqZ_cons (0 + line)) by lia.
  rewrite fold_left_app, fold_left_cons.
  apply scanRows_visited_grow.
  replace (0 + line) with line by lia.
  apply (scanLine_covers b o line w e); try assumption; lia.
Qed.

(** Every cell of three equal matchable cells in a row is a position of
    one of the matches that [findMatches] returns. *)
Lemma findMatches_covers (b : GameBoard) (o : Orientation) (line w : Z) (e : Emoji) (j : Z) :
  matchable e ->
  cellAt b o line w = Some e ->
  cellAt b o line (w + 1) = Some e ->
  cellAt b o line (w + 2) = Some e ->
  w <= j <= w + 2 ->
  exists m, m ∈ findMatches b /\ posAt o line j ∈ m_positions m.
Proof.
  intros He C0 C1 C2 Hj.
  assert (Hvis : posAt o line j
                 ∈ fst (scanLines b vertical (scanLines b horizontal ([], [])))).
  { destruct o.
    - unfold scanLines at 1. apply scanRows_visited_grow.
      now apply (scanLines_covers b horizontal line w e).
    - now apply (scanLines_covers b vertical line w e). }
  destruct (scanLines_inv b vertical _ (scan_between_inv b))
    as (l2 & i2 & [_ Hv _ _ _ _ _ _]).
  rewrite Hv in Hvis. apply list_elem_of_join in Hvis as (ps & Hin & Hps).
  apply list_elem_of_fmap in Hps as (m & -> & Hm).
  exists m. split; [exact Hm|exact Hin].
Qed.

Lemma goodMatch_inLineOfThree (b : GameBoard) (m : LinearMatch) (p : Position) :
  goodMatch b m -> p ∈ m_positions m -> inLineOfThree b p.
Proof.
  intros G Hp.
  assert (Hspan : p ∈ spanCells m)
    by (eapply elem_of_sublist; [exact Hp|apply (gm_positions b), G]).
  apply elem_of_spanCells in Hspan as (j & Hj & ->).
  destruct G as [Hlen Hend Hm Hcells _ _ _ _].
  set (w := if decide (j <= m_end m - 2) then j else m_end m - 2).
  assert (Hw : m_start m <= w /\ w + 2 <= m_end m /\ w <= j <= w + 2)
    by (unfold w; case_decide; lia).
  exists (m_type m), (m_line m), w, (m_emoji m).
  split; [exact Hm|].
  split; [apply Hcells; lia|]. split; [apply Hcells; lia|].
  split; [apply Hcells; lia|]. exists j. split; [lia|reflexivity].
Qed.

(** ** The positions a round clears *)

Lemma getAllMatchPositions_fold (matches : list Match) :
  forall acc : list Position * list Position,
  fst acc = snd acc -> NoDup (fst acc) ->
  let res := fold_left (fun acc m => fold_left dedupStep (positionsOf m) acc) matches acc in
  fst res = snd res
  /\ NoDup (fst res)
  /\ forall p, p ∈ fst res <-> p ∈ fst acc \/ exists m, m ∈ matches /\ p ∈ positionsOf m.
Proof.
  induction matches as [|m matches IH]; intros acc Heq Hnd.
  - simpl. split; [exact Heq|]. split; [exact Hnd|].
    intros p. split; [auto|]. intros [H|(m & Hm & _)]; [exact H|inversion Hm].
  - rewrite fold_left_cons.
    destruct (dedupStep_fold (positionsOf m) acc Heq Hnd) as (Heq1 & Hnd1 & Hin1).
    destruct (IH _ Heq1 Hnd1) as (Heq2 & Hnd2 & Hin2).
    cbv zeta. split; [exact Heq2|]. split; [exact Hnd2|].
    intros p. rewrite Hin2, Hin1. split.
    + intros [[H|H]|(m' & Hm' & Hp)]; [now left| |].
      * right. exists m. split; [left|exact H].
      * right. exists m'. split; [now right|exact Hp].
    + intros [H|(m' & [->|Hm']%elem_of_cons & Hp)]; [now left; left| |].
      * left. now right.
      * right. eauto.
Qed.

Lemma elem_of_getAllMatchPositions (matches : list Match) (p : Position) :
  p ∈ getAllMatchPositions matches <-> exists m, m ∈ matches /\ p ∈ positionsOf m.
Proof.
  unfold getAllMatchPositions.
  destruct (getAllMatchPositions_fold matches ([], []) eq_refl (NoDup_nil_2))
    as (_ & _ & Hin).
  rewrite Hin. split; [|now right].
  intros [H|H]; [inversion H|exact H].
Qed.

Lemma getAllMatchPositions_NoDup (matches : list Match) :
  NoDup (getAllMatchPositions matches).
Proof.
  unfold getAllMatchPositions.
  now destruct (getAllMatchPositions_fold matches ([], []) eq_refl (NoDup_nil_2))
    as (_ & H & _).
Qed.

(** The positions of the shaped matches are positions of linear ones. *)
Lemma allMatchesOf_positions (b : GameBoard) (p : Position) :
  (exists m, m ∈ allMatchesOf b /\ p ∈ positionsOf m)
  <-> exists l, l ∈ findMatches b /\ p ∈ m_positions l.
Proof.
  unfold allMatchesOf. split.
  - intros (m & [Hm|Hm]%elem_of_app & Hp).
    + apply list_elem_of_fmap in Hm as (l & -> & Hl). eauto.
    + apply list_elem_of_fmap in Hm as (s & -> & Hs).
      apply elem_of_findShapedMatches in Hs
        as (h & v & Hh & Hv & _ & _ & _ & ->).
      simpl in Hp. rewrite elem_of_uniquePositions in Hp.
      apply elem_of_app in Hp as [Hp|Hp]; eauto.
  - intros (l & Hl & Hp). exists (Linear l). split; [|exact Hp].
    apply elem_of_app. left. apply list_elem_of_fmap. eauto.
Qed.

Lemma cleared_iff_inLineOfThree (b : GameBoard) (p : Position) :
  p ∈ getAllMatchPositions (allMatchesOf b) <-> inLineOfThree b p.
Proof.
  rewrite elem_of_getAllMatchPositions, allMatchesOf_positions. split.
  - intros (l & Hl & Hp).
    apply (goodMatch_inLineOfThree b l); [|exact Hp].
    now apply (ok_good b _ (findMatches_ok b)).
  - intros (o & line & w & e & He & C0 & C1 & C2 & j & Hj & ->).
    now apply (findMatches_covers b o line w e j).
Qed.

(** ** The effects of the special tiles *)

Lemma elem_of_positionsHolding (b : GameBoard) (emoji : Cell) (p : Position) :
  p ∈ positionsHolding b emoji <->
  0 <= row p < size b /\ 0 <= col p < size b
  /\ gridGet (grid b) (row p) (col p) = emoji.
Proof.
  unfold positionsHolding. rewrite list_elem_of_In, in_flat_map. split.
  - intros (r & Hr & Hin). apply in_flat_map in Hin as (c & Hc & Hin).
    apply list_elem_of_In, elem_of_seqZ_0 in Hr, Hc.
    case_bool_decide as Hcell; [|inversion Hin].
    destruct Hin as [<-|[]]. simpl. auto.
  - intros (Hr & Hc & Hcell). exists (row p).
    split; [apply list_elem_of_In, elem_of_seqZ_0; lia|].
    apply in_flat_map. exists (col p).
    split; [apply list_elem_of_In, elem_of_seqZ_0; lia|].
    rewrite bool_decide_eq_true_2 by exact Hcell. left. now destruct p.
Qed.

Lemma basic_not_special (t : Emoji) : t ∈ emojis -> isSpecialEmoji (Some t) = false.
Proof.
  intros Hin.
  assert (H : Forall (fun t => isSpecialEmoji (Some t) = false) emojis)
    by (repeat constructor).
  rewrite Forall_forall in H. now apply H.
Qed.

Lemma special_getSpecialType (emoji : Cell) :
  isSpecialEmoji emoji = true <-> getSpecialType emoji <> None.
Proof.
  unfold isSpecialEmoji, getSpecialType, specialEmojis. simpl.
  repeat case_bool_decide; simpl; split; congruence.
Qed.

Lemma getSpecialType_Some_valid (b : GameBoard) (r c : Z) (type : SpecialType) :
  getSpecialType (getEmoji b r c) = Some type -> isValidPosition b r c = true.
Proof.
  intros H. destruct (isValidPosition b r c) eqn:Hv; [reflexivity|].
  rewrite getEmoji_invalid in H by exact Hv. discriminate.
Qed.

(** The 3x3 area of a bomb, clipped at the edges of the board. *)
Lemma elem_of_bomb_effect (b : GameBoard) (rnd : nat -> Q) (k : nat) (r c : Z)
    (p : Position) :
  p ∈ fst (getSpecialEmojiEffect b rnd k r c bomb) <->
  r - 1 <= row p <= r + 1 /\ c - 1 <= col p <= c + 1
  /\ isValidPosition b (row p) (col p) = true.
Proof.
  cbn [getSpecialEmojiEffect fst]. rewrite list_elem_of_In, in_flat_map. split.
  - intros (r' & Hr & Hin). apply in_flat_map in Hin as (c' & Hc & Hin).
    apply list_elem_of_In, elem_of_seqZ in Hr, Hc.
    destruct (isValidPosition b r' c') eqn:Hv; [|inversion Hin].
    destruct Hin as [<-|[]]. simpl. split; [lia|]. split; [lia|exact Hv].
  - intros (Hr & Hc & Hv). exists (row p).
    split; [apply list_elem_of_In, elem_of_seqZ; lia|].
    apply in_flat_map. exists (col p).
    split; [apply list_elem_of_In, elem_of_seqZ; lia|].
    rewrite Hv. left. now destruct p.
Qed.

Lemma effect_valid (b : GameBoard) (rnd : nat -> Q) (k : nat) (r c : Z)
    (type : SpecialType) (p : Position) :
  isValidPosition b r c = true ->
  p ∈ fst (getSpecialEmojiEffect b rnd k r c type) ->
  isValidPosition b (row p) (col p) = true.
Proof.
  intros Hv Hin. apply isValidPosition_spec in Hv.
  destruct type.
  - simpl in Hin. destruct (Qlt_le_dec (rnd k) (1 # 2)); simpl in Hin;
      apply list_elem_of_fmap in Hin as (x & -> & Hx);
      apply elem_of_seqZ_0 in Hx; apply isValidPosition_spec; simpl; lia.
  - now apply elem_of_bomb_effect in Hin as (_ & _ & H).
  - simpl in Hin.
    destruct (0 <? Z.of_nat (length _)); [|inversion Hin].
    destruct (arrayGet _ _) as [t|]; [|inversion Hin].
    simpl in Hin. apply elem_of_positionsHolding in Hin as (Hr & Hc & _).
    apply isValidPosition_spec. lia.
Qed.

(** The loop over the affected positions adds only what the recursive
    calls return. *)
Lemma chainLoop_elems (self : nat -> Z -> Z -> option (list Position * nat))
    (P : Position -> Prop) (b : GameBoard) (r c : Z) (affected : list Position) :
  (forall k r' c' res k', self k r' c' = Some (res, k') -> Forall P res) ->
  forall acc k res k',
  Forall P acc ->
  chainLoop self b r c affected acc k = Some (res, k') ->
  Forall P res.
Proof.
  intros Hself. induction affected as [|pos rest IH]; intros acc k res k' Hacc Hrun.
  - simpl in Hrun. now injection Hrun as <- <-.
  - simpl in Hrun.
    destruct (isSpecialEmoji (getEmoji b (row pos) (col pos))
              && (negb (row pos =? r) || negb (col pos =? c))).
    + destruct (self k (row pos) (col pos)) as [[chain k1]|] eqn:Hs; [|discriminate].
      apply (IH _ _ _ _ (proj2 (Forall_app _ _ _) (conj Hacc (Hself _ _ _ _ _ Hs))) Hrun).
    + apply (IH _ _ _ _ Hacc Hrun).
Qed.

Lemma processSpecialEmoji_valid (b : GameBoard) (rnd : nat -> Q) (fuel : nat) :
  forall k r c res k',
  processSpecialEmoji fuel b rnd k r c = Some (res, k') ->
  Forall (fun p => isValidPosition b (row p) (col p) = true) res.
Proof.
  induction fuel as [|fuel IH]; intros k r c res k' Hrun; [discriminate|].
  rewrite processSpecialEmoji_S in Hrun.
  destruct (getSpecialType (getEmoji b r c)) as [type|] eqn:Hty.
  - assert (Hv := getSpecialType_Some_valid b r c type Hty).
    destruct (getSpecialEmojiEffect b rnd k r c type) as [affected k1] eqn:Heff.
    destruct (chainLoop _ b r c affected [] k1) as [[chain k2]|] eqn:Hloop;
      [|discriminate].
    injection Hrun as <- <-.
    apply Forall_app. split.
    + apply Forall_forall. intros p Hp.
      apply (effect_valid b rnd k r c type); [exact Hv|]. now rewrite Heff.
    + eapply (chainLoop_elems _ _ b r c affected); [|constructor|exact Hloop].
      intros k0 r' c' res0 k0' H0. apply (IH _ _ _ _ _ H0).
  - injection Hrun as <- <-. constructor.
Qed.

(** With no other special tile among the affected positions the loop
    makes no recursive call. *)
Lemma chainLoop_no_special (self : nat -> Z -> Z -> option (list Position * nat))
    (b : GameBoard) (r c : Z) (affected : list Position) :
  (forall p, p ∈ affected -> p <> mkPos r c ->
     isSpecialEmoji (getEmoji b (row p) (col p)) = false) ->
  forall acc k, chainLoop self b r c affected acc k = Some (acc, k).
Proof.
  induction affected as [|pos rest IH]; intros Hno acc k; [reflexivity|].
  simpl.
  destruct (isSpecialEmoji (getEmoji b (row pos) (col pos))
            && (negb (row pos =? r) || negb (col pos =? c))) eqn:Htest.
  - exfalso. apply andb_true_iff in Htest as [Hsp Hne].
    rewrite Hno in Hsp; [discriminate|left|].
    intros ->. simpl in Hne. rewrite !Z.eqb_refl in Hne. discriminate.
  - apply IH. intros p Hp. apply Hno. now right.
Qed.

Lemma rainbow_effect (b : GameBoard) (rnd : nat -> Q) (k : nat) (r c : Z) :
  unitStream rnd ->
  (exists t,
     t ∈ emojis /\ positionsHolding b (Some t) <> []
     /\ getSpecialEmojiEffect b rnd k r c rainbow = (positionsHolding b (Some t), S k))
  \/ ((forall t, t ∈ emojis -> positionsHolding b (Some t) = [])
      /\ getSpecialEmojiEffect b rnd k r c rainbow = ([], k)).
Proof.
  intros Hrnd. cbn [getSpecialEmojiEffect].
  set (available := filter (fun emoji : Emoji => positionsHolding b (Some emoji) <> []) emojis).
  destruct (0 <? Z.of_nat (length available)) eqn:Hlen.
  - left. apply Z.ltb_lt in Hlen.
    destruct (Hrnd k) as [H0 H1].
    destruct (arrayGet_index available
                (Math_floor (rnd k * inject_Z (Z.of_nat (length available)))))
      as (t & -> & Ht).
    { apply floor_index; auto. lia. }
    apply list_elem_of_filter in Ht as [Hne Ht]. eauto.
  - right. apply Z.ltb_ge in Hlen.
    split; [|reflexivity].
    intros t Ht.
    destruct (decide (positionsHolding b (Some t) = [])) as [|Hne]; [assumption|].
    assert (Hin : t ∈ available) by (apply list_elem_of_filter; auto).
    destruct available; [inversion Hin|simpl in Hlen; lia].
Qed.

(** ** Setting up a board *)

Lemma getRandomEmojiLoop_spec (rnd : nat -> Q) (b : GameBoard) (r c : Z) (n : nat) :
  forall k,
  let res := getRandomEmojiLoop n b rnd k r c in
  (k < snd res <= k + S n)%nat
  /\ fst res = randomEmoji rnd (snd res - 1)
  /\ ((snd res < k + S n)%nat -> (r <? 2) && (c <? 2) = false ->
      wouldCreateMatch b r c (fst res) = false).
Proof.
  induction n as [|n IH]; intros k; simpl.
  - destruct ((r <? 2) && (c <? 2)); simpl;
      (split; [lia|]); (split; [f_equal; lia|]); intros; try lia; discriminate.
  - destruct ((r <? 2) && (c <? 2)) eqn:Hcorner; simpl.
    + split; [lia|]. split; [f_equal; lia|]. intros; discriminate.
    + destruct (wouldCreateMatch b r c (randomEmoji rnd k)) eqn:Hw.
      * destruct (IH (S k)) as (Hk & Hres & Hgood).
        split; [lia|]. split; [exact Hres|].
        intros Hlt _. apply Hgood; [lia|reflexivity].
      * simpl. split; [lia|]. split; [f_equal; lia|]. auto.
Qed.

Lemma getRandomEmoji_basic (rnd : nat -> Q) (b : GameBoard) (k : nat) (r c : Z) :
  unitStream rnd ->
  exists e, fst (getRandomEmoji b rnd k r c) = Some e /\ e ∈ emojis.
Proof.
  intros Hrnd. unfold getRandomEmoji.
  destruct (getRandomEmojiLoop_spec rnd b r c 49 k) as (_ & -> & _).
  now apply randomEmoji_basic.
Qed.

Lemma hasMatches_false (b : GameBoard) :
  hasMatches b = false <->
  forall r c, 0 <= r < size b -> 0 <= c < size b ->
    wouldCreateMatch b r c (gridGet (grid b) r c) = false.
Proof.
  unfold hasMatches. split.
  - intros H r c Hr Hc.
    destruct (wouldCreateMatch b r c (gridGet (grid b) r c)) eqn:Hw; [|reflexivity].
    rewrite <- H. symmetry. apply existsb_exists. exists r.
    split; [apply list_elem_of_In, elem_of_seqZ_0; lia|].
    apply existsb_exists. exists c.
    split; [apply list_elem_of_In, elem_of_seqZ_0; lia|exact Hw].
  - intros H. apply not_true_is_false. intros Hex.
    apply existsb_exists in Hex as (r & Hr & Hex).
    apply existsb_exists in Hex as (c & Hc & Hw).
    apply list_elem_of_In, elem_of_seqZ_0 in Hr, Hc.
    rewrite H in Hw by lia. discriminate.
Qed.

Lemma hasMatches_false_findMatches (b : GameBoard) :
  hasMatches b = false -> findMatches b = [].
Proof.
  intros H. destruct (findMatches b) as [|m ms] eqn:Hm; [reflexivity|].
  assert (G : goodMatch b m).
  { apply (ok_good b _ (findMatches_ok b)). rewrite Hm. left. }
  apply hasMatches_of_run in G. congruence.
Qed.

(** The loops of a round of [removeInitialMatches] over a list of cells
    [(r, c)]. *)
Lemma repairCells_spec (rnd : nat -> Q) (cells : list (Z * Z)) :
  unitStream rnd ->
  forall b k flag,
  validBoard b = true ->
  (forall r c, (r, c) ∈ cells -> isValidPosition b r c = true) ->
  let res := fold_left (fun acc rc => repairCell rnd (fst rc) acc (snd rc)) cells
                       (b, k, flag) in
  validBoard (fst (fst res)) = true
  /\ size (fst (fst res)) = size b
  /\ (forall r c, getEmoji (fst (fst res)) r c = getEmoji b r c
                  \/ exists e, e ∈ emojis /\ getEmoji (fst (fst res)) r c = Some e)
  /\ (snd res = false ->
        flag = false /\ fst res = (b, k)
        /\ forall r c, (r, c) ∈ cells ->
             wouldCreateMatch b r c (gridGet (grid b) r c) = false).
Proof.
  intros Hrnd. induction cells as [|[r c] cells IH]; intros b k flag Hv Hin.
  - simpl. split; [exact Hv|]. split; [reflexivity|]. split; [auto|].
    intros ->. split; [reflexivity|]. split; [reflexivity|].
    intros r c H. inversion H.
  - cbv zeta. rewrite fold_left_cons. cbn [fst snd].
    assert (Hstep : repairCell rnd r (b, k, flag) c
              = if wouldCreateMatch b r c (gridGet (grid b) r c)
                then (mkBoard (size b)
                        (gridSet (grid b) r c (fst (getRandomEmoji b rnd k r c))),
                      snd (getRandomEmoji b rnd k r c), true)
                else (b, k, flag)) by reflexivity.
    rewrite Hstep. clear Hstep.
    assert (Hrc : isValidPosition b r c = true) by (apply Hin; left).
    assert (Hin' : forall r c, (r, c) ∈ cells -> isValidPosition b r c = true)
      by (intros; apply Hin; now right).
    destruct (wouldCreateMatch b r c (gridGet (grid b) r c)) eqn:Hw.
    + destruct (getRandomEmoji_basic rnd b k r c Hrnd) as (e & He & Hbasic).
      rewrite He.
      assert (Heq : mkBoard (size b) (gridSet (grid b) r c (Some e))
                    = setEmoji b r c (Some e))
        by (unfold setEmoji; now rewrite Hrc).
      rewrite Heq.
      assert (Hv1 := setEmoji_validBoard b r c (Some e) Hv).
      destruct (IH (setEmoji b r c (Some e))
                  (snd (getRandomEmoji b rnd k r c)) true Hv1)
        as (Hv' & Hs' & Hcells & Hflag).
      { intros r' c' H. unfold isValidPosition. rewrite setEmoji_size.
        now apply Hin'. }
      cbv zeta in Hv', Hs', Hcells, Hflag |- *.
      split; [exact Hv'|]. split; [now rewrite Hs', setEmoji_size|]. split.
      * intros r' c'. destruct (Hcells r' c') as [->|H]; [|now right].
        rewrite setEmoji_getEmoji by exact Hv.
        case_decide; [right; eauto|now left].
      * intros Hfalse. destruct (Hflag Hfalse) as [Hbad _]. discriminate.
    + destruct (IH b k flag Hv Hin') as (Hv' & Hs' & Hcells & Hflag).
      split; [exact Hv'|]. split; [exact Hs'|]. split; [exact Hcells|].
      intros Hfalse. destruct (Hflag Hfalse) as (Hf & Heq & Hall).
      split; [exact Hf|]. split; [exact Heq|].
      intros r' c' [Hrc'|Hin2]%elem_of_cons; [|now apply Hall].
      inversion Hrc'; subst. exact Hw.
Qed.

Lemma repairPass_spec (rnd : nat -> Q) (b : GameBoard) (k : nat) :
  unitStream rnd -> validBoard b = true ->
  validBoard (fst (fst (repairPass b rnd k))) = true
  /\ size (fst (fst (repairPass b rnd k))) = size b
  /\ (forall r c, getEmoji (fst (fst (repairPass b rnd k))) r c = getEmoji b r c
                  \/ exists e, e ∈ emojis
                       /\ getEmoji (fst (fst (repairPass b rnd k))) r c = Some e)
  /\ (snd (repairPass b rnd k) = false ->
        fst (repairPass b rnd k) = (b, k) /\ hasMatches b = false).
Proof.
  intros Hrnd Hv. unfold repairPass. rewrite fold_left_nested.
  destruct (repairCells_spec rnd
              (flat_map (fun a => map (pair a) (seqZ 0 (size b))) (seqZ 0 (size b)))
              Hrnd b k false Hv)
    as (Hv' & Hs' & Hcells & Hflag).
  { intros r c [Hr Hc]%elem_of_cells. apply elem_of_seqZ_0 in Hr, Hc.
    apply isValidPosition_spec. lia. }
  split; [exact Hv'|]. split; [exact Hs'|]. split; [exact Hcells|].
  intros Hfalse. destruct (Hflag Hfalse) as (_ & Heq & Hall).
  split; [exact Heq|]. apply hasMatches_false. intros r c Hr Hc.
  apply Hall. apply elem_of_cells. split; apply elem_of_seqZ_0; lia.
Qed.

Lemma removeInitialMatchesLoop_spec (rnd : nat -> Q) :
  unitStream rnd ->
  forall n b k flag,
  validBoard b = true ->
  (flag = false -> hasMatches b = false) ->
  let res := removeInitialMatchesLoop n rnd (b, k, flag) in
  validBoard (fst (fst res)) = true
  /\ size (fst (fst res)) = size b
  /\ (forall r c, getEmoji (fst (fst res)) r c = getEmoji b r c
                  \/ exists e, e ∈ emojis /\ getEmoji (fst (fst res)) r c = Some e)
  /\ (snd res = false -> hasMatches (fst (fst res)) = false).
Proof.
  intros Hrnd. induction n as [|n IH]; intros b k flag Hv Hflag; cbv zeta.
  - simpl. auto.
  - simpl. destruct flag.
    + destruct (repairPass_spec rnd b k Hrnd Hv) as (Hv1 & Hs1 & Hc1 & Hf1).
      destruct (repairPass b rnd k) as [[b1 k1] flag1] eqn:Hpass.
      simpl in Hv1, Hs1, Hc1, Hf1.
      destruct (IH b1 k1 flag1 Hv1) as (Hv2 & Hs2 & Hc2 & Hf2).
      { intros ->. destruct (Hf1 eq_refl) as [Heq Hno].
        injection Heq as -> ->. exact Hno. }
      split; [exact Hv2|]. split; [congruence|]. split; [|exact Hf2].
      intros r c. destruct (Hc2 r c) as [->|H]; [apply Hc1|now right].
    + simpl. auto.
Qed.

Lemma arraySet_end {X} (arr : list X) (v : X) :
  arraySet arr (length arr) v = arr ++ [v].
Proof.
  unfold arraySet. rewrite Nat.ltb_irrefl, Nat.eqb_refl. reflexivity.
Qed.

Lemma initCells_spec (rnd : nat -> Q) (sz : Z) (rows : list (list Cell)) :
  unitStream rnd ->
  forall (c : nat) (k : nat),
  exists rw k',
    fold_left (initCell rnd (Z.of_nat (length rows))) (seqZ 0 (Z.of_nat c))
      (mkBoard sz (rows ++ [[]]), k)
    = (mkBoard sz (rows ++ [rw]), k')
    /\ length rw = c
    /\ Forall (fun x : Cell => exists e, x = Some e /\ e ∈ emojis) rw.
Proof.
  intros Hrnd. induction c as [|c IH]; intros k.
  - exists [], k. simpl. auto.
  - destruct (IH k) as (rw & k' & Hfold & Hlen & Hall).
    rewrite seqZ_S, fold_left_app, Hfold, fold_left_cons. cbn [fold_left].
    unfold initCell. cbn [fst snd size grid].
    destruct (getRandomEmoji_basic rnd (mkBoard sz (rows ++ [rw])) k'
                (Z.of_nat (length rows)) (0 + Z.of_nat c) Hrnd)
      as (e & He & Hbasic).
    rewrite He.
    exists (rw ++ [Some e]), (snd (getRandomEmoji (mkBoard sz (rows ++ [rw])) rnd k'
                                  (Z.of_nat (length rows)) (0 + Z.of_nat c))).
    split; [|split].
    + f_equal. f_equal.
      rewrite Nat2Z.id.
      rewrite alter_app_r_alt by lia. rewrite Nat.sub_diag. simpl.
      replace (Z.to_nat (0 + Z.of_nat c)) with (length rw) by lia.
      now rewrite arraySet_end.
    + rewrite length_app. simpl. lia.
    + apply Forall_app. split; [exact Hall|]. constructor; [eauto|constructor].
Qed.

Lemma initRows_spec (rnd : nat -> Q) (sz : Z) (k : nat) :
  unitStream rnd -> 0 <= sz ->
  forall j : nat,
  exists rows k',
    fold_left (initRow rnd) (seqZ 0 (Z.of_nat j)) (mkBoard sz [], k)
    = (mkBoard sz rows, k')
    /\ length rows = j
    /\ Forall (fun rw : list Cell =>
         length rw = Z.to_nat sz
         /\ Forall (fun x : Cell => exists e, x = Some e /\ e ∈ emojis) rw) rows.
Proof.
  intros Hrnd Hsz. induction j as [|j IH].
  - exists [], k. simpl. auto.
  - destruct IH as (rows & k' & Hfold & Hlen & Hall).
    rewrite seqZ_S, fold_left_app, Hfold, fold_left_cons. cbn [fold_left].
    unfold initRow. cbn [fst snd size grid].
    replace (Z.to_nat (0 + Z.of_nat j)) with (length rows) by lia.
    rewrite arraySet_end.
    replace (0 + Z.of_nat j) with (Z.of_nat (length rows)) by lia.
    destruct (initCells_spec rnd sz rows Hrnd (Z.to_nat sz) k')
      as (rw & k'' & Hcells & Hlrw & Hbasic).
    rewrite Z2Nat.id in Hcells by lia. rewrite Hcells.
    exists (rows ++ [rw]), k''. split; [reflexivity|].
    split; [rewrite length_app; simpl; lia|].
    apply Forall_app. split; [exact Hall|]. constructor; [auto|constructor].
Qed.

(** ** Example inputs *)

Lemma cycleStream_unit : unitStream cycleStream.
Proof.
  intros k. unfold cycleStream, Qle, Qlt. simpl.
  assert (H := Z.mod_pos_bound (Z.of_nat k * 3 + 1) 10 ltac:(lia)). lia.
Qed.

(** ** Gravity followed by the refill *)

Lemma refill_column (before after : list Cell) (m : nat) (below : list Cell) :
  before = replicate m None ++ below ->
  Forall (fun x : Cell => x <> None) below ->
  length after = length before ->
  (forall i x, before !! i = Some x -> x <> None -> after !! i = Some x) ->
  (forall i, before !! i = Some None ->
     exists e, e ∈ emojis /\ after !! i = Some (Some e)) ->
  exists new,
    after = new ++ below
    /\ length new = m
    /\ Forall (fun x : Cell => exists e, e ∈ emojis /\ x = Some e) new.
Proof.
  intros Hb Hbelow Hlen Hkeep Hnew.
  assert (Hlb : length before = (m + length below)%nat)
    by (rewrite Hb, length_app, length_replicate; reflexivity).
  exists (take m after). split; [|split].
  - rewrite <- (take_drop m after) at 1. f_equal.
    apply list_eq. intros i. rewrite lookup_drop.
    destruct (below !! i) as [x|] eqn:Hx.
    + apply Hkeep.
      * rewrite Hb, lookup_app_r by (rewrite length_replicate; lia).
        rewrite length_replicate. now replace (m + i - m)%nat with i by lia.
      * rewrite Forall_forall in Hbelow. apply Hbelow.
        eapply list_elem_of_lookup_2; eauto.
    + apply lookup_ge_None. apply lookup_ge_None in Hx. lia.
  - rewrite length_take. lia.
  - apply Forall_lookup. intros i y Hy.
    rewrite lookup_take in Hy. case_decide as Him; [|discriminate].
    destruct (Hnew i) as (e & He & Ha).
    { rewrite Hb, lookup_app_l by (rewrite length_replicate; lia).
      now apply lookup_replicate_2. }
    exists e. split; [exact He|congruence].
Qed.

(** ** Lists of cells *)

Lemma elem_of_cells_if (P : Z -> Z -> bool) (rs cs : list Z) (p : Position) :
  p ∈ flat_map (fun r => flat_map (fun c => if P r c then [mkPos r c] else []) cs) rs
  <-> row p ∈ rs /\ col p ∈ cs /\ P (row p) (col p) = true.
Proof.
  rewrite list_elem_of_In, in_flat_map. split.
  - intros (r & Hr & Hin). apply in_flat_map in Hin as (c & Hc & Hin).
    apply list_elem_of_In in Hr, Hc.
    destruct (P r c) eqn:HP; [|inversion Hin].
    destruct Hin as [<-|[]]. simpl. auto.
  - intros (Hr & Hc & HP). exists (row p).
    split; [now apply list_elem_of_In|].
    apply in_flat_map. exists (col p).
    split; [now apply list_elem_of_In|].
    rewrite HP. left. now destruct p.
Qed.

Lemma NoDup_cells_if (P : Z -> Z -> bool) (rs cs : list Z) :
  NoDup rs -> NoDup cs ->
  NoDup (flat_map (fun r => flat_map (fun c => if P r c then [mkPos r c] else []) cs) rs).
Proof.
  intros Hrs Hcs. induction Hrs as [|r rs Hr Hrs IH]; [constructor|].
  simpl. apply NoDup_app. split; [|split; [|exact IH]].
  - clear IH Hr. induction Hcs as [|c cs Hc Hcs IHc]; [constructor|].
    simpl. apply NoDup_app. split; [|split; [|exact IHc]].
    + destruct (P r c); [apply NoDup_singleton|constructor].
    + intros p Hp Hin.
      assert (Hin' : p ∈ flat_map (fun r => flat_map (fun c =>
                 if P r c then [mkPos r c] else []) cs) [r])
        by (simpl; now rewrite app_nil_r).
      apply elem_of_cells_if in Hin' as (_ & Hcol & _).
      destruct (P r c); [|inversion Hp].
      apply list_elem_of_singleton in Hp. subst p. simpl in Hcol. auto.
  - intros p Hp Hin.
    assert (Hp' : p ∈ flat_map (fun r => flat_map (fun c =>
               if P r c then [mkPos r c] else []) cs) [r])
      by (simpl; now rewrite app_nil_r).
    apply elem_of_cells_if in Hp' as (Hrow & _).
    apply elem_of_cells_if in Hin as (Hrow' & _).
    apply list_elem_of_singleton in Hrow. congruence.
Qed.

Lemma length_cells_if_le (P : Z -> Z -> bool) (rs cs : list Z) :
  (length (flat_map (fun r => flat_map (fun c => if P r c then [mkPos r c] else []) cs) rs)
   <= length rs * length cs)%nat.
Proof.
  induction rs as [|r rs IH]; [simpl; lia|].
  simpl. rewrite length_app.
  assert (H : (length (flat_map (fun c => if P r c then [mkPos r c] else []) cs)
               <= length cs)%nat).
  { clear. induction cs as [|c cs IHc]; [simpl; lia|].
    simpl. rewrite length_app. destruct (P r c); simpl; lia. }
  lia.
Qed.

Lemma length_cells_if_all (P : Z -> Z -> bool) (rs cs : list Z) :
  (forall r c, r ∈ rs -> c ∈ cs -> P r c = true) ->
  length (flat_map (fun r => flat_map (fun c => if P r c then [mkPos r c] else []) cs) rs)
  = (length rs * length cs)%nat.
Proof.
  intros HP. induction rs as [|r rs IH]; [reflexivity|].
  simpl. rewrite length_app, IH by (intros; apply HP; [now right|assumption]).
  f_equal.
  assert (Hr : forall c, c ∈ cs -> P r c = true) by (intros; apply HP; [left|assumption]).
  clear -Hr. induction cs as [|c cs IHc]; [reflexivity|].
  simpl. rewrite length_app, IHc by (intros; apply Hr; now right).
  rewrite Hr by left. reflexivity.
Qed.

Lemma positionsHolding_NoDup (b : GameBoard) (emoji : Cell) :
  NoDup (positionsHolding b emoji).
Proof.
  unfold positionsHolding.
  apply (NoDup_cells_if (fun r c => bool_decide (gridGet (grid b) r c = emoji)));
    apply NoDup_seqZ.
Qed.

(** ** The cascade and the bound on its rounds *)

Lemma cascadeLoop_mono (rnd : nat -> Q) (fuel : nat) :
  forall st st',
  cascadeLoop fuel rnd st = Some st' -> cascadeLoop (S fuel) rnd st = Some st'.
Proof.
  induction fuel as [|fuel IH]; intros st st' Hrun; [discriminate|].
  rewrite cascadeLoop_S in Hrun. rewrite cascadeLoop_S. cbv zeta in *.
  destruct (length (allMatchesOf (c_board st)) =? 0)%nat; [exact Hrun|].
  apply IH. exact Hrun.
Qed.

Lemma cascadeLoop_more (rnd : nat -> Q) (fuel extra : nat) (st st' : Cascade) :
  cascadeLoop fuel rnd st = Some st' -> cascadeLoop (fuel + extra) rnd st = Some st'.
Proof.
  intros Hrun. induction extra as [|extra IH].
  - now rewrite Nat.add_0_r.
  - rewrite Nat.add_succ_r. now apply cascadeLoop_mono.
Qed.

Lemma processCascadingMatches_Some (fuel : nat) (rnd : nat -> Q) (k : nat)
    (g g' : EmojiCrushGame) (k' : nat) (count total : Z) :
  processCascadingMatches fuel rnd k g = Some (g', k', (count, total)) ->
  exists st,
    cascadeLoop fuel rnd (mkCascade (board g) (matchDetector g) k 0 0) = Some st
    /\ g' = mkGame (score g + c_totalScore st) (moves g) (selectedTile g)
                   (isProcessing g) (moveHistory g) (c_board st)
                   (updateComboMultiplier (c_detector st) false)
    /\ k' = c_random st /\ count = cascadeCount st /\ total = c_totalScore st.
Proof.
  unfold processCascadingMatches.
  destruct (cascadeLoop fuel rnd _) as [st|]; [|discriminate].
  intros H. injection H as <- <- <- <-. exists st. auto.
Qed.

(** ** An accepted swap *)

Lemma attemptSwap_accepted
    (cascade checkGameEnd : EmojiCrushGame -> EmojiCrushGame)
    (g : EmojiCrushGame) (pos1 pos2 : Position) :
  0 < moves g ->
  findMatches (snd (swapEmojis (board g) pos1 pos2)) <> [] ->
  let b1 := snd (swapEmojis (board g) pos1 pos2) in
  let d1 := mkDetector (findMatches b1) (comboMultiplier (matchDetector g))
                       (maxComboMultiplier (matchDetector g)) in
  let g1 := mkGame (score g) (moves g) (selectedTile g) (isProcessing g)
                   (moveHistory g) b1 d1 in
  let g4 := cascade (mkGame (score g) (moves g - 1) None true
                            (moveHistory (saveMove g1 pos1 pos2)) b1 d1) in
  attemptSwap cascade checkGameEnd g pos1 pos2
  = (true,
     checkGameEnd (mkGame (score g4) (moves g4) (selectedTile g4) false
                          (moveHistory g4) (board g4) (matchDetector g4))).
Proof.
  intros Hmoves Hne b1 d1 g1 g4. unfold attemptSwap.
  destruct (moves g <=? 0) eqn:Hm; [apply Z.leb_le in Hm; lia|].
  fold b1. cbv zeta. cbn [lastMatches].
  destruct (length (map Linear (findMatches b1)
                    ++ map Shaped (findShapedMatches (findMatches b1))) =? 0)%nat
    eqn:Hnil.
  - apply Nat.eqb_eq, length_zero_iff_nil, allMatches_nil in Hnil. contradiction.
  - reflexivity.
Qed.

Lemma cascadeWith_Some (fuel : nat) (rnd : nat -> Q) (k : nat) (g : EmojiCrushGame)
    (st : Cascade) :
  cascadeLoop fuel rnd (mkCascade (board g) (matchDetector g) k 0 0) = Some st ->
  cascadeWith fuel rnd k g
  = mkGame (score g + c_totalScore st) (moves g) (selectedTile g)
           (isProcessing g) (moveHistory g) (c_board st)
           (updateComboMultiplier (c_detector st) false).
Proof.
  intros Hloop. unfold cascadeWith, processCascadingMatches. now rewrite Hloop.
Qed.

(** ** A board without matches is left alone by the repair *)

Lemma repairCells_nochange (rnd : nat -> Q) (b : GameBoard) (k : nat) (flag : bool)
    (cells : list (Z * Z)) :
  (forall r c, (r, c) ∈ cells ->
     wouldCreateMatch b r c (gridGet (grid b) r c) = false) ->
  fold_left (fun acc rc => repairCell rnd (fst rc) acc (snd rc)) cells (b, k, flag)
  = (b, k, flag).
Proof.
  induction cells as [|[r c] cells IH]; intros Hno; [reflexivity|].
  rewrite fold_left_cons. cbn [fst snd].
  assert (Hstep : repairCell rnd r (b, k, flag) c = (b, k, flag)).
  { unfold repairCell. rewrite Hno by left. reflexivity. }
  rewrite Hstep. apply IH. intros r' c' Hin. apply Hno. now right.
Qed.

Lemma repairPass_nochange (rnd : nat -> Q) (b : GameBoard) (k : nat) :
  hasMatches b = false -> repairPass b rnd k = (b, k, false).
Proof.
  intros Hno. unfold repairPass. rewrite fold_left_nested.
  apply repairCells_nochange. intros r c [Hr Hc]%elem_of_cells.
  apply elem_of_seqZ_0 in Hr, Hc. now apply hasMatches_false.
Qed.

Lemma basic_matchable (e : Emoji) : e ∈ emojis -> matchable e.
Proof.
  intros Hin.
  assert (H : Forall matchable emojis) by (repeat constructor).
  rewrite Forall_forall in H. now apply H.
Qed.

Lemma plainBoard_of_basic (b : GameBoard) :
  (forall r c, 0 <= r < size b -> 0 <= c < size b ->
     exists e, e ∈ emojis /\ getEmoji b r c = Some e) ->
  plainBoard b = true.
Proof.
  intros H. apply plainBoard_iff. intros r c Hr Hc.
  destruct (H r c Hr Hc) as (e & He & Hg).
  rewrite getEmoji_valid in Hg by (apply isValidPosition_spec; lia).
  rewrite Hg. destruct (basic_matchable e He) as [-> ->]. reflexivity.
Qed.

Lemma init_rows (rnd : nat -> Q) (sz : Z) (k : nat) :
  unitStream rnd -> 0 <= sz ->
  exists b k',
    fold_left (initRow rnd) (seqZ 0 sz) (mkBoard sz [], k) = (b, k')
    /\ validBoard b = true /\ size b = sz
    /\ forall r c, 0 <= r < sz -> 0 <= c < sz ->
         exists e, e ∈ emojis /\ getEmoji b r c = Some e.
Proof.
  intros Hrnd Hsz.
  destruct (initRows_spec rnd sz k Hrnd Hsz (Z.to_nat sz))
    as (rows & k' & Hfold & Hlen & Hall).
  rewrite Z2Nat.id in Hfold by lia.
  exists (mkBoard sz rows), k'. split; [exact Hfold|].
  split; [|split; [reflexivity|]].
  - apply validBoard_spec. simpl. split; [exact Hsz|]. split; [exact Hlen|].
    eapply Forall_impl; [exact Hall|]. now intros rw [? _].
  - intros r c Hr Hc.
    rewrite getEmoji_valid by (apply isValidPosition_spec; simpl; lia).
    simpl. unfold gridGet.
    destruct (rows !! Z.to_nat r) as [rw|] eqn:Hrw;
      [|apply lookup_ge_None in Hrw; lia].
    rewrite Forall_forall in Hall.
    destruct (Hall rw (list_elem_of_lookup_2 _ _ _ Hrw)) as [Hl Hbasic].
    destruct (rw !! Z.to_nat c) as [x|] eqn:Hx;
      [|apply lookup_ge_None in Hx; lia].
    rewrite Forall_forall in Hbasic.
    destruct (Hbasic x (list_elem_of_lookup_2 _ _ _ Hx)) as (e & -> & He).
    simpl. eauto.
Qed.

(** ** Lines of three equal cells and the moves of the board *)

Lemma hasMatches_of_window (b : GameBoard) (o : Orientation) (line w : Z) (emoji : Cell) :
  window b o line w emoji -> hasMatches b = true.
Proof.
  intros (Hl & H0 & H2 & C0 & C1 & C2).
  pose proof (wouldCreateMatch_window b o line w emoji H0 H2 C1 C2) as Hw.
  unfold hasMatches. apply existsb_exists.
  exists (row (posAt o line w)). split.
  - apply list_elem_of_In, elem_of_seqZ. destruct o; simpl; lia.
  - apply existsb_exists. exists (col (posAt o line w)). split.
    + apply list_elem_of_In, elem_of_seqZ. destruct o; simpl; lia.
    + replace (gridGet (grid b) _ _) with emoji; [exact Hw|].
      rewrite <- C0. destruct o; reflexivity.
Qed.

Lemma elem_of_candidatesAt (sz r c : Z) (mv : Move) :
  mv ∈ candidatesAt sz r c <->
  (c < sz - 1 /\ mv = (mkPos r c, mkPos r (c + 1)))
  \/ (r < sz - 1 /\ mv = (mkPos r c, mkPos (r + 1) c)).
Proof.
  unfold candidatesAt. rewrite elem_of_app.
  destruct (c <? sz - 1) eqn:Hc; destruct (r <? sz - 1) eqn:Hr;
    rewrite ?list_elem_of_singleton, ?elem_of_nil;
    try apply Z.ltb_lt in Hc; try apply Z.ltb_ge in Hc;
    try apply Z.ltb_lt in Hr; try apply Z.ltb_ge in Hr;
    intuition lia.
Qed.

Lemma elem_of_candidateMoves (sz : Z) (mv : Move) :
  mv ∈ candidateMoves sz <->
  exists r c, 0 <= r < sz /\ 0 <= c < sz
    /\ ((c < sz - 1 /\ mv = (mkPos r c, mkPos r (c + 1)))
        \/ (r < sz - 1 /\ mv = (mkPos r c, mkPos (r + 1) c))).
Proof.
  unfold candidateMoves. rewrite list_elem_of_In, in_flat_map. split.
  - intros (r & Hr & Hin). apply in_flat_map in Hin as (c & Hc & Hin).
    apply list_elem_of_In, elem_of_seqZ_0 in Hr, Hc.
    apply list_elem_of_In, elem_of_candidatesAt in Hin.
    exists r, c. auto.
  - intros (r & c & Hr & Hc & H). exists r.
    split; [apply list_elem_of_In, elem_of_seqZ_0; lia|].
    apply in_flat_map. exists c.
    split; [apply list_elem_of_In, elem_of_seqZ_0; lia|].
    now apply list_elem_of_In, elem_of_candidatesAt.
Qed.

Lemma attemptSwap_accepts_iff
    (cascade checkGameEnd : EmojiCrushGame -> EmojiCrushGame)
    (g : EmojiCrushGame) (pos1 pos2 : Position) :
  fst (attemptSwap cascade checkGameEnd g pos1 pos2) = true <->
  0 < moves g /\ findMatches (snd (swapEmojis (board g) pos1 pos2)) <> [].
Proof.
  split.
  - intros Hacc. unfold attemptSwap in Hacc.
    destruct (moves g <=? 0) eqn:Hm; [discriminate|].
    apply Z.leb_gt in Hm. split; [exact Hm|].
    cbv zeta in Hacc. cbn [lastMatches] in Hacc.
    destruct (length _ =? 0)%nat eqn:Hnil; [discriminate|].
    intros Hf. rewrite Hf in Hnil. discriminate.
  - intros [Hm Hne].
    now rewrite (attemptSwap_accepted cascade checkGameEnd g pos1 pos2 Hm Hne).
Qed.

(** ** The loops that remove duplicates, on the matches of the finder *)

Lemma dedup_fold_fresh (ps : list Position) :
  forall acc : list Position * list Position,
  NoDup (snd acc ++ ps) ->
  fold_left dedupStep ps acc = (fst acc ++ ps, snd acc ++ ps).
Proof.
  induction ps as [|p ps IH]; intros [u v] Hnd.
  - simpl. now rewrite !app_nil_r.
  - rewrite fold_left_cons. simpl in Hnd.
    assert (Hp : p ∉ v).
    { apply NoDup_app in Hnd as (_ & Hdis & _). intros Hin.
      apply (Hdis p Hin). left. }
    assert (Hstep : dedupStep (u, v) p = (u ++ [p], v ++ [p])).
    { unfold dedupStep. simpl. now rewrite bool_decide_eq_false_2. }
    rewrite Hstep, IH.
    + simpl. now rewrite <- !app_assoc.
    + simpl. now rewrite <- app_assoc.
Qed.

Lemma dedup_fold_known (ps : list Position) :
  forall acc : list Position * list Position,
  (forall p, p ∈ ps -> p ∈ snd acc) ->
  fold_left dedupStep ps acc = acc.
Proof.
  induction ps as [|p ps IH]; intros acc Hin; [reflexivity|].
  rewrite fold_left_cons.
  assert (Hstep : dedupStep acc p = acc).
  { unfold dedupStep. rewrite bool_decide_eq_true_2; [reflexivity|]. apply Hin. left. }
  rewrite Hstep. apply IH. intros q Hq. apply Hin. now right.
Qed.

Lemma uniquePositions_NoDup_id (ps : list Position) :
  NoDup ps -> uniquePositions ps = ps.
Proof.
  intros Hnd. unfold uniquePositions.
  now rewrite (dedup_fold_fresh ps ([], []) Hnd).
Qed.

Lemma NoDup_mjoin_elem {X} (ls : list (list X)) (l : list X) :
  NoDup (mjoin ls) -> l ∈ ls -> NoDup l.
Proof.
  induction ls as [|l0 ls IH]; intros Hnd Hin; [inversion Hin|].
  simpl in Hnd. apply NoDup_app in Hnd as (H0 & _ & Hrest).
  apply elem_of_cons in Hin as [->|Hin]; auto.
Qed.

Lemma NoDup_mjoin_pair {X} (ls : list (list X)) :
  NoDup (mjoin ls) ->
  forall i j l1 l2, (i < j)%nat -> ls !! i = Some l1 -> ls !! j = Some l2 ->
  NoDup (l1 ++ l2).
Proof.
  induction ls as [|l0 ls IH]; intros Hnd i j l1 l2 Hij H1 H2; [discriminate|].
  simpl in Hnd. apply NoDup_app in Hnd as (H0 & Hdis & Hrest).
  destruct i as [|i], j as [|j]; try lia.
  - simpl in H1, H2. injection H1 as <-.
    apply list_elem_of_lookup_2 in H2.
    apply NoDup_app. split; [exact H0|]. split.
    + intros x Hx Hx2. apply (Hdis x Hx). apply list_elem_of_join. eauto.
    + now apply (NoDup_mjoin_elem ls).
  - simpl in H1, H2. apply (IH Hrest i j); auto. lia.
Qed.

Lemma NoDup_app_swap {X} (l1 l2 : list X) : NoDup (l1 ++ l2) -> NoDup (l2 ++ l1).
Proof.
  rewrite !NoDup_app. intros (H1 & Hdis & H2).
  split; [exact H2|]. split; [|exact H1].
  intros x Hx2 Hx1. now apply (Hdis x).
Qed.

Lemma findMatches_pair_NoDup (b : GameBoard) (h v : LinearMatch) :
  h ∈ findMatches b -> v ∈ findMatches b -> h <> v ->
  NoDup (m_positions h ++ m_positions v).
Proof.
  intros Hh Hv Hne.
  pose proof (ok_nodup b _ (findMatches_ok b)) as Hnd.
  apply list_elem_of_lookup in Hh as [i Hi], Hv as [j Hj].
  assert (Hi' : (m_positions <$> findMatches b) !! i = Some (m_positions h))
    by (rewrite list_lookup_fmap, Hi; reflexivity).
  assert (Hj' : (m_positions <$> findMatches b) !! j = Some (m_positions v))
    by (rewrite list_lookup_fmap, Hj; reflexivity).
  destruct (Nat.lt_trichotomy i j) as [Hlt|[Heq|Hgt]].
  - exact (NoDup_mjoin_pair _ Hnd i j _ _ Hlt Hi' Hj').
  - subst j. congruence.
  - apply NoDup_app_swap. exact (NoDup_mjoin_pair _ Hnd j i _ _ Hgt Hj' Hi').
Qed.

Lemma linear_fold_fresh (ms : list LinearMatch) :
  forall acc : list Position * list Position,
  fst acc = snd acc ->
  NoDup (snd acc ++ mjoin (m_positions <$> ms)) ->
  fold_left (fun acc m => fold_left dedupStep (positionsOf m) acc) (map Linear ms) acc
  = (fst acc ++ mjoin (m_positions <$> ms), snd acc ++ mjoin (m_positions <$> ms)).
Proof.
  induction ms as [|m ms IH]; intros [u v] Heq Hnd.
  - simpl. now rewrite !app_nil_r.
  - simpl in Heq. subst v.
    change (map Linear (m :: ms)) with (Linear m :: map Linear ms).
    rewrite fold_left_cons. cbn [positionsOf].
    change (mjoin (m_positions <$> m :: ms))
      with (m_positions m ++ mjoin (m_positions <$> ms)) in *.
    cbn [fst snd] in *.
    rewrite dedup_fold_fresh.
    2:{ cbn [snd]. rewrite app_assoc in Hnd. now apply NoDup_app in Hnd as (? & _). }
    cbn [fst snd]. rewrite IH.
    + cbn [fst snd]. now rewrite <- !app_assoc.
    + reflexivity.
    + cbn [snd]. now rewrite <- app_assoc.
Qed.

Lemma shaped_fold_known (ss : list ShapedMatch) (acc : list Position * list Position) :
  (forall s p, s ∈ ss -> p ∈ s_positions s -> p ∈ snd acc) ->
  fold_left (fun acc m => fold_left dedupStep (positionsOf m) acc) (map Shaped ss) acc
  = acc.
Proof.
  induction ss as [|s ss IH]; intros Hin; [reflexivity|].
  change (map Shaped (s :: ss)) with (Shaped s :: map Shaped ss).
  rewrite fold_left_cons. cbn [positionsOf].
  rewrite dedup_fold_known by (intros p Hp; apply (Hin s); [left|exact Hp]).
  apply IH. intros s' p Hs' Hp. apply (Hin s'); [now right|exact Hp].
Qed.

Lemma getAllMatchPositions_allMatchesOf (b : GameBoard) :
  getAllMatchPositions (allMatchesOf b) = mjoin (m_positions <$> findMatches b).
Proof.
  pose proof (ok_nodup b _ (findMatches_ok b)) as Hnd.
  unfold getAllMatchPositions, allMatchesOf. cbv zeta.
  rewrite fold_left_app, (linear_fold_fresh (findMatches b) ([], []) eq_refl Hnd).
  cbn [fst snd app].
  rewrite shaped_fold_known; [reflexivity|].
  intros s p Hs Hp. cbn [snd].
  apply elem_of_findShapedMatches in Hs as (h & v & Hh & Hv & _ & _ & _ & ->).
  simpl in Hp. rewrite elem_of_uniquePositions in Hp.
  apply list_elem_of_join.
  apply elem_of_app in Hp as [Hp|Hp].
  - exists (m_positions h). split; [exact Hp|]. apply list_elem_of_fmap; eauto.
  - exists (m_positions v). split; [exact Hp|]. apply list_elem_of_fmap; eauto.
Qed.

(** ** Matches that still hold *)

Lemma cellAt_posAt (b : GameBoard) (o : Orientation) (line i : Z) :
  getEmoji b (row (posAt o line i)) (col (posAt o line i)) = cellAt b o line i.
Proof. destruct o; reflexivity. Qed.

Lemma goodMatch_holds (b : GameBoard) (m : LinearMatch) (p : Position) :
  goodMatch b m -> p ∈ m_positions m ->
  getEmoji b (row p) (col p) = Some (m_emoji m).
Proof.
  intros G Hp.
  assert (Hspan : p ∈ spanCells m)
    by (eapply elem_of_sublist; [exact Hp|apply (gm_positions b), G]).
  apply elem_of_spanCells in Hspan as (j & Hj & ->).
  rewrite cellAt_posAt. apply (gm_cells b m G).
  pose proof (gm_end b m G). lia.
Qed.

Lemma fresh_match_holds (b : GameBoard) (m : Match) :
  m ∈ allMatchesOf b -> stillHolds b m = true.
Proof.
  intros Hm. unfold stillHolds. apply forallb_forall. intros p Hp.
  apply list_elem_of_In in Hp. apply bool_decide_eq_true.
  pose proof (ok_good b _ (findMatches_ok b)) as Hgood.
  unfold allMatchesOf in Hm. apply elem_of_app in Hm as [Hm|Hm].
  - apply list_elem_of_fmap in Hm as (l & -> & Hl).
    now apply (goodMatch_holds b l p (Hgood l Hl)).
  - apply list_elem_of_fmap in Hm as (s & -> & Hs).
    apply elem_of_findShapedMatches in Hs as (h & v & Hh & Hv & _ & _ & Hint & ->).
    simpl in Hp |- *. rewrite elem_of_uniquePositions in Hp.
    apply intersects_spec in Hint as (_ & _ & Hemoji).
    apply elem_of_app in Hp as [Hp|Hp].
    + now apply (goodMatch_holds b h p (Hgood h Hh)).
    + rewrite Hemoji. now apply (goodMatch_holds b v p (Hgood v Hv)).
Qed.

Lemma elem_of_validateMatches (b : GameBoard) (ms : list Match) (m : Match) :
  m ∈ validateMatches b ms <->
  m ∈ ms /\ stillHolds b m = true /\ (3 <= length (positionsOf m))%nat.
Proof.
  unfold validateMatches. rewrite list_elem_of_In, in_flat_map. split.
  - intros (m' & Hm' & Hin). apply list_elem_of_In in Hm'.
    destruct (stillHolds b m') eqn:Hh; [|inversion Hin].
    destruct (3 <=? Z.of_nat (length (positionsOf m'))) eqn:Hl; [|inversion Hin].
    destruct Hin as [<-|[]]. apply Z.leb_le in Hl.
    split; [exact Hm'|]. split; [exact Hh|lia].
  - intros (Hm & Hh & Hl). exists m. split; [now apply list_elem_of_In|].
    rewrite Hh. destruct (3 <=? Z.of_nat (length (positionsOf m))) eqn:E.
    + left. reflexivity.
    + apply Z.leb_gt in E. lia.
Qed.

(** ** Shuffling *)

Lemma lookup_split_two {X} (l : list X) (i j : nat) (x y : X) :
  (i < j)%nat -> l !! i = Some x -> l !! j = Some y ->
  exists l1 l2 l3,
    l = l1 ++ x :: l2 ++ y :: l3 /\ length l1 = i /\ length l2 = (j - i - 1)%nat.
Proof.
  intros Hij Hi Hj.
  assert (Hj' : drop (S i) l !! (j - i - 1)%nat = Some y).
  { rewrite lookup_drop. now replace (S i + (j - i - 1))%nat with j by lia. }
  exists (take i l), (take (j - i - 1) (drop (S i) l)),
         (drop (S (j - i - 1)) (drop (S i) l)).
  split; [|split].
  - rewrite (take_drop_middle _ _ _ Hj'). now rewrite (take_drop_middle _ _ _ Hi).
  - rewrite length_take. apply lookup_lt_Some in Hi. lia.
  - rewrite length_take, length_drop. apply lookup_lt_Some in Hj. lia.
Qed.

Lemma swap_two_insert {X} (l1 l2 l3 : list X) (x y x' y' : X) :
  <[(length l1 + S (length l2))%nat := y']>
    (<[length l1 := x']> (l1 ++ x :: l2 ++ y :: l3))
  = l1 ++ x' :: l2 ++ y' :: l3.
Proof.
  rewrite (insert_app_r_alt l1) by lia. rewrite Nat.sub_diag. simpl.
  rewrite insert_app_r_alt by lia.
  replace (length l1 + S (length l2) - length l1)%nat with (S (length l2)) by lia.
  simpl. f_equal. f_equal.
  rewrite insert_app_r_alt by lia. now rewrite Nat.sub_diag.
Qed.

Lemma swapEntries_perm {X} (arr : list X) (i j : nat) : swapEntries arr i j ≡ₚ arr.
Proof.
  unfold swapEntries.
  destruct (arr !! i) as [x|] eqn:Hi; [|reflexivity].
  destruct (arr !! j) as [y|] eqn:Hj; [|reflexivity].
  destruct (Nat.lt_trichotomy i j) as [Hlt|[Heq|Hgt]].
  - destruct (lookup_split_two arr i j x y Hlt Hi Hj)
      as (l1 & l2 & l3 & -> & <- & Hl2).
    replace j with (length l1 + S (length l2))%nat by lia.
    rewrite swap_two_insert.
    apply Permutation_app_head.
    rewrite <- !Permutation_middle. apply perm_swap.
  - subst j. rewrite Hi in Hj. injection Hj as <-.
    rewrite list_insert_insert_eq, list_insert_id by exact Hi. reflexivity.
  - destruct (lookup_split_two arr j i y x Hgt Hj Hi)
      as (l1 & l2 & l3 & -> & <- & Hl2).
    replace i with (length l1 + S (length l2))%nat by lia.
    rewrite list_insert_insert_ne by lia.
    rewrite swap_two_insert.
    apply Permutation_app_head.
    rewrite <- !Permutation_middle. apply perm_swap.
Qed.

Lemma shuffleSteps_spec (rnd : nat -> Q) (indices : list Z) :
  forall arr k,
  fst (fold_left (shuffleStep rnd) indices (arr, k)) ≡ₚ arr
  /\ snd (fold_left (shuffleStep rnd) indices (arr, k)) = (k + length indices)%nat.
Proof.
  induction indices as [|i indices IH]; intros arr k.
  - simpl. split; [reflexivity|lia].
  - rewrite fold_left_cons. unfold shuffleStep at 2 4. cbn [fst snd].
    destruct (IH (swapEntries arr (Z.to_nat i)
                    (Z.to_nat (Math_floor (rnd k * inject_Z (i + 1))))) (S k))
      as [Hp Hk].
    split.
    + rewrite Hp. apply swapEntries_perm.
    + rewrite Hk. simpl. lia.
Qed.

Lemma arrayGet_nat {X} (arr : list X) (i : nat) :
  arrayGet arr (Z.of_nat i) = arr !! i.
Proof.
  unfold arrayGet. destruct (Z.of_nat i <? 0) eqn:E; [apply Z.ltb_lt in E; lia|].
  now rewrite Nat2Z.id.
Qed.

(** The inner loop of the redistribution, in row [r], up to column [c']. *)
Lemma redistributeRow_spec (n : nat) (arr : list Cell) (r : nat) (g : list (list Cell)) :
  wfGrid n g -> (r < n)%nat ->
  forall c' : nat, (c' <= n)%nat ->
  let res := fold_left (redistributeCell arr (Z.of_nat r)) (seqZ 0 (Z.of_nat c'))
                       (g, Z.of_nat (r * n)) in
  wfGrid n (fst res)
  /\ snd res = Z.of_nat (r * n + c')
  /\ (forall c : nat, (c < c')%nat ->
        gridGet (fst res) (Z.of_nat r) (Z.of_nat c)
        = default None (arr !! (r * n + c)%nat))
  /\ (forall r2 c2, 0 <= r2 -> 0 <= c2 -> r2 <> Z.of_nat r \/ Z.of_nat c' <= c2 ->
        gridGet (fst res) r2 c2 = gridGet g r2 c2).
Proof.
  intros Hw Hr. induction c' as [|c' IH]; intros Hc; cbv zeta.
  - simpl. split; [exact Hw|]. split; [f_equal; lia|]. split; [intros; lia|auto].
  - destruct (IH ltac:(lia)) as (Hw1 & Hidx & Hdone & Hrest). cbv zeta in *.
    rewrite seqZ_S, fold_left_app, fold_left_cons. cbn [fold_left].
    destruct (fold_left (redistributeCell arr (Z.of_nat r)) (seqZ 0 (Z.of_nat c'))
                (g, Z.of_nat (r * n))) as [g1 idx] eqn:Hfold.
    cbn [fst snd] in *. subst idx.
    unfold redistributeCell. cbn [fst snd].
    replace (0 + Z.of_nat c') with (Z.of_nat c') by lia.
    rewrite arrayGet_nat.
    split; [auto using gridSet_wf|]. split; [lia|]. split.
    + intros c Hlt.
      rewrite (gridGet_gridSet n) by (auto; lia).
      destruct (decide (c = c')) as [->|Hne].
      * now rewrite decide_True by auto.
      * rewrite decide_False by lia. apply Hdone. lia.
    + intros r2 c2 Hr2 Hc2 Hor.
      rewrite (gridGet_gridSet n) by (auto; lia).
      rewrite decide_False by lia. apply Hrest; auto. lia.
Qed.

Lemma redistribute_spec (n : nat) (arr : list Cell) (g : list (list Cell)) :
  wfGrid n g ->
  forall r' : nat, (r' <= n)%nat ->
  let res := fold_left (fun acc r => fold_left (redistributeCell arr r)
                                               (seqZ 0 (Z.of_nat n)) acc)
                       (seqZ 0 (Z.of_nat r')) (g, 0) in
  wfGrid n (fst res)
  /\ snd res = Z.of_nat (r' * n)
  /\ (forall r c : nat, (r < r')%nat -> (c < n)%nat ->
        gridGet (fst res) (Z.of_nat r) (Z.of_nat c)
        = default None (arr !! (r * n + c)%nat))
  /\ (forall r2 c2, Z.of_nat r' <= r2 -> 0 <= c2 ->
        gridGet (fst res) r2 c2 = gridGet g r2 c2).
Proof.
  intros Hw. induction r' as [|r' IH]; intros Hr; cbv zeta.
  - simpl. split; [exact Hw|]. split; [reflexivity|]. split; [intros; lia|auto].
  - destruct (IH ltac:(lia)) as (Hw1 & Hidx & Hdone & Hrest). cbv zeta in *.
    rewrite seqZ_S, fold_left_app, fold_left_cons. cbn [fold_left].
    destruct (fold_left _ (seqZ 0 (Z.of_nat r')) (g, 0)) as [g1 idx] eqn:Hfold.
    cbn [fst snd] in *. subst idx.
    replace (0 + Z.of_nat r') with (Z.of_nat r') by lia.
    destruct (redistributeRow_spec n arr r' g1 Hw1 ltac:(lia) n ltac:(lia))
      as (Hw2 & Hidx2 & Hrow & Hoth). cbv zeta in *.
    split; [exact Hw2|]. split; [rewrite Hidx2; f_equal; lia|]. split.
    + intros r c Hlt Hc.
      destruct (decide (r = r')) as [->|Hne]; [now apply Hrow|].
      rewrite Hoth by lia. apply Hdone; lia.
    + intros r2 c2 Hr2 Hc2. rewrite Hoth by lia. apply Hrest; lia.
Qed.

Lemma rows_of_array (n : nat) (arr : list Cell) (g : list (list Cell)) :
  length arr = (n * n)%nat ->
  (forall r c : nat, (r < n)%nat -> (c < n)%nat ->
     gridGet g (Z.of_nat r) (Z.of_nat c) = default None (arr !! (r * n + c)%nat)) ->
  forall r' : nat, (r' <= n)%nat ->
  flat_map (fun r => map (fun c => gridGet g r c) (seqZ 0 (Z.of_nat n)))
           (seqZ 0 (Z.of_nat r'))
  = take (r' * n) arr.
Proof.
  intros Hlen Hg. induction r' as [|r' IH]; intros Hr; [reflexivity|].
  rewrite seqZ_S, flat_map_app, IH by lia. simpl flat_map. rewrite app_nil_r.
  replace (S r' * n)%nat with (r' * n + n)%nat by lia.
  rewrite <- take_take_drop. f_equal.
  apply list_eq. intros i.
  change (map ?f ?l) with (f <$> l). rewrite list_lookup_fmap.
  rewrite lookup_take, lookup_drop.
  destruct (decide (i < n)%nat) as [Hi|Hi].
  - rewrite lookup_seqZ_lt by lia. simpl.
    replace (0 + Z.of_nat r') with (Z.of_nat r') by lia.
    replace (0 + Z.of_nat i) with (Z.of_nat i) by lia.
    rewrite Hg by lia.
    destruct (arr !! (r' * n + i)%nat) as [x|] eqn:Hx; [reflexivity|].
    apply lookup_ge_None in Hx. nia.
  - rewrite lookup_seqZ_ge by lia. reflexivity.
Qed.

Lemma collectEmojis_length (b : GameBoard) :
  length (collectEmojis b) = (Z.to_nat (size b) * Z.to_nat (size b))%nat.
Proof.
  unfold collectEmojis.
  assert (H : forall rs : list Z,
            length (flat_map (fun r => map (fun c => gridGet (grid b) r c)
                                           (seqZ 0 (size b))) rs)
            = (length rs * Z.to_nat (size b))%nat).
  { induction rs as [|r rs IH]; [reflexivity|].
    simpl. rewrite length_app, IH, length_map, length_seqZ. reflexivity. }
  now rewrite H, length_seqZ.
Qed.

Lemma shuffleCells_spec (b : GameBoard) (rnd : nat -> Q) (k : nat) :
  validBoard b = true ->
  validBoard (fst (shuffleCells b rnd k)) = true
  /\ size (fst (shuffleCells b rnd k)) = size b
  /\ collectEmojis (fst (shuffleCells b rnd k)) ≡ₚ collectEmojis b
  /\ snd (shuffleCells b rnd k)
     = (k + (Z.to_nat (size b) * Z.to_nat (size b) - 1))%nat.
Proof.
  intros Hv. apply validBoard_spec in Hv as [Hn Hw].
  set (n := Z.to_nat (size b)) in *.
  assert (Hsz : size b = Z.of_nat n) by (unfold n; lia).
  unfold shuffleCells. cbv zeta.
  set (indices := reverse (seqZ 1 (Z.of_nat (length (collectEmojis b)) - 1))).
  destruct (shuffleSteps_spec rnd indices (collectEmojis b) k) as [Hperm Hk].
  set (shuffled := fold_left (shuffleStep rnd) indices (collectEmojis b, k)) in *.
  assert (Hlen : length (fst shuffled) = (n * n)%nat).
  { rewrite (Permutation_length Hperm). apply collectEmojis_length. }
  rewrite Hsz.
  destruct (redistribute_spec n (fst shuffled) (grid b) Hw n ltac:(lia))
    as (Hw' & _ & Hcells & _). cbv zeta in *.
  set (g' := fst (fold_left _ (seqZ 0 (Z.of_nat n)) (grid b, 0))) in *.
  cbn [fst snd size].
  split; [apply validBoard_spec; simpl; rewrite Nat2Z.id; split; [lia|exact Hw']|].
  split; [reflexivity|]. split.
  - unfold collectEmojis at 1. cbn [size grid].
    rewrite (rows_of_array n (fst shuffled) g' Hlen Hcells n ltac:(lia)).
    rewrite take_ge by lia. exact Hperm.
  - rewrite Hk. unfold indices.
    rewrite length_reverse, length_seqZ, collectEmojis_length. fold n. lia.
Qed.

Lemma refill_columns (b : GameBoard) (rnd : nat -> Q) (k : nat) :
  validBoard b = true -> unitStream rnd ->
  let b' := snd (fst (fillEmpty (snd (applyGravity b)) rnd k)) in
  let n := Z.to_nat (size b) in
  validBoard b' = true
  /\ size b' = size b
  /\ (forall r c, 0 <= r < size b -> 0 <= c < size b -> getEmoji b' r c <> None)
  /\ (forall c, 0 <= c < size b ->
        exists new,
          column n (grid b') c = new ++ tiles (column n (grid b) c)
          /\ length new
             = (length (column n (grid b) c) - length (tiles (column n (grid b) c)))%nat
          /\ Forall (fun x : Cell => exists e, e ∈ emojis /\ x = Some e) new).
Proof.
  intros H Hrnd b' n.
  destruct (applyGravity_spec b H) as (Hv1 & Hs1 & Hcol1 & _).
  set (b1 := snd (applyGravity b)) in *.
  destruct (fillEmpty_spec b1 rnd k Hv1 Hrnd)
    as (b2 & news & Hfill & Hv2 & Hs2 & Hkeep & Hnew & _).
  assert (Hb' : b' = b2) by (unfold b'; now rewrite Hfill).
  rewrite Hb'. clear Hb' b'.
  split; [exact Hv2|]. split; [congruence|]. split.
  - intros r c Hr Hc.
    destruct (getEmoji b1 r c) as [e|] eqn:He.
    + rewrite Hkeep; congruence.
    + destruct (Hnew r c) as (e & _ & ->); [lia|lia|exact He|discriminate].
  - intros c Hc.
    assert (Hlook : forall bb (i : nat), size bb = size b -> (i < n)%nat ->
              column n (grid bb) c !! i = Some (getEmoji bb (Z.of_nat i) c)).
    { intros bb i Hsz Hi.
      assert (Hg := column_getEmoji bb (Z.of_nat i) c).
      rewrite Hsz, Nat2Z.id in Hg. apply Hg; unfold n in Hi; lia. }
    destruct (refill_column (column n (grid b1) c) (column n (grid b2) c)
                (length (column n (grid b) c) - length (tiles (column n (grid b) c)))
                (tiles (column n (grid b) c)))
      as (new & Hnew' & Hlnew & Hbasic).
    + apply Hcol1, Hc.
    + apply Forall_forall. intros x. apply tiles_not_None.
    + now rewrite !column_length.
    + intros i x Hi Hx.
      assert (Hlt : (i < n)%nat)
        by (apply lookup_lt_Some in Hi; now rewrite column_length in Hi).
      rewrite Hlook in Hi by (auto; lia). rewrite Hlook by (congruence || lia).
      injection Hi as Hi. rewrite Hkeep; congruence.
    + intros i Hi.
      assert (Hlt : (i < n)%nat)
        by (apply lookup_lt_Some in Hi; now rewrite column_length in Hi).
      rewrite Hlook in Hi by (auto; lia). injection Hi as Hi.
      destruct (Hnew (Z.of_nat i) c) as (e & He & Hget);
        [unfold n in Hlt; lia|lia|exact Hi|].
      exists e. split; [exact He|].
      rewrite Hlook by (congruence || lia). now rewrite Hget.
    + exists new. split; [exact Hnew'|]. split; [exact Hlnew|exact Hbasic].
Qed.

Lemma tiles_insert_None (cells : list Cell) (i : nat) :
  None ∉ cells -> (i < length cells)%nat ->
  tiles (<[i := None]> cells) = take i cells ++ drop (S i) cells.
Proof.
  intros Hfull Hi.
  rewrite insert_take_drop by exact Hi.
  rewrite tiles_app, tiles_cons_None.
  rewrite !tiles_full; [reflexivity| |].
  - intros Hin. apply Hfull. rewrite <- (take_drop (S i) cells).
    apply elem_of_app. now right.
  - intros Hin. apply Hfull. rewrite <- (take_drop i cells).
    apply elem_of_app. now left.
Qed.

Lemma getEmoji_outside (b1 b2 : GameBoard) (r c : Z) :
  size b1 = size b2 ->
  ~ (0 <= r < size b1 /\ 0 <= c < size b1) ->
  getEmoji b1 r c = getEmoji b2 r c.
Proof.
  intros Hs Hout.
  assert (H1 : isValidPosition b1 r c = false) by (unfold isValidPosition; lia).
  assert (H2 : isValidPosition b2 r c = false) by (unfold isValidPosition; lia).
  now rewrite !getEmoji_invalid.
Qed.

Lemma column_full (b : GameBoard) (c : Z) :
  (forall r c, 0 <= r < size b -> 0 <= c < size b -> getEmoji b r c <> None) ->
  0 <= c < size b ->
  None ∉ column (Z.to_nat (size b)) (grid b) c.
Proof.
  intros Hfull Hc Hin.
  apply list_elem_of_lookup in Hin as [i Hi].
  assert (Hlt : (i < Z.to_nat (size b))%nat).
  { apply lookup_lt_Some in Hi. now rewrite column_length in Hi. }
  assert (Hg := column_getEmoji b (Z.of_nat i) c ltac:(lia) Hc).
  rewrite Nat2Z.id in Hg. rewrite Hg in Hi. injection Hi as Hi.
  apply (Hfull (Z.of_nat i) c); [lia|exact Hc|exact Hi].
Qed.

Lemma fill_full (b : GameBoard) (rnd : nat -> Q) (k : nat) :
  validBoard b = true -> unitStream rnd ->
  (forall r c, 0 <= r < size b -> 0 <= c < size b -> getEmoji b r c <> None) ->
  snd (fst (fillEmpty b rnd k)) = b.
Proof.
  intros Hv Hrnd Hfull.
  destruct (fillEmpty_spec b rnd k Hv Hrnd)
    as (b' & news & Hfill & Hv' & Hs' & Hkeep & _).
  rewrite Hfill. cbn [fst snd].
  apply board_ext; [exact Hv'|exact Hv|exact Hs'|].
  intros r c.
  destruct (decide (0 <= r < size b /\ 0 <= c < size b)) as [[Hr Hc]|Hout].
  - apply Hkeep. now apply Hfull.
  - apply getEmoji_outside; [exact Hs'|]. now rewrite Hs'.
Qed.

Lemma lookup_refilled_below {X} (x : X) (l : list X) (r i : nat) :
  (r < length l)%nat -> (r < i)%nat ->
  ([x] ++ take r l ++ drop (S r) l) !! i = l !! i.
Proof.
  intros Hr Hi.
  rewrite lookup_app_r by (simpl; lia).
  rewrite lookup_app_r by (rewrite length_take; simpl; lia).
  rewrite lookup_drop, length_take. f_equal. simpl. lia.
Qed.

Lemma lookup_refilled_above {X} (x : X) (l : list X) (r i : nat) :
  (r < length l)%nat -> (i < r)%nat ->
  ([x] ++ take r l ++ drop (S r) l) !! S i = l !! i.
Proof.
  intros Hr Hi.
  rewrite lookup_app_r by (simpl; lia).
  rewrite lookup_app_l by (rewrite length_take; simpl; lia).
  rewrite lookup_take_lt by (simpl; lia). f_equal. simpl. lia.
Qed.

Lemma hammer_board (b : GameBoard) (rnd : nat -> Q) (k : nat) (r c : Z) :
  validBoard b = true -> unitStream rnd ->
  (forall r c, 0 <= r < size b -> 0 <= c < size b -> getEmoji b r c <> None) ->
  let b' := snd (fst (fillEmpty (snd (applyGravity (setEmoji b r c None))) rnd k)) in
  validBoard b' = true
  /\ size b' = size b
  /\ (forall r c, 0 <= r < size b -> 0 <= c < size b -> getEmoji b' r c <> None)
  /\ (isValidPosition b r c = true ->
        (forall r' c', c' <> c -> getEmoji b' r' c' = getEmoji b r' c')
        /\ (forall r', r < r' -> getEmoji b' r' c = getEmoji b r' c)
        /\ (forall r', 0 < r' <= r -> getEmoji b' r' c = getEmoji b (r' - 1) c)
        /\ exists e, e ∈ emojis /\ getEmoji b' 0 c = Some e)
  /\ (isValidPosition b r c = false -> b' = b).
Proof.
  intros Hv Hrnd Hfull. cbv zeta.
  set (b1 := setEmoji b r c None).
  assert (Hv1 : validBoard b1 = true) by now apply setEmoji_validBoard.
  assert (Hs1 : size b1 = size b) by apply setEmoji_size.
  destruct (refill_columns b1 rnd k Hv1 Hrnd) as (Hv' & Hs' & Hfull' & Hcols).
  remember (snd (fst (fillEmpty (snd (applyGravity b1)) rnd k))) as b' eqn:Hb'.
  rewrite Hs1 in Hs', Hfull', Hcols.
  split; [exact Hv'|]. split; [exact Hs'|]. split; [exact Hfull'|].
  set (n := Z.to_nat (size b)) in *.
  assert (Hlook : forall bb r' c', size bb = size b ->
            0 <= r' < size b -> 0 <= c' < size b ->
            column n (grid bb) c' !! Z.to_nat r' = Some (getEmoji bb r' c')).
  { intros bb r' c' Hsz Hr' Hc'. unfold n. rewrite <- Hsz.
    apply column_getEmoji; lia. }
  split.
  - intros Hvalid. apply isValidPosition_spec in Hvalid as [Hr Hc].
    apply validBoard_spec in Hv as Hwf. destruct Hwf as [Hn Hwf]. fold n in Hwf.
    assert (Hb1 : grid b1 = gridSet (grid b) r c None).
    { unfold b1, setEmoji.
      replace (isValidPosition b r c) with true; [reflexivity|].
      symmetry. apply isValidPosition_spec. lia. }
    assert (Hother : forall r' c', c' <> c -> getEmoji b' r' c' = getEmoji b r' c').
    { intros r' c' Hne.
      destruct (decide (0 <= r' < size b /\ 0 <= c' < size b)) as [[Hr' Hc']|Hout].
      2:{ apply getEmoji_outside; [exact Hs'|]. now rewrite Hs'. }
      destruct (Hcols c' Hc') as (new & Hcol & Hlen & _).
      assert (Hsame : column n (grid b1) c' = column n (grid b) c').
      { rewrite Hb1. apply column_gridSet_other; [exact Hwf|lia|lia|lia|exact Hne]. }
      rewrite Hsame in Hcol, Hlen.
      rewrite tiles_full in Hcol, Hlen by now apply column_full.
      assert (new = []) as -> by (apply length_zero_iff_nil; lia).
      assert (H1 := Hlook b' r' c' Hs' Hr' Hc').
      assert (H2 := Hlook b r' c' eq_refl Hr' Hc').
      rewrite Hcol in H1. simpl in H1. congruence. }
    split; [exact Hother|].
    destruct (Hcols c Hc) as (new & Hcol & Hlen & Hbasic).
    set (cells := column n (grid b) c) in *.
    assert (Hcl : length cells = n) by apply column_length.
    assert (Hset : column n (grid b1) c = <[Z.to_nat r := None]> cells).
    { rewrite Hb1. rewrite <- (Z2Nat.id r) at 1 by lia.
      apply column_gridSet_same; [exact Hwf|lia|lia]. }
    rewrite Hset in Hcol, Hlen.
    rewrite tiles_insert_None in Hcol, Hlen by (try apply column_full; auto; lia).
    rewrite length_insert, length_app, length_take, length_drop in Hlen.
    destruct new as [|x [|y new]]; simpl in Hlen; try lia.
    apply Forall_cons in Hbasic as [(e & He & ->) _].
    split; [|split].
    + intros r' Hr'.
      destruct (decide (r' < size b)) as [Hin|Hout].
      2:{ apply getEmoji_outside; [exact Hs'|]. rewrite Hs'. lia. }
      assert (H1 := Hlook b' r' c Hs' ltac:(lia) Hc).
      assert (H2 := Hlook b r' c eq_refl ltac:(lia) Hc). fold cells in H2.
      rewrite Hcol, lookup_refilled_below in H1 by lia.
      congruence.
    + intros r' Hr'.
      assert (H1 := Hlook b' r' c Hs' ltac:(lia) Hc).
      assert (H2 := Hlook b (r' - 1) c eq_refl ltac:(lia) Hc). fold cells in H2.
      replace (Z.to_nat r') with (S (Z.to_nat (r' - 1))) in H1 by lia.
      rewrite Hcol, lookup_refilled_above in H1 by lia.
      congruence.
    + exists e. split; [exact He|].
      assert (H1 := Hlook b' 0 c Hs' ltac:(lia) Hc).
      rewrite Hcol in H1. simpl in H1. congruence.
  - intros Hinvalid. rewrite Hb'.
    assert (Hb1 : b1 = b).
    { unfold b1, setEmoji. now rewrite Hinvalid. }
    rewrite Hb1.
    rewrite applyGravity_full by assumption.
    now apply fill_full.
Qed.

Lemma usePowerUp_undo (rnd : nat -> Q) (s : Session) (r c : Z) :
  activePowerUp s = Some undoPowerUp -> 0 < pu_undo (powerUps s) ->
  usePowerUp rnd s r c
  = (fst (undoLastMove (core s)), withCore s (snd (undoLastMove (core s)))).
Proof.
  intros Hact Hpos. unfold usePowerUp. rewrite Hact. cbn [powerUpCount].
  destruct (pu_undo (powerUps s) <=? 0) eqn:E; [lia|reflexivity].
Qed.

Lemma undo_uses (rnd : nat -> Q) (r c : Z) (kept : list MoveRecord) (rec : MoveRecord)
    (undone : list MoveRecord) :
  forall s : Session,
  activePowerUp s = Some undoPowerUp -> 0 < pu_undo (powerUps s) ->
  moveHistory (core s) = kept ++ rec :: undone ->
  let use := fun s => snd (usePowerUp rnd s r c) in
  let s' := Nat.iter (S (length undone)) use s in
  (forall i, (i <= length undone)%nat ->
     fst (usePowerUp rnd (Nat.iter i use s) r c) = true)
  /\ powerUps s' = powerUps s
  /\ activePowerUp s' = Some undoPowerUp
  /\ moveHistory (core s') = kept
  /\ score (core s') = mv_score rec
  /\ moves (core s') = mv_moves rec
  /\ board (core s') = mkBoard (size (board (core s))) (boardState rec).
Proof.
  induction undone as [|e u IH] using rev_ind; intros s Hact Hpos Hh use s'.
  - assert (Huse := usePowerUp_undo rnd s r c Hact Hpos).
    rewrite (undoLastMove_snoc (core s) kept rec Hh) in Huse.
    split.
    + intros i Hi. simpl in Hi. assert (i = 0%nat) as -> by lia.
      simpl. now rewrite Huse.
    + unfold s', use. simpl. rewrite Huse. simpl. tauto.
  - assert (Hh' : moveHistory (core s) = (kept ++ rec :: u) ++ [e])
      by (rewrite Hh, <- app_assoc; reflexivity).
    assert (Huse := usePowerUp_undo rnd s r c Hact Hpos).
    rewrite (undoLastMove_snoc (core s) _ e Hh') in Huse.
    set (s1 := use s).
    assert (Hs1 : s1 = snd (usePowerUp rnd s r c)) by reflexivity.
    rewrite Huse in Hs1. cbn [snd] in Hs1.
    destruct (IH s1) as (Hall & Hpu & Ha & Hhist & Hsc & Hmv & Hb).
    { rewrite Hs1. exact Hact. }
    { rewrite Hs1. exact Hpos. }
    { rewrite Hs1. reflexivity. }
    assert (Hiter : forall i, Nat.iter (S i) use s = Nat.iter i use s1).
    { intros i. unfold s1. induction i as [|i IHi]; [reflexivity|].
      simpl in *. now rewrite IHi. }
    assert (Hlen : length (u ++ [e]) = S (length u))
      by (rewrite length_app; simpl; lia).
    split.
    + intros i Hi. destruct i as [|i].
      * simpl. now rewrite Huse.
      * rewrite Hiter. apply Hall. lia.
    + unfold s'. rewrite Hlen, Hiter.
      split; [etransitivity; [exact Hpu|rewrite Hs1; reflexivity]|].
      split; [exact Ha|]. split; [exact Hhist|]. split; [exact Hsc|].
      split; [exact Hmv|]. etransitivity; [exact Hb|rewrite Hs1; reflexivity].
Qed.

Lemma createSpecialEmojis_linear_nil (b : GameBoard) :
  createSpecialEmojis (map Linear (findMatches b)) <> []
  <-> exists l, l ∈ findMatches b /\ 4 <= m_length l.
Proof.
  split.
  - intros Hne.
    destruct (createSpecialEmojis (map Linear (findMatches b))) as [|s ss] eqn:E;
      [congruence|].
    assert (Hs : s ∈ createSpecialEmojis (map Linear (findMatches b)))
      by (rewrite E; left).
    apply elem_of_createSpecialEmojis in Hs as [Hin Hchoice].
    apply list_elem_of_fmap in Hin as (l & Hl & Hin).
    exists l. split; [exact Hin|].
    rewrite Hl in Hchoice. unfold specialChoice in Hchoice.
    destruct (m_length l =? 4) eqn:E4; [lia|].
    destruct (m_length l >=? 5) eqn:E5; [lia|discriminate].
  - intros (l & Hin & Hlen) Hnil.
    destruct (getMiddlePosition_nonempty (Linear l)) as (p & Hp & _).
    { apply (gm_nonempty b), (ok_good _ _ (findMatches_ok b)), Hin. }
    set (type := if m_length l =? 4 then striped else rainbow).
    assert (Hs : mkSpecial type p (Linear l)
                 ∈ createSpecialEmojis (map Linear (findMatches b))).
    { apply elem_of_createSpecialEmojis. cbn [originalMatch sp_type sp_position].
      split; [apply list_elem_of_fmap; eauto|].
      unfold specialChoice, type. rewrite Hp.
      destruct (m_length l =? 4) eqn:E4; [reflexivity|].
      destruct (m_length l >=? 5) eqn:E5; [reflexivity|lia]. }
    rewrite Hnil in Hs. inversion Hs.
Qed.

Lemma hintLoop_spec (b : GameBoard) (possibleMoves : list Move) :
  validBoard b = true ->
  forall last,
  let res := hintLoop b last possibleMoves in
  snd (fst res) = b
  /\ match fst (fst res) with
     | Some mv =>
         (exists before after,
            possibleMoves = before ++ mv :: after
            /\ forall m, m ∈ before -> ~ makesRunOfFour b m)
         /\ makesRunOfFour b mv
         /\ snd res = findMatches (snd (swapEmojis b (fst mv) (snd mv)))
     | None => forall m, m ∈ possibleMoves -> ~ makesRunOfFour b m
     end.
Proof.
  intros Hv. induction possibleMoves as [|move rest IH]; intros last res.
  - split; [reflexivity|]. simpl. intros m Hm. inversion Hm.
  - unfold res. cbn [hintLoop].
    rewrite swapEmojis_involutive by exact Hv.
    set (b1 := snd (swapEmojis b (fst move) (snd move))).
    destruct (0 <? Z.of_nat (length (createSpecialEmojis (map Linear (findMatches b1)))))
      eqn:E.
    + cbn [fst snd]. split; [reflexivity|].
      assert (Hfour : makesRunOfFour b move).
      { apply createSpecialEmojis_linear_nil. intros Hnil. fold b1 in Hnil.
        rewrite Hnil in E. discriminate. }
      split; [|split; [exact Hfour|reflexivity]].
      exists [], rest. split; [reflexivity|]. intros m Hm. inversion Hm.
    + assert (Hnot : ~ makesRunOfFour b move).
      { intros Hfour. apply createSpecialEmojis_linear_nil in Hfour. fold b1 in Hfour.
        destruct (createSpecialEmojis (map Linear (findMatches b1))); [congruence|].
        apply Z.ltb_ge in E. rewrite length_cons in E. lia. }
      specialize (IH (findMatches b1)). cbv zeta in IH.
      destruct IH as [Hb IH]. split; [exact Hb|].
      destruct (fst (fst (hintLoop b (findMatches b1) rest))) as [mv|].
      * destruct IH as ((before & after & Heq & Hbefore) & Hfour & Hlast).
        split; [|split; [exact Hfour|exact Hlast]].
        exists (move :: before), after. split; [now rewrite Heq|].
        intros m [->|Hm]%elem_of_cons; [exact Hnot|now apply Hbefore].
      * intros m [->|Hm]%elem_of_cons; [exact Hnot|now apply IH].
Qed.

Lemma hasValidMoves_spec (s : Session) :
  validBoard (board (core s)) = true ->
  hasValidMoves s
  = (negb (bool_decide (fst (getPossibleMoves (board (core s))) = [])), s).
Proof.
  intros Hv. unfold hasValidMoves.
  assert (Hb : snd (getPossibleMoves (board (core s))) = board (core s))
    by now rewrite (getPossibleMoves_spec _ Hv).
  rewrite Hb. f_equal.
  - destruct (fst (getPossibleMoves (board (core s)))); reflexivity.
  - destruct s as [[] ]; reflexivity.
Qed.

Lemma checkTimeUp_spec (s : Session) :
  (timedOut s -> checkTimeUp s = snd (endGame s timeUp))
  /\ (~ timedOut s -> checkTimeUp s = s).
Proof.
  unfold checkTimeUp, timedOut. split.
  - intros [Ht Hm]. rewrite bool_decide_eq_true_2 by exact Hm.
    destruct (timeLeft s <=? 0) eqn:E; [reflexivity|lia].
  - intros Hnot.
    destruct (timeLeft s <=? 0) eqn:E; [|reflexivity].
    destruct (bool_decide (gameMode s = timed)) eqn:Em; [|reflexivity].
    apply bool_decide_eq_true in Em. exfalso. apply Hnot. split; [lia|exact Em].
Qed.

Lemma checkGameEnd_cases (starThresholds : Z -> StarThresholds) (s : Session) :
  validBoard (board (core s)) = true ->
  let possible := fst (getPossibleMoves (board (core s))) in
  (goal s <= score (core s) ->
     checkGameEnd starThresholds s = snd (completeLevel starThresholds s))
  /\ (score (core s) < goal s -> moves (core s) <= 0 -> possible = [] ->
        checkGameEnd starThresholds s = snd (endGame s noMoves))
  /\ (score (core s) < goal s -> ~ (moves (core s) <= 0 /\ possible = []) ->
        checkGameEnd starThresholds s = checkTimeUp s).
Proof.
  intros Hv possible. unfold checkGameEnd.
  rewrite (hasValidMoves_spec s Hv). fold possible. cbn [fst snd].
  split; [|split].
  - intros Hg. destruct (goal s <=? score (core s)) eqn:E; [reflexivity|lia].
  - intros Hg Hm Hp.
    destruct (goal s <=? score (core s)) eqn:E; [lia|].
    destruct (moves (core s) <=? 0) eqn:E2; [|lia].
    rewrite bool_decide_eq_true_2 by exact Hp. reflexivity.
  - intros Hg Hnot.
    destruct (goal s <=? score (core s)) eqn:E; [lia|].
    destruct (moves (core s) <=? 0) eqn:E2; [|reflexivity].
    rewrite bool_decide_eq_false_2; [reflexivity|].
    intros Hp. apply Hnot. split; [lia|exact Hp].
Qed.

(** * Undo after a move, and the chain reaction *)

(** ** Undo after a move *)

(** C8.  Undo after a move does not bring back the state of before the
    move.  [readyBoard] holds no match and the game on it has 30 moves and
    score 0.  The swap of (0,2) and (1,2) is accepted; after it the game
    has 29 moves and score 60.  The undo that follows returns true and
    sets the score back to 0, but it sets the moves to 31, one more than
    before the move, and the grid to the grid as it was right after the
    swap, which is not the grid of before the move and still holds the
    three apples that the swap lined up.  The cap on the history holds: a
    save on a history of five entries leaves five, the oldest one gone. *)
Theorem undo_after_a_move_is_not_the_state_before_it :
  let swapped := snd (swapEmojis readyBoard (mkPos 0 2) (mkPos 1 2)) in
  let r := attemptSwap (cascadeWith 2 cycleStream 0) (fun g => g) readyGame
             (mkPos 0 2) (mkPos 1 2) in
  let u := undoLastMove (snd r) in
  (findMatches readyBoard = [] /\ score readyGame = 0 /\ moves readyGame = 30)
  /\ (fst r = true /\ score (snd r) = 60 /\ moves (snd r) = 29)
  /\ fst u = true
  /\ score (snd u) = 0
  /\ moves (snd u) = 31
  /\ board (snd u) = swapped
  /\ board (snd u) <> readyBoard
  /\ findMatches (board (snd u))
     = [mkLinear horizontal "🍎" [mkPos 0 0; mkPos 0 1; mkPos 0 2] 3 0 0 2]
  /\ moveHistory (snd u) = []
  /\ length (moveHistory fullHistoryGame) = 5%nat
  /\ moveHistory (saveMove fullHistoryGame (mkPos 2 2) (mkPos 2 3))
     = tail (moveHistory fullHistoryGame)
       ++ [savedEntry fullHistoryGame (mkPos 2 2) (mkPos 2 3)].
Proof.
  intros swapped r u.
  assert (Hb : board (snd u) = swapped) by (vm_compute; reflexivity).
  split; [repeat split; vm_compute; reflexivity|].
  split; [repeat split; vm_compute; reflexivity|].
  split; [vm_compute; reflexivity|].
  split; [vm_compute; reflexivity|].
  split; [vm_compute; reflexivity|].
  split; [exact Hb|].
  split.
  { rewrite Hb. intros Heq.
    apply (f_equal (fun b => getEmoji b 0 2)) in Heq.
    vm_compute in Heq. discriminate Heq. }
  split; [vm_compute; reflexivity|].
  split; [vm_compute; reflexivity|].
  split; [reflexivity|].
  apply saveMove_history_full. reflexivity.
Qed.

(** ** A chain reaction that returns *)

(** The loop returns when every recursive call it makes returns. *)
Lemma chainLoop_returns (self : nat -> Z -> Z -> option (list Position * nat))
    (b : GameBoard) (r c : Z) (affected : list Position) :
  (forall pos k, pos ∈ affected ->
     isSpecialEmoji (getEmoji b (row pos) (col pos)) = true ->
     pos <> mkPos r c ->
     exists x, self k (row pos) (col pos) = Some x) ->
  forall acc k, exists x, chainLoop self b r c affected acc k = Some x.
Proof.
  induction affected as [|pos rest IH]; intros Hself acc k.
  - eexists. reflexivity.
  - cbn [chainLoop].
    assert (Hrest : forall pos' k', pos' ∈ rest ->
              isSpecialEmoji (getEmoji b (row pos') (col pos')) = true ->
              pos' <> mkPos r c ->
              exists x, self k' (row pos') (col pos') = Some x).
    { intros pos' k' Hin. apply Hself. now right. }
    destruct (isSpecialEmoji (getEmoji b (row pos) (col pos))
              && (negb (row pos =? r) || negb (col pos =? c))) eqn:Hc.
    + apply andb_true_iff in Hc as [Hsp Hne].
      destruct (Hself pos k) as [[chain k1] Hcall]; [left|exact Hsp| |].
      { intros ->. simpl in Hne. rewrite !Z.eqb_refl in Hne. discriminate. }
      rewrite Hcall. now apply IH.
    + now apply IH.
Qed.

(** What the loop returns holds nothing but what it had and what the
    recursive calls returned. *)
Lemma chainLoop_only (self : nat -> Z -> Z -> option (list Position * nat))
    (b : GameBoard) (r c : Z) (affected : list Position) :
  forall (acc : list Position) (k : nat) (res : list Position) (k' : nat),
  chainLoop self b r c affected acc k = Some (res, k') ->
  forall p, p ∈ res ->
    p ∈ acc
    \/ exists pos, pos ∈ affected
         /\ isSpecialEmoji (getEmoji b (row pos) (col pos)) = true
         /\ pos <> mkPos r c
         /\ exists kk chain kk',
              self kk (row pos) (col pos) = Some (chain, kk') /\ p ∈ chain.
Proof.
  induction affected as [|pos rest IH]; intros acc k res k' H p Hp; cbn [chainLoop] in H.
  - injection H as <- <-. now left.
  - destruct (isSpecialEmoji (getEmoji b (row pos) (col pos))
              && (negb (row pos =? r) || negb (col pos =? c))) eqn:Hc.
    + destruct (self k (row pos) (col pos)) as [[chain k1]|] eqn:Hs; [|discriminate].
      destruct (IH _ _ _ _ H p Hp) as [Hin|(pos' & Hin & Hsp & Hne & Hcall)].
      * apply elem_of_app in Hin as [Hin|Hin]; [now left|].
        right. exists pos. apply andb_true_iff in Hc as [Hsp Hne].
        split; [left|]. split; [exact Hsp|]. split.
        { intros ->. simpl in Hne. rewrite !Z.eqb_refl in Hne. discriminate. }
        exists k, chain, k1. split; [exact Hs|exact Hin].
      * right. exists pos'. split; [now right|]. auto.
    + destruct (IH _ _ _ _ H p Hp) as [Hin|(pos' & Hin & Hrest)]; [now left|].
      right. exists pos'. split; [now right|exact Hrest].
Qed.

(** The call returns at any depth above the rank of the tile, for a rank
    that decreases along the chain reactions. *)
Lemma processSpecialEmoji_returns (b : GameBoard) (rnd : nat -> Q)
    (rank : Position -> nat) :
  (forall p k type q,
     getSpecialType (getEmoji b (row p) (col p)) = Some type ->
     q ∈ fst (getSpecialEmojiEffect b rnd k (row p) (col p) type) ->
     isSpecialEmoji (getEmoji b (row q) (col q)) = true ->
     q <> p ->
     (rank q < rank p)%nat) ->
  forall fuel p k, (rank p < fuel)%nat ->
    exists x, processSpecialEmoji fuel b rnd k (row p) (col p) = Some x.
Proof.
  intros Hrank. induction fuel as [|fuel IH]; intros p k Hfuel; [lia|].
  rewrite processSpecialEmoji_S.
  destruct (getSpecialType (getEmoji b (row p) (col p))) as [type|] eqn:Ht;
    [|eexists; reflexivity].
  specialize (Hrank p k type).
  destruct (getSpecialEmojiEffect b rnd k (row p) (col p) type) as [aff k1].
  cbn [fst] in Hrank.
  destruct (chainLoop_returns (fun k0 => processSpecialEmoji fuel b rnd k0)
              b (row p) (col p) aff) with (acc := @nil Position) (k := k1)
    as [[chain k2] Hloop].
  - intros pos k' Hin Hsp Hne.
    apply (IH pos k').
    assert (rank pos < rank p)%nat; [|lia].
    apply Hrank; [exact Ht|exact Hin|exact Hsp|].
    intros ->. apply Hne. now destruct p.
  - rewrite Hloop. eexists. reflexivity.
Qed.

Lemma getSpecialType_Some (emoji : Cell) (type : SpecialType) :
  getSpecialType emoji = Some type -> emoji = Some (specialEmoji type).
Proof.
  unfold getSpecialType, specialEmojis. cbn [find fst snd].
  repeat (case_bool_decide;
          [simpl; intros Heq; injection Heq as <-; now subst|]).
  simpl. discriminate.
Qed.

(** On [bombRainbowBoard] the rank [bombsFirst] decreases along the chain
    reactions: the bomb reaches the rainbow tile, and the rainbow tile
    reaches plain tiles only. *)
Lemma bombRainbowBoard_ranked (rnd : nat -> Q) :
  unitStream rnd ->
  forall p k type q,
    getSpecialType (getEmoji bombRainbowBoard (row p) (col p)) = Some type ->
    q ∈ fst (getSpecialEmojiEffect bombRainbowBoard rnd k (row p) (col p) type) ->
    isSpecialEmoji (getEmoji bombRainbowBoard (row q) (col q)) = true ->
    q <> p ->
    (bombsFirst bombRainbowBoard q < bombsFirst bombRainbowBoard p)%nat.
Proof.
  intros Hrnd p k type q Ht Hq Hsp Hne.
  assert (Hbombs : forall x, getEmoji bombRainbowBoard (row x) (col x) = bombTile ->
            x = mkPos 3 3).
  { intros x Hx.
    assert (Hin : x ∈ positionsHolding bombRainbowBoard bombTile).
    { apply elem_of_positionsHolding.
      assert (Hv : isValidPosition bombRainbowBoard (row x) (col x) = true).
      { destruct (isValidPosition bombRainbowBoard (row x) (col x)) eqn:E;
          [reflexivity|].
        rewrite getEmoji_invalid in Hx by exact E. discriminate. }
      rewrite getEmoji_valid in Hx by exact Hv.
      apply isValidPosition_spec in Hv. tauto. }
    vm_compute in Hin. apply elem_of_cons in Hin as [Hin|Hin]; [exact Hin|inversion Hin]. }
  assert (Hvp : isValidPosition bombRainbowBoard (row p) (col p) = true)
    by (eapply getSpecialType_Some_valid; exact Ht).
  apply getSpecialType_Some in Ht as Hcell.
  destruct type.
  - (* striped: there is none on this board *)
    exfalso.
    assert (Hin : p ∈ positionsHolding bombRainbowBoard (Some (specialEmoji striped))).
    { apply elem_of_positionsHolding.
      rewrite getEmoji_valid in Hcell by exact Hvp.
      apply isValidPosition_spec in Hvp. tauto. }
    vm_compute in Hin. inversion Hin.
  - (* bomb *)
    unfold bombsFirst.
    rewrite (bool_decide_eq_true_2 (getEmoji bombRainbowBoard (row p) (col p) = bombTile))
      by exact Hcell.
    rewrite bool_decide_eq_false_2; [lia|].
    intros Hqb. apply Hne.
    rewrite (Hbombs q Hqb), (Hbombs p Hcell). reflexivity.
  - (* rainbow: it reaches plain tiles only *)
    exfalso.
    destruct (rainbow_effect bombRainbowBoard rnd k (row p) (col p) Hrnd)
      as [(t & Ht' & _ & Heff)|[_ Heff]]; rewrite Heff in Hq; cbn [fst] in Hq.
    + apply elem_of_positionsHolding in Hq as (Hr & Hc & Hg).
      rewrite getEmoji_valid in Hsp by (apply isValidPosition_spec; tauto).
      rewrite Hg, (basic_not_special t Ht') in Hsp. discriminate.
    + inversion Hq.
Qed.

(** C9.  The chain reaction of [processSpecialEmoji].  A call on a
    special tile that returns gives the affected positions of the tile
    and, for every special tile other than the origin among them, the
    positions that a recursive call on that tile returned, and nothing
    else.  The call does return, at any depth above the rank of the tile,
    whenever the special tiles of the board can be ranked so that every
    tile only reaches special tiles of lower rank.  Nothing bounds the
    depth or remembers the tiles already activated: on a 8x8 board with
    two bombs side by side, each in the other's 3x3 area, the call does
    not return at any depth of recursion. *)
Theorem chain_reaction_recursion_unguarded :
  (forall fuel b rnd k r c type res k',
     getSpecialType (getEmoji b r c) = Some type ->
     processSpecialEmoji (S fuel) b rnd k r c = Some (res, k') ->
     let affected := fst (getSpecialEmojiEffect b rnd k r c type) in
     (forall p, p ∈ affected -> p ∈ res)
     /\ (forall pos, pos ∈ affected ->
           isSpecialEmoji (getEmoji b (row pos) (col pos)) = true ->
           pos <> mkPos r c ->
           exists kk chain kk',
             processSpecialEmoji fuel b rnd kk (row pos) (col pos) = Some (chain, kk')
             /\ forall p, p ∈ chain -> p ∈ res)
     /\ (forall p, p ∈ res ->
           p ∈ affected
           \/ exists pos, pos ∈ affected
                /\ isSpecialEmoji (getEmoji b (row pos) (col pos)) = true
                /\ pos <> mkPos r c
                /\ exists kk chain kk',
                     processSpecialEmoji fuel b rnd kk (row pos) (col pos)
                     = Some (chain, kk')
                     /\ p ∈ chain))
  /\ (forall b rnd (rank : Position -> nat),
        (forall p k type q,
           getSpecialType (getEmoji b (row p) (col p)) = Some type ->
           q ∈ fst (getSpecialEmojiEffect b rnd k (row p) (col p) type) ->
           isSpecialEmoji (getEmoji b (row q) (col q)) = true ->
           q <> p ->
           (rank q < rank p)%nat) ->
        forall fuel p k, (rank p < fuel)%nat ->
          exists res k',
            processSpecialEmoji fuel b rnd k (row p) (col p) = Some (res, k'))
  /\ exists b pos1 pos2,
       validBoard b = true
       /\ pos1 <> pos2
       /\ isSpecialEmoji (getEmoji b (row pos1) (col pos1)) = true
       /\ isSpecialEmoji (getEmoji b (row pos2) (col pos2)) = true
       /\ (forall rnd k type,
             getSpecialType (getEmoji b (row pos1) (col pos1)) = Some type ->
             pos2 ∈ fst (getSpecialEmojiEffect b rnd k (row pos1) (col pos1) type))
       /\ (forall rnd k type,
             getSpecialType (getEmoji b (row pos2) (col pos2)) = Some type ->
             pos1 ∈ fst (getSpecialEmojiEffect b rnd k (row pos2) (col pos2) type))
       /\ forall fuel rnd k,
            processSpecialEmoji fuel b rnd k (row pos1) (col pos1) = None
            /\ processSpecialEmoji fuel b rnd k (row pos2) (col pos2) = None.
Proof.
  split; [|split].
  - intros fuel b rnd k r c type res k' Ht H affected. subst affected.
    rewrite processSpecialEmoji_S, Ht in H.
    destruct (getSpecialEmojiEffect b rnd k r c type) as [aff k1]. cbn [fst].
    destruct (chainLoop (fun k0 => processSpecialEmoji fuel b rnd k0) b r c aff [] k1)
      as [[chain k2]|] eqn:Hl; [|discriminate].
    injection H as <- <-.
    pose proof (chainLoop_only _ _ _ _ _ _ _ _ _ Hl) as Honly.
    apply chainLoop_Some in Hl as [_ Hrec].
    split; [|split].
    + intros p Hp. apply elem_of_app. now left.
    + intros pos Hin Hsp Hne.
      destruct (Hrec pos Hin Hsp Hne) as (kk & ch & kk' & Hcall & Hsub).
      exists kk, ch, kk'. split; [assumption|].
      intros p Hp. apply elem_of_app. right. now apply Hsub.
    + intros p [Hp|Hp]%elem_of_app; [now left|].
      destruct (Honly p Hp) as [Hnil|Hchain]; [inversion Hnil|].
      right. exact Hchain.
  - intros b rnd rank Hrank fuel p k Hfuel.
    destruct (processSpecialEmoji_returns b rnd rank Hrank fuel p k Hfuel)
      as [[res k'] Hcall].
    now exists res, k'.
  - exists twoBombsBoard, (mkPos 3 3), (mkPos 3 4). simpl.
    split; [reflexivity|]. split; [discriminate|].
    split; [reflexivity|]. split; [reflexivity|].
    split; [|split].
    + intros rnd k type Ht.
      change (getSpecialType (getEmoji twoBombsBoard 3 3)) with (Some bomb) in Ht.
      injection Ht as <-. rewrite twoBombs_effect_left. simpl.
      unfold bombArea33. do 5 (apply elem_of_cons; right).
      apply elem_of_cons. now left.
    + intros rnd k type Ht.
      change (getSpecialType (getEmoji twoBombsBoard 3 4)) with (Some bomb) in Ht.
      injection Ht as <-. rewrite twoBombs_effect_right. simpl.
      unfold bombArea34. do 3 (apply elem_of_cons; right).
      apply elem_of_cons. now left.
    + intros fuel rnd k. apply twoBombs_never_returns.
Qed.

Lemma chain_reaction_recursion_unguarded_witness :
  processSpecialEmoji 1 bombRainbowBoard cycleStream 0 3 3 = None
  /\ exists res k',
       processSpecialEmoji 2 bombRainbowBoard cycleStream 0 3 3 = Some (res, k')
       /\ (forall p, p ∈ bombArea33 -> p ∈ res)
       /\ (exists kk chain kk',
             processSpecialEmoji 1 bombRainbowBoard cycleStream kk 3 4
             = Some (chain, kk')
             /\ forall p, p ∈ chain -> p ∈ res)
       /\ mkPos 0 0 ∈ res.
Proof.
  split; [reflexivity|].
  destruct chain_reaction_recursion_unguarded as (Hres & Hret & _).
  destruct (Hret bombRainbowBoard cycleStream (bombsFirst bombRainbowBoard)
              (bombRainbowBoard_ranked cycleStream cycleStream_unit)
              2%nat (mkPos 3 3) 0%nat ltac:(vm_compute; lia))
    as (res & k' & Hcall).
  cbn [row col] in Hcall.
  exists res, k'. split; [exact Hcall|].
  destruct (Hres 1%nat bombRainbowBoard cycleStream 0%nat 3 3 bomb res k'
              eq_refl Hcall) as (Haff & Hchain & _).
  split; [exact Haff|].
  split; [apply (Hchain (mkPos 3 4)); [|reflexivity|discriminate]|].
  - vm_compute. do 5 (apply elem_of_cons; right). apply elem_of_cons. now left.
  - assert (Heq : processSpecialEmoji 2 bombRainbowBoard cycleStream 0 3 3
                  = Some (res, k')) by exact Hcall.
    vm_compute in Heq. injection Heq as <- _.
    do 9 (apply elem_of_cons; right). apply elem_of_cons. now left.
Defined.

(** * Properties of the code beyond the specification's claims *)

(** ** The grid *)

(** X1.  On a well-formed board, [setEmoji] at a valid position changes
    that cell and no other: reading any position afterwards gives the
    written value there and the old value elsewhere.  At a position out
    of bounds [setEmoji] does nothing, and the board stays well formed
    with the same size in either case. *)
Theorem setEmoji_then_getEmoji (b : GameBoard) (r c : Z) (v : Cell) :
  validBoard b = true ->
  validBoard (setEmoji b r c v) = true
  /\ size (setEmoji b r c v) = size b
  /\ (isValidPosition b r c = false -> setEmoji b r c v = b)
  /\ (isValidPosition b r c = true ->
      getEmoji (setEmoji b r c v) r c = v
      /\ forall r' c', mkPos r' c' <> mkPos r c ->
           getEmoji (setEmoji b r c v) r' c' = getEmoji b r' c').
Proof.
  intros H.
  split; [now apply setEmoji_validBoard|]. split; [apply setEmoji_size|].
  split.
  - intros Hv. unfold setEmoji. now rewrite Hv.
  - intros Hv. split.
    + rewrite setEmoji_getEmoji by exact H. now rewrite decide_True.
    + intros r' c' Hne. rewrite setEmoji_getEmoji by exact H.
      rewrite decide_False; [reflexivity|].
      intros (_ & -> & ->). now apply Hne.
Qed.

Lemma setEmoji_then_getEmoji_witness :
  getEmoji (setEmoji crossBoard 2 1 None) 2 1 = None
  /\ setEmoji crossBoard 8 0 None = crossBoard.
Proof.
  destruct (setEmoji_then_getEmoji crossBoard 2 1 None eq_refl) as (_ & _ & _ & H1).
  destruct (setEmoji_then_getEmoji crossBoard 8 0 None eq_refl) as (_ & _ & H2 & _).
  split; [apply H1; reflexivity|apply H2; reflexivity].
Defined.

(** X2.  On a well-formed board, [removeEmojis] empties exactly the
    listed cells: afterwards a position reads [null] if it is in the list
    and reads what it held before otherwise; positions of the list that
    are out of bounds are skipped.  The result depends only on the set of
    listed positions, and removing the same positions again changes
    nothing. *)
Theorem removeEmojis_clears_listed_cells (b : GameBoard) (positions : list Position) :
  validBoard b = true ->
  validBoard (removeEmojis b positions) = true
  /\ size (removeEmojis b positions) = size b
  /\ (forall r c,
        getEmoji (removeEmojis b positions) r c
        = if decide (mkPos r c ∈ positions) then None else getEmoji b r c)
  /\ (forall positions',
        (forall p, p ∈ positions <-> p ∈ positions') ->
        removeEmojis b positions' = removeEmojis b positions)
  /\ removeEmojis (removeEmojis b positions) positions = removeEmojis b positions.
Proof.
  intros H.
  assert (Hv := removeEmojis_validBoard positions b H).
  split; [exact Hv|]. split; [apply removeEmojis_size|].
  split; [intros r c; now apply removeEmojis_getEmoji|]. split.
  - intros positions' Hsame. apply board_ext.
    + now apply removeEmojis_validBoard.
    + exact Hv.
    + now rewrite !removeEmojis_size.
    + intros r c. rewrite !removeEmojis_getEmoji by exact H.
      destruct (decide (mkPos r c ∈ positions)) as [Hin|Hin].
      * rewrite decide_True; [reflexivity|now apply Hsame].
      * rewrite decide_False; [reflexivity|]. intros Hin'. now apply Hin, Hsame.
  - apply board_ext.
    + now apply removeEmojis_validBoard.
    + exact Hv.
    + now rewrite !removeEmojis_size.
    + intros r c. rewrite (removeEmojis_getEmoji positions (removeEmojis b positions))
        by exact Hv.
      rewrite removeEmojis_getEmoji by exact H.
      destruct (decide (mkPos r c ∈ positions)); reflexivity.
Qed.

Lemma removeEmojis_clears_listed_cells_witness :
  getEmoji (removeEmojis crossBoard [mkPos 2 1; mkPos 9 9]) 2 1 = None
  /\ getEmoji (removeEmojis crossBoard [mkPos 2 1; mkPos 9 9]) 0 0 = apple.
Proof.
  destruct (removeEmojis_clears_listed_cells crossBoard [mkPos 2 1; mkPos 9 9] eq_refl)
    as (_ & _ & H & _).
  split; rewrite H; reflexivity.
Defined.

(** ** Gravity and refill *)

(** X3.  On a well-formed board, [applyGravity] leaves every column
    settled: the column afterwards is its empty cells on top followed by
    its tiles in their former order.  So the tiles of a column and their
    order are kept, and no empty cell is left below a tile.  The board
    stays well formed with the same size. *)
Theorem applyGravity_settles_every_column (b : GameBoard) :
  validBoard b = true ->
  let b' := snd (applyGravity b) in
  let n := Z.to_nat (size b) in
  validBoard b' = true
  /\ size b' = size b
  /\ (forall c, 0 <= c < size b ->
        column n (grid b') c = settled (column n (grid b) c)
        /\ tiles (column n (grid b') c) = tiles (column n (grid b) c))
  /\ (forall r r' c, 0 <= r < r' -> r' < size b -> 0 <= c < size b ->
        getEmoji b' r c <> None -> getEmoji b' r' c <> None).
Proof.
  intros H b' n.
  destruct (applyGravity_spec b H) as (Hv & Hs & Hcol & _).
  fold b' in Hv, Hs, Hcol. fold n in Hcol.
  split; [exact Hv|]. split; [exact Hs|]. split.
  - intros c Hc. rewrite Hcol by exact Hc. split; [reflexivity|apply settled_tiles].
  - intros r r' c Hr Hr' Hc Hne.
    assert (H1 := column_getEmoji b' r c ltac:(rewrite Hs; lia) ltac:(rewrite Hs; lia)).
    assert (H2 := column_getEmoji b' r' c ltac:(rewrite Hs; lia) ltac:(rewrite Hs; lia)).
    rewrite Hs in H1, H2. fold n in H1, H2.
    rewrite Hcol in H1, H2 by exact Hc.
    destruct (getEmoji b' r c) as [e|] eqn:He; [|congruence].
    destruct (settled_no_gap (column n (grid b) c) (Z.to_nat r) (Z.to_nat r') e)
      as (e' & He'); [rewrite column_length; unfold n; lia|exact H1|].
    rewrite He' in H2. injection H2 as <-. discriminate.
Qed.

Lemma applyGravity_settles_every_column_witness :
  column 8 (grid holedBoard) 1
  = [None; None; None; None; banana; berry; banana; berry]
  /\ column 8 (grid (snd (applyGravity holedBoard))) 1
     = [None; None; None; None; banana; berry; banana; berry]
  /\ column 8 (grid (snd (applyGravity holedBoard))) 0
     = settled (column 8 (grid holedBoard) 0).
Proof.
  split; [reflexivity|]. split; [reflexivity|].
  destruct (applyGravity_settles_every_column holedBoard eq_refl) as (_ & _ & H & _).
  apply (H 0). split; [reflexivity|reflexivity].
Defined.

(** X4.  Every movement that [applyGravity] reports on a well-formed
    board goes straight down: source and target are in the same column and
    in bounds, the target row is strictly below the source row, and the
    emoji of the movement is the tile, never [null], that the source cell
    held before the call. *)
Theorem applyGravity_movements_go_down (b : GameBoard) (m : Movement) :
  validBoard b = true ->
  m ∈ fst (applyGravity b) ->
  col (mvt_to m) = col (mvt_from m)
  /\ 0 <= col (mvt_from m) < size b
  /\ 0 <= row (mvt_from m) /\ row (mvt_from m) < row (mvt_to m) < size b
  /\ mvt_emoji m <> None
  /\ mvt_emoji m = getEmoji b (row (mvt_from m)) (col (mvt_from m)).
Proof.
  intros H Hin.
  destruct (applyGravity_spec b H) as (_ & _ & _ & Hms).
  rewrite Forall_forall in Hms. exact (Hms m Hin).
Qed.

Lemma applyGravity_movements_go_down_witness :
  mkMovement (mkPos 1 0) (mkPos 2 0) grape ∈ fst (applyGravity holedBoard)
  /\ getEmoji holedBoard 1 0 = grape.
Proof.
  assert (Hin : mkMovement (mkPos 1 0) (mkPos 2 0) grape ∈ fst (applyGravity holedBoard))
    by (vm_compute; left).
  split; [exact Hin|].
  destruct (applyGravity_movements_go_down holedBoard _ eq_refl Hin)
    as (_ & _ & _ & _ & _ & Heq).
  symmetry. exact Heq.
Defined.

(** X5.  [applyGravity] is idempotent on well-formed boards: a second
    call leaves the board as the first one left it.  On a board without
    empty cells it changes nothing. *)
Theorem applyGravity_idempotent (b : GameBoard) :
  validBoard b = true ->
  snd (applyGravity (snd (applyGravity b))) = snd (applyGravity b)
  /\ ((forall r c, 0 <= r < size b -> 0 <= c < size b -> getEmoji b r c <> None) ->
      snd (applyGravity b) = b).
Proof.
  intros H. split; [now apply applyGravity_idem|now apply applyGravity_full].
Qed.

Lemma applyGravity_idempotent_witness :
  snd (applyGravity (snd (applyGravity holedBoard))) = snd (applyGravity holedBoard).
Proof.
  apply (applyGravity_idempotent holedBoard). reflexivity.
Defined.



(** X7.  Gravity followed by the refill, as every cascade round and the
    hammer run them: with random numbers in [[0, 1)], no cell of a
    well-formed board is empty afterwards, and every column consists of
    newly drawn basic emojis on top of the tiles the column held before,
    which keep their order. *)
Theorem gravity_then_fill_refills_columns (b : GameBoard) (rnd : nat -> Q) (k : nat) :
  validBoard b = true -> unitStream rnd ->
  let b' := snd (fst (fillEmpty (snd (applyGravity b)) rnd k)) in
  let n := Z.to_nat (size b) in
  validBoard b' = true
  /\ size b' = size b
  /\ (forall r c, 0 <= r < size b -> 0 <= c < size b -> getEmoji b' r c <> None)
  /\ (forall c, 0 <= c < size b ->
        exists new,
          column n (grid b') c = new ++ tiles (column n (grid b) c)
          /\ Forall (fun x : Cell => exists e, e ∈ emojis /\ x = Some e) new).
Proof.
  intros H Hrnd b' n.
  destruct (refill_columns b rnd k H Hrnd) as (Hv & Hs & Hfull & Hcols).
  split; [exact Hv|]. split; [exact Hs|]. split; [exact Hfull|].
  intros c Hc. destruct (Hcols c Hc) as (new & Hcol & _ & Hbasic).
  exists new. split; [exact Hcol|exact Hbasic].
Qed.

Lemma gravity_then_fill_refills_columns_witness :
  column 8 (grid (snd (fst (fillEmpty (snd (applyGravity holedBoard)) cycleStream 0)))) 1
  = [Some "🥑"; Some "⭐"; Some "🍎"; Some "🍓"; banana; berry; banana; berry]%string
  /\ getEmoji (snd (fst (fillEmpty (snd (applyGravity holedBoard)) cycleStream 0))) 0 0
     <> None.
Proof.
  split; [vm_compute; reflexivity|].
  destruct (gravity_then_fill_refills_columns holedBoard cycleStream 0 eq_refl
              cycleStream_unit) as (_ & _ & H & _).
  apply H; split; reflexivity.
Defined.

(** ** What the match detector clears *)

(** X8.  The positions that a cascade round clears,
    [getAllMatchPositions] of the linear and shaped matches of the board,
    are exactly the cells that lie in three cells in a row, of a row or
    of a column, holding the same emoji that is neither empty nor special;
    the list has no duplicates.  So [findMatches] reports something
    exactly when the board holds such a line, and a cleared cell is never
    out of bounds, empty or special. *)
Theorem cleared_positions_are_the_lines_of_three (b : GameBoard) :
  NoDup (getAllMatchPositions (allMatchesOf b))
  /\ (forall p, p ∈ getAllMatchPositions (allMatchesOf b) <-> inLineOfThree b p)
  /\ (findMatches b <> [] <-> exists p, inLineOfThree b p)
  /\ (forall p, p ∈ getAllMatchPositions (allMatchesOf b) ->
        isValidPosition b (row p) (col p) = true
        /\ exists e, getEmoji b (row p) (col p) = Some e
                     /\ isSpecialEmoji (Some e) = false).
Proof.
  split; [apply getAllMatchPositions_NoDup|].
  split; [apply cleared_iff_inLineOfThree|]. split.
  - split.
    + intros Hne. destruct (findMatches_has_three b Hne) as (m & Hm & Hlen).
      destruct (m_positions m) as [|p ps] eqn:Hps; [simpl in Hlen; lia|].
      exists p. apply (goodMatch_inLineOfThree b m).
      * now apply (ok_good b _ (findMatches_ok b)).
      * rewrite Hps. left.
    + intros (p & o & line & w & e & He & C0 & C1 & C2 & _).
      now apply (findMatches_complete b o line w e).
  - intros p Hp. apply cleared_iff_inLineOfThree in Hp
      as (o & line & w & e & [_ Hs] & C0 & C1 & C2 & j & Hj & ->).
    assert (Hc : cellAt b o line j = Some e).
    { destruct (decide (j = w)) as [->|]; [exact C0|].
      destruct (decide (j = w + 1)) as [->|]; [exact C1|].
      replace j with (w + 2) by lia. exact C2. }
    assert (Hb := cellAt_Some_bounds b o line j e Hc).
    destruct o; simpl in *.
    + split; [apply isValidPosition_spec; lia|eauto].
    + split; [apply isValidPosition_spec; lia|eauto].
Qed.

(** ** The effects of the special tiles *)

(** X9.  The effect of a bomb at [(r, c)] is the 3x3 area around it
    clipped to the board: a position is affected exactly when its row and
    its column differ from [r] and [c] by at most 1 and it is in bounds.
    The list has no duplicates and at most 9 entries, exactly 9 when the
    bomb is not on an edge, and no random number is drawn. *)
Theorem bomb_effect_is_clipped_3x3 (b : GameBoard) (rnd : nat -> Q) (k : nat) (r c : Z) :
  let effect := getSpecialEmojiEffect b rnd k r c bomb in
  snd effect = k
  /\ NoDup (fst effect)
  /\ (length (fst effect) <= 9)%nat
  /\ (forall p, p ∈ fst effect <->
        r - 1 <= row p <= r + 1 /\ c - 1 <= col p <= c + 1
        /\ isValidPosition b (row p) (col p) = true)
  /\ (1 <= r <= size b - 2 -> 1 <= c <= size b - 2 -> length (fst effect) = 9%nat).
Proof.
  cbv zeta. split; [reflexivity|]. split; [|split; [|split]].
  - apply (NoDup_cells_if (isValidPosition b)); apply NoDup_seqZ.
  - apply (length_cells_if_le (isValidPosition b) (seqZ (r - 1) 3) (seqZ (c - 1) 3)).
  - intros p. apply elem_of_bomb_effect.
  - intros Hr Hc.
    apply (length_cells_if_all (isValidPosition b) (seqZ (r - 1) 3) (seqZ (c - 1) 3)).
    intros r' c' Hr' Hc'. apply elem_of_seqZ in Hr', Hc'.
    apply isValidPosition_spec. lia.
Qed.

Lemma bomb_effect_is_clipped_3x3_witness :
  length (fst (getSpecialEmojiEffect oneBombBoard cycleStream 0 3 3 bomb)) = 9%nat
  /\ fst (getSpecialEmojiEffect crossBoard cycleStream 0 0 7 bomb)
     = [mkPos 0 6; mkPos 0 7; mkPos 1 6; mkPos 1 7].
Proof.
  destruct (bomb_effect_is_clipped_3x3 oneBombBoard cycleStream 0 3 3)
    as (_ & _ & _ & _ & H).
  split; [apply H; simpl; lia|reflexivity].
Defined.

(** X10.  The effect of a striped tile at [(r, c)] draws exactly one
    random number and is the whole row [r] when the number is below 0.5
    and the whole column [c] otherwise: [size] distinct positions in
    either case.  When [(r, c)] is in bounds, every affected position is
    in bounds and [(r, c)] is one of them. *)
Theorem striped_effect_is_a_full_line (b : GameBoard) (rnd : nat -> Q) (k : nat) (r c : Z) :
  let effect := getSpecialEmojiEffect b rnd k r c striped in
  snd effect = S k
  /\ length (fst effect) = Z.to_nat (size b)
  /\ NoDup (fst effect)
  /\ ((rnd k < (1 # 2))%Q ->
      forall p, p ∈ fst effect <-> row p = r /\ 0 <= col p < size b)
  /\ (~ (rnd k < (1 # 2))%Q ->
      forall p, p ∈ fst effect <-> col p = c /\ 0 <= row p < size b)
  /\ (isValidPosition b r c = true ->
      mkPos r c ∈ fst effect
      /\ forall p, p ∈ fst effect -> isValidPosition b (row p) (col p) = true).
Proof.
  cbv zeta. cbn [getSpecialEmojiEffect].
  assert (Hrow : forall p, p ∈ map (fun c' => mkPos r c') (seqZ 0 (size b))
                           <-> row p = r /\ 0 <= col p < size b).
  { intros p. change (map ?f ?l) with (f <$> l). rewrite list_elem_of_fmap. split.
    - intros (x & -> & Hx). apply elem_of_seqZ_0 in Hx. simpl. auto.
    - intros [<- Hc]. exists (col p). split; [now destruct p|].
      now apply elem_of_seqZ_0. }
  assert (Hcol : forall p, p ∈ map (fun r' => mkPos r' c) (seqZ 0 (size b))
                           <-> col p = c /\ 0 <= row p < size b).
  { intros p. change (map ?f ?l) with (f <$> l). rewrite list_elem_of_fmap. split.
    - intros (x & -> & Hx). apply elem_of_seqZ_0 in Hx. simpl. auto.
    - intros [<- Hr]. exists (row p). split; [now destruct p|].
      now apply elem_of_seqZ_0. }
  destruct (Qlt_le_dec (rnd k) (1 # 2)) as [Hlt|Hge]; cbn [fst snd].
  - split; [reflexivity|].
    split; [now rewrite length_map, length_seqZ|].
    split.
    { change (map ?f ?l) with (f <$> l). apply NoDup_fmap_2; [|apply NoDup_seqZ].
      intros x y H. now injection H. }
    split; [intros _; exact Hrow|].
    split; [intros Hn; now destruct Hn|].
    intros Hv. apply isValidPosition_spec in Hv. split.
    + apply Hrow. simpl. lia.
    + intros p Hp. apply Hrow in Hp. apply isValidPosition_spec. lia.
  - split; [reflexivity|].
    split; [now rewrite length_map, length_seqZ|].
    split.
    { change (map ?f ?l) with (f <$> l). apply NoDup_fmap_2; [|apply NoDup_seqZ].
      intros x y H. now injection H. }
    split; [intros Hlt; exfalso; now apply (Qle_not_lt _ _ Hge)|].
    split; [intros _; exact Hcol|].
    intros Hv. apply isValidPosition_spec in Hv. split.
    + apply Hcol. simpl. lia.
    + intros p Hp. apply Hcol in Hp. apply isValidPosition_spec. lia.
Qed.

Lemma striped_effect_is_a_full_line_witness :
  (cycleStream 0 < (1 # 2))%Q
  /\ mkPos 3 7 ∈ fst (getSpecialEmojiEffect crossBoard cycleStream 0 3 3 striped)
  /\ mkPos 3 3 ∈ fst (getSpecialEmojiEffect crossBoard cycleStream 0 3 3 striped).
Proof.
  assert (Hlt : (cycleStream 0 < (1 # 2))%Q) by reflexivity.
  destruct (striped_effect_is_a_full_line crossBoard cycleStream 0 3 3)
    as (_ & _ & _ & Hrow & _ & Hin).
  split; [exact Hlt|]. split.
  - apply (Hrow Hlt). simpl. lia.
  - apply Hin. reflexivity.
Defined.

(** X11.  With random numbers in [[0, 1)], the effect of a rainbow tile is
    the list, without duplicates, of all cells that hold one basic emoji
    that occurs on the board, at the cost of one random number; it is
    empty, and nothing is drawn, only when no basic emoji is on the board.
    No affected cell holds a special tile: the cell of the rainbow tile
    itself is not affected, and [processSpecialEmoji] on a rainbow tile
    returns the effect without any recursive call. *)
Theorem rainbow_effect_is_one_basic_kind (b : GameBoard) (rnd : nat -> Q) (k : nat)
    (r c : Z) :
  unitStream rnd ->
  let effect := getSpecialEmojiEffect b rnd k r c rainbow in
  NoDup (fst effect)
  /\ ((exists t, t ∈ emojis /\ fst effect <> [] /\ snd effect = S k
         /\ forall p, p ∈ fst effect <->
              isValidPosition b (row p) (col p) = true
              /\ getEmoji b (row p) (col p) = Some t)
      \/ (effect = ([], k)
          /\ forall t p, t ∈ emojis -> getEmoji b (row p) (col p) <> Some t))
  /\ (forall p, p ∈ fst effect ->
        isSpecialEmoji (getEmoji b (row p) (col p)) = false)
  /\ (getSpecialType (getEmoji b r c) = Some rainbow ->
      (mkPos r c ∉ fst effect)
      /\ forall fuel, processSpecialEmoji (S fuel) b rnd k r c = Some effect).
Proof.
  intros Hrnd effect.
  assert (Hhold : forall t p, p ∈ positionsHolding b (Some t) <->
            isValidPosition b (row p) (col p) = true
            /\ getEmoji b (row p) (col p) = Some t).
  { intros t p. rewrite elem_of_positionsHolding, isValidPosition_spec. split.
    - intros (Hr & Hc & Hg). split; [auto|].
      rewrite getEmoji_valid; [exact Hg|]. apply isValidPosition_spec. auto.
    - intros [[Hr Hc] Hg]. split; [exact Hr|]. split; [exact Hc|].
      rewrite getEmoji_valid in Hg; [exact Hg|]. apply isValidPosition_spec. auto. }
  assert (Hplain : forall p, p ∈ fst effect ->
            isSpecialEmoji (getEmoji b (row p) (col p)) = false).
  { intros p Hp. unfold effect in Hp.
    destruct (rainbow_effect b rnd k r c Hrnd) as [(t & Ht & _ & Heq)|[_ Heq]];
      rewrite Heq in Hp; simpl in Hp; [|inversion Hp].
    apply Hhold in Hp as [_ ->]. now apply basic_not_special. }
  split; [|split; [|split; [exact Hplain|]]].
  - unfold effect.
    destruct (rainbow_effect b rnd k r c Hrnd) as [(t & _ & _ & ->)|[_ ->]];
      [apply positionsHolding_NoDup|constructor].
  - unfold effect.
    destruct (rainbow_effect b rnd k r c Hrnd) as [(t & Ht & Hne & ->)|[Hnone ->]].
    + left. exists t. split; [exact Ht|]. split; [exact Hne|].
      split; [reflexivity|]. intros p. apply Hhold.
    + right. split; [reflexivity|]. intros t p Ht Hg.
      assert (Hin : p ∈ positionsHolding b (Some t)).
      { apply Hhold. split; [|exact Hg].
        destruct (isValidPosition b (row p) (col p)) eqn:Hv; [reflexivity|].
        rewrite getEmoji_invalid in Hg by exact Hv. discriminate. }
      rewrite (Hnone t Ht) in Hin. inversion Hin.
  - intros Hty.
    assert (Hsp : isSpecialEmoji (getEmoji b r c) = true)
      by (apply special_getSpecialType; congruence).
    split.
    + intros Hin. apply Hplain in Hin. simpl in Hin. congruence.
    + intros fuel. rewrite processSpecialEmoji_S, Hty.
      fold effect. destruct effect as [affected k1] eqn:Heff.
      rewrite chainLoop_no_special; [now rewrite app_nil_r|].
      intros p Hp _. apply Hplain. exact Hp.
Qed.

Lemma rainbow_effect_is_one_basic_kind_witness :
  getSpecialEmojiEffect crossBoard cycleStream 0 0 0 rainbow
  = ([mkPos 0 0; mkPos 0 4; mkPos 1 2; mkPos 1 6; mkPos 2 4; mkPos 3 2;
      mkPos 3 6; mkPos 4 0; mkPos 4 4; mkPos 5 2; mkPos 5 6; mkPos 6 0;
      mkPos 6 4; mkPos 7 2; mkPos 7 6], 1%nat)
  /\ NoDup (fst (getSpecialEmojiEffect crossBoard cycleStream 0 0 0 rainbow)).
Proof.
  split; [vm_compute; reflexivity|].
  apply (rainbow_effect_is_one_basic_kind crossBoard cycleStream 0 0 0 cycleStream_unit).
Defined.

(** X12.  Whenever [processSpecialEmoji] returns, every position it
    returns is in bounds.  On a cell that holds no special tile it returns
    the empty list and draws nothing; when no other special tile lies
    among the positions affected by the tile at [(r, c)], it returns
    exactly those positions; and a result does not depend on how deep the
    recursion was allowed to go. *)
Theorem processSpecialEmoji_returns_cells_of_the_board
    (b : GameBoard) (rnd : nat -> Q) (k : nat) (r c : Z) :
  (forall fuel res k',
     processSpecialEmoji fuel b rnd k r c = Some (res, k') ->
     (forall p, p ∈ res -> isValidPosition b (row p) (col p) = true)
     /\ forall extra, processSpecialEmoji (fuel + extra) b rnd k r c = Some (res, k'))
  /\ (getSpecialType (getEmoji b r c) = None ->
      forall fuel, processSpecialEmoji (S fuel) b rnd k r c = Some ([], k))
  /\ (forall type,
        getSpecialType (getEmoji b r c) = Some type ->
        (forall p, p ∈ fst (getSpecialEmojiEffect b rnd k r c type) ->
           p <> mkPos r c ->
           isSpecialEmoji (getEmoji b (row p) (col p)) = false) ->
        forall fuel,
          processSpecialEmoji (S fuel) b rnd k r c
          = Some (getSpecialEmojiEffect b rnd k r c type)).
Proof.
  split; [|split].
  - intros fuel res k' Hrun. split.
    + intros p Hp.
      assert (H := processSpecialEmoji_valid b rnd fuel k r c res k' Hrun).
      rewrite Forall_forall in H. now apply H.
    + intros extra. induction extra as [|extra IH].
      * now rewrite Nat.add_0_r.
      * rewrite Nat.add_succ_r. now apply processSpecialEmoji_fuel_mono.
  - intros Hty fuel. now rewrite processSpecialEmoji_S, Hty.
  - intros type Hty Hno fuel. rewrite processSpecialEmoji_S, Hty.
    destruct (getSpecialEmojiEffect b rnd k r c type) as [affected k1] eqn:Heff.
    rewrite chainLoop_no_special; [now rewrite app_nil_r|].
    exact Hno.
Qed.

Lemma processSpecialEmoji_returns_cells_of_the_board_witness :
  processSpecialEmoji 1 oneBombBoard cycleStream 0 3 3 = Some (bombArea33, 0%nat)
  /\ processSpecialEmoji 3 oneBombBoard cycleStream 0 3 3 = Some (bombArea33, 0%nat)
  /\ isValidPosition oneBombBoard 4 4 = true.
Proof.
  assert (Hrun : processSpecialEmoji 1 oneBombBoard cycleStream 0 3 3
                 = Some (bombArea33, 0%nat)) by reflexivity.
  destruct (processSpecialEmoji_returns_cells_of_the_board oneBombBoard cycleStream 0 3 3)
    as (H & _).
  destruct (H 1%nat bombArea33 0%nat Hrun) as (Hvalid & Hmore).
  split; [exact Hrun|]. split; [exact (Hmore 2%nat)|].
  apply (Hvalid (mkPos 4 4)). vm_compute. do 8 right. left.
Defined.

(** ** The cascade *)

(** X13.  In a round of the cascade the combo multiplier is incremented,
    capped at its maximum, before the score of the round is computed: a
    round on a board with matches adds [(base + 100 per special created)
    * min(combo + 1, max)] to the running total, which is at least 30
    points, and counts as one cascade.  The round leaves a well-formed
    board of the same size without empty cells. *)
Theorem cascade_round_scores_with_incremented_multiplier
    (rnd : nat -> Q) (fuel : nat) (st : Cascade) :
  unitStream rnd ->
  validBoard (c_board st) = true ->
  findMatches (c_board st) <> [] ->
  0 <= comboMultiplier (c_detector st) -> 1 <= maxComboMultiplier (c_detector st) ->
  let matches := allMatchesOf (c_board st) in
  let st' :=
    cascadeRound rnd st
      (mkDetector (findMatches (c_board st)) (comboMultiplier (c_detector st))
                  (maxComboMultiplier (c_detector st))) matches in
  cascadeLoop (S fuel) rnd st = cascadeLoop fuel rnd st'
  /\ cascadeCount st' = cascadeCount st + 1
  /\ comboMultiplier (c_detector st')
     = Z.min (comboMultiplier (c_detector st) + 1) (maxComboMultiplier (c_detector st))
  /\ c_totalScore st'
     = c_totalScore st
       + (specBaseScore matches + 100 * Z.of_nat (length (createSpecialEmojis matches)))
         * Z.min (comboMultiplier (c_detector st) + 1)
                 (maxComboMultiplier (c_detector st))
  /\ c_totalScore st + 30 <= c_totalScore st'
  /\ validBoard (c_board st') = true
  /\ size (c_board st') = size (c_board st)
  /\ (forall r c, 0 <= r < size (c_board st) -> 0 <= c < size (c_board st) ->
        getEmoji (c_board st') r c <> None).
Proof.
  intros Hrnd Hv Hne Hc Hmax matches st'.
  destruct (cascadeRound_spec rnd st Hrnd Hv Hne Hc Hmax)
    as (Hv' & Hs' & Hfull & Hcombo & _ & Hcount & Hscore & H30).
  split.
  - rewrite cascadeLoop_S. cbv zeta.
    destruct (length (allMatchesOf (c_board st)) =? 0)%nat eqn:Hnil; [|reflexivity].
    apply allMatchesOf_nil in Hnil. contradiction.
  - split; [exact Hcount|]. split; [exact Hcombo|]. split; [exact Hscore|].
    split; [exact H30|]. split; [exact Hv'|]. split; [exact Hs'|exact Hfull].
Qed.

Lemma cascade_round_scores_with_incremented_multiplier_witness :
  specBaseScore (allMatchesOf crossBoard) = 240
  /\ length (createSpecialEmojis (allMatchesOf crossBoard)) = 2%nat
  /\ c_totalScore
       (cascadeRound cycleStream (mkCascade crossBoard (mkDetector [] 1 8) 0 0 0)
          (mkDetector (findMatches crossBoard) 1 8) (allMatchesOf crossBoard))
     = 0 + (240 + 100 * 2) * 2.
Proof.
  assert (Hb : specBaseScore (allMatchesOf crossBoard) = 240)
    by (vm_compute; reflexivity).
  assert (Hs : length (createSpecialEmojis (allMatchesOf crossBoard)) = 2%nat)
    by (vm_compute; reflexivity).
  split; [exact Hb|]. split; [exact Hs|].
  assert (Hne : findMatches crossBoard <> [])
    by (rewrite findMatches_crossBoard; discriminate).
  destruct (cascade_round_scores_with_incremented_multiplier cycleStream 0
              (mkCascade crossBoard (mkDetector [] 1 8) 0 0 0) cycleStream_unit
              eq_refl Hne ltac:(simpl; lia) ltac:(simpl; lia))
    as (_ & _ & _ & H & _).
  cbn [c_board c_detector comboMultiplier maxComboMultiplier c_totalScore] in H.
  rewrite H, Hb, Hs. reflexivity.
Defined.

(** X14.  When [processCascadingMatches] returns (random numbers in
    [[0, 1)], well-formed board, combo multiplier between 0 and its
    maximum), the board is settled: [findMatches] finds nothing on it, it
    is well formed, and it has no empty cell if at least one round ran.
    The combo multiplier is back at 1, the score has grown by the returned
    total, which is at least 30 per cascade, and moves and move history
    are untouched.  With zero cascades the board and the random counter
    are unchanged, which is what happens when the board has no match to
    begin with; and the result does not depend on the bound on the number
    of rounds. *)
Theorem processCascadingMatches_settles_the_board
    (rnd : nat -> Q) (fuel : nat) (k : nat) (g : EmojiCrushGame) :
  (findMatches (board g) = [] ->
   processCascadingMatches (S fuel) rnd k g
   = Some (mkGame (score g + 0) (moves g) (selectedTile g) (isProcessing g)
                  (moveHistory g) (board g)
                  (mkDetector [] 1 (maxComboMultiplier (matchDetector g))),
           k, (0, 0)))
  /\ (unitStream rnd ->
      validBoard (board g) = true ->
      0 <= comboMultiplier (matchDetector g) <= maxComboMultiplier (matchDetector g) ->
      1 <= maxComboMultiplier (matchDetector g) ->
      forall g' k' count total,
      processCascadingMatches fuel rnd k g = Some (g', k', (count, total)) ->
      findMatches (board g') = []
      /\ validBoard (board g') = true
      /\ size (board g') = size (board g)
      /\ comboMultiplier (matchDetector g') = 1
      /\ score g' = score g + total
      /\ moves g' = moves g
      /\ moveHistory g' = moveHistory g
      /\ 0 <= count /\ 30 * count <= total
      /\ (count = 0 -> board g' = board g /\ k' = k /\ total = 0)
      /\ (0 < count ->
          forall r c, 0 <= r < size (board g) -> 0 <= c < size (board g) ->
            getEmoji (board g') r c <> None)
      /\ forall extra,
           processCascadingMatches (fuel + extra) rnd k g
           = Some (g', k', (count, total))).
Proof.
  split.
  - intros Hnil. unfold processCascadingMatches. rewrite cascadeLoop_S.
    cbv zeta. cbn [c_board c_detector c_random cascadeCount c_totalScore].
    rewrite (proj2 (allMatchesOf_nil (board g)) Hnil), Hnil. reflexivity.
  - intros Hrnd Hv Hc Hmax g' k' count total Hrun.
    destruct (processCascadingMatches_Some _ _ _ _ _ _ _ _ Hrun)
      as (st & Hloop & -> & -> & -> & ->).
    destruct (cascadeLoop_spec rnd Hrnd fuel
                (mkCascade (board g) (matchDetector g) k 0 0) st Hv Hc Hmax Hloop)
      as (Hf & _ & Hv' & Hs' & _ & Hn & _ & Hsc & Hsame & Hfull).
    cbn [c_board c_detector c_random cascadeCount c_totalScore] in *.
    cbn [board score moves moveHistory matchDetector].
    split; [exact Hf|]. split; [exact Hv'|]. split; [exact Hs'|].
    split; [reflexivity|]. split; [reflexivity|]. split; [reflexivity|].
    split; [reflexivity|]. split; [lia|]. split; [lia|].
    split; [intros H0; destruct (Hsame H0) as (? & ? & ?); auto|].
    split; [intros Hpos; apply Hfull; lia|].
    intros extra. unfold processCascadingMatches.
    now rewrite (cascadeLoop_more rnd fuel extra _ st Hloop).
Qed.

Lemma processCascadingMatches_settles_the_board_witness :
  exists g',
    processCascadingMatches 2 cycleStream 0 freshGame = Some (g', 4%nat, (1, 880))
    /\ findMatches (board g') = []
    /\ score g' = 880
    /\ comboMultiplier (matchDetector g') = 1.
Proof.
  eexists. split; [vm_compute; reflexivity|].
  match goal with
  | |- findMatches (board ?G) = [] /\ _ =>
      assert (Hrun : processCascadingMatches 2 cycleStream 0 freshGame
                     = Some (G, 4%nat, (1, 880))) by (vm_compute; reflexivity)
  end.
  destruct (processCascadingMatches_settles_the_board cycleStream 2 0 freshGame)
    as (_ & H).
  destruct (H cycleStream_unit eq_refl ltac:(simpl; lia) ltac:(simpl; lia)
              _ _ _ _ Hrun) as (Hf & _ & _ & Hc & Hs & _).
  split; [exact Hf|]. split; [exact Hs|exact Hc].
Defined.

(** ** A swap and its undo *)

(** X15.  An accepted swap: when the player has moves left, the swapped
    board has a match and the cascade that follows returns, [attemptSwap]
    returns [true] and hands to [checkGameEnd] a game with exactly one
    move less, the score raised by the total of the cascade (at least 30),
    a settled board without empty cells, no selected tile, the processing
    flag cleared and the combo multiplier back at 1.  The entry it pushed
    on the move history holds the grid as it was right after the swap, the
    old score, the old combo multiplier, and the old number of moves plus
    one. *)
Theorem accepted_swap_costs_one_move_and_settles
    (rnd : nat -> Q) (fuel : nat) (k : nat) (g : EmojiCrushGame)
    (pos1 pos2 : Position) (st : Cascade) :
  unitStream rnd ->
  validBoard (board g) = true ->
  0 < moves g ->
  0 <= comboMultiplier (matchDetector g) <= maxComboMultiplier (matchDetector g) ->
  1 <= maxComboMultiplier (matchDetector g) ->
  let b1 := snd (swapEmojis (board g) pos1 pos2) in
  findMatches b1 <> [] ->
  cascadeLoop fuel rnd
    (mkCascade b1 (mkDetector (findMatches b1) (comboMultiplier (matchDetector g))
                              (maxComboMultiplier (matchDetector g))) k 0 0)
  = Some st ->
  exists g',
    (forall checkGameEnd,
       attemptSwap (cascadeWith fuel rnd k) checkGameEnd g pos1 pos2
       = (true, checkGameEnd g'))
    /\ moves g' = moves g - 1
    /\ score g' = score g + c_totalScore st
    /\ score g + 30 <= score g'
    /\ board g' = c_board st
    /\ findMatches (board g') = []
    /\ validBoard (board g') = true
    /\ size (board g') = size (board g)
    /\ (forall r c, 0 <= r < size (board g) -> 0 <= c < size (board g) ->
          getEmoji (board g') r c <> None)
    /\ selectedTile g' = None
    /\ isProcessing g' = false
    /\ comboMultiplier (matchDetector g') = 1
    /\ last (moveHistory g')
       = Some (mkMove (grid b1) pos1 pos2 (score g) (moves g + 1)
                      (comboMultiplier (matchDetector g))).
Proof.
  intros Hrnd Hv Hmoves Hc Hmax b1 Hne Hloop.
  set (d1 := mkDetector (findMatches b1) (comboMultiplier (matchDetector g))
                        (maxComboMultiplier (matchDetector g))) in *.
  set (g1 := mkGame (score g) (moves g) (selectedTile g) (isProcessing g)
                    (moveHistory g) b1 d1).
  set (g3 := mkGame (score g) (moves g - 1) None true
                    (moveHistory (saveMove g1 pos1 pos2)) b1 d1).
  assert (Hv1 : validBoard b1 = true) by now apply swapEmojis_validBoard.
  assert (Hs1 : size b1 = size (board g)) by apply swapEmojis_size.
  destruct (cascadeLoop_spec rnd Hrnd fuel (mkCascade b1 d1 k 0 0) st Hv1 Hc Hmax Hloop)
    as (Hf & _ & Hv' & Hs' & _ & Hn & _ & Hsc & Hsame & Hfull).
  cbn [c_board c_detector c_random cascadeCount c_totalScore] in *.
  assert (Hcount : 0 < cascadeCount st).
  { destruct (decide (cascadeCount st = 0)) as [H0|]; [|lia].
    destruct (Hsame H0) as (Hb & _). rewrite Hb in Hf. contradiction. }
  assert (Hcw : cascadeWith fuel rnd k g3
                = mkGame (score g + c_totalScore st) (moves g - 1) None true
                         (moveHistory (saveMove g1 pos1 pos2)) (c_board st)
                         (updateComboMultiplier (c_detector st) false))
    by (apply (cascadeWith_Some fuel rnd k g3 st); exact Hloop).
  exists (mkGame (score g + c_totalScore st) (moves g - 1) None false
                 (moveHistory (saveMove g1 pos1 pos2)) (c_board st)
                 (updateComboMultiplier (c_detector st) false)).
  split.
  { intros checkGameEnd.
    rewrite (attemptSwap_accepted _ checkGameEnd g pos1 pos2 Hmoves Hne).
    cbv zeta. fold b1 d1 g1 g3. now rewrite Hcw. }
  cbn [moves score board selectedTile isProcessing matchDetector moveHistory].
  split; [reflexivity|]. split; [reflexivity|]. split; [lia|].
  split; [reflexivity|]. split; [exact Hf|]. split; [exact Hv'|].
  split; [congruence|]. split; [intros r c Hr Hc'; apply Hfull; lia|].
  split; [reflexivity|]. split; [reflexivity|]. split; [reflexivity|].
  destruct (saveMove_then_undo g1 pos1 pos2) as (h & ->).
  rewrite last_snoc. unfold savedEntry, g1. cbn [board score moves matchDetector].
  reflexivity.
Qed.

Lemma accepted_swap_costs_one_move_and_settles_witness :
  exists g',
    attemptSwap (cascadeWith 2 cycleStream 0) (fun g => g) freshGame
                (mkPos 7 6) (mkPos 7 7) = (true, g')
    /\ moves g' = 29
    /\ findMatches (board g') = [].
Proof.
  assert (Hrun : exists st,
            cascadeLoop 2 cycleStream
              (mkCascade (snd (swapEmojis (board freshGame) (mkPos 7 6) (mkPos 7 7)))
                 (mkDetector
                    (findMatches (snd (swapEmojis (board freshGame) (mkPos 7 6) (mkPos 7 7))))
                    1 8) 0 0 0)
            = Some st)
    by (eexists; vm_compute; reflexivity).
  destruct Hrun as [st Hrun].
  destruct (accepted_swap_costs_one_move_and_settles cycleStream 2 0 freshGame
              (mkPos 7 6) (mkPos 7 7) st cycleStream_unit eq_refl
              ltac:(simpl; lia) ltac:(simpl; lia) ltac:(simpl; lia)
              ltac:(vm_compute; discriminate) Hrun)
    as (g' & Hswap & Hm & _ & _ & _ & Hf & _).
  exists g'. split; [apply (Hswap (fun g => g))|]. split; [exact Hm|exact Hf].
Defined.

(** X16.  Undo after an accepted swap does not take the swap back.  If
    [checkGameEnd] leaves history, board and detector alone, then
    [undoLastMove] after an accepted [attemptSwap] restores the score and
    the combo multiplier of before the swap, but the number of moves
    becomes one more than it was before the swap, and the board becomes
    the board as it was right after the swap, so it still holds the
    matches that made the swap acceptable.  The history is as before the
    swap when it held fewer than five entries. *)
Theorem undo_after_swap_keeps_the_swapped_board
    (rnd : nat -> Q) (fuel : nat) (k : nat)
    (checkGameEnd : EmojiCrushGame -> EmojiCrushGame)
    (g : EmojiCrushGame) (pos1 pos2 : Position) (st : Cascade) :
  unitStream rnd ->
  validBoard (board g) = true ->
  0 < moves g ->
  0 <= comboMultiplier (matchDetector g) <= maxComboMultiplier (matchDetector g) ->
  1 <= maxComboMultiplier (matchDetector g) ->
  (forall x, moveHistory (checkGameEnd x) = moveHistory x
             /\ board (checkGameEnd x) = board x
             /\ matchDetector (checkGameEnd x) = matchDetector x) ->
  let b1 := snd (swapEmojis (board g) pos1 pos2) in
  findMatches b1 <> [] ->
  cascadeLoop fuel rnd
    (mkCascade b1 (mkDetector (findMatches b1) (comboMultiplier (matchDetector g))
                              (maxComboMultiplier (matchDetector g))) k 0 0)
  = Some st ->
  let r := attemptSwap (cascadeWith fuel rnd k) checkGameEnd g pos1 pos2 in
  let u := undoLastMove (snd r) in
  fst r = true
  /\ fst u = true
  /\ score (snd u) = score g
  /\ moves (snd u) = moves g + 1
  /\ comboMultiplier (matchDetector (snd u)) = comboMultiplier (matchDetector g)
  /\ board (snd u) = b1
  /\ findMatches (board (snd u)) <> []
  /\ ((length (moveHistory g) < 5)%nat -> moveHistory (snd u) = moveHistory g).
Proof.
  intros Hrnd Hv Hmoves Hc Hmax Hend b1 Hne Hloop r u.
  set (d1 := mkDetector (findMatches b1) (comboMultiplier (matchDetector g))
                        (maxComboMultiplier (matchDetector g))) in *.
  set (g1 := mkGame (score g) (moves g) (selectedTile g) (isProcessing g)
                    (moveHistory g) b1 d1).
  set (g3 := mkGame (score g) (moves g - 1) None true
                    (moveHistory (saveMove g1 pos1 pos2)) b1 d1).
  assert (Hv1 : validBoard b1 = true) by now apply swapEmojis_validBoard.
  destruct (cascadeLoop_spec rnd Hrnd fuel (mkCascade b1 d1 k 0 0) st Hv1 Hc Hmax Hloop)
    as (_ & _ & _ & Hs' & _).
  cbn [c_board] in Hs'.
  assert (Hcw := cascadeWith_Some fuel rnd k g3 st Hloop).
  cbn [score moves selectedTile isProcessing moveHistory g3] in Hcw.
  assert (Hr : r = (true,
            checkGameEnd (mkGame (score g + c_totalScore st) (moves g - 1) None false
                            (moveHistory (saveMove g1 pos1 pos2)) (c_board st)
                            (updateComboMultiplier (c_detector st) false)))).
  { unfold r. rewrite (attemptSwap_accepted _ checkGameEnd g pos1 pos2 Hmoves Hne).
    cbv zeta. fold b1 d1 g1 g3. now rewrite Hcw. }
  set (g' := mkGame (score g + c_totalScore st) (moves g - 1) None false
                    (moveHistory (saveMove g1 pos1 pos2)) (c_board st)
                    (updateComboMultiplier (c_detector st) false)) in *.
  destruct (Hend g') as (Hh & Hb & Hd).
  assert (Hhist : exists h, moveHistory (saveMove g1 pos1 pos2)
                            = h ++ [savedEntry g1 pos1 pos2]
                            /\ ((length (moveHistory g) < 5)%nat -> h = moveHistory g)).
  { destruct (saveMove_then_undo g1 pos1 pos2) as (h & Hsnoc).
    exists h. split; [exact Hsnoc|].
    intros Hlen. rewrite (saveMove_history_short g1 pos1 pos2 Hlen) in Hsnoc.
    apply app_inj_tail in Hsnoc as [Heq _]. now rewrite <- Heq. }
  destruct Hhist as (h & Hsnoc & Hshort).
  assert (Hu : u = undoLastMove (checkGameEnd g')) by (unfold u; now rewrite Hr).
  rewrite (undoLastMove_snoc (checkGameEnd g') h (savedEntry g1 pos1 pos2)) in Hu
    by (rewrite Hh; exact Hsnoc).
  rewrite Hu, Hr. cbn [fst snd score moves board matchDetector moveHistory
                       comboMultiplier].
  unfold savedEntry, g1.
  cbn [mv_score mv_moves mv_comboMultiplier boardState board score moves
       matchDetector comboMultiplier].
  assert (Hboard : mkBoard (size (board (checkGameEnd g'))) (grid b1) = b1).
  { rewrite Hb. unfold g'. cbn [board]. rewrite Hs'. now destruct b1. }
  split; [reflexivity|]. split; [reflexivity|]. split; [reflexivity|].
  split; [reflexivity|]. split; [reflexivity|]. split; [exact Hboard|].
  split; [now rewrite Hboard|exact Hshort].
Qed.

Lemma undo_after_swap_keeps_the_swapped_board_witness :
  moves freshGame = 30
  /\ moves (snd (undoLastMove
       (snd (attemptSwap (cascadeWith 2 cycleStream 0) (fun g => g) freshGame
               (mkPos 7 6) (mkPos 7 7))))) = 31
  /\ board (snd (undoLastMove
       (snd (attemptSwap (cascadeWith 2 cycleStream 0) (fun g => g) freshGame
               (mkPos 7 6) (mkPos 7 7)))))
     = snd (swapEmojis crossBoard (mkPos 7 6) (mkPos 7 7)).
Proof.
  assert (Hrun : exists st,
            cascadeLoop 2 cycleStream
              (mkCascade (snd (swapEmojis (board freshGame) (mkPos 7 6) (mkPos 7 7)))
                 (mkDetector
                    (findMatches (snd (swapEmojis (board freshGame) (mkPos 7 6) (mkPos 7 7))))
                    1 8) 0 0 0)
            = Some st)
    by (eexists; vm_compute; reflexivity).
  destruct Hrun as [st Hrun].
  destruct (undo_after_swap_keeps_the_swapped_board cycleStream 2 0 (fun g => g)
              freshGame (mkPos 7 6) (mkPos 7 7) st cycleStream_unit eq_refl
              ltac:(simpl; lia) ltac:(simpl; lia) ltac:(simpl; lia)
              ltac:(auto) ltac:(vm_compute; discriminate) Hrun)
    as (_ & _ & _ & Hm & _ & Hb & _).
  split; [reflexivity|]. split; [exact Hm|exact Hb].
Defined.

(** ** Setting up a board *)

(** X17.  With random numbers in [[0, 1)], [getRandomEmoji] returns one of
    the ten basic emojis, the last one it drew, after at least one and at
    most 50 draws.  For the four cells with row and column below 2 it
    draws once.  For any other cell, unless it has used all 50 draws, the
    emoji it returns does not complete a line of three at that cell of the
    board as it is. *)
Theorem getRandomEmoji_avoids_lines_within_50_draws
    (b : GameBoard) (rnd : nat -> Q) (k : nat) (r c : Z) :
  unitStream rnd ->
  let res := getRandomEmoji b rnd k r c in
  (exists e, fst res = Some e /\ e ∈ emojis)
  /\ (k < snd res <= k + 50)%nat
  /\ fst res = randomEmoji rnd (snd res - 1)
  /\ ((r <? 2) && (c <? 2) = true -> snd res = S k)
  /\ ((r <? 2) && (c <? 2) = false -> (snd res < k + 50)%nat ->
      wouldCreateMatch b r c (fst res) = false).
Proof.
  intros Hrnd res.
  destruct (getRandomEmojiLoop_spec rnd b r c 49 k) as (Hk & Hres & Hgood).
  fold (getRandomEmoji b rnd k r c) in Hk, Hres, Hgood. fold res in Hk, Hres, Hgood.
  split; [now apply getRandomEmoji_basic|].
  split; [lia|]. split; [exact Hres|]. split.
  - intros Hcorner. unfold res, getRandomEmoji. simpl. now rewrite Hcorner.
  - intros Hcorner Hlt. apply Hgood; [lia|exact Hcorner].
Qed.

Lemma getRandomEmoji_avoids_lines_within_50_draws_witness :
  getRandomEmoji crossBoard cycleStream 8 2 3 = (Some "🔥"%string, 10%nat)
  /\ wouldCreateMatch crossBoard 2 3 (randomEmoji cycleStream 8) = true
  /\ wouldCreateMatch crossBoard 2 3 (Some "🔥"%string) = false.
Proof.
  assert (Hrun : getRandomEmoji crossBoard cycleStream 8 2 3
                 = (Some "🔥"%string, 10%nat)) by (vm_compute; reflexivity).
  split; [exact Hrun|]. split; [vm_compute; reflexivity|].
  destruct (getRandomEmoji_avoids_lines_within_50_draws crossBoard cycleStream 8 2 3
              cycleStream_unit) as (_ & _ & _ & _ & H).
  rewrite Hrun in H. apply H; [reflexivity|simpl; lia].
Defined.

(** X18.  With random numbers in [[0, 1)], [removeInitialMatches] leaves a
    well-formed board of the same size on which every cell holds what it
    held or a basic emoji.  When the loop stops because a round found
    nothing to repair, not because its 100 rounds are used up, the board
    has no line of three equal cells: [hasMatches] is false and
    [findMatches] finds nothing.  A board that has no such line to begin
    with is left as it is and no random number is drawn. *)
Theorem removeInitialMatches_leaves_no_line (b : GameBoard) (rnd : nat -> Q) (k : nat) :
  unitStream rnd -> validBoard b = true ->
  let res := removeInitialMatches b rnd k in
  let b' := fst (fst res) in
  validBoard b' = true
  /\ size b' = size b
  /\ (forall r c, getEmoji b' r c = getEmoji b r c
                  \/ exists e, e ∈ emojis /\ getEmoji b' r c = Some e)
  /\ (snd res = false -> hasMatches b' = false /\ findMatches b' = [])
  /\ (hasMatches b = false -> res = (b, k, false)).
Proof.
  intros Hrnd Hv res b'.
  destruct (removeInitialMatchesLoop_spec rnd Hrnd 100 b k true Hv)
    as (Hv' & Hs' & Hcells & Hflag); [discriminate|].
  fold (removeInitialMatches b rnd k) in Hv', Hs', Hcells, Hflag.
  fold res in Hv', Hs', Hcells, Hflag. fold b' in Hv', Hs', Hcells, Hflag.
  split; [exact Hv'|]. split; [exact Hs'|]. split; [exact Hcells|]. split.
  - intros Hfalse. specialize (Hflag Hfalse).
    split; [exact Hflag|now apply hasMatches_false_findMatches].
  - intros Hno. unfold res, removeInitialMatches.
    change (removeInitialMatchesLoop 100 rnd (b, k, true))
      with (removeInitialMatchesLoop 99 rnd (repairPass b rnd k)).
    rewrite repairPass_nochange by exact Hno. reflexivity.
Qed.

Lemma removeInitialMatches_leaves_no_line_witness :
  hasMatches crossBoard = true
  /\ snd (removeInitialMatches crossBoard cycleStream 0) = false
  /\ findMatches (fst (fst (removeInitialMatches crossBoard cycleStream 0))) = [].
Proof.
  assert (Hflag : snd (removeInitialMatches crossBoard cycleStream 0) = false)
    by (vm_compute; reflexivity).
  split; [vm_compute; reflexivity|]. split; [exact Hflag|].
  destruct (removeInitialMatches_leaves_no_line crossBoard cycleStream 0
              cycleStream_unit eq_refl) as (_ & _ & _ & H & _).
  apply (H Hflag).
Defined.

(** X19.  With random numbers in [[0, 1)], the constructor's [init] builds
    a well-formed board of the requested size on which every cell holds
    one of the ten basic emojis.  When its repair loop stops before its
    100 rounds are used up, the new board has no line of three:
    [hasMatches] is false and [findMatches] finds nothing; and on such a
    board [getPossibleMoves] lists exactly the candidate swaps that the
    match detector accepts. *)
Theorem init_builds_a_plain_board_without_matches (sz : Z) (rnd : nat -> Q) (k : nat) :
  unitStream rnd -> 0 <= sz ->
  let res := init sz rnd k in
  let b := fst (fst res) in
  validBoard b = true
  /\ size b = sz
  /\ (forall r c, 0 <= r < sz -> 0 <= c < sz ->
        exists e, e ∈ emojis /\ getEmoji b r c = Some e)
  /\ plainBoard b = true
  /\ fst (getPossibleMoves b) = filter (detectorMatchAfter b) (candidateMoves sz)
  /\ (snd res = false -> hasMatches b = false /\ findMatches b = []).
Proof.
  intros Hrnd Hsz res b.
  destruct (init_rows rnd sz k Hrnd Hsz) as (b0 & k0 & Hfold & Hv0 & Hs0 & Hbasic0).
  assert (Hres : res = removeInitialMatches b0 rnd k0)
    by (unfold res, init; now rewrite Hfold).
  destruct (removeInitialMatchesLoop_spec rnd Hrnd 100 b0 k0 true Hv0)
    as (Hv' & Hs' & Hcells & Hflag); [discriminate|].
  fold (removeInitialMatches b0 rnd k0) in Hv', Hs', Hcells, Hflag.
  rewrite <- Hres in Hv', Hs', Hcells, Hflag.
  fold b in Hv', Hs', Hcells, Hflag.
  assert (Hbasic : forall r c, 0 <= r < sz -> 0 <= c < sz ->
            exists e, e ∈ emojis /\ getEmoji b r c = Some e).
  { intros r c Hr Hc. destruct (Hcells r c) as [Heq|H]; [|exact H].
    rewrite Heq. now apply Hbasic0. }
  assert (Hsb : size b = sz) by congruence.
  assert (Hplain : plainBoard b = true).
  { apply plainBoard_of_basic. rewrite Hsb. exact Hbasic. }
  split; [exact Hv'|]. split; [exact Hsb|]. split; [exact Hbasic|].
  split; [exact Hplain|]. split.
  - rewrite <- Hsb. now apply getPossibleMoves_plain.
  - intros Hfalse. specialize (Hflag Hfalse).
    split; [exact Hflag|now apply hasMatches_false_findMatches].
Qed.

Lemma init_builds_a_plain_board_without_matches_witness :
  snd (init 8 cycleStream 0) = false
  /\ snd (fst (init 8 cycleStream 0)) = 64%nat
  /\ findMatches (fst (fst (init 8 cycleStream 0))) = [].
Proof.
  assert (Hflag : snd (init 8 cycleStream 0) = false) by (vm_compute; reflexivity).
  split; [exact Hflag|]. split; [vm_compute; reflexivity|].
  destruct (init_builds_a_plain_board_without_matches 8 cycleStream 0
              cycleStream_unit ltac:(lia)) as (_ & _ & _ & _ & _ & H).
  apply (H Hflag).
Defined.

(** ** Matches as the board sees them, and the possible moves *)

(** X20.  [GameBoard.hasMatches] is true exactly when three cells in a
    row, of a row or of a column of the board, hold the same value,
    whatever that value is: three special tiles and three empty cells
    count too.  So it is true whenever [findMatches] reports a match, and
    on a board whose cells all hold basic emojis the two tests agree. *)
Theorem hasMatches_iff_three_equal_cells (b : GameBoard) :
  (hasMatches b = true <-> exists o line w emoji, window b o line w emoji)
  /\ (findMatches b <> [] -> hasMatches b = true)
  /\ (plainBoard b = true -> hasMatches b = true -> findMatches b <> []).
Proof.
  split; [|split].
  - split; [apply hasMatches_window|].
    intros (o & line & w & emoji & Hw). now apply (hasMatches_of_window b o line w emoji).
  - intros Hne. destruct (hasMatches b) eqn:Hh; [reflexivity|].
    apply hasMatches_false_findMatches in Hh. contradiction.
  - intros Hp Hh. now apply hasMatches_iff_findMatches.
Qed.

Lemma hasMatches_iff_three_equal_cells_witness :
  plainBoard crossBoard = true
  /\ hasMatches crossBoard = true
  /\ findMatches crossBoard <> [].
Proof.
  assert (Hp : plainBoard crossBoard = true) by (vm_compute; reflexivity).
  assert (Hh : hasMatches crossBoard = true) by (vm_compute; reflexivity).
  split; [exact Hp|]. split; [exact Hh|].
  destruct (hasMatches_iff_three_equal_cells crossBoard) as (_ & _ & H).
  apply (H Hp Hh).
Defined.

(** X21.  [getPossibleMoves] leaves a well-formed board exactly as it
    found it, and returns, in scan order, exactly the swaps of a cell
    with its right or lower neighbour after which [hasMatches] is true.  Every move it returns joins two adjacent
    positions of the board. *)
Theorem getPossibleMoves_lists_neighbour_swaps (b : GameBoard) :
  validBoard b = true ->
  snd (getPossibleMoves b) = b
  /\ fst (getPossibleMoves b) = filter (boardMatchAfter b) (candidateMoves (size b))
  /\ (forall pos1 pos2, (pos1, pos2) ∈ fst (getPossibleMoves b) <->
        isValidPosition b (row pos1) (col pos1) = true
        /\ isValidPosition b (row pos2) (col pos2) = true
        /\ (pos2 = mkPos (row pos1) (col pos1 + 1)
            \/ pos2 = mkPos (row pos1 + 1) (col pos1))
        /\ hasMatches (snd (swapEmojis b pos1 pos2)) = true)
  /\ (forall pos1 pos2, (pos1, pos2) ∈ fst (getPossibleMoves b) ->
        areAdjacent pos1 pos2 = true).
Proof.
  intros H. rewrite (getPossibleMoves_spec b H). cbn [fst snd].
  assert (Hiff : forall pos1 pos2,
            (pos1, pos2) ∈ filter (boardMatchAfter b) (candidateMoves (size b)) <->
            isValidPosition b (row pos1) (col pos1) = true
            /\ isValidPosition b (row pos2) (col pos2) = true
            /\ (pos2 = mkPos (row pos1) (col pos1 + 1)
                \/ pos2 = mkPos (row pos1 + 1) (col pos1))
            /\ hasMatches (snd (swapEmojis b pos1 pos2)) = true).
  { intros pos1 pos2.
    rewrite list_elem_of_filter, elem_of_candidateMoves, !isValidPosition_spec.
    unfold boardMatchAfter. cbn [fst snd]. split.
    - intros (Hm & r & c & Hr & Hc & [[Hlt Heq]|[Hlt Heq]]);
        inversion Heq; subst; simpl; repeat split; auto; lia.
    - intros ([Hr1 Hc1] & [Hr2 Hc2] & Hnb & Hm). split; [exact Hm|].
      exists (row pos1), (col pos1). split; [exact Hr1|]. split; [exact Hc1|].
      destruct pos1 as [r c]. simpl in *.
      destruct Hnb as [-> | ->]; simpl in *; [left|right]; split; auto; lia. }
  split; [reflexivity|]. split; [reflexivity|]. split; [exact Hiff|].
  intros pos1 pos2 Hin. apply Hiff in Hin as (_ & _ & Hnb & _).
  unfold areAdjacent. destruct pos1 as [r c].
  destruct Hnb as [-> | ->]; simpl.
  - replace (r - r) with 0 by lia. replace (c - (c + 1)) with (-1) by lia. reflexivity.
  - replace (c - c) with 0 by lia. replace (r - (r + 1)) with (-1) by lia. reflexivity.
Qed.

Lemma getPossibleMoves_lists_neighbour_swaps_witness :
  fst (getPossibleMoves threeBombsBoard) = [(mkPos 0 2, mkPos 1 2)]
  /\ snd (getPossibleMoves threeBombsBoard) = threeBombsBoard
  /\ areAdjacent (mkPos 0 2) (mkPos 1 2) = true.
Proof.
  assert (Hm : fst (getPossibleMoves threeBombsBoard) = [(mkPos 0 2, mkPos 1 2)])
    by (vm_compute; reflexivity).
  destruct (getPossibleMoves_lists_neighbour_swaps threeBombsBoard eq_refl)
    as (Hb & _ & _ & Hadj).
  split; [exact Hm|]. split; [exact Hb|].
  apply Hadj. rewrite Hm. left.
Defined.

(** X22.  [attemptSwap] accepts a swap exactly when the player has moves
    left and [findMatches] reports a match on the swapped board.  On a
    well-formed board whose cells all hold basic emojis, the moves that
    [getPossibleMoves] lists are exactly the swaps of a cell with its
    right or lower neighbour that [attemptSwap] accepts while moves are
    left. *)
Theorem possible_moves_of_a_plain_board_are_accepted
    (cascade checkGameEnd : EmojiCrushGame -> EmojiCrushGame) (g : EmojiCrushGame) :
  (forall pos1 pos2,
     fst (attemptSwap cascade checkGameEnd g pos1 pos2) = true <->
     0 < moves g /\ findMatches (snd (swapEmojis (board g) pos1 pos2)) <> [])
  /\ (validBoard (board g) = true -> plainBoard (board g) = true -> 0 < moves g ->
      forall mv,
        mv ∈ fst (getPossibleMoves (board g)) <->
        mv ∈ candidateMoves (size (board g))
        /\ fst (attemptSwap cascade checkGameEnd g (fst mv) (snd mv)) = true).
Proof.
  split; [intros pos1 pos2; apply attemptSwap_accepts_iff|].
  intros Hv Hp Hm mv.
  rewrite (getPossibleMoves_plain (board g) Hv Hp), list_elem_of_filter.
  rewrite attemptSwap_accepts_iff. unfold detectorMatchAfter. tauto.
Qed.

Lemma possible_moves_of_a_plain_board_are_accepted_witness :
  fst (getPossibleMoves (board freshGame)) <> []
  /\ forall mv, mv ∈ fst (getPossibleMoves (board freshGame)) ->
       fst (attemptSwap (fun g => g) (fun g => g) freshGame (fst mv) (snd mv)) = true.
Proof.
  split; [vm_compute; discriminate|].
  intros mv Hin.
  destruct (possible_moves_of_a_plain_board_are_accepted (fun g => g) (fun g => g)
              freshGame) as (_ & H).
  apply (H eq_refl ltac:(vm_compute; reflexivity) ltac:(simpl; lia) mv). exact Hin.
Defined.

(** ** More of the match detector *)

(** X23.  On the matches that [findMatches] returns, the two loops that
    remove duplicate positions never drop anything.  The list that
    [getAllMatchPositions] builds is the concatenation of the positions
    lists of the linear matches; and the positions of a shaped match are
    those of its horizontal match followed by those of its vertical
    match, because the vertical match never holds the intersection cell,
    which the horizontal one does.  A shaped match therefore scores 25
    times the sum of the lengths of the two positions lists. *)
Theorem dedup_loops_drop_nothing_on_found_matches (b : GameBoard) :
  getAllMatchPositions (allMatchesOf b) = mjoin (m_positions <$> findMatches b)
  /\ forall s, s ∈ findShapedMatches (findMatches b) ->
       s_positions s
       = m_positions (horizontalMatch s) ++ m_positions (verticalMatch s)
       /\ intersection s ∈ m_positions (horizontalMatch s)
       /\ (intersection s ∉ m_positions (verticalMatch s))
       /\ matchScore (Shaped s)
          = 25 * (Z.of_nat (length (m_positions (horizontalMatch s)))
                  + Z.of_nat (length (m_positions (verticalMatch s)))).
Proof.
  split; [apply getAllMatchPositions_allMatchesOf|].
  intros s Hs.
  apply elem_of_findShapedMatches in Hs as (h & v & Hh & Hv & Hth & Htv & Hint & ->).
  cbn [shapedOf s_positions horizontalMatch verticalMatch intersection matchScore].
  assert (Hne : h <> v) by (intros ->; congruence).
  assert (Hnd := findMatches_pair_NoDup b h v Hh Hv Hne).
  assert (Hin : mkPos (m_line h) (m_line v) ∈ m_positions h)
    by (apply (intersection_in_horizontal b h v (findMatches_ok b) Hh Hth Hint)).
  rewrite (uniquePositions_NoDup_id _ Hnd).
  split; [reflexivity|]. split; [exact Hin|]. split.
  - apply NoDup_app in Hnd as (_ & Hdis & _). now apply Hdis.
  - rewrite length_app. lia.
Qed.

(** X24.  [validateMatches] keeps a match exactly when it has at least
    three positions and each of them still holds the emoji of the match.
    Every match found on the board as it is, linear or shaped, still
    holds, so of those it keeps exactly the ones with at least three
    positions; and once the positions of the given matches have been
    removed from a well-formed board it keeps none of them. *)
Theorem validateMatches_keeps_matches_that_still_hold (b : GameBoard) :
  (forall ms m,
     m ∈ validateMatches b ms <->
     m ∈ ms /\ (3 <= length (positionsOf m))%nat
     /\ forall p, p ∈ positionsOf m -> getEmoji b (row p) (col p) = Some (emojiOf m))
  /\ (forall m,
        m ∈ validateMatches b (allMatchesOf b) <->
        m ∈ allMatchesOf b /\ (3 <= length (positionsOf m))%nat)
  /\ (validBoard b = true ->
      forall ms, validateMatches (removeEmojis b (getAllMatchPositions ms)) ms = []).
Proof.
  assert (Hholds : forall b' m, stillHolds b' m = true <->
            forall p, p ∈ positionsOf m ->
              getEmoji b' (row p) (col p) = Some (emojiOf m)).
  { intros b' m. unfold stillHolds. rewrite forallb_forall. split.
    - intros H p Hp. eapply bool_decide_eq_true_1, H. now apply list_elem_of_In.
    - intros H p Hp. apply bool_decide_eq_true_2, H. now apply list_elem_of_In. }
  split; [|split].
  - intros ms m. rewrite elem_of_validateMatches, Hholds. tauto.
  - intros m. rewrite elem_of_validateMatches. split; [tauto|].
    intros [Hm Hl]. split; [exact Hm|]. split; [now apply fresh_match_holds|exact Hl].
  - intros Hv ms.
    destruct (validateMatches _ ms) as [|m rest] eqn:Hval; [reflexivity|].
    exfalso.
    assert (Hm : m ∈ validateMatches (removeEmojis b (getAllMatchPositions ms)) ms)
      by (rewrite Hval; left).
    apply elem_of_validateMatches in Hm as (Hin & Hh & Hl).
    pose proof (proj1 (Hholds _ _) Hh) as Hall.
    destruct (positionsOf m) as [|p ps] eqn:Hps; [simpl in Hl; lia|].
    clear Hh. pose proof (Hall p ltac:(left)) as Hh.
    rewrite removeEmojis_getEmoji in Hh by exact Hv.
    rewrite decide_True in Hh; [discriminate|].
    destruct p as [r c]. simpl.
    apply elem_of_getAllMatchPositions. exists m. split; [exact Hin|].
    rewrite Hps. left.
Qed.

Lemma validateMatches_keeps_matches_that_still_hold_witness :
  validateMatches crossBoard (allMatchesOf crossBoard) = allMatchesOf crossBoard
  /\ validateMatches
       (removeEmojis crossBoard (getAllMatchPositions (allMatchesOf crossBoard)))
       (allMatchesOf crossBoard) = [].
Proof.
  split; [vm_compute; reflexivity|].
  destruct (validateMatches_keeps_matches_that_still_hold crossBoard) as (_ & _ & H).
  apply (H eq_refl).
Defined.

(** ** Shuffling *)

(** X25.  [shuffle] first permutes the cells of a well-formed board: the
    board it writes back holds the same cells as before, empty and special
    ones included, each as often as before, and [size * size - 1] random
    numbers are drawn for it.  It then repairs that board as
    [removeInitialMatches] does: every cell of the result holds what the
    permuted board held there or a basic emoji; when the repair stops
    before its 100 rounds are used up no line of three is left; and a
    permuted board without a line of three is returned as it is. *)
Theorem shuffle_permutes_then_repairs (b : GameBoard) (rnd : nat -> Q) (k : nat) :
  unitStream rnd -> validBoard b = true ->
  let mixed := shuffleCells b rnd k in
  let res := shuffle b rnd k in
  let b' := fst (fst res) in
  (validBoard (fst mixed) = true
   /\ size (fst mixed) = size b
   /\ collectEmojis (fst mixed) ≡ₚ collectEmojis b
   /\ snd mixed = (k + (Z.to_nat (size b) * Z.to_nat (size b) - 1))%nat)
  /\ validBoard b' = true
  /\ size b' = size b
  /\ (forall r c, getEmoji b' r c = getEmoji (fst mixed) r c
                  \/ exists e, e ∈ emojis /\ getEmoji b' r c = Some e)
  /\ (snd res = false -> hasMatches b' = false /\ findMatches b' = [])
  /\ (hasMatches (fst mixed) = false -> res = (fst mixed, snd mixed, false)).
Proof.
  intros Hrnd Hv mixed res b'.
  pose proof (shuffleCells_spec b rnd k Hv) as Hmix. fold mixed in Hmix.
  split; [exact Hmix|].
  destruct Hmix as (Hv1 & Hs1 & _ & _).
  destruct (removeInitialMatchesLoop_spec rnd Hrnd 100 (fst mixed) (snd mixed) true Hv1)
    as (Hv' & Hs' & Hcells & Hflag); [discriminate|].
  change (removeInitialMatchesLoop 100 rnd (fst mixed, snd mixed, true))
    with res in Hv', Hs', Hcells, Hflag.
  fold b' in Hv', Hs', Hcells, Hflag.
  split; [exact Hv'|]. split; [congruence|]. split; [exact Hcells|]. split.
  - intros Hfalse. specialize (Hflag Hfalse).
    split; [exact Hflag|now apply hasMatches_false_findMatches].
  - intros Hno. unfold res, shuffle, removeInitialMatches. fold mixed.
    change (removeInitialMatchesLoop 100 rnd (fst mixed, snd mixed, true))
      with (removeInitialMatchesLoop 99 rnd (repairPass (fst mixed) rnd (snd mixed))).
    rewrite repairPass_nochange by exact Hno. reflexivity.
Qed.

Lemma shuffle_permutes_then_repairs_witness :
  snd (shuffleCells crossBoard cycleStream 0) = 63%nat
  /\ collectEmojis (fst (shuffleCells crossBoard cycleStream 0))
     ≡ₚ collectEmojis crossBoard
  /\ snd (shuffle crossBoard cycleStream 0) = false
  /\ findMatches (fst (fst (shuffle crossBoard cycleStream 0))) = [].
Proof.
  assert (Hflag : snd (shuffle crossBoard cycleStream 0) = false)
    by (vm_compute; reflexivity).
  destruct (shuffle_permutes_then_repairs crossBoard cycleStream 0
              cycleStream_unit eq_refl) as ((_ & _ & Hperm & Hk) & _ & _ & _ & Hno & _).
  split; [exact Hk|]. split; [exact Hperm|]. split; [exact Hflag|].
  apply (Hno Hflag).
Defined.

(** ** Power-ups *)

(** X26.  With the hammer active and a charge of it left, [usePowerUp] on
    a well-formed board without empty cells returns true, spends one
    hammer charge and no other, clears the active power-up, and leaves
    the score, the moves and the move history as they are: no undo record
    is saved and no match is looked for.  The board stays full.  At a
    valid position only the column of the cell changes: the cells below
    the cell stay, the cells above it move down by one row, and the top
    cell gets a basic emoji.  At a position outside the board the board is
    left as it is, and the charge is spent all the same. *)
Theorem hammer_removes_one_tile_and_refills (rnd : nat -> Q) (s : Session) (r c : Z) :
  unitStream rnd ->
  validBoard (board (core s)) = true ->
  (forall r c, 0 <= r < size (board (core s)) -> 0 <= c < size (board (core s)) ->
     getEmoji (board (core s)) r c <> None) ->
  activePowerUp s = Some hammer ->
  0 < pu_hammer (powerUps s) ->
  let res := usePowerUp rnd s r c in
  let b := board (core s) in
  let b' := board (core (snd res)) in
  fst res = true
  /\ pu_hammer (powerUps (snd res)) = pu_hammer (powerUps s) - 1
  /\ pu_shuffle (powerUps (snd res)) = pu_shuffle (powerUps s)
  /\ pu_undo (powerUps (snd res)) = pu_undo (powerUps s)
  /\ activePowerUp (snd res) = None
  /\ score (core (snd res)) = score (core s)
  /\ moves (core (snd res)) = moves (core s)
  /\ moveHistory (core (snd res)) = moveHistory (core s)
  /\ validBoard b' = true
  /\ size b' = size b
  /\ (forall r c, 0 <= r < size b -> 0 <= c < size b -> getEmoji b' r c <> None)
  /\ (isValidPosition b r c = true ->
        (forall r' c', c' <> c -> getEmoji b' r' c' = getEmoji b r' c')
        /\ (forall r', r < r' -> getEmoji b' r' c = getEmoji b r' c)
        /\ (forall r', 0 < r' <= r -> getEmoji b' r' c = getEmoji b (r' - 1) c)
        /\ exists e, e ∈ emojis /\ getEmoji b' 0 c = Some e)
  /\ (isValidPosition b r c = false -> b' = b).
Proof.
  intros Hrnd Hv Hfull Hact Hpos res b b'.
  assert (Hres : res
    = (true,
       mkSession (withBoard (core s)
                    (snd (fst (fillEmpty (snd (applyGravity (setEmoji b r c None)))
                                         rnd (random s)))))
                 (gameState s) (gameMode s) (level s) (goal s) (timeLeft s)
                 (highScore s) (powerUpSpend (powerUps s) hammer) None
                 (snd (fillEmpty (snd (applyGravity (setEmoji b r c None)))
                                 rnd (random s))))).
  { unfold res, usePowerUp. rewrite Hact. cbn [powerUpCount].
    destruct (pu_hammer (powerUps s) <=? 0) eqn:E; [lia|reflexivity]. }
  unfold b'. rewrite Hres. cbn [fst snd core powerUps activePowerUp withBoard
    score moves moveHistory board powerUpSpend pu_hammer pu_shuffle pu_undo].
  do 8 (split; [reflexivity|]).
  exact (hammer_board b rnd (random s) r c Hv Hrnd Hfull).
Qed.

Lemma hammer_removes_one_tile_and_refills_witness :
  let res := usePowerUp cycleStream (sessionOf freshGame (Some hammer)) 2 0 in
  pu_hammer (powerUps (snd res)) = 2
  /\ getEmoji (board (core (snd res))) 2 0 = grape
  /\ getEmoji (board (core (snd res))) 1 0 = apple
  /\ getEmoji (board (core (snd res))) 3 0 = grape.
Proof.
  assert (Hfull : forall r c, 0 <= r < 8 -> 0 <= c < 8 -> getEmoji crossBoard r c <> None).
  { intros r c Hr Hc.
    destruct (plainBoard_spec crossBoard r c eq_refl Hr Hc) as (e & He & _).
    rewrite getEmoji_valid by (apply isValidPosition_spec; simpl; lia).
    rewrite He. discriminate. }
  destruct (hammer_removes_one_tile_and_refills cycleStream
              (sessionOf freshGame (Some hammer)) 2 0 cycleStream_unit eq_refl Hfull
              eq_refl ltac:(simpl; lia))
    as (_ & Hpu & _ & _ & _ & _ & _ & _ & _ & _ & _ & Hvalid & _).
  destruct (Hvalid eq_refl) as (_ & Hbelow & Habove & _).
  split; [exact Hpu|].
  split; [exact (Habove 2 ltac:(lia))|].
  split; [exact (Habove 1 ltac:(lia))|exact (Hbelow 3 ltac:(lia))].
Defined.

(** X27.  The undo power-up is never spent.  With it active and a charge
    of it left, [usePowerUp] returns what [undoLastMove] returns and
    leaves the charges and the active power-up as they are, so that the
    next click undoes again: when the history is [kept ++ rec :: undone],
    as many uses as there are records from [rec] on all return true and
    bring back the grid, the score and the moves recorded in [rec], with
    [kept] as the history left, and the undo charge still there and still
    active.  Once the history is empty a further use returns false and
    changes nothing. *)
Theorem undo_power_up_is_never_spent (rnd : nat -> Q) (s : Session) (r c : Z)
    (kept : list MoveRecord) (rec : MoveRecord) (undone : list MoveRecord) :
  activePowerUp s = Some undoPowerUp ->
  0 < pu_undo (powerUps s) ->
  moveHistory (core s) = kept ++ rec :: undone ->
  let use := fun s => snd (usePowerUp rnd s r c) in
  let s' := Nat.iter (S (length undone)) use s in
  (forall i, (i <= length undone)%nat ->
     fst (usePowerUp rnd (Nat.iter i use s) r c) = true)
  /\ powerUps s' = powerUps s
  /\ activePowerUp s' = Some undoPowerUp
  /\ moveHistory (core s') = kept
  /\ score (core s') = mv_score rec
  /\ moves (core s') = mv_moves rec
  /\ board (core s') = mkBoard (size (board (core s))) (boardState rec)
  /\ (kept = [] -> usePowerUp rnd s' r c = (false, s')).
Proof.
  intros Hact Hpos Hh use s'.
  destruct (undo_uses rnd r c kept rec undone s Hact Hpos Hh)
    as (Hall & Hpu & Ha & Hhist & Hsc & Hmv & Hb).
  fold use in Hall, Hpu, Ha, Hhist, Hsc, Hmv, Hb.
  fold s' in Hpu, Ha, Hhist, Hsc, Hmv, Hb.
  split; [exact Hall|]. split; [exact Hpu|]. split; [exact Ha|].
  split; [exact Hhist|]. split; [exact Hsc|]. split; [exact Hmv|].
  split; [exact Hb|].
  intros ->.
  rewrite usePowerUp_undo by (rewrite ?Hpu; assumption).
  unfold undoLastMove. rewrite Hhist. cbn [last fst snd].
  destruct s'; reflexivity.
Qed.

Lemma undo_power_up_is_never_spent_witness :
  let use := fun s => snd (usePowerUp cycleStream s 0 0) in
  let s' := Nat.iter 5 use (sessionOf fullHistoryGame (Some undoPowerUp)) in
  length (moveHistory fullHistoryGame) = 5%nat
  /\ pu_undo (powerUps s') = 1
  /\ activePowerUp s' = Some undoPowerUp
  /\ moveHistory (core s') = []
  /\ moves (core s') = 31.
Proof.
  intros use s'.
  pose (rec := fun p1 p2 => mkMove (grid crossBoard) p1 p2 0 31 1).
  destruct (undo_power_up_is_never_spent cycleStream
              (sessionOf fullHistoryGame (Some undoPowerUp)) 0 0 []
              (rec (mkPos 0 0) (mkPos 0 1))
              [rec (mkPos 1 0) (mkPos 1 1); rec (mkPos 2 0) (mkPos 2 1);
               rec (mkPos 3 0) (mkPos 3 1); rec (mkPos 0 2) (mkPos 0 3)]
              eq_refl ltac:(simpl; lia) eq_refl)
    as (_ & Hpu & Hact & Hhist & _ & Hmoves & _).
  split; [reflexivity|]. split; [exact (f_equal pu_undo Hpu)|].
  split; [exact Hact|]. split; [exact Hhist|exact Hmoves].
Defined.

(** ** Hints *)

(** X28.  [getMatchHint] leaves a well-formed board as it found it.  It
    returns no hint exactly when [getPossibleMoves] lists no move.  The
    move of a hint is one of the listed moves.  A hint has priority high
    exactly when it is the first listed move whose swap lines up a run of
    four or more tiles; two crossing runs of three do not count, since
    only the linear matches are looked at.  The detector's last matches
    are then those of the swapped board, not of the board.  When no listed
    move lines up such a run, the hint is the first listed move, with
    priority normal.  On a board of plain tiles the swap of the hint is
    one that the match detector accepts. *)
Theorem getMatchHint_prefers_a_run_of_four (b : GameBoard) (d : MatchDetector) :
  validBoard b = true ->
  let res := getMatchHint b d in
  let possible := fst (getPossibleMoves b) in
  snd (fst res) = b
  /\ (fst (fst res) = None <-> possible = [])
  /\ forall h, fst (fst res) = Some h ->
       h_move h ∈ possible
       /\ (priority h = high ->
             (exists before after,
                possible = before ++ h_move h :: after
                /\ forall mv, mv ∈ before -> ~ makesRunOfFour b mv)
             /\ makesRunOfFour b (h_move h)
             /\ lastMatches (snd res)
                = findMatches (snd (swapEmojis b (fst (h_move h)) (snd (h_move h)))))
       /\ (priority h = normalPriority ->
             head possible = Some (h_move h)
             /\ forall mv, mv ∈ possible -> ~ makesRunOfFour b mv)
       /\ (plainBoard b = true ->
             findMatches (snd (swapEmojis b (fst (h_move h)) (snd (h_move h)))) <> []).
Proof.
  intros Hv res possible.
  assert (Hpm : snd (getPossibleMoves b) = b)
    by now rewrite (getPossibleMoves_spec b Hv).
  assert (Hplain : plainBoard b = true -> forall mv, mv ∈ possible ->
            findMatches (snd (swapEmojis b (fst mv) (snd mv))) <> []).
  { intros Hp mv Hmv. unfold possible in Hmv.
    rewrite (getPossibleMoves_plain b Hv Hp) in Hmv.
    apply list_elem_of_filter in Hmv as [Hmv _]. exact Hmv. }
  unfold res, getMatchHint. fold possible. rewrite Hpm.
  destruct possible as [|first rest] eqn:Hposs.
  - cbn [fst snd]. split; [reflexivity|]. split; [tauto|]. intros h Hh. discriminate.
  - destruct (hintLoop_spec b (first :: rest) Hv (lastMatches d)) as [Hb Hfound].
    destruct (fst (fst (hintLoop b (lastMatches d) (first :: rest)))) as [mv|] eqn:Hmv;
      cbn [fst snd].
    + split; [exact Hb|]. split; [split; discriminate|].
      intros h Hh. injection Hh as <-. cbn [h_move priority].
      destruct Hfound as ((before & after & Heq & Hbefore) & Hfour & Hlast).
      assert (Hin : mv ∈ first :: rest).
      { rewrite Heq. apply elem_of_app. right. left. }
      split; [exact Hin|]. split.
      * intros _. split; [eauto|]. split; [exact Hfour|exact Hlast].
      * split; [discriminate|]. intros Hp. now apply Hplain.
    + split; [exact Hb|]. split; [split; discriminate|].
      intros h Hh. injection Hh as <-. cbn [h_move priority].
      split; [left|]. split; [discriminate|]. split.
      * intros _. split; [reflexivity|exact Hfound].
      * intros Hp. apply Hplain; [exact Hp|left].
Qed.

Lemma getMatchHint_prefers_a_run_of_four_witness :
  let res := getMatchHint crossBoard (mkDetector [] 1 8) in
  snd (fst res) = crossBoard
  /\ fst (fst res)
     = Some (mkHint (mkPos 0 0, mkPos 1 0) high "Creates special emoji")
  /\ head (fst (getPossibleMoves crossBoard)) = Some (mkPos 0 0, mkPos 0 1).
Proof.
  destruct (getMatchHint_prefers_a_run_of_four crossBoard (mkDetector [] 1 8) eq_refl)
    as (Hb & _).
  split; [exact Hb|]. split; vm_compute; reflexivity.
Defined.

(** ** The end of a level *)

(** X29.  [checkGameEnd] on a well-formed board leaves the board and the
    number of moves as they are, and decides in this order.  When the
    score has reached the goal the level is complete and the bonus of 50
    per move left and 10 per second left is added to the score, even when
    no move is left.  Otherwise, when no move is left and
    [getPossibleMoves] lists none, the game is over.  Otherwise, when the
    clock of a timed game has run out, the game is over.  Otherwise
    nothing changes.  So a game can go on although it cannot be played:
    with no move left [attemptSwap] rejects every swap, whether or not the
    game was ended; and with moves left on a board of plain tiles without
    a possible move the game is not ended, and every swap of two
    neighbours is rejected. *)
Theorem checkGameEnd_outcomes (starThresholds : Z -> StarThresholds) (s : Session) :
  validBoard (board (core s)) = true ->
  let s' := checkGameEnd starThresholds s in
  let b := board (core s) in
  let possible := fst (getPossibleMoves b) in
  (board (core s') = b /\ moves (core s') = moves (core s))
  /\ (goal s <= score (core s) ->
        gameState s' = levelComplete
        /\ score (core s') = score (core s) + (moves (core s) * 50 + timeLeft s * 10))
  /\ (score (core s) < goal s -> moves (core s) <= 0 -> possible = [] ->
        gameState s' = gameOver /\ score (core s') = score (core s))
  /\ (score (core s) < goal s -> ~ (moves (core s) <= 0 /\ possible = []) ->
        timedOut s ->
        gameState s' = gameOver /\ score (core s') = score (core s))
  /\ (score (core s) < goal s -> ~ (moves (core s) <= 0 /\ possible = []) ->
        ~ timedOut s ->
        s' = s)
  /\ (moves (core s) <= 0 ->
        forall cascade check pos1 pos2,
          fst (attemptSwap cascade check (core s') pos1 pos2) = false)
  /\ (plainBoard b = true -> possible = [] ->
        forall cascade check mv, mv ∈ candidateMoves (size b) ->
          fst (attemptSwap cascade check (core s') (fst mv) (snd mv)) = false).
Proof.
  intros Hv s' b possible.
  destruct (checkGameEnd_cases starThresholds s Hv) as (Hgoal & Hnone & Hrest).
  fold b in Hnone, Hrest. fold possible in Hnone, Hrest.
  destruct (checkTimeUp_spec s) as [Hup Hnot].
  assert (Hframe : board (core s') = b /\ moves (core s') = moves (core s)).
  { unfold s'.
    destruct (Z_le_gt_dec (goal s) (score (core s))) as [Hg|Hg].
    - rewrite Hgoal by exact Hg. split; reflexivity.
    - destruct (decide (moves (core s) <= 0 /\ possible = [])) as [[Hm Hp]|Hn].
      + rewrite Hnone by (try assumption; lia). split; reflexivity.
      + rewrite Hrest by (try assumption; lia).
        destruct (decide (timedOut s)) as [Ht|Ht].
        * rewrite Hup by exact Ht. split; reflexivity.
        * rewrite Hnot by exact Ht. split; reflexivity. }
  split; [exact Hframe|]. destruct Hframe as [Hb Hm].
  split; [|split; [|split; [|split; [|split]]]].
  - intros Hg. unfold s'. rewrite Hgoal by exact Hg. split; reflexivity.
  - intros Hg Hmv Hp. unfold s'. rewrite Hnone by assumption. split; reflexivity.
  - intros Hg Hn Ht. unfold s'. rewrite Hrest, Hup by assumption. split; reflexivity.
  - intros Hg Hn Ht. unfold s'. rewrite Hrest, Hnot by assumption. reflexivity.
  - intros Hmv cascade check pos1 pos2.
    destruct (fst (attemptSwap cascade check (core s') pos1 pos2)) eqn:E; [|reflexivity].
    apply attemptSwap_accepts_iff in E as [E _]. lia.
  - intros Hplain Hp cascade check mv Hmv.
    destruct (fst (attemptSwap cascade check (core s') (fst mv) (snd mv))) eqn:E;
      [|reflexivity].
    apply attemptSwap_accepts_iff in E as [_ E]. rewrite Hb in E.
    assert (Hin : mv ∈ possible).
    { unfold possible. rewrite (getPossibleMoves_plain b Hv Hplain).
      apply list_elem_of_filter. split; [exact E|exact Hmv]. }
    rewrite Hp in Hin. inversion Hin.
Qed.

Lemma checkGameEnd_outcomes_witness :
  let s := sessionOf outOfMovesGame None in
  fst (getPossibleMoves crossBoard) <> []
  /\ checkGameEnd (fun _ => mkStars 100 200 300) s = s
  /\ gameState s = playing
  /\ fst (attemptSwap (fun g => g) (fun g => g) (core s) (mkPos 0 0) (mkPos 0 1)) = false.
Proof.
  intros s.
  assert (Hposs : fst (getPossibleMoves crossBoard) <> [])
    by (vm_compute; discriminate).
  destruct (checkGameEnd_outcomes (fun _ => mkStars 100 200 300) s eq_refl)
    as (_ & _ & _ & _ & Hsame & Hreject & _).
  assert (Hs : checkGameEnd (fun _ => mkStars 100 200 300) s = s).
  { apply Hsame.
    - simpl. lia.
    - intros [_ Hnone]. exact (Hposs Hnone).
    - intros [_ Hmode]. discriminate Hmode. }
  split; [exact Hposs|]. split; [exact Hs|]. split; [reflexivity|].
  rewrite <- Hs at 1. apply Hreject. simpl. lia.
Defined.

(** X30.  [completeLevel] adds the bonus of 50 per move left and 10 per
    second left to the score, gives three stars exactly when the new score
    reaches the third threshold and none exactly when it is below all
    three, and raises the high score to the new score when that is
    higher; [endGame] keeps the score and raises the high score in the
    same way.  Both compare the score with the high score again after
    that, so that the [isHighScore] they return is false in every case,
    also when the high score has just been beaten. *)
Theorem high_score_is_kept_but_never_reported
    (starThresholds : Z -> StarThresholds) (s : Session) (why : EndReason) :
  let done := completeLevel starThresholds s in
  let over := endGame s why in
  let bonus := moves (core s) * 50 + timeLeft s * 10 in
  (lr_bonus (fst done) = bonus
   /\ lr_score (fst done) = score (core s) + bonus
   /\ score (core (snd done)) = score (core s) + bonus
   /\ (stars (fst done) = 3
       <-> three (starThresholds (level s)) <= score (core s) + bonus)
   /\ (stars (fst done) = 0
       <-> score (core s) + bonus < three (starThresholds (level s))
           /\ score (core s) + bonus < two (starThresholds (level s))
           /\ score (core s) + bonus < one (starThresholds (level s)))
   /\ highScore (snd done) = Z.max (highScore s) (score (core s) + bonus)
   /\ isHighScore (fst done) = false)
  /\ (finalScore (fst over) = score (core s)
      /\ score (core (snd over)) = score (core s)
      /\ highScore (snd over) = Z.max (highScore s) (score (core s))
      /\ gr_isHighScore (fst over) = false).
Proof.
  intros done over bonus. unfold done, over, completeLevel, endGame, calculateStars.
  fold bonus. cbn [fst snd lr_bonus lr_score stars isHighScore finalScore
    gr_isHighScore withScore highScore core score].
  set (t := starThresholds (level s)).
  split.
  - split; [reflexivity|]. split; [reflexivity|]. split; [reflexivity|].
    split; [|split; [|split]].
    + destruct (score (core s) + bonus >=? three t) eqn:E3; [lia|].
      destruct (score (core s) + bonus >=? two t) eqn:E2; [lia|].
      destruct (score (core s) + bonus >=? one t) eqn:E1; lia.
    + destruct (score (core s) + bonus >=? three t) eqn:E3; [lia|].
      destruct (score (core s) + bonus >=? two t) eqn:E2; [lia|].
      destruct (score (core s) + bonus >=? one t) eqn:E1; lia.
    + destruct (highScore s <? score (core s) + bonus) eqn:E; lia.
    + destruct (highScore s <? score (core s) + bonus) eqn:E; lia.
  - split; [reflexivity|]. split; [reflexivity|]. split.
    + destruct (highScore s <? score (core s)) eqn:E; lia.
    + destruct (highScore s <? score (core s)) eqn:E; lia.
Qed.
